(** * scpTsunamiB: the swarm scheduler of trunk/scpTsunamiB.py

    A shallow embedding of the host records, the swarm database, the
    matcher [getTransfer], the splitter driver, the transfer worker, the
    scheduler loop and the command queue of [trunk/scpTsunamiB.py], with the
    properties of the specification proved (or refuted) on it.

    Conventions of the embedding.
    - Python objects mutated in place become records threaded through the
      functions.  Hosts live in [hostlist] and are addressed by index, as
      the source does with [seedindex] and [targetindex]; [roothost], an
      alias of [hostlist[0]] in the source, is that index.
    - [random.randint] is fed from an explicit list of raw draws.
    - The threads are interleaved in two transition systems.  In the
      first, [step], one event is a turn of the loop of [initiateTransfers]
      with its call of [getTransfer], the run of a worker from the return
      of its copy child to the release of its thread permit (its two probes
      included), a turn of the loop of a [CommandQueue] method, or a report
      of [split] or of a child.  The source holds no lock over these
      sections, so [step] leaves out the runs in which a write of another
      thread falls inside one of them.  The second, [Fine.step], takes the
      transfer phase statement by statement and has these runs too.
    - The locks, the logger and the printing are left out; the children
      ([split], the copies, the probes, [cat], [rm]) appear through what
      they report. *)

From stdpp Require Import base numbers list strings.

#[local] Open Scope Z_scope.

(** ** Python primitives *)

Module Py.

(** [random.randint(a, b)]: an integer of the closed interval [a..b],
    computed from a raw draw [d] of the entropy source. *)
Definition randint (a b : Z) (d : nat) : Z := a + Z.of_nat d `mod` (b - a + 1).

(** The sample space of [random.randint(a, b)]: each element equally likely. *)
Definition randint_outcomes (a b : Z) : list Z :=
  (fun k => a + Z.of_nat k) <$> seq 0 (Z.to_nat (b - a + 1)).

(** Taking the next raw draw of the entropy source. *)
Definition draw (rs : list nat) : nat * list nat :=
  match rs with
  | [] => (0%nat, [])
  | d :: rs' => (d, rs')
  end.

(** [l.insert(i, x)] for [i >= 0]: an index beyond the end appends. *)
Definition insert {A} (i : nat) (x : A) (l : list A) : list A :=
  take i l ++ x :: drop i l.

(** [l.remove(x)]: delete the first occurrence ([ValueError] when absent). *)
Fixpoint remove {A} `{EqDecision A} (x : A) (l : list A) : option (list A) :=
  match l with
  | [] => None
  | y :: l' => if decide (x = y) then Some l' else (y ::.) <$> remove x l'
  end.

(** [x in l]. *)
Definition contains {A} `{EqDecision A} (x : A) (l : list A) : bool :=
  bool_decide (x ∈ l).

End Py.

(** ** Data model *)

(** [class Chunk]: a chunk is its file name (the splitter never emits a name
    twice, so object identity and equality of names coincide). *)
Record Chunk := mkChunk { filename : string }.

#[global] Instance Chunk_eq_dec : EqDecision Chunk.
Proof. solve_decision. Defined.

(** [class Host], without its lock and its back-reference to the database
    (the one use of the latter, in [setDead], is made explicit there). *)
Record Host := mkHost {
  hostname : string;
  transferslots : Z;
  chunks_needed : list Chunk;
  chunks_owned : list Chunk;
  alive : bool;
  chunk_index : nat;
  failcount : Z;
  max_failcount : Z
}.

Definition MAX_TRANSFERS_PER_HOST : Z := 6.
Definition MAX_THREADS : nat := 250.
Definition MAX_PROCS : nat := 500.
Definition MAX_FAILCOUNT : Z := 3.

(** [Host.__init__] *)
Definition Host_init (name : string) (needed : list Chunk)
    (max_transfers_per_host : Z) : Host :=
  {| hostname := name;
     transferslots := max_transfers_per_host;
     chunks_needed := needed;
     chunks_owned := [];
     alive := true;
     chunk_index := 0;
     failcount := 0;
     max_failcount := MAX_FAILCOUNT |}.

Definition set_transferslots (f : Z → Z) (h : Host) : Host :=
  {| hostname := hostname h; transferslots := f (transferslots h);
     chunks_needed := chunks_needed h; chunks_owned := chunks_owned h;
     alive := alive h; chunk_index := chunk_index h;
     failcount := failcount h; max_failcount := max_failcount h |}.

Definition set_chunks_needed (f : list Chunk → list Chunk) (h : Host) : Host :=
  {| hostname := hostname h; transferslots := transferslots h;
     chunks_needed := f (chunks_needed h); chunks_owned := chunks_owned h;
     alive := alive h; chunk_index := chunk_index h;
     failcount := failcount h; max_failcount := max_failcount h |}.

Definition set_chunks_owned (f : list Chunk → list Chunk) (h : Host) : Host :=
  {| hostname := hostname h; transferslots := transferslots h;
     chunks_needed := chunks_needed h; chunks_owned := f (chunks_owned h);
     alive := alive h; chunk_index := chunk_index h;
     failcount := failcount h; max_failcount := max_failcount h |}.

Definition set_alive (b : bool) (h : Host) : Host :=
  {| hostname := hostname h; transferslots := transferslots h;
     chunks_needed := chunks_needed h; chunks_owned := chunks_owned h;
     alive := b; chunk_index := chunk_index h;
     failcount := failcount h; max_failcount := max_failcount h |}.

Definition set_chunk_index (f : nat → nat) (h : Host) : Host :=
  {| hostname := hostname h; transferslots := transferslots h;
     chunks_needed := chunks_needed h; chunks_owned := chunks_owned h;
     alive := alive h; chunk_index := f (chunk_index h);
     failcount := failcount h; max_failcount := max_failcount h |}.

Definition set_failcount (f : Z → Z) (h : Host) : Host :=
  {| hostname := hostname h; transferslots := transferslots h;
     chunks_needed := chunks_needed h; chunks_owned := chunks_owned h;
     alive := alive h; chunk_index := chunk_index h;
     failcount := f (failcount h); max_failcount := max_failcount h |}.

(** [Host.incFailCount], [Host.resetFailCount] *)
Definition incFailCount (h : Host) : Host := set_failcount (λ n, n + 1) h.
Definition resetFailCount (h : Host) : Host := set_failcount (λ _, 0) h.

(** [Host.getSlot], [Host.freeSlot] *)
Definition getSlot (h : Host) : Host := set_transferslots (λ n, n - 1) h.
Definition freeSlot (h : Host) : Host := set_transferslots (λ n, n + 1) h.

(** [Host.setDead]: the host part; the boolean tells whether
    [DB.incDeadHosts()] was called. *)
Definition Host_setDead (h : Host) : Host * bool :=
  if alive h
  then (set_transferslots (λ _, 0) (set_alive false h), true)
  else (h, false).

(** [class Database], without its lock.  [hostcount] is assigned
    [len(hostlist)] once, in [main], when the list is complete, and neither
    changes afterwards: it is the length of [hostlist]. *)
Record Database := mkDatabase {
  hostlist : list Host;
  hosts_with_file : nat;
  tindex : nat;
  chunkCount : nat;
  split_complete : bool;
  deadhosts : nat;
  roothost : nat
}.

Definition hostcount (db : Database) : nat := length (hostlist db).

(** [Database.__init__] *)
Definition Database_init : Database :=
  {| hostlist := []; hosts_with_file := 1; tindex := 0; chunkCount := 0;
     split_complete := false; deadhosts := 0; roothost := 0 |}.

Definition set_hostlist (f : list Host → list Host) (db : Database) : Database :=
  {| hostlist := f (hostlist db); hosts_with_file := hosts_with_file db;
     tindex := tindex db; chunkCount := chunkCount db;
     split_complete := split_complete db; deadhosts := deadhosts db;
     roothost := roothost db |}.

Definition set_tindex (t : nat) (db : Database) : Database :=
  {| hostlist := hostlist db; hosts_with_file := hosts_with_file db;
     tindex := t; chunkCount := chunkCount db;
     split_complete := split_complete db; deadhosts := deadhosts db;
     roothost := roothost db |}.

Definition set_chunkCount (f : nat → nat) (db : Database) : Database :=
  {| hostlist := hostlist db; hosts_with_file := hosts_with_file db;
     tindex := tindex db; chunkCount := f (chunkCount db);
     split_complete := split_complete db; deadhosts := deadhosts db;
     roothost := roothost db |}.

Definition set_split_complete (b : bool) (db : Database) : Database :=
  {| hostlist := hostlist db; hosts_with_file := hosts_with_file db;
     tindex := tindex db; chunkCount := chunkCount db;
     split_complete := b; deadhosts := deadhosts db;
     roothost := roothost db |}.

(** [Database.incDeadHosts], [Database.hostDone] *)
Definition incDeadHosts (db : Database) : Database :=
  {| hostlist := hostlist db; hosts_with_file := hosts_with_file db;
     tindex := tindex db; chunkCount := chunkCount db;
     split_complete := split_complete db; deadhosts := S (deadhosts db);
     roothost := roothost db |}.

Definition hostDone (db : Database) : Database :=
  {| hostlist := hostlist db; hosts_with_file := S (hosts_with_file db);
     tindex := tindex db; chunkCount := chunkCount db;
     split_complete := split_complete db; deadhosts := deadhosts db;
     roothost := roothost db |}.

(** In-place update of [hostlist[i]]. *)
Definition with_host (i : nat) (f : Host → Host) (db : Database) : Database :=
  set_hostlist (alter f i) db.

(** [hostlist[i].setDead()], with its call-back into the database. *)
Definition setDead (i : nat) (db : Database) : Database :=
  match hostlist db !! i with
  | Some h =>
      let '(h', counted) := Host_setDead h in
      let db' := with_host i (λ _, h') db in
      if counted then incDeadHosts db' else db'
  | None => db
  end.

(** ** The matcher: [Database.getTransfer] *)

(** The test of the innermost loop: does [h] own [chunk], with a free slot,
    and is it alive? *)
Definition can_seed (chunk : Chunk) (h : Host) : bool :=
  Py.contains chunk (chunks_owned h) && bool_decide (0 < transferslots h) && alive h.

(** The test on the chosen target. *)
Definition can_receive (h : Host) : bool :=
  bool_decide (0 < transferslots h) && alive h.

(** [sindex = (sindex - 1) % hostcount], with Python's sign convention. *)
Definition prev_index (sindex hc : nat) : nat :=
  Z.to_nat ((Z.of_nat sindex - 1) `mod` Z.of_nat hc).

(** [for i in xrange(hostcount)]: the scan for a seed, [i] iterations left. *)
Fixpoint seed_scan (hl : list Host) (chunk : Chunk) (sindex i : nat) : option nat :=
  match i with
  | O => None
  | S i' =>
      let sindex' := prev_index sindex (length hl) in
      match hl !! sindex' with
      | Some h =>
          if can_seed chunk h then Some sindex'
          else seed_scan hl chunk sindex' i'
      | None => None
      end
  end.

(** [for chunk in hostlist[tindex].chunks_needed]: one random start of the
    seed scan for each chunk tried. *)
Fixpoint chunk_scan (hl : list Host) (needed : list Chunk) (rs : list nat)
    : option (nat * Chunk) * list nat :=
  match needed with
  | [] => (None, rs)
  | chunk :: rest =>
      let '(d, rs') := Py.draw rs in
      let sindex := Z.to_nat (Py.randint 0 (Z.of_nat (length hl)) d) in
      match seed_scan hl chunk sindex (length hl) with
      | Some s => (Some (s, chunk), rs')
      | None => chunk_scan hl rest rs'
      end
  end.

(** [for q in xrange(hostcount)]: the scan for a target, [q] iterations
    left; returns the match, the final [tindex] and the unused draws. *)
Fixpoint target_scan (hl : list Host) (t : nat) (rs : list nat) (q : nat)
    : option (nat * nat * Chunk) * nat * list nat :=
  match q with
  | O => (None, t, rs)
  | S q' =>
      let t' := ((t + 1) `mod` length hl)%nat in
      match hl !! t' with
      | Some h =>
          if can_receive h then
            match chunk_scan hl (chunks_needed h) rs with
            | (Some (s, chunk), rs') => (Some (s, t', chunk), t', rs')
            | (None, rs') => target_scan hl t' rs' q'
            end
          else target_scan hl t' rs q'
      | None => (None, t', rs)
      end
  end.

(** [Database.getTransfer]: the triple [(seedindex, targetindex, chunk)] or
    [None] for Python's [(None, None, None)], and the database afterwards. *)
Definition getTransfer (db : Database) (rs : list nat)
    : option (nat * nat * Chunk) * Database * list nat :=
  match target_scan (hostlist db) (tindex db) rs (hostcount db) with
  | (Some (s, t, chunk), t', rs') =>
      (Some (s, t, chunk),
       with_host t getSlot (with_host s getSlot (set_tindex t' db)), rs')
  | (None, t', rs') => (None, set_tindex t' db, rs')
  end.

(** ** The splitter driver: [Database.update_chunks_needed], [split_file] *)

(** [for chunk in new_chunks: host.chunks_needed.insert(random.randint(0,
    len(host.chunks_needed)+1), chunk)] *)
Fixpoint insert_new_chunks (new_chunks needed : list Chunk) (rs : list nat)
    : list Chunk * list nat :=
  match new_chunks with
  | [] => (needed, rs)
  | chunk :: rest =>
      let '(d, rs') := Py.draw rs in
      let i := Z.to_nat (Py.randint 0 (Z.of_nat (length needed) + 1) d) in
      insert_new_chunks rest (Py.insert i chunk needed) rs'
  end.

(** The body of the loop of [update_chunks_needed] for a host other than the
    root. *)
Definition update_host (root_owned : list Chunk) (count : nat) (h : Host)
    (rs : list nat) : Host * list nat :=
  if bool_decide (chunk_index h < count)%nat then
    let new_chunks := drop (chunk_index h) root_owned in
    let '(needed, rs') := insert_new_chunks new_chunks (chunks_needed h) rs in
    (set_chunk_index (λ n, n + length new_chunks)%nat
       (set_chunks_needed (λ _, needed) h), rs')
  else (h, rs).

(** [for host in self.hostlist], from position [i] on; the root is skipped,
    so its [chunks_owned] is the same list throughout the loop. *)
Fixpoint update_hosts (root : nat) (root_owned : list Chunk) (count i : nat)
    (hl : list Host) (rs : list nat) : list Host * list nat :=
  match hl with
  | [] => ([], rs)
  | h :: hl' =>
      if decide (i = root) then
        let '(hl'', rs') := update_hosts root root_owned count (S i) hl' rs in
        (h :: hl'', rs')
      else
        let '(h', rs1) := update_host root_owned count h rs in
        let '(hl'', rs2) := update_hosts root root_owned count (S i) hl' rs1 in
        (h' :: hl'', rs2)
  end.

(** [Database.update_chunks_needed] *)
Definition update_chunks_needed (db : Database) (rs : list nat)
    : Database * list nat :=
  match hostlist db !! roothost db with
  | Some root =>
      let '(hl, rs') :=
        update_hosts (roothost db) (chunks_owned root) (chunkCount db) 0
          (hostlist db) rs in
      (set_hostlist (λ _, hl) db, rs')
  | None => (db, rs)
  end.

(** The body of the loop of [split_file], for the chunk named [curname]. *)
Definition split_file_step (curname : string) (db : Database) (rs : list nat)
    : Database * list nat :=
  let db1 :=
    with_host (roothost db) (set_chunks_owned (λ l, l ++ [mkChunk curname])) db in
  update_chunks_needed (set_chunkCount S db1) rs.

(** ** Commands and the command queue *)

Record Options := mkOptions {
  username : string;
  filedest : string;
  chunk_base_name : string;
  cleanup : bool
}.

(** The instances of [CAT_CMD_TEMPLATE] and [RM_CMD_TEMPLATE]. *)
Inductive Command :=
| CatCmd (userhost base dest : string)
| RmCmd (userhost base : string).

#[global] Instance Command_eq_dec : EqDecision Command.
Proof. solve_decision. Defined.

Definition render (cmd : Command) : string :=
  match cmd with
  | CatCmd userhost base dest =>
      "ssh -o StrictHostKeyChecking=no " +:+ userhost +:+ " 'cat " +:+ base
        +:+ "* > " +:+ dest +:+ "'"
  | RmCmd userhost base =>
      "ssh -o StrictHostKeyChecking=no " +:+ userhost +:+ " 'rm -f " +:+ base
        +:+ "*'"
  end.

Definition is_cat (cmd : Command) : bool :=
  match cmd with CatCmd _ _ _ => true | RmCmd _ _ => false end.

Definition is_rm (cmd : Command) : bool :=
  match cmd with CatCmd _ _ _ => false | RmCmd _ _ => true end.

Definition catCmd (o : Options) (target : Host) : Command :=
  CatCmd (username o +:+ hostname target) (chunk_base_name o) (filedest o).

Definition rmCmd (o : Options) (host : Host) : Command :=
  RmCmd (username o +:+ hostname host) (chunk_base_name o).

(** A child created by [Popen]; [running] is [proc.poll() is None]. *)
Record Proc := mkProc { proc_cmd : Command; running : bool }.

(** Where the thread of [CommandQueue.run] stands. *)
Inductive ConsumerPc :=
| Getting                    (* in [self.cmdq.get(timeout=0.5)] *)
| Spawning (cmd : Command)   (* holds [cmd], in the loop on [procsema] *)
| Draining                   (* out of the loop, in [wait_for_procs] *)
| Stopped.                   (* [run] has returned *)

(** [class CommandQueue] *)
Record CommandQueue := mkCommandQueue {
  cmdq : list Command;
  procsema : nat;
  flag : bool;
  procs : list Proc;
  consumer : ConsumerPc
}.

Definition CommandQueue_init (permits : nat) : CommandQueue :=
  {| cmdq := []; procsema := permits; flag := false; procs := [];
     consumer := Getting |}.

(** [CommandQueue.put], [CommandQueue.finish] *)
Definition put (cmd : Command) (q : CommandQueue) : CommandQueue :=
  {| cmdq := cmdq q ++ [cmd]; procsema := procsema q; flag := flag q;
     procs := procs q; consumer := consumer q |}.

Definition finish (q : CommandQueue) : CommandQueue :=
  {| cmdq := cmdq q; procsema := procsema q; flag := true;
     procs := procs q; consumer := consumer q |}.

(** [CommandQueue.free]: reap the finished children, one permit each. *)
Definition free (q : CommandQueue) : CommandQueue * bool :=
  let activeprocs := filter (λ p, running p = true) (procs q) in
  let finished := filter (λ p, running p = false) (procs q) in
  ({| cmdq := cmdq q; procsema := (procsema q + length finished)%nat;
      flag := flag q; procs := activeprocs; consumer := consumer q |},
   bool_decide (finished ≠ [])).

(** One test of the loop of [CommandQueue.wait_for_procs]: [true] when the
    loop is left, else the queue after [free()] (and a sleep). *)
Definition wait_for_procs_step (q : CommandQueue) : CommandQueue * bool :=
  match procs q with
  | [] => (q, true)
  | _ :: _ => (fst (free q), false)
  end.

Definition set_consumer (pc : ConsumerPc) (q : CommandQueue) : CommandQueue :=
  {| cmdq := cmdq q; procsema := procsema q; flag := flag q;
     procs := procs q; consumer := pc |}.

(** [procsema.acquire(blocking=False)], then [Popen] and [procs.append]. *)
Definition try_spawn (cmd : Command) (q : CommandQueue) : option CommandQueue :=
  match procsema q with
  | O => None
  | S n =>
      Some {| cmdq := cmdq q; procsema := n; flag := flag q;
              procs := procs q ++ [mkProc cmd true]; consumer := Getting |}
  end.

(** The loop on [procsema] of [CommandQueue.run], up to its next sleep. *)
Definition spawn_or_wait (cmd : Command) (q : CommandQueue) : CommandQueue :=
  match try_spawn cmd q with
  | Some q' => q'
  | None =>
      let '(q1, slotfreed) := free q in
      if slotfreed then
        match try_spawn cmd q1 with
        | Some q' => q'
        | None => set_consumer (Spawning cmd) q1
        end
      else set_consumer (Spawning cmd) q1
  end.

(** One turn of the thread of [CommandQueue.run]. *)
Definition CommandQueue_run_step (q : CommandQueue) : CommandQueue :=
  match consumer q with
  | Getting =>
      match cmdq q with
      | cmd :: rest =>
          spawn_or_wait cmd
            {| cmdq := rest; procsema := procsema q; flag := flag q;
               procs := procs q; consumer := Getting |}
      | [] => if flag q then set_consumer Draining q else q
      end
  | Spawning cmd => spawn_or_wait cmd q
  | Draining =>
      let '(q', empty) := wait_for_procs_step q in
      if empty then set_consumer Stopped q' else q'
  | Stopped => q
  end.

(** The [k]-th tracked child exits. *)
Definition child_exit (k : nat) (q : CommandQueue) : option CommandQueue :=
  match procs q !! k with
  | Some p =>
      if running p then
        Some {| cmdq := cmdq q; procsema := procsema q; flag := flag q;
                procs := <[k := mkProc (proc_cmd p) false]> (procs q);
                consumer := consumer q |}
      else None
  | None => None
  end.

(** ** The transfer worker: [class Transfer] *)

Record Transfer := mkTransfer {
  seedindex : nat;
  chunk : Chunk;
  targetindex : nat
}.

#[global] Instance Transfer_eq_dec : EqDecision Transfer.
Proof. solve_decision. Defined.

(** What the copy child did: it exited with status [ret] (and, for the
    failure branch, what the two [isAlive] probes answer), or [Popen],
    [communicate] or [wait] raised. *)
Inductive Outcome :=
| Exits (ret : Z) (target_up seed_up : bool)
| Raised.

(** The children a worker asks for: the copy, and the liveness probes. *)
Inductive Action :=
| Copy (seed target : nat) (c : Chunk)
| Probe (host : nat).

#[global] Instance Action_eq_dec : EqDecision Action.
Proof. solve_decision. Defined.

(** Where the main thread stands, from the call of [initiateTransfers] on. *)
Inductive MainPc :=
| Scheduling                 (* in the first loop of [initiateTransfers] *)
| Acquiring (tr : Transfer)  (* in [threadsema.acquire()], match in hand *)
| Joining                    (* in [while threadlist != []] *)
| Returned                   (* [initiateTransfers] has returned *)
| WaitingProcs               (* in [commandq.wait_for_procs()] *)
| Finishing                  (* in [while commandq.isAlive()] *)
| Exited.

(** The shared state of the run.  [matched] and [actions] are histories:
    the triples [getTransfer] has returned and the children the workers
    have started, oldest first. *)
Record World := mkWorld {
  DB : Database;
  options : Options;
  threadlist : list Transfer;
  threadsema : nat;
  commandq : CommandQueue;
  mainpc : MainPc;
  matched : list Transfer;
  actions : list Action
}.

Definition set_DB (f : Database → Database) (w : World) : World :=
  {| DB := f (DB w); options := options w; threadlist := threadlist w;
     threadsema := threadsema w; commandq := commandq w; mainpc := mainpc w;
     matched := matched w; actions := actions w |}.

Definition set_commandq (f : CommandQueue → CommandQueue) (w : World) : World :=
  {| DB := DB w; options := options w; threadlist := threadlist w;
     threadsema := threadsema w; commandq := f (commandq w); mainpc := mainpc w;
     matched := matched w; actions := actions w |}.

Definition set_mainpc (pc : MainPc) (w : World) : World :=
  {| DB := DB w; options := options w; threadlist := threadlist w;
     threadsema := threadsema w; commandq := commandq w; mainpc := pc;
     matched := matched w; actions := actions w |}.

Definition log_action (a : Action) (w : World) : World :=
  {| DB := DB w; options := options w; threadlist := threadlist w;
     threadsema := threadsema w; commandq := commandq w; mainpc := mainpc w;
     matched := matched w; actions := actions w ++ [a] |}.

Definition log_match (tr : Transfer) (w : World) : World :=
  {| DB := DB w; options := options w; threadlist := threadlist w;
     threadsema := threadsema w; commandq := commandq w; mainpc := mainpc w;
     matched := matched w ++ [tr]; actions := actions w |}.

(** [if self.chunk not in target.chunks_needed:
        target.chunks_needed.append(self.chunk)] *)
Definition requeue (c : Chunk) (h : Host) : Host :=
  if Py.contains c (chunks_needed h) then h
  else set_chunks_needed (λ l, l ++ [c]) h.

(** The branch [ret == 0] of [Transfer.run].  (An index out of the host
    list is an [IndexError] in the source; the indices of a started
    transfer are within the list.) *)
Definition transfer_succeeded (tr : Transfer) (w : World) : World :=
  let db1 :=
    with_host (targetindex tr) (set_chunks_owned (λ l, l ++ [chunk tr])) (DB w) in
  match hostlist db1 !! targetindex tr with
  | Some target =>
      if split_complete db1
         && bool_decide (length (chunks_owned target) = chunkCount db1)
      then set_commandq (put (catCmd (options w) target))
             (set_DB (λ _, hostDone db1) w)
      else set_DB (λ _, db1) w
  | None => w
  end.

(** [if not host.isAlive(): host.setDead()] *)
Definition probe (i : nat) (up : bool) (w : World) : World :=
  let w1 := log_action (Probe i) w in
  if up then w1 else set_DB (setDead i) w1.

(** The branch [ret != 0] of [Transfer.run]. *)
Definition transfer_failed (tr : Transfer) (target_up seed_up : bool)
    (w : World) : World :=
  let w1 := set_DB (with_host (targetindex tr) (requeue (chunk tr))) w in
  probe (seedindex tr) seed_up (probe (targetindex tr) target_up w1).

(** The handler [except Exception] of [Transfer.run]. *)
Definition transfer_raised (tr : Transfer) (w : World) : World :=
  set_DB (with_host (targetindex tr) (requeue (chunk tr))) w.

(** The statements after the [try] of [Transfer.run], for the thread at
    position [k] of [threadlist]. *)
Definition transfer_epilogue (k : nat) (tr : Transfer) (w : World) : World :=
  {| DB := with_host (seedindex tr) freeSlot
             (with_host (targetindex tr) freeSlot (DB w));
     options := options w;
     threadlist := delete k (threadlist w);
     threadsema := S (threadsema w);
     commandq := commandq w; mainpc := mainpc w;
     matched := matched w; actions := actions w |}.

(** [Transfer.run], from the return of the copy child on. *)
Definition Transfer_run (k : nat) (tr : Transfer) (o : Outcome) (w : World)
    : World :=
  let w0 := log_action (Copy (seedindex tr) (targetindex tr) (chunk tr)) w in
  let w1 :=
    match o with
    | Exits ret target_up seed_up =>
        if decide (ret = 0) then transfer_succeeded tr w0
        else transfer_failed tr target_up seed_up w0
    | Raised => transfer_raised tr w0
    end in
  transfer_epilogue k tr w1.

(** ** The scheduler loop: [initiateTransfers] *)

(** [DB.hosts_with_file + DB.deadhosts < DB.hostcount] *)
Definition loop_cond (db : Database) : bool :=
  bool_decide (hosts_with_file db + deadhosts db < hostcount db)%nat.

(** The statements after [threadsema.acquire()]: the chunk leaves the
    target's needed list and the worker is started.  ([remove] of an absent
    chunk is a [ValueError] in the source; the chunk of a match is in the
    list, see [start_transfer_removes].) *)
Definition start_transfer (tr : Transfer) (w : World) : World :=
  {| DB := with_host (targetindex tr)
             (set_chunks_needed (λ l, default l (Py.remove (chunk tr) l)))
             (DB w);
     options := options w;
     threadlist := threadlist w ++ [tr];
     threadsema := pred (threadsema w);
     commandq := commandq w; mainpc := Scheduling;
     matched := matched w; actions := actions w |}.

(** [threadsema.acquire()]: blocks while no permit is left. *)
Definition acquire_and_start (tr : Transfer) (w : World) : World :=
  match threadsema w with
  | O => set_mainpc (Acquiring tr) w
  | S _ => start_transfer tr w
  end.

(** [while threadlist != []: time.sleep(0.5)] *)
Definition join (w : World) : World :=
  match threadlist w with
  | [] => set_mainpc Returned w
  | _ :: _ => set_mainpc Joining w
  end.

(** [initiateTransfers], up to its next sleep or blocking call. *)
Definition initiateTransfers_step (w : World) (rs : list nat) : World :=
  match mainpc w with
  | Scheduling =>
      if loop_cond (DB w) then
        match getTransfer (DB w) rs with
        | (Some (s, t, c), db', _) =>
            let tr := mkTransfer s c t in
            acquire_and_start tr (log_match tr (set_DB (λ _, db') w))
        | (None, db', _) => set_DB (λ _, db') w
        end
      else join w
  | Acquiring tr => acquire_and_start tr w
  | Joining => join w
  | _ => w
  end.

(** ** The finalizer: the end of [main] *)

(** [for host in DB.hostlist: commandq.put(rmCmd)] *)
Definition put_rm_all (w : World) : World :=
  set_commandq
    (λ q, foldl (λ q h, put (rmCmd (options w) h) q) q (hostlist (DB w))) w.

(** The main thread, up to its next sleep or blocking call. *)
Definition main_step (w : World) (rs : list nat) : World :=
  match mainpc w with
  | Scheduling | Acquiring _ | Joining => initiateTransfers_step w rs
  | Returned =>
      match threadlist w with
      | [] =>
          if cleanup (options w) then set_mainpc WaitingProcs w
          else set_mainpc Finishing (set_commandq finish w)
      | _ :: _ => w
      end
  | WaitingProcs =>
      let '(q, empty) := wait_for_procs_step (commandq w) in
      if empty then
        set_mainpc Finishing (set_commandq finish (put_rm_all w))
      else set_commandq (λ _, q) w
  | Finishing =>
      match consumer (commandq w) with
      | Stopped => set_mainpc Exited w
      | _ => w
      end
  | Exited => w
  end.

(** The state [main] builds before it starts its threads: the root first,
    then one host for each name of [targetlist] (the names after
    [set(targetlist)], in its order of iteration). *)
Definition main_init (rootname : string) (targetlist : list string)
    (max_transfers_per_host : Z) (opts : Options) : World :=
  {| DB :=
       {| hostlist :=
            Host_init rootname [] max_transfers_per_host
              :: ((λ n, Host_init n [] max_transfers_per_host) <$> targetlist);
          hosts_with_file := 1; tindex := 0; chunkCount := 0;
          split_complete := false; deadhosts := 0; roothost := 0 |};
     options := opts;
     threadlist := [];
     threadsema := MAX_THREADS;
     commandq := CommandQueue_init MAX_PROCS;
     mainpc := Scheduling;
     matched := [];
     actions := [] |}.

(** ** The run as a transition system *)

Inductive Event :=
| EvSplit (curname : string) (rs : list nat)  (* [split] announces a chunk *)
| EvSplitDone                                 (* [split] ends *)
| EvMain (rs : list nat)                      (* a turn of the main thread *)
| EvTransfer (k : nat) (o : Outcome)          (* the copy of thread [k] returns *)
| EvConsumer                                  (* a turn of [CommandQueue.run] *)
| EvChildExit (k : nat).                      (* a [cat] or [rm] child exits *)

Definition root_owned (db : Database) : list Chunk :=
  from_option chunks_owned [] (hostlist db !! roothost db).

(** One event, when it can take place: [split] announces chunks until it
    ends, each name once; only a started thread completes; only a running
    child exits. *)
Definition step (w : World) (e : Event) : option World :=
  match e with
  | EvSplit curname rs =>
      if split_complete (DB w) then None
      else if Py.contains (mkChunk curname) (root_owned (DB w)) then None
      else Some (set_DB (λ db, fst (split_file_step curname db rs)) w)
  | EvSplitDone => Some (set_DB (set_split_complete true) w)
  | EvMain rs => Some (main_step w rs)
  | EvTransfer k o =>
      match threadlist w !! k with
      | Some tr => Some (Transfer_run k tr o w)
      | None => None
      end
  | EvConsumer => Some (set_commandq CommandQueue_run_step w)
  | EvChildExit k =>
      match child_exit k (commandq w) with
      | Some q => Some (set_commandq (λ _, q) w)
      | None => None
      end
  end.

(** A run: the events of the threads in the order in which they take
    place. *)
Fixpoint run (w : World) (evs : list Event) : option World :=
  match evs with
  | [] => Some w
  | e :: evs' =>
      match step w e with
      | Some w' => run w' evs'
      | None => None
      end
  end.

(** ** Reading the host array *)

Definition needed_at (db : Database) (i : nat) : list Chunk :=
  from_option chunks_needed [] (hostlist db !! i).
Definition owned_at (db : Database) (i : nat) : list Chunk :=
  from_option chunks_owned [] (hostlist db !! i).
Definition slots_at (db : Database) (i : nat) : Z :=
  from_option transferslots 0 (hostlist db !! i).
Definition alive_at (db : Database) (i : nat) : bool :=
  from_option alive false (hostlist db !! i).
Definition failcount_at (db : Database) (i : nat) : Z :=
  from_option failcount 0 (hostlist db !! i).

(** [1] when the indices are the same, else [0]. *)
Definition one_if (i j : nat) : Z := if decide (i = j) then 1 else 0.

(** The outcomes in which the chunk did not reach the target. *)
Definition failed (o : Outcome) : bool :=
  match o with
  | Exits ret _ _ => bool_decide (ret ≠ 0)
  | Raised => true
  end.

(** * The vocabulary of the properties *)

(** ** Small runs used as examples *)

Module Examples.

Definition chunk_a : Chunk := mkChunk "/tmp/f.chunk_aa".
Definition chunk_b : Chunk := mkChunk "/tmp/f.chunk_ab".

Definition opts : Options :=
  {| username := ""; filedest := "/data/f"; chunk_base_name := "/tmp/f.chunk_";
     cleanup := true |}.

(** The root owns one chunk, which the only target needs. *)
Definition db_two_hosts : Database :=
  {| hostlist :=
       [set_chunks_owned (λ _, [chunk_a]) (Host_init "root" [] 2);
        Host_init "node1" [chunk_a] 2];
     hosts_with_file := 1; tindex := 0; chunkCount := 1;
     split_complete := true; deadhosts := 0; roothost := 0 |}.

Definition world_two_hosts : World :=
  {| DB := db_two_hosts; options := opts; threadlist := [];
     threadsema := MAX_THREADS; commandq := CommandQueue_init MAX_PROCS;
     mainpc := Scheduling; matched := []; actions := [] |}.

End Examples.

Module Examples_worker.

(** One transfer in flight: the root sends [chunk_a] to node1. *)
Definition tr : Transfer :=
  {| seedindex := 0; chunk := Examples.chunk_a; targetindex := 1 |}.

Definition copying : World :=
  start_transfer tr
    (set_DB (λ db, (getTransfer db [0%nat]).1.2) Examples.world_two_hosts).

End Examples_worker.

Module Examples_sweep.

Definition two_hosts : World := main_init "root" ["node1"] 1 Examples.opts.

(** The only chunk is split off and copied to node1, whose worker
    enqueues the [cat]; the main thread leaves [initiateTransfers] and
    calls [wait_for_procs] before the queue's thread has taken the [cat]. *)
Definition until_wait : list Event :=
  [EvSplit "/tmp/f.chunk_aa" [0%nat]; EvSplitDone; EvMain [0%nat];
   EvTransfer 0 (Exits 0 true true); EvMain []; EvMain []].

(** [wait_for_procs] returns at once, the [rm] commands are enqueued, and
    the queue's thread starts the [cat] and then the first [rm]. *)
Definition sweep : list Event := [EvMain []; EvConsumer; EvConsumer].

Definition the_cat : Command := CatCmd "node1" "/tmp/f.chunk_" "/data/f".
Definition the_rm : Command := RmCmd "root" "/tmp/f.chunk_".

End Examples_sweep.

Module Examples_rotation.

(** One root and three targets, one slot each. *)
Definition four_hosts : World :=
  main_init "root" ["node1"; "node2"; "node3"] 1 Examples.opts.

Definition six_chunks : list Event :=
  [EvSplit "/tmp/f.chunk_aa" []; EvSplit "/tmp/f.chunk_ab" [];
   EvSplit "/tmp/f.chunk_ac" []; EvSplit "/tmp/f.chunk_ad" [];
   EvSplit "/tmp/f.chunk_ae" []; EvSplit "/tmp/f.chunk_af" []].

(** A match, a call that finds nothing, the first copy completes, two
    more matches. *)
Definition three_matches : list Event :=
  [EvMain []; EvMain []; EvTransfer 0 (Exits 0 true true); EvMain []; EvMain []].

End Examples_rotation.

(** ** Slot counts *)

(** The three operations on the slot count of a host. *)
Inductive SlotOp := OpGetSlot | OpFreeSlot | OpSetDead.

(** A host together with the number of workers that hold one of its slots.
    [getSlot] is called as [getTransfer] calls it, on a positive count;
    [freeSlot] is called by a worker that holds a slot. *)
Definition slot_step (st : Host * nat) (op : SlotOp) : option (Host * nat) :=
  let '(h, held) := st in
  match op with
  | OpGetSlot =>
      if bool_decide (0 < transferslots h) then Some (getSlot h, S held)
      else None
  | OpFreeSlot =>
      match held with
      | O => None
      | S held' => Some (freeSlot h, held')
      end
  | OpSetDead => Some ((Host_setDead h).1, held)
  end.

Fixpoint slot_run (st : Host * nat) (ops : list SlotOp) : option (Host * nat) :=
  match ops with
  | [] => Some st
  | op :: ops' =>
      match slot_step st op with
      | Some st' => slot_run st' ops'
      | None => None
      end
  end.

(** The count is not negative, and with the slots held by workers it does
    not exceed the maximum. *)
Definition slot_inv (max_transfers_per_host : Z) (st : Host * nat) : Prop :=
  0 ≤ transferslots st.1 ∧
  transferslots st.1 + Z.of_nat st.2 ≤ max_transfers_per_host.

(** ** Random insertion *)

(** The needed lists that the insertion of [c] into [needed] can produce,
    one for each equally likely value of
    [random.randint(0, len(needed)+1)]. *)
Definition insert_outcomes (c : Chunk) (needed : list Chunk) : list (list Chunk) :=
  (λ r, Py.insert (Z.to_nat r) c needed)
    <$> Py.randint_outcomes 0 (Z.of_nat (length needed) + 1).

(** The number of draws that produce [result]. *)
Definition ways (c : Chunk) (needed result : list Chunk) : nat :=
  length (filter (λ l, l = result) (insert_outcomes c needed)).

(** ** Children of the command queue *)

(** A [cat] child and an [rm] child are running at the same time. *)
Definition cat_and_rm_running (q : CommandQueue) : Prop :=
  ∃ p1 p2, p1 ∈ procs q ∧ p2 ∈ procs q ∧
    is_cat (proc_cmd p1) = true ∧ running p1 = true ∧
    is_rm (proc_cmd p2) = true ∧ running p2 = true.

(** ** The scheduler loop *)

Definition is_split (e : Event) : bool :=
  match e with
  | EvSplit _ _ => true
  | _ => false
  end.

(** The main thread is in the first loop of [initiateTransfers]. *)
Definition scheduling (pc : MainPc) : bool :=
  match pc with
  | Scheduling | Acquiring _ => true
  | _ => false
  end.

(** With the root as only host, the loop condition never holds and
    nothing is ever matched or started. *)
Definition single_host_inv (w : World) : Prop :=
  hostcount (DB w) = 1%nat ∧ (1 ≤ hosts_with_file (DB w))%nat ∧
  threadlist w = [] ∧ matched w = [] ∧ actions w = [] ∧
  (∀ tr, mainpc w ≠ Acquiring tr).

(** The root needs nothing, and no transfer matched so far has it as
    target. *)
Definition root_inv (w : World) : Prop :=
  roothost (DB w) = 0%nat ∧
  (0 < hostcount (DB w))%nat ∧
  needed_at (DB w) 0 = [] ∧
  Forall (λ tr, targetindex tr ≠ 0%nat) (threadlist w) ∧
  (∀ tr, mainpc w = Acquiring tr → targetindex tr ≠ 0%nat) ∧
  Forall (λ tr, targetindex tr ≠ 0%nat) (matched w).

(** ** The rotation of the targets *)

Definition chunk_index_at (db : Database) (i : nat) : nat :=
  from_option chunk_index 0%nat (hostlist db !! i).

(** The transfers matched and not completed: those of the workers, and the
    one the main thread holds while it waits for a thread permit. *)
Definition in_flight (w : World) : list Transfer :=
  threadlist w ++ match mainpc w with Acquiring tr => [tr] | _ => [] end.

(** Host [j] comes after the hosts matched so far. *)
Definition unmatched (w : World) (j : nat) : Prop :=
  (length (matched w) < j < hostcount (DB w))%nat.

(** The invariant of the rotation, for [m] slots per host and the
    transfers [fl] in flight: the [k]-th match has host [k] as target, the
    cursor is on the last target, and the hosts not matched yet are alive,
    have all their slots, own nothing and need every chunk that is owned
    or in flight. *)
Definition rr_inv_on (m : Z) (fl : list Transfer) (w : World) : Prop :=
  roothost (DB w) = 0%nat ∧
  (0 < hostcount (DB w))%nat ∧
  needed_at (DB w) 0 = [] ∧
  (tindex (DB w) < hostcount (DB w))%nat ∧
  chunkCount (DB w) = length (owned_at (DB w) 0) ∧
  (∀ k tr, matched w !! k = Some tr → (k + 1 < hostcount (DB w))%nat →
     targetindex tr = (k + 1)%nat) ∧
  ((length (matched w) + 1 < hostcount (DB w))%nat →
     tindex (DB w) = length (matched w)) ∧
  (∀ tr, tr ∈ fl →
     targetindex tr ≠ 0%nat ∧
     (seedindex tr ≤ length (matched w))%nat ∧
     (targetindex tr ≤ length (matched w))%nat ∧
     ∀ j, unmatched w j → chunk tr ∈ needed_at (DB w) j) ∧
  (∀ j, unmatched w j →
     slots_at (DB w) j = m ∧ alive_at (DB w) j = true ∧
     owned_at (DB w) j = [] ∧
     (chunk_index_at (DB w) j ≤ chunkCount (DB w))%nat ∧
     ∀ i c, c ∈ owned_at (DB w) i → c ∈ needed_at (DB w) j).

Definition rr_inv (m : Z) (w : World) : Prop := rr_inv_on m (in_flight w) w.

(** ** The needed lists *)

(** The chunks of the root that host [j] has been told of. *)
Definition known_at (db : Database) (j : nat) : list Chunk :=
  take (chunk_index_at db j) (owned_at db 0).

(** The invariant of the needed lists: they hold no chunk twice and only
    chunks the host has been told of; the chunk of a started transfer is
    out of its target's needed list, that of a match waiting for its
    permit is still in it, and no two started transfers carry the same
    chunk to the same target. *)
Definition needed_core (w : World) : Prop :=
  chunkCount (DB w) = length (owned_at (DB w) 0) ∧
  NoDup (owned_at (DB w) 0) ∧
  (∀ j, (chunk_index_at (DB w) j ≤ chunkCount (DB w))%nat) ∧
  (∀ j, NoDup (needed_at (DB w) j)) ∧
  (∀ j c, c ∈ needed_at (DB w) j → c ∈ known_at (DB w) j) ∧
  (∀ tr, tr ∈ threadlist w →
     (targetindex tr < hostcount (DB w))%nat ∧
     (chunk tr ∉ needed_at (DB w) (targetindex tr)) ∧
     chunk tr ∈ known_at (DB w) (targetindex tr)) ∧
  (∀ tr, mainpc w = Acquiring tr →
     chunk tr ∈ needed_at (DB w) (targetindex tr)) ∧
  NoDup ((λ tr, (targetindex tr, chunk tr)) <$> threadlist w).

Definition needed_inv (w : World) : Prop := root_inv w ∧ needed_core w.

(** ** A database with a host and a chunk to pass over *)

Module Examples_order.

(** The only slot of the root is taken.  node1, the host after the cursor,
    needs [chunk_b], which only the root owns; node2 needs [chunk_b] and
    then [chunk_a], which node1 owns and can seed. *)
Definition db : Database :=
  {| hostlist :=
       [set_transferslots (λ _, 0)
          (set_chunks_owned (λ _, [Examples.chunk_a; Examples.chunk_b])
             (Host_init "root" [] 1));
        set_chunks_owned (λ _, [Examples.chunk_a])
          (Host_init "node1" [Examples.chunk_b] 1);
        Host_init "node2" [Examples.chunk_b; Examples.chunk_a] 1];
     hosts_with_file := 1; tindex := 0; chunkCount := 2;
     split_complete := true; deadhosts := 0; roothost := 0 |}.

End Examples_order.

(** ** Eligible triples *)

(** [(s, t, c)] can be matched: the target is alive with a free slot and
    needs [c], the seed is alive with a free slot and owns [c]. *)
Definition eligible (db : Database) (s t : nat) (c : Chunk) : Prop :=
  ∃ hs ht, hostlist db !! s = Some hs ∧ hostlist db !! t = Some ht ∧
    can_receive ht = true ∧ c ∈ chunks_needed ht ∧ can_seed c hs = true.

(** ** The command queue *)

(** A queue that has no permit left: one child runs, one command is held. *)
Module Examples_queue.

Definition full : CommandQueue :=
  {| cmdq := []; procsema := 0; flag := false;
     procs := [mkProc Examples_sweep.the_cat true];
     consumer := Spawning Examples_sweep.the_rm |}.

End Examples_queue.

(** Runs on the root and one target with one slot each. *)
Module Examples_run.

(** Two chunks are split off and the second one (the draws put it first
    in node1's needed list) is matched and its copy started. *)
Definition started : list Event :=
  [EvSplit "/tmp/f.chunk_aa" []; EvSplit "/tmp/f.chunk_ab" []; EvMain []].

Definition second : Transfer :=
  {| seedindex := 0; chunk := Examples.chunk_b; targetindex := 1 |}.

(** The copy of the only chunk fails, and node1 does not answer the
    probe. *)
Definition failing : list Event :=
  [EvSplit "/tmp/f.chunk_aa" []; EvMain [];
   EvTransfer 0 (Exits 1 false true)].

(** A whole run: the chunk is copied, the [cat] and the two [rm] are
    started and exit, the queue's thread stops and the main thread
    leaves. *)
Definition whole : list Event :=
  Examples_sweep.until_wait ++
  [EvMain []; EvConsumer; EvConsumer; EvConsumer; EvConsumer;
   EvChildExit 0; EvChildExit 1; EvChildExit 2; EvConsumer; EvConsumer;
   EvMain []].

End Examples_run.

(** ** The accounts of a run of [step] *)

(** The invariants of this section are those of the runs of [step].  Where
    the source can interleave inside an event of [step], the properties
    stated from them are the parts no interleaving breaks; the chunk
    lists are taken up again for [Fine.step] further down
    ([Fine.tokens_inv]). *)

(** The chunks that the started transfers [fl] carry to host [j]. *)
Definition arriving (j : nat) (fl : list Transfer) : list Chunk :=
  chunk <$> filter (λ tr, targetindex tr = j) fl.

(** At every host other than the root, each chunk of the root is exactly
    one of: needed, owned, or carried to the host by a started transfer. *)
Definition chunks_inv (w : World) : Prop :=
  ∀ j, (0 < j < hostcount (DB w))%nat →
    chunk_index_at (DB w) j = chunkCount (DB w) ∧
    needed_at (DB w) j ++ owned_at (DB w) j ++ arriving j (threadlist w)
      ≡ₚ owned_at (DB w) 0.

(** The slots of host [j] that the transfers [fl] hold: one as seed and
    one as target. *)
Definition held_slots (j : nat) (fl : list Transfer) : Z :=
  foldr (λ tr n, one_if (seedindex tr) j + one_if (targetindex tr) j + n) 0 fl.

(** The slot account for [m] slots per host: a count is never negative;
    with the slots held by the matched transfers it makes [m] on a live
    host and at most [m] on a dead one. *)
Definition slots_inv (m : Z) (w : World) : Prop :=
  ∀ j, (j < hostcount (DB w))%nat →
    0 ≤ slots_at (DB w) j ∧
    slots_at (DB w) j + held_slots j (in_flight w) ≤ m ∧
    (alive_at (DB w) j = true →
       slots_at (DB w) j + held_slots j (in_flight w) = m).

(** The number of hosts marked dead. *)
Definition dead_count (db : Database) : nat :=
  length (filter (λ j, alive_at db j = false) (seq 0 (hostcount db))).

(** [deadhosts] is that number. *)
Definition dead_ok (db : Database) : Prop := deadhosts db = dead_count db.

(** Host [j] owns as many chunks as the file has, and [split] has ended:
    the test of [Transfer.run]. *)
Definition complete_at (db : Database) (j : nat) : bool :=
  split_complete db && bool_decide (length (owned_at db j) = chunkCount db).

(** The number of hosts other than the root that pass the test. *)
Definition complete_count (db : Database) : nat :=
  length (filter (λ j, complete_at db j = true) (seq 1 (hostcount db - 1))).

(** The permits of the two semaphores: one is out for each worker and
    for each tracked child. *)
Definition permits_inv (w : World) : Prop :=
  (threadsema w + length (threadlist w) = MAX_THREADS)%nat ∧
  (procsema (commandq w) + length (procs (commandq w)) = MAX_PROCS)%nat.

(** [hosts_with_file] counts the root and hosts that pass the test. *)
Definition done_inv (w : World) : Prop :=
  (1 ≤ hosts_with_file (DB w) ≤ 1 + complete_count (DB w))%nat.

(** Every triple matched so far has a seed that owns the chunk and is
    not the target. *)
Definition seeds_inv (w : World) : Prop :=
  ∀ tr, tr ∈ matched w →
    (seedindex tr < hostcount (DB w))%nat ∧
    seedindex tr ≠ targetindex tr ∧
    chunk tr ∈ owned_at (DB w) (seedindex tr).

(** What a run never takes back: the database [db'] comes after [db]. *)
Definition db_le (db db' : Database) : Prop :=
  hostcount db' = hostcount db ∧
  (∀ i, owned_at db i `prefix_of` owned_at db' i) ∧
  (∀ i, alive_at db' i = true → alive_at db i = true) ∧
  (deadhosts db ≤ deadhosts db')%nat ∧
  (hosts_with_file db ≤ hosts_with_file db')%nat ∧
  (chunkCount db ≤ chunkCount db')%nat ∧
  (split_complete db = true → split_complete db' = true).

(** The main thread has left [initiateTransfers] and its wait for the
    workers. *)
Definition finalizing (pc : MainPc) : bool :=
  match pc with
  | Returned | WaitingProcs | Finishing | Exited => true
  | _ => false
  end.

(** The main thread has called [commandq.finish()]. *)
Definition finished (pc : MainPc) : bool :=
  match pc with
  | Finishing | Exited => true
  | _ => false
  end.

(** The thread of the command queue has left its loop. *)
Definition drained (pc : ConsumerPc) : bool :=
  match pc with
  | Draining | Stopped => true
  | _ => false
  end.

(** The order of the shut-down: the workers are gone before the main
    thread goes on, the flag is set only by the finalizer, the queue's
    thread leaves its loop only on the flag and an empty queue, and
    stops only with no child left. *)
Definition shutdown_inv (w : World) : Prop :=
  (finalizing (mainpc w) = true → threadlist w = []) ∧
  (flag (commandq w) = true → finished (mainpc w) = true) ∧
  (drained (consumer (commandq w)) = true →
     flag (commandq w) = true ∧ cmdq (commandq w) = []) ∧
  (consumer (commandq w) = Stopped → procs (commandq w) = []) ∧
  (mainpc w = Exited → consumer (commandq w) = Stopped).

(** Closing the cases of an invariant whose premise fails. *)
Ltac close_case :=
  try done;
  try (intros ?; congruence);
  try (let H := fresh in intros H; rewrite H in *; done).

(** ** The splitter: [split_file] *)

Module PyStr.

(** The whitespace of [str.split()]: the space (code 32) and tab, line
    feed, vertical tab, form feed and carriage return (codes 9 to 13). *)
Definition is_space (a : Ascii.ascii) : bool :=
  let n := Ascii.nat_of_ascii a in
  bool_decide (n = 32 ∨ 9 ≤ n ≤ 13)%nat.

(** [a in chars] *)
Fixpoint in_chars (a : Ascii.ascii) (chars : string) : bool :=
  match chars with
  | EmptyString => false
  | String b chars' => Ascii.eqb a b || in_chars a chars'
  end.

(** [s.split()]: the maximal runs of characters other than whitespace. *)
Fixpoint split (s : string) : list string :=
  match s with
  | EmptyString => []
  | String a s' =>
      let rest := split s' in
      if is_space a then rest
      else
        match s' with
        | EmptyString => [String a EmptyString]
        | String b _ =>
            if is_space b then String a EmptyString :: rest
            else
              match rest with
              | w :: ws => String a w :: ws
              | [] => [String a EmptyString]
              end
        end
  end.

(** [s.lstrip(chars)], [s.rstrip(chars)], [s.strip(chars)] *)
Fixpoint lstrip (chars s : string) : string :=
  match s with
  | EmptyString => EmptyString
  | String a s' => if in_chars a chars then lstrip chars s' else s
  end.

Fixpoint rstrip (chars s : string) : string :=
  match s with
  | EmptyString => EmptyString
  | String a s' =>
      match rstrip chars s' with
      | EmptyString => if in_chars a chars then EmptyString else String a EmptyString
      | r => String a r
      end
  end.

Definition strip (chars s : string) : string := rstrip chars (lstrip chars s).

(** Every character of [s] passes the test. *)
Fixpoint all_chars (test : Ascii.ascii → bool) (s : string) : bool :=
  match s with
  | EmptyString => true
  | String a s' => test a && all_chars test s'
  end.

End PyStr.

(** [line.split()[2].strip(...)] with the two quote characters: the name
    in a line of [split --verbose], or [None] for the [IndexError] of a
    line of fewer than three words. *)
Definition parse_name (line : string) : option string :=
  match PyStr.split line with
  | _ :: _ :: word :: _ => Some (PyStr.strip "`'" word)
  | _ => None
  end.

(** The loop of [split_file] with [curname] in hand, a name that is not
    empty, and [lines] still to come from [split]; past the last line
    [readline] gives nothing to parse.  An exception in the look-ahead
    ends the loop after the chunk in hand. *)
Fixpoint split_file_loop (curname : string) (lines : list string)
    (db : Database) (rs : list nat) : Database * list nat :=
  let '(db1, rs1) := split_file_step curname db rs in
  match lines with
  | [] => (db1, rs1)
  | line :: rest =>
      match parse_name line with
      | Some prevname =>
          if decide (prevname = EmptyString) then (db1, rs1)
          else split_file_loop prevname rest db1 rs1
      | None => (db1, rs1)
      end
  end.

(** [split_file], run without another thread in between, on the lines
    that [split] prints; [None] when the first line cannot be parsed:
    the exception leaves the function before [split_complete] is set. *)
Definition split_file (lines : list string) (db : Database) (rs : list nat)
    : option (Database * list nat) :=
  match lines with
  | [] => None
  | line :: rest =>
      match parse_name line with
      | Some curname =>
          let '(db', rs') :=
            if decide (curname = EmptyString) then (db, rs)
            else split_file_loop curname rest db rs in
          Some (set_split_complete true db', rs')
      | None => None
      end
  end.

(** The names that [split_file] announces: those of the lines up to the
    first one that gives no name. *)
Fixpoint announced (lines : list string) : list string :=
  match lines with
  | [] => []
  | line :: rest =>
      match parse_name line with
      | Some name =>
          if decide (name = EmptyString) then [] else name :: announced rest
      | None => []
      end
  end.

(** The characters of the examples: back quote, and carriage return and
    line feed as the pty ends a line. *)
Module Examples_split.

Definition backquote : Ascii.ascii := Ascii.ascii_of_nat 96.
Definition crlf : string :=
  String (Ascii.ascii_of_nat 13) (String (Ascii.ascii_of_nat 10) EmptyString).

End Examples_split.

(** A name that [split] can print and [split_file] can read back: not
    empty, without whitespace and without the two quote characters. *)
Definition plain_name (name : string) : Prop :=
  name ≠ EmptyString ∧
  PyStr.all_chars (λ a, negb (PyStr.is_space a) && negb (PyStr.in_chars a "`'"))
    name = true.

(** The line that [split --verbose] prints for a chunk, with either
    opening quote and whatever whitespace ends the line. *)
Definition verbose_line (open_quote : Ascii.ascii) (name eol : string) : string :=
  "creating file " +:+ String open_quote name +:+ "'" +:+ eol.

Module Examples_output.

(** Two chunks are announced; the third line has two words only; the
    fourth is never read. *)
Definition lines : list string :=
  [verbose_line Examples_split.backquote "/tmp/f.chunk_aa" Examples_split.crlf;
   verbose_line Examples_split.backquote "/tmp/f.chunk_ab" Examples_split.crlf;
   "split: error";
   verbose_line Examples_split.backquote "/tmp/f.chunk_ad" Examples_split.crlf].

End Examples_output.

Module Examples_permits.

(** No thread permit is left: one worker runs and the main thread holds
    the next match. *)
Definition held : Transfer :=
  {| seedindex := 0; chunk := Examples.chunk_b; targetindex := 1 |}.

Definition no_permit : World :=
  {| DB := DB Examples_worker.copying; options := Examples.opts;
     threadlist := [Examples_worker.tr]; threadsema := 0;
     commandq := CommandQueue_init MAX_PROCS;
     mainpc := Acquiring held; matched := []; actions := [] |}.

End Examples_permits.

(** ** A transfer is started *)

(** Between [w] and [w'] the transfer [tr] has been started: its worker
    is the last of [threadlist], a thread permit is taken, and the first
    occurrence of the chunk is out of the target's needed list. *)
Definition started (tr : Transfer) (w w' : World) : Prop :=
  threadlist w' = threadlist w ++ [tr] ∧
  S (threadsema w') = threadsema w ∧
  mainpc w' = Scheduling ∧
  needed_at (DB w') (targetindex tr)
    = default (needed_at (DB w) (targetindex tr))
        (Py.remove (chunk tr) (needed_at (DB w) (targetindex tr))).

(** * The transfer phase, statement by statement *)

(** The system [step] takes a whole call of [getTransfer], and the run of a
    worker from the return of its copy to the release of its thread permit,
    as one event each.  The source holds no lock over either: the scan of
    [getTransfer] reads the hosts turn by turn while the workers write
    them, a worker that failed waits for two probes between its requeue and
    the release of its slots, and one that succeeded appends the chunk
    before it tests whether the target is complete.  The system [Fine.step]
    takes these apart: one event is one turn of a loop of [getTransfer],
    one call of [getSlot], [freeSlot] or [setDead] (each under the lock of
    its host), or one statement of [initiateTransfers] or [Transfer.run];
    the body of the loop of [split_file] for one chunk stays one event.
    It covers the threads of the transfer phase (the splitter, the main
    thread up to the return of [initiateTransfers], the workers); the
    command queue only receives. *)

(** The database [main] builds, see [main_init]. *)
Definition initial_DB (rootname : string) (targetlist : list string)
    (max_transfers_per_host : Z) : Database :=
  {| hostlist :=
       Host_init rootname [] max_transfers_per_host
         :: ((λ n, Host_init n [] max_transfers_per_host) <$> targetlist);
     hosts_with_file := 1; tindex := 0; chunkCount := 0;
     split_complete := false; deadhosts := 0; roothost := 0 |}.

Module Fine.

(** Where a worker stands in [Transfer.run]. *)
Inductive Stage :=
| Copying          (* in [Popen], [communicate] or [wait] of the copy *)
| Appended         (* [ret == 0]: the chunk is appended; before the test *)
| ProbingTarget    (* [ret != 0]: the chunk is requeued; in [target.isAlive()] *)
| ProbingSeed      (* in [seed.isAlive()] *)
| Leaving          (* out of the [try]; before [target.freeSlot()] *)
| FreedTarget      (* before [seed.freeSlot()] *)
| FreedSeed.       (* before [threadlist.remove(self)] *)

#[global] Instance Stage_eq_dec : EqDecision Stage.
Proof. solve_decision. Defined.

(** A thread of [threadlist]. *)
Record Worker := mkWorker { job : Transfer; stage : Stage }.

(** Where the main thread stands in [initiateTransfers] and, within it, in
    [getTransfer], with the local variables of the latter. *)
Inductive MainPc :=
| LoopTest                      (* at the test of the first loop *)
| Turn (q : nat)                (* [for q]: [q] turns left *)
| NextChunk (q pos : nat)       (* [for chunk]: at index [pos] of the list *)
| NextSeed (q pos : nat) (c : Chunk) (sindex i : nat)
                                (* [for i]: [i] turns left *)
| SeedSlot (sindex : nat) (c : Chunk)
                                (* a seed is found; before its [getSlot()] *)
| TargetSlot (sindex : nat) (c : Chunk)
                                (* before the [getSlot()] of the target *)
| Acquiring (tr : Transfer)     (* in [threadsema.acquire()] *)
| Removing (tr : Transfer)      (* before [chunks_needed.remove(chunk)] *)
| Starting (tr : Transfer)      (* before [threadlist.append] and [start()] *)
| Sleeping                      (* no match: in [time.sleep(0.2)] *)
| Joining                       (* in [while threadlist != []] *)
| Returned.                     (* [initiateTransfers] has returned *)

(** The shared state; [matched] is the history of the triples
    [getTransfer] has returned, oldest first. *)
Record World := mkWorld {
  DB : Database;
  options : Options;
  threadlist : list Worker;
  threadsema : nat;
  commandq : CommandQueue;
  mainpc : MainPc;
  matched : list Transfer
}.

Definition set_DB (f : Database → Database) (w : World) : World :=
  {| DB := f (DB w); options := options w; threadlist := threadlist w;
     threadsema := threadsema w; commandq := commandq w; mainpc := mainpc w;
     matched := matched w |}.

Definition set_mainpc (pc : MainPc) (w : World) : World :=
  {| DB := DB w; options := options w; threadlist := threadlist w;
     threadsema := threadsema w; commandq := commandq w; mainpc := pc;
     matched := matched w |}.

Definition set_commandq (f : CommandQueue → CommandQueue) (w : World) : World :=
  {| DB := DB w; options := options w; threadlist := threadlist w;
     threadsema := threadsema w; commandq := f (commandq w); mainpc := mainpc w;
     matched := matched w |}.

(** The worker at position [k] goes on to stage [s]. *)
Definition set_stage (k : nat) (s : Stage) (w : World) : World :=
  {| DB := DB w; options := options w;
     threadlist := alter (λ x, mkWorker (job x) s) k (threadlist w);
     threadsema := threadsema w; commandq := commandq w; mainpc := mainpc w;
     matched := matched w |}.

(** ** The main thread *)

(** [while threadlist != []: time.sleep(0.5)] *)
Definition join (w : World) : World :=
  match threadlist w with
  | [] => set_mainpc Returned w
  | _ :: _ => set_mainpc Joining w
  end.

(** One turn of [for q in xrange(self.hostcount)], up to the test on the
    target. *)
Definition target_turn (q : nat) (w : World) : World :=
  let db := DB w in
  let t := ((tindex db + 1) `mod` hostcount db)%nat in
  let w' := set_DB (set_tindex t) w in
  match hostlist db !! t with
  | Some h =>
      if can_receive h then set_mainpc (NextChunk q 0) w'
      else set_mainpc (Turn q) w'
  | None => set_mainpc Sleeping w'
  end.

(** One turn of [for chunk in self.hostlist[self.tindex].chunks_needed]:
    the iterator reads the list, as it is now, at its index. *)
Definition chunk_turn (q pos : nat) (w : World) (rs : list nat) : World :=
  let db := DB w in
  match needed_at db (tindex db) !! pos with
  | Some c =>
      let sindex := Z.to_nat (Py.randint 0 (Z.of_nat (hostcount db)) (Py.draw rs).1) in
      set_mainpc (NextSeed q pos c sindex (hostcount db)) w
  | None => set_mainpc (Turn q) w
  end.

(** One turn of [for i in xrange(self.hostcount)], up to the test on the
    seed. *)
Definition seed_turn (q pos : nat) (c : Chunk) (sindex i : nat) (w : World)
    : World :=
  let db := DB w in
  let sindex' := prev_index sindex (hostcount db) in
  match hostlist db !! sindex' with
  | Some h =>
      if can_seed c h then set_mainpc (SeedSlot sindex' c) w
      else set_mainpc (NextSeed q pos c sindex' i) w
  | None => set_mainpc (NextChunk q (S pos)) w
  end.

(** The next statement of the main thread. *)
Definition main_step (w : World) (rs : list nat) : World :=
  match mainpc w with
  | LoopTest =>
      if loop_cond (DB w) then set_mainpc (Turn (hostcount (DB w))) w
      else join w
  | Turn O => set_mainpc Sleeping w
  | Turn (S q) => target_turn q w
  | NextChunk q pos => chunk_turn q pos w rs
  | NextSeed q pos c sindex O => set_mainpc (NextChunk q (S pos)) w
  | NextSeed q pos c sindex (S i) => seed_turn q pos c sindex i w
  | SeedSlot s c => set_mainpc (TargetSlot s c) (set_DB (with_host s getSlot) w)
  | TargetSlot s c =>
      let tr := mkTransfer s c (tindex (DB w)) in
      {| DB := with_host (tindex (DB w)) getSlot (DB w);
         options := options w; threadlist := threadlist w;
         threadsema := threadsema w; commandq := commandq w;
         mainpc := Acquiring tr; matched := matched w ++ [tr] |}
  | Acquiring tr =>
      match threadsema w with
      | O => w
      | S n =>
          {| DB := DB w; options := options w; threadlist := threadlist w;
             threadsema := n; commandq := commandq w;
             mainpc := Removing tr; matched := matched w |}
      end
  | Removing tr =>
      set_mainpc (Starting tr)
        (set_DB (with_host (targetindex tr)
                   (set_chunks_needed (λ l, default l (Py.remove (chunk tr) l))))
           w)
  | Starting tr =>
      {| DB := DB w; options := options w;
         threadlist := threadlist w ++ [mkWorker tr Copying];
         threadsema := threadsema w; commandq := commandq w;
         mainpc := LoopTest; matched := matched w |}
  | Sleeping => set_mainpc LoopTest w
  | Joining => join w
  | Returned => w
  end.

(** ** The workers *)

(** The copy of worker [k] exits with status [ret]: the chunk is appended
    to the target's owned list, or requeued. *)
Definition copy_exits (k : nat) (tr : Transfer) (ret : Z) (w : World) : World :=
  if decide (ret = 0) then
    set_stage k Appended
      (set_DB (with_host (targetindex tr)
                 (set_chunks_owned (λ l, l ++ [chunk tr]))) w)
  else
    set_stage k ProbingTarget
      (set_DB (with_host (targetindex tr) (requeue (chunk tr))) w).

(** Starting or awaiting the copy raises: the handler requeues the chunk. *)
Definition copy_raises (k : nat) (tr : Transfer) (w : World) : World :=
  set_stage k Leaving
    (set_DB (with_host (targetindex tr) (requeue (chunk tr))) w).

(** [if self.DB.split_complete and len(target.chunks_owned) ==
    self.DB.chunkCount]: [hostDone()] and the [cat] command. *)
Definition test_complete (k : nat) (tr : Transfer) (w : World) : World :=
  match hostlist (DB w) !! targetindex tr with
  | Some target =>
      if split_complete (DB w)
         && bool_decide (length (chunks_owned target) = chunkCount (DB w))
      then set_stage k Leaving
             (set_commandq (put (catCmd (options w) target)) (set_DB hostDone w))
      else set_stage k Leaving w
  | None => set_stage k Leaving w
  end.

(** [if not host.isAlive(): host.setDead()], when the probe has answered. *)
Definition probed (i : nat) (up : bool) (w : World) : World :=
  if up then w else set_DB (setDead i) w.

(** [threadlist.remove(self)] and [threadsema.release()]. *)
Definition leave (k : nat) (w : World) : World :=
  {| DB := DB w; options := options w;
     threadlist := delete k (threadlist w);
     threadsema := S (threadsema w);
     commandq := commandq w; mainpc := mainpc w; matched := matched w |}.

(** The next statement of worker [k], when it waits for no child. *)
Definition worker_step (k : nat) (x : Worker) (w : World) : option World :=
  match stage x with
  | Appended => Some (test_complete k (job x) w)
  | Leaving =>
      Some (set_stage k FreedTarget
              (set_DB (with_host (targetindex (job x)) freeSlot) w))
  | FreedTarget =>
      Some (set_stage k FreedSeed
              (set_DB (with_host (seedindex (job x)) freeSlot) w))
  | FreedSeed => Some (leave k w)
  | Copying | ProbingTarget | ProbingSeed => None
  end.

(** The probe worker [k] waits for answers. *)
Definition probe_answers (k : nat) (x : Worker) (up : bool) (w : World)
    : option World :=
  match stage x with
  | ProbingTarget =>
      Some (set_stage k ProbingSeed (probed (targetindex (job x)) up w))
  | ProbingSeed =>
      Some (set_stage k Leaving (probed (seedindex (job x)) up w))
  | _ => None
  end.

(** ** The run *)

Definition main_init (rootname : string) (targetlist : list string)
    (max_transfers_per_host : Z) (opts : Options) : World :=
  {| DB := initial_DB rootname targetlist max_transfers_per_host;
     options := opts;
     threadlist := [];
     threadsema := MAX_THREADS;
     commandq := CommandQueue_init MAX_PROCS;
     mainpc := LoopTest;
     matched := [] |}.

Inductive Event :=
| EvSplit (curname : string) (rs : list nat)  (* [split] announces a chunk *)
| EvSplitDone                                 (* [split] ends *)
| EvMain (rs : list nat)                      (* a statement of the main thread *)
| EvCopyExits (k : nat) (ret : Z)             (* the copy of worker [k] exits *)
| EvCopyRaises (k : nat)                      (* the copy of worker [k] raises *)
| EvProbe (k : nat) (up : bool)               (* a probe of worker [k] answers *)
| EvWorker (k : nat).                         (* a statement of worker [k] *)

(** One event, when it can take place. *)
Definition step (w : World) (e : Event) : option World :=
  match e with
  | EvSplit curname rs =>
      if split_complete (DB w) then None
      else if Py.contains (mkChunk curname) (root_owned (DB w)) then None
      else Some (set_DB (λ db, fst (split_file_step curname db rs)) w)
  | EvSplitDone => Some (set_DB (set_split_complete true) w)
  | EvMain rs => Some (main_step w rs)
  | EvCopyExits k ret =>
      match threadlist w !! k with
      | Some x =>
          match stage x with
          | Copying => Some (copy_exits k (job x) ret w)
          | _ => None
          end
      | None => None
      end
  | EvCopyRaises k =>
      match threadlist w !! k with
      | Some x =>
          match stage x with
          | Copying => Some (copy_raises k (job x) w)
          | _ => None
          end
      | None => None
      end
  | EvProbe k up =>
      match threadlist w !! k with
      | Some x => probe_answers k x up w
      | None => None
      end
  | EvWorker k =>
      match threadlist w !! k with
      | Some x => worker_step k x w
      | None => None
      end
  end.

Fixpoint run (w : World) (evs : list Event) : option World :=
  match evs with
  | [] => Some w
  | e :: evs' =>
      match step w e with
      | Some w' => run w' evs'
      | None => None
      end
  end.

(** ** The chunks on their way *)

(** The chunks that the workers whose copy has not returned carry to host
    [j]. *)
Definition copying (j : nat) (ws : list Worker) : list Chunk :=
  (λ x, chunk (job x)) <$>
    filter (λ x, stage x = Copying ∧ targetindex (job x) = j) ws.

(** The chunk for host [j] that the main thread has removed from the
    needed list and not yet handed to a worker. *)
Definition in_hand (j : nat) (pc : MainPc) : list Chunk :=
  match pc with
  | Starting tr => if decide (targetindex tr = j) then [chunk tr] else []
  | _ => []
  end.

(** The chunk that the main thread has read in a needed list and not yet
    removed from it, with the host of the list ([t] is the cursor). *)
Definition chosen (t : nat) (pc : MainPc) : option (nat * Chunk) :=
  match pc with
  | NextSeed _ _ c _ _ | SeedSlot _ c | TargetSlot _ c => Some (t, c)
  | Acquiring tr | Removing tr => Some (targetindex tr, chunk tr)
  | _ => None
  end.

(** The chunks of host [j] that are not in its lists: on their way. *)
Definition on_the_way (w : World) (j : nat) : list Chunk :=
  copying j (threadlist w) ++ in_hand j (mainpc w).

(** Every chunk the root owns is, for each other host, in exactly one
    place: in the needed list, in the owned list, or on its way. *)
Definition accounted (db : Database) (extra : nat → list Chunk) : Prop :=
  ∀ j, (0 < j < hostcount db)%nat →
    chunk_index_at db j = chunkCount db ∧
    needed_at db j ++ owned_at db j ++ extra j ≡ₚ owned_at db 0.

Definition rooted (db : Database) : Prop :=
  roothost db = 0%nat ∧ (0 < hostcount db)%nat ∧ needed_at db 0 = [] ∧
  chunkCount db = length (owned_at db 0) ∧ NoDup (owned_at db 0).

(** [db'] has the chunk lists of [db]. *)
Definition same_lists (db db' : Database) : Prop :=
  hostcount db' = hostcount db ∧ roothost db' = roothost db ∧
  chunkCount db' = chunkCount db ∧
  ∀ j, needed_at db' j = needed_at db j ∧ owned_at db' j = owned_at db j ∧
       chunk_index_at db' j = chunk_index_at db j.

Definition tokens_inv (w : World) : Prop :=
  rooted (DB w) ∧
  Forall (λ x, (0 < targetindex (job x) < hostcount (DB w))%nat) (threadlist w) ∧
  (∀ tr, mainpc w = Starting tr →
     (0 < targetindex tr < hostcount (DB w))%nat) ∧
  (∀ t c, chosen (tindex (DB w)) (mainpc w) = Some (t, c) →
     c ∈ needed_at (DB w) t) ∧
  accounted (DB w) (on_the_way w).

End Fine.

(** ** The statements of an event of [step], taken in a row *)

(** Where the main thread of [step] stands when that of [Fine.step] is at
    the loop test, holds a match, or has left the loop. *)
Definition coarse_pc (pc : Fine.MainPc) : MainPc :=
  match pc with
  | Fine.Acquiring tr => Acquiring tr
  | Fine.Joining => Joining
  | Fine.Returned => Returned
  | _ => Scheduling
  end.

(** The state of [step] that a state of [Fine.step] stands for, with the
    history [acts] of the children, which [Fine.step] does not keep. *)
Definition coarse_of (fw : Fine.World) (acts : list Action) : World :=
  {| DB := Fine.DB fw; options := Fine.options fw;
     threadlist := Fine.job <$> Fine.threadlist fw;
     threadsema := Fine.threadsema fw; commandq := Fine.commandq fw;
     mainpc := coarse_pc (Fine.mainpc fw); matched := Fine.matched fw;
     actions := acts |}.

(** The events of worker [k] from the return of its copy to its end, for
    the outcome [o]. *)
Definition worker_events (k : nat) (o : Outcome) : list Fine.Event :=
  match o with
  | Exits ret target_up seed_up =>
      if decide (ret = 0)
      then Fine.EvCopyExits k ret :: replicate 4 (Fine.EvWorker k)
      else [Fine.EvCopyExits k ret; Fine.EvProbe k target_up;
            Fine.EvProbe k seed_up] ++ replicate 3 (Fine.EvWorker k)
  | Raised => Fine.EvCopyRaises k :: replicate 3 (Fine.EvWorker k)
  end.

(** The turns of the loop over the seeds for [chunk], from [sindex] with
    [i] turns left, up to the seed found or the end of the loop. *)
Fixpoint seed_events (hl : list Host) (chunk : Chunk) (sindex i : nat)
    : list Fine.Event :=
  Fine.EvMain [] ::
  match i with
  | O => []
  | S i' =>
      let sindex' := prev_index sindex (length hl) in
      match hl !! sindex' with
      | Some h =>
          if can_seed chunk h then [] else seed_events hl chunk sindex' i'
      | None => []
      end
  end.

(** The turns of the loop over the chunks of [needed], with the draws [rs],
    up to the seed found or the end of the list. *)
Fixpoint chunk_events (hl : list Host) (needed : list Chunk) (rs : list nat)
    : list Fine.Event :=
  match needed with
  | [] => [Fine.EvMain []]
  | chunk :: rest =>
      let '(d, rs') := Py.draw rs in
      let sindex := Z.to_nat (Py.randint 0 (Z.of_nat (length hl)) d) in
      Fine.EvMain [d] :: seed_events hl chunk sindex (length hl) ++
        match seed_scan hl chunk sindex (length hl) with
        | Some _ => []
        | None => chunk_events hl rest rs'
        end
  end.

(** The turns of the loop over the targets, from the cursor [t] with [q]
    turns left, up to the seed found or the end of the loop. *)
Fixpoint target_events (hl : list Host) (t : nat) (rs : list nat) (q : nat)
    : list Fine.Event :=
  Fine.EvMain [] ::
  match q with
  | O => []
  | S q' =>
      let t' := ((t + 1) `mod` length hl)%nat in
      match hl !! t' with
      | Some h =>
          if can_receive h then
            chunk_events hl (chunks_needed h) rs ++
              match chunk_scan hl (chunks_needed h) rs with
              | (Some _, _) => []
              | (None, rs') => target_events hl t' rs' q'
              end
          else target_events hl t' rs q'
      | None => []
      end
  end.

(** The thread permit, the removal of the chunk and the start of the
    worker, when a permit is left. *)
Definition start_events (fw : Fine.World) : list Fine.Event :=
  match Fine.threadsema fw with
  | O => []
  | S _ => replicate 3 (Fine.EvMain [])
  end.

(** The statements of the main thread that make one turn of [step]: from
    the loop test through the call of [getTransfer] with the draws [rs] to
    the start of the worker, or to the next blocking call. *)
Definition turn_events (fw : Fine.World) (rs : list nat) : list Fine.Event :=
  match Fine.mainpc fw with
  | Fine.LoopTest =>
      Fine.EvMain [] ::
      if loop_cond (Fine.DB fw) then
        target_events (hostlist (Fine.DB fw)) (tindex (Fine.DB fw)) rs
          (hostcount (Fine.DB fw)) ++
        match (getTransfer (Fine.DB fw) rs).1.1 with
        | Some _ => [Fine.EvMain []; Fine.EvMain []] ++ start_events fw
        | None => [Fine.EvMain []]
        end
      else []
  | Fine.Acquiring _ => start_events fw
  | Fine.Joining => [Fine.EvMain []]
  | _ => []
  end.

(** The main thread stands where a turn of [step] begins, or has left the
    loop, and every worker waits for its copy. *)
Definition rest_pc (pc : Fine.MainPc) : bool :=
  match pc with
  | Fine.LoopTest | Fine.Acquiring _ | Fine.Joining | Fine.Returned => true
  | _ => false
  end.

Definition at_rest (fw : Fine.World) : Prop :=
  rest_pc (Fine.mainpc fw) = true ∧
  Forall (λ x, Fine.stage x = Fine.Copying) (Fine.threadlist fw).

(** The statements of one event of [step]; the queue thread has none in
    [Fine.step]. *)
Definition row (fw : Fine.World) (e : Event) : list Fine.Event :=
  match e with
  | EvSplit curname rs => [Fine.EvSplit curname rs]
  | EvSplitDone => [Fine.EvSplitDone]
  | EvMain rs => turn_events fw rs
  | EvTransfer k o => worker_events k o
  | EvConsumer | EvChildExit _ => []
  end.

(** The schedule of [Fine.step] in which the threads take their turns in
    the order [evs] and no step of another thread falls inside a turn: the
    statements of each event of [evs] come in a row. *)
Fixpoint rows (fw : Fine.World) (evs : list Event) : list Fine.Event :=
  match evs with
  | [] => []
  | e :: evs' =>
      row fw e ++
      match Fine.run fw (row fw e) with
      | Some fw' => rows fw' evs'
      | None => []
      end
  end.

Module Examples_fine.

(** A whole call of [getTransfer] that finds the root as seed for the first
    chunk the next host needs: the loop test, a turn over the targets, a
    turn over the chunks (the draw makes the scan for a seed start at the
    root), a turn over the seeds, and the two slots. *)
Definition call : list Fine.Event :=
  [Fine.EvMain []; Fine.EvMain []; Fine.EvMain [1%nat]; Fine.EvMain [];
   Fine.EvMain []; Fine.EvMain []].

(** The thread permit, the removal of the chunk, the start of the worker. *)
Definition start : list Fine.Event :=
  [Fine.EvMain []; Fine.EvMain []; Fine.EvMain []].

(** Root and node1, one chunk: the chunk is split off, matched, and its
    worker started. *)
Definition one_copying : list Fine.Event :=
  Fine.EvSplit "/tmp/f.chunk_aa" [] :: call ++ start.

(** The copy of worker [k] exits with status 1, both probes answer, and
    the worker runs to its end. *)
Definition fails (k : nat) : list Fine.Event :=
  [Fine.EvCopyExits k 1; Fine.EvProbe k true; Fine.EvProbe k true;
   Fine.EvWorker k; Fine.EvWorker k; Fine.EvWorker k].

(** The copy of worker [k] exits with status 0 and the worker runs to its
    end. *)
Definition succeeds (k : nat) : list Fine.Event :=
  [Fine.EvCopyExits k 0; Fine.EvWorker k; Fine.EvWorker k; Fine.EvWorker k;
   Fine.EvWorker k].

(** One root and three targets, one slot each, and six chunks. *)
Definition four_hosts : Fine.World :=
  Fine.main_init "root" ["node1"; "node2"; "node3"] 1 Examples.opts.

Definition six_chunks : list Fine.Event :=
  [Fine.EvSplit "/tmp/f.chunk_aa" []; Fine.EvSplit "/tmp/f.chunk_ab" [];
   Fine.EvSplit "/tmp/f.chunk_ac" []; Fine.EvSplit "/tmp/f.chunk_ad" [];
   Fine.EvSplit "/tmp/f.chunk_ae" []; Fine.EvSplit "/tmp/f.chunk_af" []].

(** A chunk for which no host can seed: the turn over the chunks, four
    turns over the seeds, the end of the loop over the seeds. *)
Definition no_seed : list Fine.Event := replicate 6 (Fine.EvMain [1%nat]).

(** The third call of [getTransfer], up to the end of its turn on node3:
    the loop test, the turn over the targets, six chunks without a seed
    (the only slot of the root is taken), the end of the needed list. *)
Definition scan_node3 : list Fine.Event :=
  [Fine.EvMain []; Fine.EvMain []] ++ mjoin (replicate 6 no_seed)
    ++ [Fine.EvMain []].

(** The rest of the third call: the turn on the root, which needs nothing,
    and the turn on node1, for whose first chunk the root is found. *)
Definition scan_on : list Fine.Event :=
  [Fine.EvMain []; Fine.EvMain []; Fine.EvMain []; Fine.EvMain [1%nat];
   Fine.EvMain []; Fine.EvMain []; Fine.EvMain []].

(** Root and node1, one chunk and the end of [split]: the chunk is copied
    to node1, whose worker runs to its end. *)
Definition one_copied : list Fine.Event :=
  Fine.EvSplit "/tmp/f.chunk_aa" [] :: Fine.EvSplitDone :: call ++ start
    ++ succeeds 0.

(** The first copy, to node1, fails; the second, to node2, returns while
    the third call is between its turn on node3 and its turn on node1. *)
Definition three_calls : list Fine.Event :=
  six_chunks ++ call ++ start ++ fails 0 ++ call ++ start
    ++ scan_node3 ++ succeeds 0 ++ scan_on.

(** Root and node1, two slots each, two chunks.  The first chunk is
    matched and its copy started; the second call of [getTransfer] has
    found the root as seed for the other chunk when the first copy fails
    and node1 does not answer the probe. *)
Definition two_chunks : Fine.World :=
  Fine.main_init "root" ["node1"] 2 Examples.opts.

Definition found_then_dead : list Fine.Event :=
  [Fine.EvSplit "/tmp/f.chunk_aa" []; Fine.EvSplit "/tmp/f.chunk_ab" []]
    ++ call ++ start
    ++ [Fine.EvMain []; Fine.EvMain []; Fine.EvMain []; Fine.EvMain [];
        Fine.EvMain [1%nat]; Fine.EvMain []]
    ++ [Fine.EvCopyExits 0 1; Fine.EvProbe 0 false].

(** The slots, the thread permit, the removal, the start. *)
Definition then_started : list Fine.Event := replicate 5 (Fine.EvMain []).

(** On root and node1 with the cursor on node1, a whole call of
    [getTransfer] that passes the root, which needs nothing, and finds the
    root as seed for the first chunk node1 needs. *)
Definition call_round : list Fine.Event :=
  [Fine.EvMain []; Fine.EvMain []; Fine.EvMain []; Fine.EvMain [];
   Fine.EvMain [1%nat]; Fine.EvMain []; Fine.EvMain []; Fine.EvMain []].

(** The only chunk is matched and its copy fails; while the worker waits
    for the probe of node1 the chunk is matched again and a second copy
    started. *)
Definition rematch : list Fine.Event :=
  Fine.EvSplit "/tmp/f.chunk_aa" [] :: call ++ start
    ++ [Fine.EvCopyExits 0 1] ++ call_round ++ start.

(** Two chunks are copied to node1 by two workers; both copies return
    before either worker tests whether node1 is complete. *)
Definition both_test : list Fine.Event :=
  [Fine.EvSplit "/tmp/f.chunk_aa" []; Fine.EvSplit "/tmp/f.chunk_ab" [];
   Fine.EvSplitDone]
    ++ call ++ start ++ call_round ++ start
    ++ [Fine.EvCopyExits 0 0; Fine.EvCopyExits 1 0;
        Fine.EvWorker 0; Fine.EvWorker 1].

End Examples_fine.

(** * Properties *)

#[local] Arguments with_host : simpl never.

Section with_host_lemmas.

Lemma hostcount_with_host i f db : hostcount (with_host i f db) = hostcount db.
Proof. unfold hostcount, with_host; simpl. apply length_alter. Qed.

Lemma roothost_with_host i f db : roothost (with_host i f db) = roothost db.
Proof. reflexivity. Qed.

Lemma tindex_with_host i f db : tindex (with_host i f db) = tindex db.
Proof. reflexivity. Qed.

Lemma chunkCount_with_host i f db : chunkCount (with_host i f db) = chunkCount db.
Proof. reflexivity. Qed.

Lemma lookup_with_host i f db j :
  hostlist (with_host i f db) !! j =
  if decide (i = j) then f <$> hostlist db !! j else hostlist db !! j.
Proof.
  unfold with_host; simpl. rewrite list_lookup_alter.
  by destruct (decide (i = j)) as [->|Hne].
Qed.

(** A field [get] that the update [f] does not touch reads the same. *)
Lemma field_with_host_frame {A} (get : Host → A) (d : A) i f db j :
  (∀ h, get (f h) = get h) →
  from_option get d (hostlist (with_host i f db) !! j) =
  from_option get d (hostlist db !! j).
Proof.
  intros Hf. rewrite lookup_with_host.
  destruct (decide (i = j)); [|done].
  destruct (hostlist db !! j); simpl; [apply Hf|done].
Qed.

Lemma field_with_host_ne {A} (get : Host → A) (d : A) i f db j :
  i ≠ j →
  from_option get d (hostlist (with_host i f db) !! j) =
  from_option get d (hostlist db !! j).
Proof. intros Hne. rewrite lookup_with_host. by destruct (decide (i = j)). Qed.

Lemma field_with_host_eq {A} (get : Host → A) (d : A) i f db h :
  hostlist db !! i = Some h →
  from_option get d (hostlist (with_host i f db) !! i) = get (f h).
Proof.
  intros Hh. rewrite lookup_with_host.
  destruct (decide (i = i)); [|done]. by rewrite Hh.
Qed.

Lemma slots_at_getSlot i db j :
  (i < hostcount db)%nat →
  slots_at (with_host i getSlot db) j = slots_at db j - one_if i j.
Proof.
  intros Hi. unfold slots_at, one_if. rewrite lookup_with_host.
  destruct (decide (i = j)) as [->|]; [|lia].
  destruct (lookup_lt_is_Some_2 (hostlist db) j Hi) as [h ->]. done.
Qed.

Lemma slots_at_freeSlot i db j :
  (i < hostcount db)%nat →
  slots_at (with_host i freeSlot db) j = slots_at db j + one_if i j.
Proof.
  intros Hi. unfold slots_at, one_if. rewrite lookup_with_host.
  destruct (decide (i = j)) as [->|]; [|lia].
  destruct (lookup_lt_is_Some_2 (hostlist db) j Hi) as [h ->]. done.
Qed.

Lemma needed_at_set_chunks_needed i g db j :
  (i < hostcount db)%nat →
  needed_at (with_host i (set_chunks_needed g) db) j =
  if decide (i = j) then g (needed_at db j) else needed_at db j.
Proof.
  intros Hi. unfold needed_at. rewrite lookup_with_host.
  destruct (decide (i = j)) as [->|]; [|done].
  destruct (lookup_lt_is_Some_2 (hostlist db) j Hi) as [h ->]. done.
Qed.

Lemma owned_at_set_chunks_owned i g db j :
  (i < hostcount db)%nat →
  owned_at (with_host i (set_chunks_owned g) db) j =
  if decide (i = j) then g (owned_at db j) else owned_at db j.
Proof.
  intros Hi. unfold owned_at. rewrite lookup_with_host.
  destruct (decide (i = j)) as [->|]; [|done].
  destruct (lookup_lt_is_Some_2 (hostlist db) j Hi) as [h ->]. done.
Qed.

Lemma remove_is_Some (c : Chunk) (l : list Chunk) :
  c ∈ l → is_Some (Py.remove c l).
Proof.
  induction l as [|y l IH]; [by intros ?%elem_of_nil|].
  intros Hin. simpl. destruct (decide (c = y)); [eauto|].
  apply elem_of_cons in Hin as [?|Hin]; [done|].
  destruct (IH Hin) as [l' ->]. simpl. eauto.
Qed.

End with_host_lemmas.

Section getTransfer_lemmas.

Lemma seed_scan_Some hl c sindex i s :
  seed_scan hl c sindex i = Some s →
  ∃ h, hl !! s = Some h ∧ can_seed c h = true.
Proof.
  revert sindex. induction i as [|i IH]; intros sindex; simpl; [done|].
  generalize (prev_index sindex (length hl)) as s1. intros s1.
  destruct (hl !! s1) as [h|] eqn:Hh; [|done].
  destruct (can_seed c h) eqn:Hc.
  - intros [= <-]. eauto.
  - apply IH.
Qed.

Lemma chunk_scan_Some hl needed rs s c rs' :
  chunk_scan hl needed rs = (Some (s, c), rs') →
  c ∈ needed ∧ ∃ h, hl !! s = Some h ∧ can_seed c h = true.
Proof.
  revert rs. induction needed as [|c0 needed IH]; intros rs; simpl; [done|].
  destruct (Py.draw rs) as [d rs1].
  destruct (seed_scan _ _ _ _) as [s0|] eqn:Hs.
  - intros [= <- <- <-]. split; [left|]. by eapply seed_scan_Some.
  - intros H. destruct (IH _ H) as [? ?]. split; [by right|done].
Qed.

Lemma target_scan_Some hl t0 rs q s t c t' rs' :
  target_scan hl t0 rs q = (Some (s, t, c), t', rs') →
  t' = t ∧
  (∃ h, hl !! t = Some h ∧ can_receive h = true ∧ c ∈ chunks_needed h) ∧
  (∃ h, hl !! s = Some h ∧ can_seed c h = true).
Proof.
  revert t0 rs. induction q as [|q IH]; intros t0 rs; simpl; [done|].
  generalize ((t0 + 1) `mod` length hl)%nat as t1. intros t1.
  destruct (hl !! t1) as [h|] eqn:Hh; [|done].
  destruct (can_receive h) eqn:Hr; [|apply IH].
  destruct (chunk_scan hl (chunks_needed h) rs) as [[[s0 c0]|] rs1] eqn:Hc.
  - intros [= <- <- <- <- <-].
    destruct (chunk_scan_Some _ _ _ _ _ _ Hc) as [Hin Hseed]. eauto 10.
  - apply IH.
Qed.

(** What a successful [getTransfer] did to the database. *)
Lemma getTransfer_Some db rs s t c db' rs' :
  getTransfer db rs = (Some (s, t, c), db', rs') →
  db' = with_host t getSlot (with_host s getSlot (set_tindex t db)) ∧
  (∃ h, hostlist db !! t = Some h ∧ can_receive h = true ∧ c ∈ chunks_needed h) ∧
  (∃ h, hostlist db !! s = Some h ∧ can_seed c h = true).
Proof.
  unfold getTransfer.
  destruct (target_scan _ _ _ _) as [[[[[s0 t0] c0]|] t1] rs1] eqn:Hscan; [|done].
  intros [= <- <- <- <- <-].
  destruct (target_scan_Some _ _ _ _ _ _ _ _ _ Hscan) as (-> & Ht & Hs). done.
Qed.

(** A failed [getTransfer] only moves the cursor. *)
Lemma getTransfer_None db rs db' rs' :
  getTransfer db rs = (None, db', rs') → ∃ t', db' = set_tindex t' db.
Proof.
  unfold getTransfer.
  destruct (target_scan _ _ _ _) as [[[[[s0 t0] c0]|] t1] rs1]; [done|].
  intros [= <- <-]. eauto.
Qed.

(** What a successful [getTransfer] leaves as it was, and what not. *)
Lemma getTransfer_Some_frame db rs s t c db' rs' :
  getTransfer db rs = (Some (s, t, c), db', rs') →
  (s < hostcount db)%nat ∧ (t < hostcount db)%nat ∧
  (∀ i, slots_at db' i = slots_at db i - one_if s i - one_if t i) ∧
  (∀ i, needed_at db' i = needed_at db i) ∧
  c ∈ needed_at db t.
Proof.
  intros Hget.
  destruct (getTransfer_Some _ _ _ _ _ _ _ Hget)
    as (-> & (ht & Ht & _ & Hc) & (hs & Hs & _)).
  assert (Hs' : (s < hostcount db)%nat) by (by eapply lookup_lt_Some).
  assert (Ht' : (t < hostcount db)%nat) by (by eapply lookup_lt_Some).
  split_and!; try done.
  - intros i. rewrite slots_at_getSlot by by rewrite hostcount_with_host.
    rewrite slots_at_getSlot by done. unfold slots_at; simpl. lia.
  - intros i. unfold needed_at. by rewrite !field_with_host_frame.
  - unfold needed_at. by rewrite Ht.
Qed.

(** [chunks_needed.remove(chunk)] in [initiateTransfers]. *)
Lemma start_transfer_removes tr w :
  chunk tr ∈ needed_at (DB w) (targetindex tr) →
  Py.remove (chunk tr) (needed_at (DB w) (targetindex tr))
  = Some (needed_at (DB (start_transfer tr w)) (targetindex tr)).
Proof.
  intros Hin.
  assert (Ht : (targetindex tr < hostcount (DB w))%nat).
  { unfold needed_at in Hin. apply lookup_lt_is_Some.
    destruct (hostlist (DB w) !! targetindex tr); [eauto|].
    by apply elem_of_nil in Hin. }
  unfold start_transfer; cbn.
  rewrite needed_at_set_chunks_needed by done.
  rewrite decide_True by done.
  by destruct (remove_is_Some _ _ Hin) as [l' ->].
Qed.

End getTransfer_lemmas.

(** ** C1: what [getTransfer] has done when it returns *)

(** C1, as stated, fails: when [getTransfer] returns the triple
    [(0, 1, chunk_a)], both slot counts are debited but the chunk is still
    in the target's needed list. *)
Lemma getTransfer_leaves_chunk_in_needed :
  ∃ db' rs',
    getTransfer Examples.db_two_hosts [0%nat]
      = (Some (0%nat, 1%nat, Examples.chunk_a), db', rs') ∧
    slots_at db' 0 = slots_at Examples.db_two_hosts 0 - 1 ∧
    slots_at db' 1 = slots_at Examples.db_two_hosts 1 - 1 ∧
    ¬ (Examples.chunk_a ∉ needed_at db' 1).
Proof.
  eexists _, _. split; [vm_compute; reflexivity|].
  split; [done|]. split; [done|].
  intros H. apply H. vm_compute. left.
Qed.

(** C1, amended: when [getTransfer] returns [(s, t, c)], the slot counts of
    [s] and [t] are each debited by one, no needed list has changed and [c]
    is still in the needed list of [t]; it is [initiateTransfers] that
    removes (the first occurrence of) [c] from that list, once it holds a
    thread permit. *)
Theorem getTransfer_debits_slots_only db rs s t c db' rs'
    (Hget : getTransfer db rs = (Some (s, t, c), db', rs')) :
  (s < hostcount db)%nat ∧ (t < hostcount db)%nat ∧
  (∀ i, slots_at db' i = slots_at db i - one_if s i - one_if t i) ∧
  (∀ i, needed_at db' i = needed_at db i) ∧
  c ∈ needed_at db' t ∧
  (∀ w, DB w = db' →
     Py.remove c (needed_at db' t)
       = Some (needed_at (DB (start_transfer (mkTransfer s c t) w)) t)).
Proof.
  destruct (getTransfer_Some_frame _ _ _ _ _ _ _ Hget)
    as (Hs & Ht & Hslots & Hneeded & Hin).
  split_and!; try done.
  - by rewrite Hneeded.
  - intros w Hw. rewrite <- Hw.
    apply (start_transfer_removes (mkTransfer s c t) w). cbn.
    by rewrite Hw, Hneeded.
Qed.

(** The amended C1 at work on two hosts. *)
Lemma getTransfer_debits_slots_only_witness :
  ∃ db' rs',
    getTransfer Examples.db_two_hosts [0%nat]
      = (Some (0%nat, 1%nat, Examples.chunk_a), db', rs') ∧
    Examples.chunk_a ∈ needed_at db' 1.
Proof.
  eexists _, _. split; [vm_compute; reflexivity|].
  eapply (getTransfer_debits_slots_only Examples.db_two_hosts [0%nat]).
  vm_compute; reflexivity.
Defined.

Section Transfer_run_lemmas.

Lemma hostcount_setDead i db : hostcount (setDead i db) = hostcount db.
Proof.
  unfold setDead. destruct (hostlist db !! i) as [h|]; [|done].
  destruct (Host_setDead h) as [h' []]; apply hostcount_with_host.
Qed.

(** [setDead] leaves the fields other than [alive] and [transferslots]. *)
Lemma field_setDead_frame {A} (get : Host → A) (d : A) i db j :
  (∀ h, get (fst (Host_setDead h)) = get h) →
  from_option get d (hostlist (setDead i db) !! j) =
  from_option get d (hostlist db !! j).
Proof.
  intros Hget. unfold setDead.
  destruct (hostlist db !! i) as [h|] eqn:Hh; [|done].
  specialize (Hget h). destruct (Host_setDead h) as [h' counted].
  assert (from_option get d (hostlist (with_host i (λ _, h') db) !! j)
          = from_option get d (hostlist db !! j)) as Heq.
  { rewrite lookup_with_host. destruct (decide (i = j)) as [<-|]; [|done].
    rewrite Hh. done. }
  by destruct counted.
Qed.

Lemma needed_at_setDead i db j : needed_at (setDead i db) j = needed_at db j.
Proof.
  apply field_setDead_frame. intros h. unfold Host_setDead.
  by destruct (alive h).
Qed.

Lemma owned_at_setDead i db j : owned_at (setDead i db) j = owned_at db j.
Proof.
  apply field_setDead_frame. intros h. unfold Host_setDead.
  by destruct (alive h).
Qed.

Lemma DB_transfer_succeeded tr w :
  let db1 := with_host (targetindex tr)
               (set_chunks_owned (λ l, l ++ [chunk tr])) (DB w) in
  (targetindex tr < hostcount (DB w))%nat →
  DB (transfer_succeeded tr w) = db1 ∨ DB (transfer_succeeded tr w) = hostDone db1.
Proof.
  intros db1 Ht. unfold transfer_succeeded. fold db1.
  destruct (lookup_lt_is_Some_2 (hostlist db1) (targetindex tr)) as [h ->].
  { pose proof (hostcount_with_host (targetindex tr)
      (set_chunks_owned (λ l, l ++ [chunk tr])) (DB w)) as E.
    unfold hostcount in *. subst db1. lia. }
  destruct (_ && _); cbn; auto.
Qed.

Lemma hostlist_transfer_succeeded tr w :
  (targetindex tr < hostcount (DB w))%nat →
  hostlist (DB (transfer_succeeded tr w)) =
  hostlist (with_host (targetindex tr)
              (set_chunks_owned (λ l, l ++ [chunk tr])) (DB w)).
Proof.
  intros Ht. by destruct (DB_transfer_succeeded tr w Ht) as [-> | ->].
Qed.

(** A field that none of the worker's updates writes is the same after
    [Transfer.run], whatever the outcome. *)
Lemma Transfer_run_field_frame {A} (get : Host → A) (d : A) :
  (∀ f h, get (set_chunks_owned f h) = get h) →
  (∀ f h, get (set_chunks_needed f h) = get h) →
  (∀ f h, get (set_transferslots f h) = get h) →
  (∀ b h, get (set_alive b h) = get h) →
  ∀ k tr o w j,
    from_option get d (hostlist (DB (Transfer_run k tr o w)) !! j) =
    from_option get d (hostlist (DB w) !! j).
Proof.
  intros Ho Hn Hs Ha k tr o w j.
  assert (Hrq : ∀ c h, get (requeue c h) = get h).
  { intros c h. unfold requeue. destruct (Py.contains _ _); [done|apply Hn]. }
  assert (Hd : ∀ h, get (fst (Host_setDead h)) = get h).
  { intros h. unfold Host_setDead. destruct (alive h); cbn; [|done].
    by rewrite Hs, Ha. }
  unfold Transfer_run, transfer_epilogue; cbn.
  rewrite !field_with_host_frame by (intros; apply Hs).
  destruct o as [ret tu su|].
  - destruct (decide (ret = 0)).
    + unfold transfer_succeeded; cbn.
      destruct (hostlist (with_host _ _ _) !! targetindex tr) eqn:Hl; [|done].
      destruct (_ && _); cbn; by rewrite field_with_host_frame.
    + unfold transfer_failed, probe.
      destruct su, tu; cbn;
        rewrite ?field_setDead_frame by done;
        by rewrite field_with_host_frame.
  - unfold transfer_raised; cbn. by rewrite field_with_host_frame.
Qed.

Lemma hostcount_Transfer_run k tr o w :
  hostcount (DB (Transfer_run k tr o w)) = hostcount (DB w).
Proof.
  unfold Transfer_run, transfer_epilogue; cbn.
  rewrite !hostcount_with_host.
  destruct o as [ret tu su|].
  - destruct (decide (ret = 0)).
    + unfold transfer_succeeded; cbn.
      destruct (hostlist (with_host _ _ _) !! targetindex tr) eqn:Hl; [|done].
      destruct (_ && _); cbn; unfold hostcount; cbn;
        apply hostcount_with_host.
    + unfold transfer_failed, probe.
      destruct su, tu; cbn;
        rewrite ?hostcount_setDead; apply hostcount_with_host.
  - unfold transfer_raised; cbn. apply hostcount_with_host.
Qed.

(** The needed lists after [Transfer.run]: only the target's may change,
    and only by [requeue], on the two failure paths. *)
Lemma needed_at_Transfer_run k tr o w j :
  (targetindex tr < hostcount (DB w))%nat →
  needed_at (DB (Transfer_run k tr o w)) j =
  if failed o && bool_decide (targetindex tr = j)
  then (if Py.contains (chunk tr) (needed_at (DB w) j) then needed_at (DB w) j
        else needed_at (DB w) j ++ [chunk tr])
  else needed_at (DB w) j.
Proof.
  intros Ht.
  assert (Hrq : needed_at (with_host (targetindex tr) (requeue (chunk tr)) (DB w)) j
                = if bool_decide (targetindex tr = j)
                  then (if Py.contains (chunk tr) (needed_at (DB w) j)
                        then needed_at (DB w) j
                        else needed_at (DB w) j ++ [chunk tr])
                  else needed_at (DB w) j).
  { unfold needed_at. rewrite lookup_with_host.
    case_bool_decide as Hj; destruct (decide (targetindex tr = j)); try done.
    subst j. destruct (lookup_lt_is_Some_2 (hostlist (DB w)) _ Ht) as [h ->].
    cbn. unfold requeue. by destruct (Py.contains _ _). }
  unfold Transfer_run, transfer_epilogue; cbn.
  unfold needed_at at 1. rewrite !field_with_host_frame by done.
  destruct o as [ret tu su|]; cbn.
  - destruct (decide (ret = 0)) as [->|Hret].
    + rewrite bool_decide_eq_false_2 by (intros H; by apply H). cbn.
      rewrite hostlist_transfer_succeeded by done.
      by rewrite field_with_host_frame.
    + rewrite bool_decide_eq_true_2 by done. cbn.
      unfold transfer_failed, probe.
      destruct su, tu; cbn; fold (needed_at (DB w) j);
        repeat (match goal with
                | |- context [from_option chunks_needed [] (hostlist ?db !! j)] =>
                    change (from_option chunks_needed [] (hostlist db !! j))
                      with (needed_at db j)
                end);
        rewrite ?needed_at_setDead; apply Hrq.
  - unfold transfer_raised; cbn. apply Hrq.
Qed.

End Transfer_run_lemmas.

(** ** C3: the failure counter *)

(** C3 on the code: the copy from the root to node1 exits with status 1
    and both hosts answer the probe; when [Transfer.run] has returned, the
    failure counter of node1 is not one more than before.  [incFailCount],
    "called after a transfer to a host fails" by its own description, is
    called nowhere, and neither is [resetFailCount]. *)
Lemma Transfer_run_failure_keeps_failcount :
  let w := Examples_worker.copying in
  threadlist w !! 0%nat = Some Examples_worker.tr ∧
  failcount_at (DB (Transfer_run 0 Examples_worker.tr (Exits 1 true true) w)) 1
    ≠ (failcount_at (DB w) 1 + 1).
Proof. split; [reflexivity|]. vm_compute. discriminate. Qed.

(** No outcome of the copy makes [Transfer.run] write the failure counter
    of a host. *)
Lemma Transfer_run_failcount_unchanged k tr o w i :
  failcount_at (DB (Transfer_run k tr o w)) i = failcount_at (DB w) i.
Proof. by apply Transfer_run_field_frame. Qed.

(** ** The needed list of the target, from start to completion *)

Lemma remove_NoDup_not_elem (c : Chunk) (l l' : list Chunk) :
  NoDup l → Py.remove c l = Some l' → c ∉ l'.
Proof.
  revert l'. induction l as [|y l IH]; intros l' Hnd; simpl; [done|].
  apply NoDup_cons in Hnd as [Hy Hnd].
  destruct (decide (c = y)) as [->|Hne].
  - by intros [= <-].
  - destruct (Py.remove c l) as [l0|]; simpl; [|done].
    intros [= <-]. rewrite not_elem_of_cons. split; [done|]. by apply IH.
Qed.

(** [initiateTransfers] takes the chunk out of a needed list without
    duplicates; if it is still out when the copy returns, [Transfer.run]
    appends it at the tail if the transfer failed and leaves the list
    alone if it succeeded. *)
Lemma requeued_iff_failed_after_start (w : World) (tr : Transfer)
    (Hnodup : NoDup (needed_at (DB w) (targetindex tr)))
    (Hin : chunk tr ∈ needed_at (DB w) (targetindex tr)) :
  (chunk tr ∉ needed_at (DB (start_transfer tr w)) (targetindex tr)) ∧
  ∀ (w1 : World) (k : nat) (o : Outcome),
    (targetindex tr < hostcount (DB w1))%nat →
    chunk tr ∉ needed_at (DB w1) (targetindex tr) →
    let w2 := Transfer_run k tr o w1 in
    needed_at (DB w2) (targetindex tr)
      = (if failed o then needed_at (DB w1) (targetindex tr) ++ [chunk tr]
         else needed_at (DB w1) (targetindex tr)) ∧
    (chunk tr ∈ needed_at (DB w2) (targetindex tr) ↔ failed o = true).
Proof.
  split.
  - unfold start_transfer; cbn.
    assert (Ht : (targetindex tr < hostcount (DB w))%nat).
    { unfold needed_at in Hin. apply lookup_lt_is_Some.
      destruct (hostlist (DB w) !! targetindex tr); [eauto|].
      by apply elem_of_nil in Hin. }
    rewrite needed_at_set_chunks_needed by done.
    destruct (decide (targetindex tr = targetindex tr)); [|done].
    destruct (remove_is_Some _ _ Hin) as [l' Hl']. rewrite Hl'. cbn.
    by eapply remove_NoDup_not_elem.
  - intros w1 k o Ht Hnot w2. subst w2.
    rewrite needed_at_Transfer_run by done.
    rewrite bool_decide_eq_true_2 by done. rewrite andb_true_r.
    unfold Py.contains. rewrite bool_decide_eq_false_2 by done.
    destruct (failed o); (split; [done|]).
    + split; [done|]. intros _. apply elem_of_app. right. left.
    + split; [done|]. done.
Qed.

(** ** C10: the exception path of the worker *)

(** C10: when starting or awaiting the copy raises, [Transfer.run] appends
    the chunk to the target's needed list unless it is there already,
    gives back one slot to the seed and one to the target and one permit to
    the thread semaphore, starts no liveness probe, marks no host dead and
    leaves every owned list alone. *)
Theorem Transfer_run_raised (k : nat) (tr : Transfer) (w : World)
    (Hs : (seedindex tr < hostcount (DB w))%nat)
    (Ht : (targetindex tr < hostcount (DB w))%nat) :
  let w' := Transfer_run k tr Raised w in
  needed_at (DB w') (targetindex tr)
    = (if Py.contains (chunk tr) (needed_at (DB w) (targetindex tr))
       then needed_at (DB w) (targetindex tr)
       else needed_at (DB w) (targetindex tr) ++ [chunk tr]) ∧
  (∀ i, i ≠ targetindex tr → needed_at (DB w') i = needed_at (DB w) i) ∧
  (∀ i, slots_at (DB w') i
        = slots_at (DB w) i + one_if (seedindex tr) i + one_if (targetindex tr) i) ∧
  threadsema w' = S (threadsema w) ∧
  threadlist w' = delete k (threadlist w) ∧
  actions w' = actions w ++ [Copy (seedindex tr) (targetindex tr) (chunk tr)] ∧
  (∀ i, Probe i ∉ actions w' ↔ Probe i ∉ actions w) ∧
  (∀ i, alive_at (DB w') i = alive_at (DB w) i) ∧
  deadhosts (DB w') = deadhosts (DB w) ∧
  (∀ i, owned_at (DB w') i = owned_at (DB w) i) ∧
  commandq w' = commandq w.
Proof.
  intros w'. split_and!.
  - subst w'. rewrite needed_at_Transfer_run by done. cbn.
    by rewrite bool_decide_eq_true_2.
  - intros i Hi. subst w'. rewrite needed_at_Transfer_run by done. cbn.
    by rewrite bool_decide_eq_false_2.
  - intros i. subst w'. unfold Transfer_run, transfer_epilogue, transfer_raised; cbn.
    rewrite slots_at_freeSlot by by rewrite !hostcount_with_host.
    rewrite slots_at_freeSlot by by rewrite !hostcount_with_host.
    unfold slots_at. rewrite field_with_host_frame; [lia|].
    intros h. unfold requeue. by destruct (Py.contains _ _).
  - done.
  - done.
  - done.
  - intros i. subst w'. cbn. rewrite not_elem_of_app, not_elem_of_cons.
    split; [tauto|]. intros H. split_and!; [done|done|apply not_elem_of_nil].
  - intros i. subst w'. unfold Transfer_run, transfer_epilogue, transfer_raised; cbn.
    unfold alive_at. rewrite !field_with_host_frame; [done| |done|done].
    intros h. unfold requeue. by destruct (Py.contains _ _).
  - done.
  - intros i. subst w'. unfold Transfer_run, transfer_epilogue, transfer_raised; cbn.
    unfold owned_at. rewrite !field_with_host_frame; [done| |done|done].
    intros h. unfold requeue. by destruct (Py.contains _ _).
  - done.
Qed.

(** C10 on two hosts: the copy from the root to node1 cannot be started. *)
Lemma Transfer_run_raised_witness :
  let w := Examples_worker.copying in
  let w' := Transfer_run 0 Examples_worker.tr Raised w in
  needed_at (DB w') 1 = [Examples.chunk_a] ∧ threadsema w' = S (threadsema w).
Proof.
  intros w w'.
  assert (Hs : (seedindex Examples_worker.tr < hostcount (DB w))%nat)
    by (vm_compute; lia).
  assert (Ht : (targetindex Examples_worker.tr < hostcount (DB w))%nat)
    by (vm_compute; lia).
  destruct (Transfer_run_raised 0 Examples_worker.tr w Hs Ht)
    as (H1 & _ & _ & H4 & _).
  split; [exact H1|exact H4].
Defined.

(** ** C2: the slot count stays within its bounds *)

Section slot_bounds.

Variable max_transfers_per_host : Z.

Lemma slot_step_inv st op st' :
  slot_inv max_transfers_per_host st → slot_step st op = Some st' →
  slot_inv max_transfers_per_host st'.
Proof.
  destruct st as [h held]. unfold slot_inv, slot_step; simpl.
  intros [H0 Hmax]. destruct op.
  - case_bool_decide; [|done]. intros [= <-]; simpl. lia.
  - destruct held as [|held]; [done|]. intros [= <-]; simpl. lia.
  - intros [= <-]; simpl. unfold Host_setDead.
    destruct (alive h); simpl; lia.
Qed.

Lemma slot_run_inv ops : ∀ st st',
  slot_inv max_transfers_per_host st → slot_run st ops = Some st' →
  slot_inv max_transfers_per_host st'.
Proof.
  induction ops as [|op ops IH]; intros st st' Hinv; simpl.
  - by intros [= <-].
  - destruct (slot_step st op) as [st1|] eqn:Hstep; [|done].
    apply IH. by eapply slot_step_inv.
Qed.

End slot_bounds.

(** C2: after any sequence of [getSlot] (on a positive count), [freeSlot]
    (by a worker holding a slot) and [setDead] on a host created with
    [max_transfers_per_host >= 0] slots, the count is between 0 and
    [max_transfers_per_host]; a [freeSlot] after [setDead] included. *)
Theorem transferslots_bounds (name : string) (needed : list Chunk)
    (max_transfers_per_host : Z) (ops : list SlotOp) (h : Host) (held : nat)
    (Hmax : 0 ≤ max_transfers_per_host)
    (Hrun : slot_run (Host_init name needed max_transfers_per_host, 0%nat) ops
            = Some (h, held)) :
  0 ≤ transferslots h ≤ max_transfers_per_host.
Proof.
  assert (Hinv : slot_inv max_transfers_per_host (h, held)).
  { eapply slot_run_inv; [|exact Hrun]. unfold slot_inv; simpl. lia. }
  destruct Hinv as [H0 H1]; simpl in *. lia.
Qed.

(** C2 at work: two workers take a slot, the host is marked dead, both
    workers give their slot back. *)
Lemma transferslots_bounds_witness :
  ∃ h held,
    slot_run (Host_init "node1" [] 2, 0%nat)
      [OpGetSlot; OpGetSlot; OpSetDead; OpFreeSlot; OpFreeSlot] = Some (h, held) ∧
    transferslots h = 2 ∧ 0 ≤ transferslots h ≤ 2.
Proof.
  eexists _, _. split; [vm_compute; reflexivity|]. split; [reflexivity|].
  apply (transferslots_bounds "node1" [] 2
           [OpGetSlot; OpGetSlot; OpSetDead; OpFreeSlot; OpFreeSlot] _ 0%nat).
  - lia.
  - vm_compute; reflexivity.
Defined.

(** ** C4: where a new chunk lands in a needed list *)

Section insert_lemmas.

Lemma randint_in_outcomes a b d :
  0 < b - a + 1 → Py.randint a b d ∈ Py.randint_outcomes a b.
Proof.
  intros Hab. unfold Py.randint, Py.randint_outcomes.
  apply list_elem_of_fmap.
  exists (Z.to_nat (Z.of_nat d `mod` (b - a + 1))).
  pose proof (Z.mod_pos_bound (Z.of_nat d) (b - a + 1) Hab).
  split; [lia|]. apply elem_of_seq. lia.
Qed.

(** The code draws its position from these outcomes. *)
Lemma insert_new_chunks_one c needed d rs :
  insert_new_chunks [c] needed (d :: rs)
  = (Py.insert (Z.to_nat (Py.randint 0 (Z.of_nat (length needed) + 1) d)) c needed,
     rs).
Proof. reflexivity. Qed.

Lemma insert_outcomes_seq c needed :
  insert_outcomes c needed
  = (λ k, Py.insert k c needed) <$> seq 0 (length needed + 2).
Proof.
  unfold insert_outcomes, Py.randint_outcomes.
  rewrite <- list_fmap_compose.
  replace (Z.to_nat (Z.of_nat (length needed) + 1 - 0 + 1))
    with (length needed + 2)%nat by lia.
  apply list_fmap_ext. intros i k _. simpl. f_equal. lia.
Qed.

Lemma insert_ge {A} (k : nat) (x : A) (l : list A) :
  (length l ≤ k)%nat → Py.insert k x l = l ++ [x].
Proof.
  intros Hk. unfold Py.insert. by rewrite take_ge, drop_ge.
Qed.

Lemma insert_lookup {A} (k : nat) (x : A) (l : list A) :
  (k ≤ length l)%nat → Py.insert k x l !! k = Some x.
Proof.
  intros Hk. unfold Py.insert.
  rewrite lookup_app_r by (rewrite length_take; lia).
  rewrite length_take. by replace (k - k `min` length l)%nat with 0%nat by lia.
Qed.

Lemma insert_lt_ne_append (k : nat) (c : Chunk) (l : list Chunk) :
  (k < length l)%nat → c ∉ l → Py.insert k c l ≠ l ++ [c].
Proof.
  intros Hk Hc Heq.
  assert (Hl : (l ++ [c]) !! k = Some c).
  { rewrite <- Heq. apply insert_lookup. lia. }
  rewrite lookup_app_l in Hl by done.
  apply Hc. by eapply list_elem_of_lookup_2.
Qed.

Lemma insert_pos_ne_cons (k : nat) (c : Chunk) (l : list Chunk) :
  (0 < k)%nat → l ≠ [] → c ∉ l → Py.insert k c l ≠ c :: l.
Proof.
  intros Hk Hl Hc Heq. destruct l as [|y l]; [done|].
  destruct k as [|k]; [lia|]. unfold Py.insert in Heq. simpl in Heq.
  injection Heq as -> _. apply Hc. left.
Qed.

Lemma insert_Permutation {A} (k : nat) (x : A) (l : list A) :
  Py.insert k x l ≡ₚ x :: l.
Proof.
  unfold Py.insert. rewrite <- Permutation_middle.
  by rewrite take_drop.
Qed.

(** Every new chunk is put into the needed list, once. *)
Lemma insert_new_chunks_Permutation new_chunks : ∀ needed rs,
  (insert_new_chunks new_chunks needed rs).1 ≡ₚ needed ++ new_chunks.
Proof.
  induction new_chunks as [|c new_chunks IH]; intros needed rs; simpl.
  - by rewrite app_nil_r.
  - destruct (Py.draw rs) as [d rs1]. rewrite IH.
    rewrite insert_Permutation. by rewrite <- Permutation_middle.
Qed.

(** [update_chunks_needed] on one host: the chunks of the root from
    [chunk_index] on enter the needed list, once each, and [chunk_index]
    becomes the number of chunks of the root. *)
Lemma update_host_registers root_owned h rs :
  (chunk_index h ≤ length root_owned)%nat →
  let h' := (update_host root_owned (length root_owned) h rs).1 in
  chunks_needed h' ≡ₚ chunks_needed h ++ drop (chunk_index h) root_owned ∧
  chunk_index h' = length root_owned.
Proof.
  intros Hidx. unfold update_host. case_bool_decide as Hlt; cbn.
  - pose proof (insert_new_chunks_Permutation
                  (drop (chunk_index h) root_owned) (chunks_needed h) rs) as Hp.
    destruct (insert_new_chunks _ _ _) as [needed rs']; cbn in *.
    split; [done|]. rewrite length_drop. lia.
  - rewrite drop_ge by lia. rewrite app_nil_r. split; [done|lia].
Qed.

Lemma filter_fmap_seq_nil {A} (f : nat → A) (P : A → Prop)
    `{∀ x, Decision (P x)} (start len : nat) :
  (∀ k, (start ≤ k < start + len)%nat → ¬ P (f k)) →
  filter P (f <$> seq start len) = [].
Proof.
  revert start. induction len as [|len IH]; intros start Hk; simpl; [done|].
  rewrite filter_cons_False by (apply Hk; lia).
  apply IH. intros k ?. apply Hk. lia.
Qed.

End insert_lemmas.

(** C4, as stated, fails on its uniformity: the position is drawn from
    [0 .. len(needed)+1], and the two largest values both append.  With
    [len(needed) + 2] equally likely draws, two of them put the new chunk
    at the tail and one puts it at the head. *)
Theorem insert_position_not_uniform (c : Chunk) (needed : list Chunk)
    (Hne : needed ≠ []) (Hfresh : c ∉ needed) :
  length (insert_outcomes c needed) = (length needed + 2)%nat ∧
  ways c needed (needed ++ [c]) = 2%nat ∧
  ways c needed (c :: needed) = 1%nat.
Proof.
  unfold ways. rewrite insert_outcomes_seq. split_and!.
  - by rewrite length_fmap, length_seq.
  - rewrite seq_app, fmap_app, filter_app, length_app.
    rewrite filter_fmap_seq_nil.
    2:{ intros k Hk. apply insert_lt_ne_append; [lia|done]. }
    simpl. rewrite !filter_cons_True by (apply insert_ge; lia). done.
  - replace (length needed + 2)%nat with (S (length needed + 1)) by lia.
    simpl. rewrite filter_cons_True by done. simpl.
    rewrite filter_fmap_seq_nil; [done|].
    intros k Hk. apply insert_pos_ne_cons; [lia|done|done].
Qed.

(** C4 at the failing input: [chunk_b] enters the needed list
    [[chunk_a]]; of the three draws, two give [[chunk_a; chunk_b]]. *)
Lemma insert_position_not_uniform_witness :
  insert_outcomes Examples.chunk_b [Examples.chunk_a]
    = [[Examples.chunk_b; Examples.chunk_a];
       [Examples.chunk_a; Examples.chunk_b];
       [Examples.chunk_a; Examples.chunk_b]] ∧
  ways Examples.chunk_b [Examples.chunk_a] [Examples.chunk_a; Examples.chunk_b]
    = 2%nat.
Proof.
  split; [reflexivity|].
  apply (insert_position_not_uniform Examples.chunk_b [Examples.chunk_a]).
  - discriminate.
  - intros H. apply list_elem_of_singleton in H. discriminate H.
Defined.

(** ** C9: the [rm] sweep and the [cat] children *)

(** C9 fails on the code: [wait_for_procs] only waits for the children
    already started.  Here the [cat] of node1 is still in the queue when the
    main thread calls it, so the [rm] commands are enqueued at once and an
    [rm] child is started while the [cat] child is running. *)
Theorem rm_started_while_cat_runs :
  ∃ w1 w2,
    run Examples_sweep.two_hosts Examples_sweep.until_wait = Some w1 ∧
    cleanup (options w1) = true ∧
    mainpc w1 = WaitingProcs ∧
    cmdq (commandq w1) = [Examples_sweep.the_cat] ∧
    procs (commandq w1) = [] ∧
    run w1 Examples_sweep.sweep = Some w2 ∧
    procs (commandq w2)
      = [mkProc Examples_sweep.the_cat true; mkProc Examples_sweep.the_rm true] ∧
    cat_and_rm_running (commandq w2).
Proof.
  eexists _, _. split; [vm_compute; reflexivity|].
  split; [reflexivity|]. split; [reflexivity|]. split; [reflexivity|].
  split; [reflexivity|]. split; [vm_compute; reflexivity|].
  split; [reflexivity|].
  exists (mkProc Examples_sweep.the_cat true), (mkProc Examples_sweep.the_rm true).
  cbn. split_and!; try reflexivity.
  - left.
  - right. left.
Qed.

(** ** The loop of [initiateTransfers] *)

Section loop_lemmas.

Lemma Transfer_run_mainpc_matched k tr o w :
  mainpc (Transfer_run k tr o w) = mainpc w ∧
  matched (Transfer_run k tr o w) = matched w.
Proof.
  unfold Transfer_run, transfer_epilogue; cbn.
  destruct o as [ret tu su|]; [|done].
  destruct (decide (ret = 0)).
  - unfold transfer_succeeded.
    destruct (hostlist _ !! targetindex tr); [|done].
    by destruct (_ && _).
  - unfold transfer_failed, probe. by destruct su, tu.
Qed.

Lemma Transfer_run_threadlist k tr o w :
  threadlist (Transfer_run k tr o w) = delete k (threadlist w).
Proof.
  unfold Transfer_run, transfer_epilogue; cbn.
  destruct o as [ret tu su|]; [|done].
  destruct (decide (ret = 0)).
  - unfold transfer_succeeded.
    destruct (hostlist _ !! targetindex tr); [|done].
    by destruct (_ && _).
  - unfold transfer_failed, probe. by destruct su, tu.
Qed.

Lemma length_update_hosts root root_owned count hl : ∀ i rs,
  length (update_hosts root root_owned count i hl rs).1 = length hl.
Proof.
  induction hl as [|h hl IH]; intros i rs; simpl; [done|].
  destruct (decide (i = root)).
  - specialize (IH (S i) rs).
    destruct (update_hosts _ _ _ _ _ _) as [hl' rs']. simpl in *. by rewrite IH.
  - destruct (update_host _ _ _ _) as [h' rs1].
    specialize (IH (S i) rs1).
    destruct (update_hosts _ _ _ _ _ _) as [hl' rs']. simpl in *. by rewrite IH.
Qed.

(** [update_chunks_needed] writes the host list only. *)
Lemma update_chunks_needed_fields db rs :
  let db' := (update_chunks_needed db rs).1 in
  hostcount db' = hostcount db ∧ hosts_with_file db' = hosts_with_file db ∧
  deadhosts db' = deadhosts db ∧ tindex db' = tindex db ∧
  roothost db' = roothost db ∧ chunkCount db' = chunkCount db ∧
  split_complete db' = split_complete db.
Proof.
  unfold update_chunks_needed.
  destruct (hostlist db !! roothost db) as [root|]; [|done].
  pose proof (length_update_hosts (roothost db) (chunks_owned root)
                (chunkCount db) (hostlist db) 0 rs) as Hlen.
  destruct (update_hosts _ _ _ _ _ _) as [hl rs']. simpl in *.
  unfold hostcount; simpl. done.
Qed.

Lemma split_file_step_fields curname db rs :
  let db' := (split_file_step curname db rs).1 in
  hostcount db' = hostcount db ∧ hosts_with_file db' = hosts_with_file db ∧
  deadhosts db' = deadhosts db ∧ tindex db' = tindex db ∧
  roothost db' = roothost db ∧ chunkCount db' = S (chunkCount db) ∧
  split_complete db' = split_complete db.
Proof.
  unfold split_file_step.
  destruct (update_chunks_needed_fields
              (set_chunkCount S
                 (with_host (roothost db)
                    (set_chunks_owned (λ l, l ++ [mkChunk curname])) db)) rs)
    as (H1 & H2 & H3 & H4 & H5 & H6 & H7).
  cbn in *. rewrite H1, H2, H3, H4, H5, H6, H7.
  split_and!; try done. unfold hostcount; cbn. apply length_alter.
Qed.

Lemma join_fields w :
  DB (join w) = DB w ∧ threadlist (join w) = threadlist w ∧
  matched (join w) = matched w ∧ scheduling (mainpc (join w)) = false ∧
  (threadlist w = [] → join w = set_mainpc Returned w).
Proof.
  unfold join. destruct (threadlist w) eqn:E; cbn; rewrite ?E; done.
Qed.

(** Out of the first loop, no event brings the main thread back into it,
    and no match is made. *)
Lemma step_after_loop w e w' :
  scheduling (mainpc w) = false → step w e = Some w' →
  scheduling (mainpc w') = false ∧ matched w' = matched w.
Proof.
  intros Hpc. destruct e as [curname rs| |rs|k o| |k]; simpl.
  - destruct (split_complete (DB w)); [done|].
    destruct (Py.contains _ _); [done|]. by intros [= <-].
  - by intros [= <-].
  - intros [= <-]. unfold main_step, initiateTransfers_step.
    destruct (mainpc w) eqn:Hm; try done.
    + destruct (join_fields w) as (_ & _ & ? & ? & _). done.
    + destruct (threadlist w); [|by rewrite Hm].
      by destruct (cleanup (options w)).
    + destruct (wait_for_procs_step (commandq w)) as [q []]; [done|].
      by rewrite <- Hm in Hpc.
    + destruct (consumer (commandq w)); cbn; by rewrite ?Hm.
    + by rewrite Hm.
  - destruct (threadlist w !! k) as [tr|]; [|done]. intros [= <-].
    destruct (Transfer_run_mainpc_matched k tr o w) as [-> ->]. done.
  - by intros [= <-].
  - destruct (child_exit k (commandq w)); [|done]. by intros [= <-].
Qed.

Lemma run_after_loop evs : ∀ w w',
  scheduling (mainpc w) = false → run w evs = Some w' →
  scheduling (mainpc w') = false ∧ matched w' = matched w.
Proof.
  induction evs as [|e evs IH]; intros w w' Hpc; simpl.
  - by intros [= <-].
  - destruct (step w e) as [w1|] eqn:Hstep; [|done].
    destruct (step_after_loop _ _ _ Hpc Hstep) as [Hpc1 Hm1].
    intros Hrun. destruct (IH _ _ Hpc1 Hrun) as [? ?]. split; congruence.
Qed.

Lemma single_host_loop_cond w : single_host_inv w → loop_cond (DB w) = false.
Proof.
  intros (Hc & Hf & _). unfold loop_cond. apply bool_decide_eq_false_2. lia.
Qed.

Lemma step_single_host w e w' :
  single_host_inv w → step w e = Some w' → single_host_inv w'.
Proof.
  intros Hinv. pose proof (single_host_loop_cond w Hinv) as Hcond.
  destruct Hinv as (Hc & Hf & Htl & Hm & Ha & Hpc).
  destruct e as [curname rs| |rs|k o| |k]; simpl.
  - destruct (split_complete (DB w)); [done|].
    destruct (Py.contains _ _); [done|]. intros [= <-].
    destruct (split_file_step_fields curname (DB w) rs) as (H1 & H2 & _).
    unfold single_host_inv; cbn in *. rewrite H1, H2. done.
  - by intros [= <-].
  - intros [= <-]. unfold main_step, initiateTransfers_step.
    destruct (mainpc w) eqn:Hmpc.
    + rewrite Hcond. unfold join. rewrite Htl.
      unfold single_host_inv; cbn. done.
    + by destruct (Hpc tr).
    + unfold join. rewrite Htl. unfold single_host_inv; cbn. done.
    + rewrite Htl. destruct (cleanup (options w));
        unfold single_host_inv; cbn; done.
    + destruct (wait_for_procs_step (commandq w)) as [q []];
        unfold single_host_inv; cbn; [done|].
      rewrite Hmpc. done.
    + destruct (consumer (commandq w));
        unfold single_host_inv; cbn; rewrite ?Hmpc; done.
    + unfold single_host_inv. rewrite Hmpc. done.
  - by rewrite Htl.
  - by intros [= <-].
  - destruct (child_exit k (commandq w)); [|done]. by intros [= <-].
Qed.

Lemma run_single_host evs : ∀ w w',
  single_host_inv w → run w evs = Some w' → single_host_inv w'.
Proof.
  induction evs as [|e evs IH]; intros w w' Hinv; simpl.
  - by intros [= <-].
  - destruct (step w e) as [w1|] eqn:Hstep; [|done].
    apply IH. by eapply step_single_host.
Qed.

End loop_lemmas.

(** ** C6: the root is never a target *)

Section frame_lemmas.

(** What [update_chunks_needed] does to the host at position [j]: nothing
    if it is the root, else [update_host] with some of the draws. *)
Lemma lookup_update_hosts root root_owned count hl : ∀ i rs j h,
  hl !! j = Some h →
  ∃ rs1, (update_hosts root root_owned count i hl rs).1 !! j
         = Some (if decide (i + j = root)%nat then h
                 else (update_host root_owned count h rs1).1).
Proof.
  induction hl as [|h0 hl IH]; intros i rs j h Hj; [done|].
  simpl. destruct (decide (i = root)) as [Hi|Hi].
  - destruct j as [|j]; simpl in Hj.
    + injection Hj as ->. exists rs.
      destruct (update_hosts _ _ _ _ _ _) as [hl' rs']; simpl.
      rewrite decide_True by lia. done.
    + destruct (IH (S i) rs j h Hj) as [rs1 Hrs1]. exists rs1.
      destruct (update_hosts _ _ _ _ _ _) as [hl' rs']; simpl in *.
      rewrite Hrs1. by replace (i + S j)%nat with (S i + j)%nat by lia.
  - destruct (update_host root_owned count h0 rs) as [h' rs1] eqn:Hh'.
    destruct j as [|j]; simpl in Hj.
    + injection Hj as ->. exists rs.
      destruct (update_hosts _ _ _ _ _ _) as [hl' rs']; simpl.
      rewrite decide_False by lia. by rewrite Hh'.
    + destruct (IH (S i) rs1 j h Hj) as [rs2 Hrs2]. exists rs2.
      destruct (update_hosts _ _ _ _ _ _) as [hl' rs']; simpl in *.
      rewrite Hrs2. by replace (i + S j)%nat with (S i + j)%nat by lia.
Qed.

(** The same for the whole body of the loop of [split_file]. *)
Lemma lookup_split_file_step curname db rs j h :
  (roothost db < hostcount db)%nat →
  hostlist db !! j = Some h →
  let root_owned := owned_at db (roothost db) ++ [mkChunk curname] in
  ∃ rs1, hostlist (split_file_step curname db rs).1 !! j
         = Some (if decide (j = roothost db)
                 then set_chunks_owned (λ _, root_owned) h
                 else (update_host root_owned (S (chunkCount db)) h rs1).1).
Proof.
  intros Hroot Hj root_owned.
  destruct (lookup_lt_is_Some_2 (hostlist db) _ Hroot) as [r Hr].
  unfold split_file_step, update_chunks_needed.
  set (db1 := with_host (roothost db)
                (set_chunks_owned (λ l, l ++ [mkChunk curname])) db).
  assert (Hr1 : hostlist (set_chunkCount S db1) !! roothost (set_chunkCount S db1)
                = Some (set_chunks_owned (λ _, root_owned) r)).
  { cbn. unfold db1. rewrite roothost_with_host, lookup_with_host.
    rewrite decide_True by done. rewrite Hr. cbn.
    unfold root_owned, owned_at. by rewrite Hr. }
  rewrite Hr1.
  assert (Hj1 : hostlist (set_chunkCount S db1) !! j
                = Some (if decide (j = roothost db)
                        then set_chunks_owned (λ _, root_owned) h else h)).
  { cbn. unfold db1. rewrite lookup_with_host.
    destruct (decide (roothost db = j)) as [<-|Hne].
    - rewrite decide_True by done. rewrite Hr in Hj. injection Hj as <-.
      rewrite Hr. cbn. unfold root_owned, owned_at. by rewrite Hr.
    - rewrite decide_False by done. done. }
  destruct (lookup_update_hosts (roothost (set_chunkCount S db1))
              (chunks_owned (set_chunks_owned (λ _, root_owned) r))
              (chunkCount (set_chunkCount S db1))
              (hostlist (set_chunkCount S db1)) 0 rs j _ Hj1) as [rs1 Hrs1].
  exists rs1.
  destruct (update_hosts _ _ _ _ _ _) as [hl rs'] eqn:Hupd. cbn in *.
  rewrite Hrs1. unfold db1. rewrite roothost_with_host, chunkCount_with_host.
  destruct (decide (j = roothost db)); [done|].
  done.
Qed.

Lemma needed_at_Transfer_run_ne k tr o w j :
  j ≠ targetindex tr →
  needed_at (DB (Transfer_run k tr o w)) j = needed_at (DB w) j.
Proof.
  intros Hj. unfold Transfer_run, transfer_epilogue; cbn.
  unfold needed_at. rewrite !field_with_host_frame by done.
  destruct o as [ret tu su|].
  - destruct (decide (ret = 0)).
    + unfold transfer_succeeded; cbn.
      destruct (hostlist (with_host _ _ _) !! targetindex tr) eqn:Hl; [|done].
      destruct (_ && _); cbn; by rewrite field_with_host_frame.
    + unfold transfer_failed, probe.
      destruct su, tu; cbn;
        rewrite ?field_setDead_frame
          by (intros h; unfold Host_setDead; by destruct (alive h));
        by rewrite field_with_host_ne.
  - unfold transfer_raised; cbn. by rewrite field_with_host_ne.
Qed.

(** [Transfer.run] writes two counters of the database, and its hosts. *)
Lemma Transfer_run_DB_fields k tr o w :
  let db' := DB (Transfer_run k tr o w) in
  roothost db' = roothost (DB w) ∧ tindex db' = tindex (DB w) ∧
  chunkCount db' = chunkCount (DB w) ∧
  split_complete db' = split_complete (DB w).
Proof.
  unfold Transfer_run, transfer_epilogue; cbn.
  destruct o as [ret tu su|]; [|done].
  destruct (decide (ret = 0)).
  - unfold transfer_succeeded; cbn.
    destruct (hostlist (with_host _ _ _) !! targetindex tr); [|done].
    by destruct (_ && _).
  - unfold transfer_failed, probe, setDead. cbn.
    destruct su, tu; cbn; try done;
      repeat (match goal with
              | |- context [match ?x with Some _ => _ | None => _ end] =>
                  destruct x
              | |- context [Host_setDead ?h] => destruct (Host_setDead h) as [? []]
              end; cbn); done.
Qed.

End frame_lemmas.

Section root_lemmas.

Lemma getTransfer_target_not_root db rs s t c db' rs' :
  needed_at db 0 = [] →
  getTransfer db rs = (Some (s, t, c), db', rs') → t ≠ 0%nat.
Proof.
  intros Hroot Hget ->.
  destruct (getTransfer_Some _ _ _ _ _ _ _ Hget) as (_ & (h & Hh & _ & Hc) & _).
  unfold needed_at in Hroot. rewrite Hh in Hroot. cbn in Hroot.
  rewrite Hroot in Hc. by apply elem_of_nil in Hc.
Qed.

Lemma main_init_root_inv rootname targetlist m opts :
  root_inv (main_init rootname targetlist m opts).
Proof.
  unfold root_inv; cbn. split_and!; try done; lia.
Qed.

Lemma acquire_and_start_root_inv tr w :
  root_inv w → targetindex tr ≠ 0%nat → root_inv (acquire_and_start tr w).
Proof.
  intros (H1 & H2 & H3 & H4 & H5 & H6) Ht.
  unfold acquire_and_start, start_transfer.
  destruct (threadsema w); unfold root_inv; cbn.
  - split_and!; try done. by intros ? [= <-].
  - rewrite hostcount_with_host.
    split_and!; try done.
    + unfold needed_at. by rewrite field_with_host_ne.
    + apply Forall_app. split; [done|]. by apply Forall_singleton.
Qed.

Lemma step_root_inv w e w' : root_inv w → step w e = Some w' → root_inv w'.
Proof.
  intros Hinv. pose proof Hinv as (H1 & H2 & H3 & H4 & H5 & H6).
  destruct e as [curname rs| |rs|k o| |k]; simpl.
  - destruct (split_complete (DB w)); [done|].
    destruct (Py.contains _ _); [done|]. intros [= <-].
    destruct (split_file_step_fields curname (DB w) rs) as (F1 & _ & _ & _ & F5 & _).
    unfold root_inv; cbn. rewrite F1, F5. split_and!; try done.
    destruct (lookup_lt_is_Some_2 (hostlist (DB w)) 0 H2) as [r Hr].
    destruct (lookup_split_file_step curname (DB w) rs 0 r) as [rs1 Hrs1];
      [lia|done|].
    unfold needed_at. rewrite Hrs1. rewrite decide_True by done. cbn.
    unfold needed_at in H3. by rewrite Hr in H3.
  - by intros [= <-].
  - intros [= <-]. unfold main_step, initiateTransfers_step.
    destruct (mainpc w) eqn:Hpc.
    + destruct (loop_cond (DB w)).
      * destruct (getTransfer (DB w) rs) as [[[[[s t] c]|] db'] rs'] eqn:Hget.
        -- pose proof (getTransfer_target_not_root _ _ _ _ _ _ _ H3 Hget) as Ht.
           destruct (getTransfer_Some_frame _ _ _ _ _ _ _ Hget)
             as (_ & _ & _ & Hn & _).
           destruct (getTransfer_Some _ _ _ _ _ _ _ Hget) as (Hdb & _).
           apply acquire_and_start_root_inv; [|done].
           unfold root_inv; cbn. rewrite Hn. subst db'.
           rewrite !hostcount_with_host. cbn.
           split_and!; try done.
           ++ by rewrite Hpc.
           ++ apply Forall_app. split; [done|]. by apply Forall_singleton.
        -- destruct (getTransfer_None _ _ _ _ Hget) as [t' ->].
           unfold root_inv; cbn. by rewrite Hpc.
      * unfold join. destruct (threadlist w) eqn:Htl;
          unfold root_inv; cbn; rewrite ?Htl; split_and!; done.
    + apply acquire_and_start_root_inv; [done|]. by apply H5.
    + unfold join. destruct (threadlist w) eqn:Htl;
        unfold root_inv; cbn; rewrite ?Htl; split_and!; done.
    + destruct (threadlist w) eqn:Htl; [|done].
      destruct (cleanup (options w));
        unfold root_inv; cbn; rewrite ?Htl; split_and!; done.
    + destruct (wait_for_procs_step (commandq w)) as [q []];
        unfold root_inv; cbn; rewrite ?Hpc; split_and!; done.
    + destruct (consumer (commandq w));
        unfold root_inv; cbn; rewrite ?Hpc; split_and!; done.
    + done.
  - destruct (threadlist w !! k) as [tr|] eqn:Hk; [|done]. intros [= <-].
    assert (Ht : targetindex tr ≠ 0%nat).
    { eapply (Forall_lookup_1 _ _ _ _ H4 Hk). }
    destruct (Transfer_run_DB_fields k tr o w) as (F1 & _).
    destruct (Transfer_run_mainpc_matched k tr o w) as [F2 F3].
    unfold root_inv. rewrite F1, F2, F3, hostcount_Transfer_run.
    rewrite needed_at_Transfer_run_ne by done.
    split_and!; try done.
    rewrite Transfer_run_threadlist. by apply Forall_delete.
  - by intros [= <-].
  - destruct (child_exit k (commandq w)); [|done]. by intros [= <-].
Qed.

Lemma run_root_inv evs : ∀ w w',
  root_inv w → run w evs = Some w' → root_inv w'.
Proof.
  induction evs as [|e evs IH]; intros w w' Hinv; simpl.
  - by intros [= <-].
  - destruct (step w e) as [w1|] eqn:Hstep; [|done].
    apply IH. by eapply step_root_inv.
Qed.

End root_lemmas.

(** C6: in every state reached from the one [main] builds, the root's
    needed list is empty, no triple matched so far has the root as target,
    and [getTransfer] does not return one. *)
Theorem getTransfer_never_targets_root (rootname : string)
    (targetlist : list string) (max_transfers_per_host : Z) (opts : Options)
    (evs : list Event) (w : World)
    (Hrun : run (main_init rootname targetlist max_transfers_per_host opts) evs
            = Some w) :
  needed_at (DB w) (roothost (DB w)) = [] ∧
  Forall (λ tr, targetindex tr ≠ roothost (DB w)) (matched w) ∧
  ∀ rs s t c db' rs',
    getTransfer (DB w) rs = (Some (s, t, c), db', rs') → t ≠ roothost (DB w).
Proof.
  pose proof (run_root_inv evs _ _ (main_init_root_inv _ _ _ _) Hrun)
    as (H1 & H2 & H3 & H4 & H5 & H6).
  rewrite H1. split_and!.
  - done.
  - done.
  - intros rs s t c db' rs' Hget.
    by eapply getTransfer_target_not_root.
Qed.

(** C6 at work: a chunk is split off and matched; its target is node1. *)
Lemma getTransfer_never_targets_root_witness :
  ∃ w, run (main_init "root" ["node1"] 1 Examples.opts)
         [EvSplit "/tmp/f.chunk_aa" []; EvMain []] = Some w ∧
       length (matched w) = 1%nat ∧
       Forall (λ tr, targetindex tr ≠ roothost (DB w)) (matched w).
Proof.
  eexists. split; [vm_compute; reflexivity|]. split; [reflexivity|].
  destruct (getTransfer_never_targets_root "root" ["node1"] 1 Examples.opts
              [EvSplit "/tmp/f.chunk_aa" []; EvMain []] _
              ltac:(vm_compute; reflexivity)) as (_ & H & _).
  exact H.
Defined.

(** ** C8: the first matches go round the targets *)

Section scan_lemmas.

(** The seed scan tries the [i] positions before [sindex], cyclically. *)
Lemma seed_scan_None_upto hl c : ∀ i sindex,
  (0 < length hl)%nat →
  seed_scan hl c sindex i = None →
  ∀ k h, 1 ≤ k ≤ Z.of_nat i →
    hl !! Z.to_nat ((Z.of_nat sindex - k) `mod` Z.of_nat (length hl)) = Some h →
    can_seed c h = false.
Proof.
  induction i as [|i IH]; intros sindex Hlen; simpl; [intros; lia|].
  pose proof (Z.mod_pos_bound (Z.of_nat sindex - 1) (Z.of_nat (length hl))) as Hb.
  assert (Hlt : (prev_index sindex (length hl) < length hl)%nat)
    by (unfold prev_index; lia).
  destruct (lookup_lt_is_Some_2 hl _ Hlt) as [h0 Hh0]. rewrite Hh0.
  destruct (can_seed c h0) eqn:Hc0; [done|].
  intros Hscan k h Hk Hh.
  destruct (decide (k = 1)) as [->|Hk1].
  - unfold prev_index in Hh0. rewrite Hh0 in Hh. by injection Hh as <-.
  - apply (IH _ Hlen Hscan (k - 1) h); [lia|].
    unfold prev_index. rewrite Z2Nat.id by lia.
    rewrite Zminus_mod_idemp_l.
    by replace (Z.of_nat sindex - 1 - (k - 1)) with (Z.of_nat sindex - k) by lia.
Qed.

(** A full turn of the seed scan misses no host. *)
Lemma seed_scan_None hl c sindex j h :
  seed_scan hl c sindex (length hl) = None →
  hl !! j = Some h → can_seed c h = false.
Proof.
  intros Hscan Hj.
  assert (Hlen : (j < length hl)%nat) by (by eapply lookup_lt_Some).
  set (N := Z.of_nat (length hl)).
  set (k := (Z.of_nat sindex - Z.of_nat j - 1) `mod` N + 1).
  pose proof (Z.mod_pos_bound (Z.of_nat sindex - Z.of_nat j - 1) N) as Hb.
  apply (seed_scan_None_upto hl c (length hl) sindex ltac:(lia) Hscan k h).
  - unfold k, N in *. lia.
  - replace (Z.to_nat ((Z.of_nat sindex - k) `mod` Z.of_nat (length hl))) with j;
      [done|].
    fold N. unfold k.
    pose proof (Z.div_mod (Z.of_nat sindex - Z.of_nat j - 1) N ltac:(unfold N; lia)) as Hdm.
    replace (Z.of_nat sindex - ((Z.of_nat sindex - Z.of_nat j - 1) `mod` N + 1))
      with (Z.of_nat j + ((Z.of_nat sindex - Z.of_nat j - 1) `div` N) * N) by lia.
    rewrite Z.mod_add by (unfold N; lia).
    rewrite Z.mod_small by (unfold N; lia). lia.
Qed.

Lemma chunk_scan_None hl needed : ∀ rs rs',
  chunk_scan hl needed rs = (None, rs') →
  ∀ c j h, c ∈ needed → hl !! j = Some h → can_seed c h = false.
Proof.
  induction needed as [|c0 needed IH]; intros rs rs'; simpl.
  - intros _ c j h Hc. by apply elem_of_nil in Hc.
  - destruct (Py.draw rs) as [d rs1].
    destruct (seed_scan _ _ _ _) as [s0|] eqn:Hs; [done|].
    intros Hrest c j h Hc Hj.
    apply elem_of_cons in Hc as [->|Hc].
    + by eapply seed_scan_None.
    + by eapply IH.
Qed.

(** If the first host tried can receive, and needs every chunk that some
    host can seed, a match has that host as target. *)
Lemma target_scan_first hl t0 rs q s t c t' rs' h :
  hl !! ((t0 + 1) `mod` length hl)%nat = Some h →
  can_receive h = true →
  (∀ c j hj, hl !! j = Some hj → can_seed c hj = true → c ∈ chunks_needed h) →
  target_scan hl t0 rs (S q) = (Some (s, t, c), t', rs') →
  t = ((t0 + 1) `mod` length hl)%nat.
Proof.
  intros Hh Hrecv Hall. simpl. rewrite Hh, Hrecv.
  destruct (chunk_scan hl (chunks_needed h) rs) as [[[s0 c0]|] rs1] eqn:Hc.
  - by intros [= <- <- <- <- <-].
  - intros Hscan.
    destruct (target_scan_Some _ _ _ _ _ _ _ _ _ Hscan) as (_ & _ & (hs & Hs & Hseed)).
    pose proof (Hall _ _ _ Hs Hseed) as Hin.
    pose proof (chunk_scan_None _ _ _ _ Hc c s hs Hin Hs). congruence.
Qed.

(** A scan that finds nothing has moved the cursor once for each turn. *)
Lemma target_scan_None hl : ∀ q t0 rs t' rs',
  (0 < length hl)%nat →
  target_scan hl t0 rs q = (None, t', rs') →
  t' = ((t0 + q) `mod` length hl)%nat ∨ q = 0%nat ∧ t' = t0.
Proof.
  induction q as [|q IH]; intros t0 rs t' rs' Hlen; simpl.
  - intros [= <- <-]. by right.
  - intros Hscan. left. revert Hscan.
    assert (Hlt : ((t0 + 1) `mod` length hl < length hl)%nat)
      by (apply Nat.mod_upper_bound; lia).
    destruct (lookup_lt_is_Some_2 hl _ Hlt) as [h Hh]. rewrite Hh.
    assert (Hnext : ∀ rs1, target_scan hl ((t0 + 1) `mod` length hl) rs1 q
                           = (None, t', rs') →
                    t' = ((t0 + S q) `mod` length hl)%nat).
    { intros rs1 Hrec. destruct (IH _ _ _ _ Hlen Hrec) as [->|[-> ->]].
      - rewrite Nat.Div0.add_mod_idemp_l.
        by replace (t0 + 1 + q)%nat with (t0 + S q)%nat by lia.
      - by replace (t0 + 1)%nat with (t0 + 1)%nat. }
    destruct (can_receive h); [|apply Hnext].
    destruct (chunk_scan hl (chunks_needed h) rs) as [[[s0 c0]|] rs1]; [done|].
    apply Hnext.
Qed.

(** A failed [getTransfer] leaves the database as it was. *)
Lemma getTransfer_None_same db rs db' rs' :
  (tindex db < hostcount db)%nat →
  getTransfer db rs = (None, db', rs') → db' = db.
Proof.
  intros Ht. unfold getTransfer.
  destruct (target_scan _ _ _ _) as [[[[[s0 t0] c0]|] t1] rs1] eqn:Hscan; [done|].
  intros [= <- <-].
  assert (Hlen : (0 < length (hostlist db))%nat) by (unfold hostcount in Ht; lia).
  destruct (target_scan_None _ _ _ _ _ _ Hlen Hscan) as [->|[_ ->]].
  - unfold hostcount in *. destruct db as [hl ? ti ? ? ? ?]; cbn in *.
    unfold set_tindex; cbn. f_equal.
    replace (ti + length hl)%nat with (ti + 1 * length hl)%nat by lia.
    rewrite Nat.Div0.mod_add. by apply Nat.mod_small.
  - by destruct db.
Qed.

End scan_lemmas.

Section rr_frame_lemmas.

Lemma lookup_setDead_ne i db j :
  i ≠ j → hostlist (setDead i db) !! j = hostlist db !! j.
Proof.
  intros Hne. unfold setDead.
  destruct (hostlist db !! i) as [h|]; [|done].
  destruct (Host_setDead h) as [h' []]; cbn;
    rewrite lookup_with_host; by rewrite decide_False.
Qed.

(** [Transfer.run] touches the seed and the target only. *)
Lemma lookup_Transfer_run_ne k tr o w j :
  j ≠ seedindex tr → j ≠ targetindex tr →
  hostlist (DB (Transfer_run k tr o w)) !! j = hostlist (DB w) !! j.
Proof.
  intros Hs Ht. unfold Transfer_run, transfer_epilogue; cbn.
  rewrite !lookup_with_host. rewrite !decide_False by done.
  destruct o as [ret tu su|].
  - destruct (decide (ret = 0)).
    + unfold transfer_succeeded; cbn.
      destruct (hostlist (with_host _ _ _) !! targetindex tr) eqn:Hl; [|done].
      destruct (_ && _); cbn; rewrite lookup_with_host; by rewrite decide_False.
    + unfold transfer_failed, probe.
      destruct su, tu; cbn;
        rewrite ?lookup_setDead_ne by done;
        rewrite lookup_with_host; by rewrite decide_False.
  - unfold transfer_raised; cbn. rewrite lookup_with_host. by rewrite decide_False.
Qed.

(** [Transfer.run] adds at most its chunk to an owned list, the target's. *)
Lemma owned_at_Transfer_run k tr o w i :
  owned_at (DB (Transfer_run k tr o w)) i = owned_at (DB w) i ∨
  i = targetindex tr ∧
  owned_at (DB (Transfer_run k tr o w)) i = owned_at (DB w) i ++ [chunk tr].
Proof.
  unfold Transfer_run, transfer_epilogue; cbn.
  unfold owned_at. rewrite !field_with_host_frame by done.
  destruct o as [ret tu su|].
  - destruct (decide (ret = 0)).
    + unfold transfer_succeeded; cbn.
      destruct (hostlist (with_host _ _ _) !! targetindex tr) eqn:Hl; [|by left].
      assert (Hown : from_option chunks_owned []
                (hostlist (with_host (targetindex tr)
                   (set_chunks_owned (λ l, l ++ [chunk tr])) (DB w)) !! i)
              = from_option chunks_owned [] (hostlist (DB w) !! i) ∨
              i = targetindex tr ∧
              from_option chunks_owned []
                (hostlist (with_host (targetindex tr)
                   (set_chunks_owned (λ l, l ++ [chunk tr])) (DB w)) !! i)
              = from_option chunks_owned [] (hostlist (DB w) !! i) ++ [chunk tr]).
      { rewrite lookup_with_host.
        destruct (decide (targetindex tr = i)) as [<-|]; [|by left].
        destruct (hostlist (DB w) !! targetindex tr); cbn; [by right|by left]. }
      by destruct (_ && _).
    + left. unfold transfer_failed, probe.
      destruct su, tu; cbn;
        rewrite ?field_setDead_frame
          by (intros h; unfold Host_setDead; by destruct (alive h));
        rewrite field_with_host_frame; try done;
        intros h; unfold requeue; by destruct (Py.contains _ _).
  - left. unfold transfer_raised; cbn.
    rewrite field_with_host_frame; [done|].
    intros h; unfold requeue; by destruct (Py.contains _ _).
Qed.

(** What [update_host] does to a host whose index is not beyond the
    chunks of the root. *)
Lemma update_host_fields root_owned h rs :
  (chunk_index h ≤ length root_owned)%nat →
  let h' := (update_host root_owned (length root_owned) h rs).1 in
  transferslots h' = transferslots h ∧ alive h' = alive h ∧
  chunks_owned h' = chunks_owned h ∧
  (chunk_index h' ≤ length root_owned)%nat ∧
  (∀ c, c ∈ chunks_needed h → c ∈ chunks_needed h') ∧
  (∀ c, c ∈ drop (chunk_index h) root_owned → c ∈ chunks_needed h').
Proof.
  intros Hidx. unfold update_host.
  case_bool_decide as Hlt; cbn.
  - pose proof (insert_new_chunks_Permutation
                  (drop (chunk_index h) root_owned) (chunks_needed h) rs) as Hp.
    destruct (insert_new_chunks _ _ _) as [needed rs']; cbn in *.
    split_and!; try done.
    + rewrite length_drop. lia.
    + intros c Hc. rewrite Hp. apply elem_of_app. by left.
    + intros c Hc. rewrite Hp. apply elem_of_app. by right.
  - split_and!; try done.
    intros c Hc. rewrite drop_ge in Hc by lia. by apply elem_of_nil in Hc.
Qed.

(** A host other than the root keeps what [update_host] does not write. *)
Lemma update_host_frame root_owned count h rs :
  let h' := (update_host root_owned count h rs).1 in
  transferslots h' = transferslots h ∧ alive h' = alive h ∧
  chunks_owned h' = chunks_owned h ∧
  (∀ c, c ∈ chunks_needed h → c ∈ chunks_needed h').
Proof.
  unfold update_host. case_bool_decide; cbn; [|done].
  pose proof (insert_new_chunks_Permutation
                (drop (chunk_index h) root_owned) (chunks_needed h) rs) as Hp.
  destruct (insert_new_chunks _ _ _) as [needed rs']; cbn in *.
  split_and!; try done.
  intros c Hc. rewrite Hp. apply elem_of_app. by left.
Qed.

End rr_frame_lemmas.

Section rr_preservation.

Variable m : Z.
Hypothesis m_pos : 0 < m.

Lemma rr_inv_on_subseteq fl fl' w :
  fl' ⊆ fl → rr_inv_on m fl w → rr_inv_on m fl' w.
Proof.
  intros Hsub (I1 & I2 & I3 & I4 & I5 & I6 & I7 & I8 & I9).
  unfold rr_inv_on. split_and!; try done.
  intros tr Htr. apply I8. by apply Hsub.
Qed.

(** The invariant survives an event that leaves the matches as they are,
    does not write the hosts not matched yet, and adds to owned lists only
    chunks in flight. *)
Lemma rr_inv_on_touch fl w w' :
  rr_inv_on m fl w →
  matched w' = matched w →
  hostcount (DB w') = hostcount (DB w) →
  roothost (DB w') = roothost (DB w) →
  tindex (DB w') = tindex (DB w) →
  chunkCount (DB w') = chunkCount (DB w) →
  needed_at (DB w') 0 = needed_at (DB w) 0 →
  owned_at (DB w') 0 = owned_at (DB w) 0 →
  (∀ j, unmatched w j → hostlist (DB w') !! j = hostlist (DB w) !! j) →
  (∀ i c, c ∈ owned_at (DB w') i →
     c ∈ owned_at (DB w) i ∨ ∃ tr, tr ∈ fl ∧ c = chunk tr) →
  rr_inv_on m fl w'.
Proof.
  intros (I1 & I2 & I3 & I4 & I5 & I6 & I7 & I8 & I9) Hm Hc Hr Ht Hcc Hn0 Ho0 Hj Ho.
  assert (Hun : ∀ j, unmatched w' j ↔ unmatched w j).
  { intros j. unfold unmatched. by rewrite Hm, Hc. }
  unfold rr_inv_on. rewrite Hm, Hc, Hr, Ht, Hcc, Hn0, Ho0.
  split_and!; try done.
  - intros tr Htr. destruct (I8 tr Htr) as (? & ? & ? & Hin).
    split_and!; try done. intros j Hjw'. apply Hun in Hjw'.
    unfold needed_at. rewrite Hj by done. by apply Hin.
  - intros j Hjw'. apply Hun in Hjw'.
    destruct (I9 j Hjw') as (? & ? & ? & ? & Hin).
    unfold slots_at, alive_at, owned_at, chunk_index_at, needed_at.
    rewrite Hj by done. split_and!; try done.
    intros i c Hc'. destruct (Ho i c Hc') as [Hold|(tr & Htr & ->)].
    + by apply (Hin i).
    + by apply (I8 tr Htr).
Qed.

(** The main thread gets its permit, or waits for it. *)
Lemma acquire_and_start_rr_inv tr w :
  rr_inv_on m (threadlist w ++ [tr]) w →
  rr_inv m (acquire_and_start tr w).
Proof.
  intros Hinv. unfold acquire_and_start.
  destruct (threadsema w) as [|permits].
  - unfold rr_inv, in_flight. cbn.
    eapply rr_inv_on_touch; [exact Hinv|done..|by left].
  - unfold rr_inv, in_flight, start_transfer. cbn. rewrite app_nil_r.
    pose proof Hinv as (I1 & I2 & I3 & I4 & I5 & I6 & I7 & I8 & I9).
    destruct (I8 tr) as (Ht0 & Hsn & Htn & _);
      [apply elem_of_app; right; left|].
    eapply rr_inv_on_touch; [exact Hinv|try done..]; cbn.
    + apply hostcount_with_host.
    + unfold needed_at. by rewrite field_with_host_ne.
    + unfold owned_at. by rewrite field_with_host_frame.
    + intros j Hj. rewrite lookup_with_host. rewrite decide_False; [done|].
      unfold unmatched in Hj. lia.
    + intros i c Hc. left. revert Hc. unfold owned_at.
      by rewrite field_with_host_frame.
Qed.

(** A worker completes. *)
Lemma Transfer_run_rr_inv k tr o w :
  rr_inv m w → threadlist w !! k = Some tr → rr_inv m (Transfer_run k tr o w).
Proof.
  intros Hinv Hk. unfold rr_inv.
  pose proof Hinv as (I1 & I2 & I3 & I4 & I5 & I6 & I7 & I8 & I9).
  assert (Htr : tr ∈ in_flight w).
  { unfold in_flight. apply elem_of_app. left. by eapply list_elem_of_lookup_2. }
  destruct (I8 tr Htr) as (Ht0 & Hsn & Htn & Hneed).
  destruct (Transfer_run_DB_fields k tr o w) as (F1 & F2 & F3 & _).
  destruct (Transfer_run_mainpc_matched k tr o w) as [F4 F5].
  apply (rr_inv_on_subseteq (in_flight w)).
  { unfold in_flight. rewrite F4, Transfer_run_threadlist.
    intros x Hx. apply elem_of_app in Hx as [Hx|Hx]; apply elem_of_app.
    - left. revert Hx. apply list_subseteq_delete.
    - by right. }
  eapply rr_inv_on_touch; [exact Hinv|try done..].
  - apply hostcount_Transfer_run.
  - by apply needed_at_Transfer_run_ne.
  - destruct (owned_at_Transfer_run k tr o w 0) as [->|[? _]]; [done|].
    by destruct Ht0.
  - intros j Hj. apply lookup_Transfer_run_ne; unfold unmatched in Hj; lia.
  - intros i c Hc.
    destruct (owned_at_Transfer_run k tr o w i) as [Hsame|[_ Happ]].
    + left. by rewrite <- Hsame.
    + rewrite Happ in Hc. apply elem_of_app in Hc as [Hc|Hc]; [by left|].
      right. exists tr. split; [done|]. by apply list_elem_of_singleton in Hc.
Qed.

End rr_preservation.

Section rr_match.

Variable m : Z.
Hypothesis m_pos : 0 < m.

Lemma getTransfer_scan db rs s t c db' rs' :
  getTransfer db rs = (Some (s, t, c), db', rs') →
  ∃ t', target_scan (hostlist db) (tindex db) rs (hostcount db)
        = (Some (s, t, c), t', rs').
Proof.
  unfold getTransfer.
  destruct (target_scan _ _ _ _) as [[[[[s0 t0] c0]|] t1] rs1]; [|done].
  intros [= <- <- <- <- <-]. eauto.
Qed.

Lemma can_seed_owned c h : can_seed c h = true → c ∈ chunks_owned h.
Proof.
  unfold can_seed, Py.contains. intros H.
  apply andb_true_iff in H as [H _]. apply andb_true_iff in H as [H _].
  by apply bool_decide_eq_true in H.
Qed.

(** While a host has not been matched, a match has the next one as target. *)
Lemma match_next_target w rs s t c db' rs' :
  rr_inv_on m (threadlist w) w →
  getTransfer (DB w) rs = (Some (s, t, c), db', rs') →
  (length (matched w) + 1 < hostcount (DB w))%nat →
  t = (length (matched w) + 1)%nat.
Proof.
  intros (I1 & I2 & I3 & I4 & I5 & I6 & I7 & I8 & I9) Hget Hn.
  destruct (getTransfer_scan _ _ _ _ _ _ _ Hget) as [t' Hscan].
  assert (Hun : unmatched w (length (matched w) + 1)) by (unfold unmatched; lia).
  destruct (I9 _ Hun) as (Hslots & Halive & _ & _ & Hall).
  destruct (lookup_lt_is_Some_2 (hostlist (DB w)) _ Hn) as [h Hh].
  unfold slots_at in Hslots. unfold alive_at in Halive.
  rewrite Hh in Hslots, Halive. cbn in *.
  assert (Hmod : ((tindex (DB w) + 1) `mod` length (hostlist (DB w)))%nat
                 = (length (matched w) + 1)%nat).
  { rewrite (I7 Hn). apply Nat.mod_small. exact Hn. }
  assert (∃ q, hostcount (DB w) = S q) as [q Hq]
    by (exists (pred (hostcount (DB w))); lia).
  rewrite Hq in Hscan. rewrite <- Hmod.
  eapply (target_scan_first _ _ _ _ _ _ _ _ _ h); [| | |exact Hscan].
  - by rewrite Hmod.
  - unfold can_receive. rewrite Halive, Hslots.
    by rewrite bool_decide_eq_true_2.
  - intros c0 j hj Hj Hseed.
    specialize (Hall j c0). unfold owned_at, needed_at in Hall.
    rewrite Hj, Hh in Hall. cbn in Hall. apply Hall.
    by apply can_seed_owned.
Qed.

(** [getTransfer] returns a triple. *)
Lemma match_rr_inv w rs s t c db' rs' :
  rr_inv_on m (threadlist w) w →
  getTransfer (DB w) rs = (Some (s, t, c), db', rs') →
  rr_inv_on m (threadlist w ++ [mkTransfer s c t])
    (log_match (mkTransfer s c t) (set_DB (λ _, db') w)).
Proof.
  intros Hinv Hget.
  pose proof (λ H, match_next_target w rs s t c db' rs' Hinv Hget H) as Hnext.
  pose proof Hinv as (I1 & I2 & I3 & I4 & I5 & I6 & I7 & I8 & I9).
  destruct (getTransfer_Some_frame _ _ _ _ _ _ _ Hget)
    as (Hs & Ht & Hslots & Hneeded & _).
  destruct (getTransfer_Some _ _ _ _ _ _ _ Hget)
    as (Hdb & (ht & Hht & _ & Hc) & (hs & Hhs & Hseed)).
  assert (Hcount : hostcount db' = hostcount (DB w)).
  { subst db'. by rewrite !hostcount_with_host. }
  assert (Hfield : ∀ {A} (get : Host → A) d i,
             (∀ f h, get (set_transferslots f h) = get h) →
             from_option get d (hostlist db' !! i)
             = from_option get d (hostlist (DB w) !! i)).
  { intros A get d i Hg. subst db'.
    rewrite !field_with_host_frame; [done|intros; apply Hg..]. }
  assert (Howned : c ∈ owned_at (DB w) s).
  { unfold owned_at. rewrite Hhs. cbn. by apply can_seed_owned. }
  assert (Ht0 : t ≠ 0%nat).
  { intros ->. unfold needed_at in I3. rewrite Hht in I3. cbn in I3.
    rewrite I3 in Hc. by apply elem_of_nil in Hc. }
  assert (Hsn : (s ≤ length (matched w))%nat).
  { destruct (decide (s ≤ length (matched w))%nat) as [|Hgt]; [done|].
    assert (Hun : unmatched w s) by (unfold unmatched; lia).
    destruct (I9 _ Hun) as (_ & _ & Hnil & _).
    rewrite Hnil in Howned. by apply elem_of_nil in Howned. }
  assert (Htn : (t ≤ length (matched w) + 1)%nat).
  { destruct (decide (length (matched w) + 1 < hostcount (DB w))%nat) as [Hlt|];
      [rewrite (Hnext Hlt)|]; lia. }
  assert (Hun : ∀ j, unmatched (log_match (mkTransfer s c t)
                                 (set_DB (λ _, db') w)) j →
                 unmatched w j ∧ j ≠ s ∧ j ≠ t).
  { intros j. unfold unmatched; cbn. rewrite length_app, Hcount. cbn. lia. }
  unfold rr_inv_on; cbn. rewrite length_app, Hcount. cbn.
  replace (roothost db') with (roothost (DB w)) by by subst db'.
  replace (chunkCount db') with (chunkCount (DB w)) by by subst db'.
  replace (tindex db') with t by by subst db'.
  rewrite Hneeded.
  split_and!; try done.
  - unfold owned_at. by rewrite Hfield.
  - intros k tr Hk Hlt. apply lookup_app_Some in Hk as [Hk|[Hlen Hk]].
    + by apply I6.
    + apply list_lookup_singleton_Some in Hk as [Hk <-]. cbn.
      rewrite Hnext by lia. lia.
  - intros Hlt. rewrite Hnext by lia. lia.
  - intros tr Htr. apply elem_of_app in Htr as [Htr|Htr].
    + destruct (I8 tr Htr) as (? & ? & ? & Hin).
      split_and!; [done|lia|lia|].
      intros j Hj. rewrite Hneeded. apply Hin. by apply Hun.
    + apply list_elem_of_singleton in Htr as ->. cbn.
      split_and!; [done|lia|lia|].
      intros j Hj. rewrite Hneeded. apply Hun in Hj as (Hj & _ & _).
      destruct (I9 j Hj) as (_ & _ & _ & _ & Hin). by apply (Hin s).
  - intros j Hj. apply Hun in Hj as (Hj & Hjs & Hjt).
    destruct (I9 j Hj) as (Hsl & Hal & Hown & Hidx & Hin).
    rewrite Hslots, Hneeded. unfold one_if. rewrite !decide_False by done.
    unfold alive_at, owned_at, chunk_index_at in *. rewrite !Hfield by done.
    split_and!; try done; [lia|].
    intros i c0. rewrite Hfield by done. apply Hin.
Qed.

(** [split] announces a chunk. *)
Lemma split_rr_inv curname w rs :
  rr_inv m w →
  rr_inv m (set_DB (λ db, (split_file_step curname db rs).1) w).
Proof.
  intros Hinv. pose proof Hinv as (I1 & I2 & I3 & I4 & I5 & I6 & I7 & I8 & I9).
  destruct (split_file_step_fields curname (DB w) rs)
    as (F1 & _ & _ & F4 & F5 & F6 & _).
  set (root_owned := owned_at (DB w) (roothost (DB w)) ++ [mkChunk curname]).
  assert (Hlen : length root_owned = S (chunkCount (DB w))).
  { unfold root_owned. rewrite length_app, I1, <- I5. cbn. lia. }
  assert (Hlook : ∀ j h, hostlist (DB w) !! j = Some h →
            ∃ rs1, hostlist (split_file_step curname (DB w) rs).1 !! j
                   = Some (if decide (j = roothost (DB w))
                           then set_chunks_owned (λ _, root_owned) h
                           else (update_host root_owned (length root_owned) h rs1).1)).
  { intros j h Hj. rewrite Hlen.
    apply lookup_split_file_step; [rewrite I1; lia|done]. }
  assert (Hsome : ∀ j, (j < hostcount (DB w))%nat →
            ∃ h, hostlist (DB w) !! j = Some h).
  { intros j Hj. by apply lookup_lt_is_Some_2. }
  assert (Hown : ∀ i c, c ∈ owned_at (split_file_step curname (DB w) rs).1 i →
            c ∈ owned_at (DB w) i ∨ c = mkChunk curname).
  { intros i c. unfold owned_at at 1 2.
    destruct (hostlist (DB w) !! i) as [h|] eqn:Hi.
    - destruct (Hlook i h Hi) as [rs1 ->]. cbn.
      destruct (decide (i = roothost (DB w))) as [->|]; cbn.
      + unfold root_owned, owned_at. rewrite Hi. cbn.
        intros Hc. apply elem_of_app in Hc as [Hc|Hc]; [by left|].
        right. by apply list_elem_of_singleton in Hc.
      + destruct (update_host_frame root_owned (length root_owned) h rs1)
          as (_ & _ & -> & _). by left.
    - rewrite (lookup_ge_None_2 (hostlist _.1)); [by left|].
      apply lookup_ge_None_1 in Hi. unfold hostcount in F1. lia. }
  assert (Hneed : ∀ j c, j ≠ 0%nat → c ∈ needed_at (DB w) j →
            c ∈ needed_at (split_file_step curname (DB w) rs).1 j).
  { intros j c Hj0. unfold needed_at.
    destruct (hostlist (DB w) !! j) as [h|] eqn:Hj;
      [|by intros ?%elem_of_nil].
    destruct (Hlook j h Hj) as [rs1 ->]. cbn.
    rewrite decide_False by (rewrite I1; done).
    destruct (update_host_frame root_owned (length root_owned) h rs1)
      as (_ & _ & _ & Hin). apply Hin. }
  assert (Hun : ∀ j, unmatched (set_DB (λ db, (split_file_step curname db rs).1) w) j
                 ↔ unmatched w j).
  { intros j. unfold unmatched; cbn. by rewrite F1. }
  unfold rr_inv, rr_inv_on, in_flight; cbn. rewrite F1, F4, F5, F6.
  split_and!; try done.
  - destruct (Hsome 0%nat I2) as [r Hr]. destruct (Hlook 0%nat r Hr) as [rs1 Hrs1].
    unfold needed_at in *. rewrite Hrs1, Hr in *. rewrite decide_True by done. done.
  - destruct (Hsome 0%nat I2) as [r Hr]. destruct (Hlook 0%nat r Hr) as [rs1 Hrs1].
    unfold owned_at. rewrite Hrs1. rewrite decide_True by done. cbn.
    by rewrite Hlen.
  - intros tr Htr. destruct (I8 tr Htr) as (? & ? & ? & Hin).
    split_and!; try done. intros j Hj. apply Hun in Hj.
    apply Hneed; [unfold unmatched in Hj; lia|]. by apply Hin.
  - intros j Hj. apply Hun in Hj.
    destruct (I9 j Hj) as (Hsl & Hal & Hown0 & Hidx & Hin).
    assert (Hj0 : j ≠ 0%nat) by (unfold unmatched in Hj; lia).
    destruct (Hsome j) as [h Hh]; [unfold unmatched in Hj; lia|].
    destruct (Hlook j h Hh) as [rs1 Hrs1].
    unfold slots_at, alive_at, owned_at, chunk_index_at in *.
    rewrite Hh in Hsl, Hal, Hown0, Hidx. cbn in *.
    destruct (update_host_fields root_owned h rs1)
      as (E1 & E2 & E3 & E4 & E5 & E6); [lia|].
    unfold needed_at at 1. rewrite Hrs1.
    rewrite decide_False by (rewrite I1; done). cbn.
    rewrite E1, E2, E3. split_and!; try done; [lia|].
    intros i c Hc. destruct (Hown i c Hc) as [Hold| ->].
    + apply E5. specialize (Hin i c Hold). unfold needed_at in Hin.
      by rewrite Hh in Hin.
    + apply E6. unfold root_owned.
      rewrite drop_app_le by (rewrite I1, <- I5; lia).
      apply elem_of_app. right. left.
Qed.

End rr_match.

Section rr_run.

Variable m : Z.
Hypothesis m_pos : 0 < m.

(** An event that writes neither the database, nor the matches, nor the
    transfers in flight. *)
Lemma rr_inv_same w w' :
  DB w' = DB w → matched w' = matched w → in_flight w' = in_flight w →
  rr_inv m w → rr_inv m w'.
Proof.
  intros HD HM HF Hinv. unfold rr_inv. rewrite HF.
  eapply rr_inv_on_touch; [exact Hinv|by rewrite ?HD..|].
  intros i c Hc. left. by rewrite <- HD.
Qed.

Lemma in_flight_join w :
  (∀ tr, mainpc w ≠ Acquiring tr) → in_flight (join w) = in_flight w.
Proof.
  intros H. unfold in_flight, join.
  destruct (threadlist w) eqn:E; cbn; rewrite E;
    destruct (mainpc w) eqn:Hpc; try done; by destruct (H tr).
Qed.

Lemma step_rr_inv w e w' : rr_inv m w → step w e = Some w' → rr_inv m w'.
Proof.
  intros Hinv.
  destruct e as [curname rs| |rs|k o| |k]; simpl.
  - destruct (split_complete (DB w)); [done|].
    destruct (Py.contains _ _); [done|]. intros [= <-].
    by apply split_rr_inv.
  - intros [= <-]. unfold rr_inv.
    eapply rr_inv_on_touch; [exact Hinv|done..|by left].
  - intros [= <-]. unfold main_step, initiateTransfers_step.
    destruct (mainpc w) eqn:Hpc.
    + assert (Hfl : in_flight w = threadlist w).
      { unfold in_flight. by rewrite Hpc, app_nil_r. }
      destruct (loop_cond (DB w)).
      * destruct (getTransfer (DB w) rs) as [[[[[s t] c]|] db'] rs'] eqn:Hget.
        -- apply acquire_and_start_rr_inv.
           apply (match_rr_inv m m_pos w rs s t c db' rs'); [|done].
           unfold rr_inv in Hinv. by rewrite Hfl in Hinv.
        -- destruct Hinv as (I1 & I2 & I3 & I4 & Hrest).
           rewrite (getTransfer_None_same _ _ _ _ I4 Hget).
           by apply (rr_inv_same w).
      * apply (rr_inv_same w); try done.
        -- apply join_fields.
        -- apply join_fields.
        -- apply in_flight_join. by rewrite Hpc.
    + apply acquire_and_start_rr_inv.
      unfold rr_inv, in_flight in Hinv. by rewrite Hpc in Hinv.
    + apply (rr_inv_same w); try done.
      * apply join_fields.
      * apply join_fields.
      * apply in_flight_join. by rewrite Hpc.
    + destruct (threadlist w) eqn:Htl; [|done].
      destruct (cleanup (options w)); apply (rr_inv_same w); try done;
        unfold in_flight; cbn; by rewrite Hpc, Htl.
    + destruct (wait_for_procs_step (commandq w)) as [q []];
        apply (rr_inv_same w); try done; unfold in_flight; cbn; by rewrite Hpc.
    + destruct (consumer (commandq w)); try done.
      apply (rr_inv_same w); try done. unfold in_flight; cbn. by rewrite Hpc.
    + done.
  - destruct (threadlist w !! k) as [tr|] eqn:Hk; [|done]. intros [= <-].
    by apply Transfer_run_rr_inv.
  - intros [= <-]. by apply (rr_inv_same w).
  - destruct (child_exit k (commandq w)); [|done]. intros [= <-].
    by apply (rr_inv_same w).
Qed.

Lemma run_rr_inv evs : ∀ w w',
  rr_inv m w → run w evs = Some w' → rr_inv m w'.
Proof.
  induction evs as [|e evs IH]; intros w w' Hinv; simpl.
  - by intros [= <-].
  - destruct (step w e) as [w1|] eqn:Hstep; [|done].
    apply IH. by eapply step_rr_inv.
Qed.

Lemma main_init_rr_inv rootname targetlist opts :
  rr_inv m (main_init rootname targetlist m opts).
Proof.
  assert (Hfresh : ∀ j h,
            hostlist (DB (main_init rootname targetlist m opts)) !! j = Some h →
            ∃ name, h = Host_init name [] m).
  { intros [|j] h; cbn.
    - intros [= <-]. eauto.
    - intros Hj. apply list_lookup_fmap_Some in Hj as (n & -> & Hn). eauto. }
  assert (Hown : ∀ i, owned_at (DB (main_init rootname targetlist m opts)) i = []).
  { intros i. unfold owned_at.
    destruct (hostlist _ !! i) as [h|] eqn:Hi; [|done].
    by destruct (Hfresh i h Hi) as [name ->]. }
  assert (H9 : ∀ j, unmatched (main_init rootname targetlist m opts) j →
            slots_at (DB (main_init rootname targetlist m opts)) j = m ∧
            alive_at (DB (main_init rootname targetlist m opts)) j = true ∧
            (chunk_index_at (DB (main_init rootname targetlist m opts)) j ≤ 0)%nat).
  { intros j [_ Hj].
    destruct (lookup_lt_is_Some_2 _ j Hj) as [h Hh].
    destruct (Hfresh j h Hh) as [name ->].
    unfold slots_at, alive_at, chunk_index_at. rewrite Hh. cbn.
    split_and!; [done|done|lia]. }
  unfold rr_inv, rr_inv_on.
  split_and!; try done; try (cbn; lia).
  - intros tr Htr. by apply elem_of_nil in Htr.
  - intros j Hj. destruct (H9 j Hj) as (? & ? & ?).
    rewrite Hown. split_and!; try done.
    intros i c Hc. rewrite Hown in Hc. by apply elem_of_nil in Hc.
Qed.

(** As long as some target has not been matched, the [k]-th match of a run
    has the [k]-th target of the host list as its target. *)
Lemma matches_follow_rotation rootname targetlist opts evs w k tr :
  run (main_init rootname targetlist m opts) evs = Some w →
  matched w !! k = Some tr → (k < length targetlist)%nat →
  targetindex tr = S k.
Proof.
  intros Hrun Hk Hlt.
  pose proof (run_rr_inv evs _ _ (main_init_rr_inv rootname targetlist opts) Hrun)
    as Hinv.
  assert (Hcount : hostcount (DB w) = S (length targetlist)).
  { clear Hinv Hk. revert Hrun.
    assert (Hgen : ∀ evs w0 w1, run w0 evs = Some w1 →
                     hostcount (DB w1) = hostcount (DB w0)).
    { clear. induction evs as [|e evs IH]; intros w0 w1; simpl.
      - by intros [= <-].
      - destruct (step w0 e) as [w2|] eqn:Hstep; [|done].
        intros Hrun. rewrite (IH _ _ Hrun). clear IH Hrun.
        destruct e as [curname rs| |rs|k o| |k]; simpl in Hstep.
        + destruct (split_complete (DB w0)); [done|].
          destruct (Py.contains _ _); [done|]. injection Hstep as <-.
          apply split_file_step_fields.
        + by injection Hstep as <-.
        + injection Hstep as <-. unfold main_step, initiateTransfers_step.
          destruct (mainpc w0).
          * destruct (loop_cond (DB w0)); [|apply (f_equal hostcount), join_fields].
            destruct (getTransfer (DB w0) rs) as [[[[[s t] c]|] db'] rs'] eqn:Hget.
            -- destruct (getTransfer_Some _ _ _ _ _ _ _ Hget) as (-> & _).
               unfold acquire_and_start, start_transfer.
               destruct (threadsema _); cbn; by rewrite !hostcount_with_host.
            -- by destruct (getTransfer_None _ _ _ _ Hget) as [t' ->].
          * unfold acquire_and_start, start_transfer.
            destruct (threadsema _); cbn; by rewrite ?hostcount_with_host.
          * apply (f_equal hostcount), join_fields.
          * destruct (threadlist w0); [|done]. by destruct (cleanup _).
          * by destruct (wait_for_procs_step _) as [q []].
          * by destruct (consumer _).
          * done.
        + destruct (threadlist w0 !! k); [|done]. injection Hstep as <-.
          apply hostcount_Transfer_run.
        + by injection Hstep as <-.
        + destruct (child_exit k (commandq w0)); [|done]. by injection Hstep as <-. }
    intros Hrun. rewrite (Hgen _ _ _ Hrun). unfold hostcount; cbn.
    by rewrite length_fmap. }
  destruct Hinv as (_ & _ & _ & _ & _ & I6 & _).
  rewrite (I6 k tr Hk); lia.
Qed.

End rr_run.

Section scenario_lemmas.

Lemma run_app evs1 : ∀ w evs2 w',
  run w (evs1 ++ evs2) = Some w' →
  ∃ w1, run w evs1 = Some w1 ∧ run w1 evs2 = Some w'.
Proof.
  induction evs1 as [|e evs1 IH]; intros w evs2 w'; simpl; [eauto|].
  destruct (step w e) as [w1|]; [apply IH|done].
Qed.

(** A chunk announced by [split] is counted, and matches nothing. *)
Lemma step_split_fields w curname rs w' :
  step w (EvSplit curname rs) = Some w' →
  matched w' = matched w ∧ chunkCount (DB w') = S (chunkCount (DB w)) ∧
  hostcount (DB w') = hostcount (DB w).
Proof.
  simpl. destruct (split_complete (DB w)); [done|].
  destruct (Py.contains _ _); [done|]. intros [= <-]. cbn.
  split; [done|]. split; apply split_file_step_fields.
Qed.

Lemma run_splits evs : ∀ w w',
  Forall (λ e, is_split e = true) evs → run w evs = Some w' →
  matched w' = matched w ∧
  chunkCount (DB w') = (chunkCount (DB w) + length evs)%nat ∧
  hostcount (DB w') = hostcount (DB w).
Proof.
  induction evs as [|e evs IH]; intros w w' Hall; simpl.
  - intros [= <-]. split_and!; [done|lia|done].
  - apply Forall_cons in Hall as [He Hall].
    destruct e as [curname rs| | | | |]; try done.
    destruct (step w (EvSplit curname rs)) as [w1|] eqn:Hstep; [|done].
    intros Hrun. destruct (IH _ _ Hall Hrun) as (-> & -> & ->).
    destruct (step_split_fields _ _ _ _ Hstep) as (-> & -> & ->).
    split_and!; [done|lia|done].
Qed.

End scenario_lemmas.

(** The rotation in the runs of [step]: one root and three targets with
    one slot each, six chunks split off before anything is matched.  In
    the state after the six chunks the root owns six chunks and every
    target is alive, has its slot and needs every chunk of the root; and
    however the run goes on from there by events of [step], the first
    three triples that [getTransfer] returns have the targets 1, 2 and 3,
    in this order: three different hosts. *)
Theorem first_three_matches_go_round (rootname n1 n2 n3 : string)
    (opts : Options) (c1 c2 c3 c4 c5 c6 : string)
    (rs1 rs2 rs3 rs4 rs5 rs6 : list nat) (evs : list Event) (w : World)
    (a b c : Transfer) (rest : list Transfer)
    (Hrun : run (main_init rootname [n1; n2; n3] 1 opts)
              ([EvSplit c1 rs1; EvSplit c2 rs2; EvSplit c3 rs3;
                EvSplit c4 rs4; EvSplit c5 rs5; EvSplit c6 rs6] ++ evs)
            = Some w)
    (Hmatched : matched w = a :: b :: c :: rest) :
  (∃ w0,
     run (main_init rootname [n1; n2; n3] 1 opts)
       [EvSplit c1 rs1; EvSplit c2 rs2; EvSplit c3 rs3;
        EvSplit c4 rs4; EvSplit c5 rs5; EvSplit c6 rs6] = Some w0 ∧
     run w0 evs = Some w ∧
     matched w0 = [] ∧
     hostcount (DB w0) = 4%nat ∧
     length (owned_at (DB w0) 0) = 6%nat ∧
     ∀ j, (1 ≤ j ≤ 3)%nat →
       alive_at (DB w0) j = true ∧ slots_at (DB w0) j = 1 ∧
       needed_at (DB w0) j ≠ [] ∧
       ∀ ch, ch ∈ owned_at (DB w0) 0 → ch ∈ needed_at (DB w0) j) ∧
  targetindex a = 1%nat ∧ targetindex b = 2%nat ∧ targetindex c = 3%nat ∧
  targetindex a ≠ targetindex b ∧ targetindex a ≠ targetindex c ∧
  targetindex b ≠ targetindex c.
Proof.
  assert (Hk : ∀ k tr, matched w !! k = Some tr → (k < 3)%nat →
                 targetindex tr = S k).
  { intros k tr Hk Hlt.
    by eapply (matches_follow_rotation 1 ltac:(lia) rootname [n1; n2; n3]). }
  assert (Ha : targetindex a = 1%nat) by (apply (Hk 0%nat); [by rewrite Hmatched|lia]).
  assert (Hb : targetindex b = 2%nat) by (apply (Hk 1%nat); [by rewrite Hmatched|lia]).
  assert (Hc : targetindex c = 3%nat) by (apply (Hk 2%nat); [by rewrite Hmatched|lia]).
  split; [|split_and!; lia].
  destruct (run_app _ _ _ _ Hrun) as (w0 & Hsplit & Hrest).
  exists w0. split; [done|]. split; [done|].
  pose proof (run_rr_inv 1 ltac:(lia) _ _ _
                (main_init_rr_inv 1 rootname [n1; n2; n3] opts) Hsplit)
    as (I1 & I2 & I3 & I4 & I5 & I6 & I7 & I8 & I9).
  assert (Hfields : matched w0 = [] ∧ chunkCount (DB w0) = 6%nat ∧
                    hostcount (DB w0) = 4%nat).
  { apply run_splits in Hsplit; [done|]. by repeat constructor. }
  destruct Hfields as (Hm0 & Hcc & Hhc).
  split_and!; try done.
  - by rewrite <- I5.
  - intros j Hj.
    assert (Hun : unmatched w0 j) by (unfold unmatched; rewrite Hm0, Hhc; cbn; lia).
    destruct (I9 j Hun) as (Hsl & Hal & _ & _ & Hin).
    split_and!; try done.
    + intros Hnil.
      destruct (owned_at (DB w0) 0) as [|ch l] eqn:Hown;
        [cbn in I5; lia|].
      assert (ch ∈ needed_at (DB w0) j) as Hch by (apply (Hin 0%nat); rewrite Hown; left).
      rewrite Hnil in Hch. by apply elem_of_nil in Hch.
    + intros ch Hch. by apply (Hin 0%nat).
Qed.

(** The rotation at work: six chunks, then a match, a call that finds
    nothing while the root's only slot is taken, the completion of the
    first copy, and two more matches. *)
Lemma first_three_matches_go_round_witness :
  ∃ w a b c,
    run Examples_rotation.four_hosts
      (Examples_rotation.six_chunks ++ Examples_rotation.three_matches) = Some w ∧
    matched w = [a; b; c] ∧
    targetindex a = 1%nat ∧ targetindex b = 2%nat ∧ targetindex c = 3%nat.
Proof.
  eexists _, _, _, _.
  split; [vm_compute; reflexivity|]. split; [reflexivity|].
  destruct (first_three_matches_go_round "root" "node1" "node2" "node3"
              Examples.opts
              "/tmp/f.chunk_aa" "/tmp/f.chunk_ab" "/tmp/f.chunk_ac"
              "/tmp/f.chunk_ad" "/tmp/f.chunk_ae" "/tmp/f.chunk_af"
              [] [] [] [] [] [] Examples_rotation.three_matches _ _ _ _ []
              ltac:(vm_compute; reflexivity) ltac:(reflexivity))
    as (_ & Ha & Hb & Hc & _).
  split; [exact Ha|]. split; [exact Hb|exact Hc].
Defined.

(** The second of two calls in a row finds nothing: the root, the only
    owner of a chunk, has its one slot taken by the first match. *)
Lemma second_call_in_a_row_finds_nothing :
  ∃ w, run Examples_rotation.four_hosts (Examples_rotation.six_chunks ++ [EvMain []])
       = Some w ∧
       length (matched w) = 1%nat ∧
       ∀ rs, (getTransfer (DB w) rs).1.1 = None.
Proof.
  eexists. split; [vm_compute; reflexivity|]. split; [reflexivity|].
  intros rs. unfold getTransfer.
  destruct (target_scan _ _ _ _) as [[[[[s t] c]|] t'] rs'] eqn:Hscan; [|done].
  exfalso.
  destruct (target_scan_Some _ _ _ _ _ _ _ _ _ Hscan) as (_ & (ht & Ht & Hr & Hc) & (hs & Hs & Hseed)).
  cbn in Hs, Ht.
  destruct s as [|[|[|[|s]]]]; cbn in Hs; try done; injection Hs as <-;
    try (apply can_seed_owned in Hseed; by apply elem_of_nil in Hseed).
  unfold can_seed in Hseed. cbn in Hseed. by rewrite andb_false_r in Hseed.
Qed.

(** ** The needed lists in the runs of [step] *)

Section needed_lemmas.

Lemma remove_Some_inv (c : Chunk) : ∀ l l',
  Py.remove c l = Some l' →
  l' ⊆ l ∧ (NoDup l → NoDup l' ∧ c ∉ l').
Proof.
  induction l as [|y l IH]; intros l'; simpl; [done|].
  destruct (decide (c = y)) as [->|Hne].
  - intros [= <-]. split; [intros x Hx; by right|].
    intros [Hy Hnd]%NoDup_cons. done.
  - destruct (Py.remove c l) as [l0|]; simpl; [|done].
    intros [= <-]. destruct (IH l0 eq_refl) as [Hsub Hnd].
    split.
    + intros x Hx. apply elem_of_cons in Hx as [->|Hx]; [left|right; by apply Hsub].
    + intros [Hy Hnd']%NoDup_cons. destruct (Hnd Hnd') as [? ?].
      split.
      * apply NoDup_cons. split; [|done]. intros Hy'. apply Hy. by apply Hsub.
      * rewrite not_elem_of_cons. done.
Qed.

Lemma take_drop_disjoint (n : nat) (l : list Chunk) (x : Chunk) :
  NoDup l → x ∈ take n l → x ∉ drop n l.
Proof.
  intros Hnd Hx. rewrite <- (take_drop n l) in Hnd.
  apply NoDup_app in Hnd as (_ & Hdis & _). by apply Hdis.
Qed.

Lemma chunk_index_at_Transfer_run k tr o w j :
  chunk_index_at (DB (Transfer_run k tr o w)) j = chunk_index_at (DB w) j.
Proof. by apply Transfer_run_field_frame. Qed.

(** An event that writes no needed list, no chunk index, not the root's
    owned list and no thread. *)
Lemma needed_core_same w w' :
  hostcount (DB w') = hostcount (DB w) →
  chunkCount (DB w') = chunkCount (DB w) →
  owned_at (DB w') 0 = owned_at (DB w) 0 →
  (∀ j, needed_at (DB w') j = needed_at (DB w) j) →
  (∀ j, chunk_index_at (DB w') j = chunk_index_at (DB w) j) →
  threadlist w' = threadlist w →
  (∀ tr, mainpc w' = Acquiring tr → mainpc w = Acquiring tr) →
  needed_core w → needed_core w'.
Proof.
  intros Hc Hcc Ho Hn Hi Htl Hpc (K1 & K2 & K3 & K4 & K5 & K6 & K7 & K8).
  unfold needed_core, known_at. rewrite Hc, Hcc, Ho, Htl.
  split_and!; try done.
  - intros j. by rewrite Hi.
  - intros j. by rewrite Hn.
  - intros j c. rewrite Hn, Hi. apply K5.
  - intros tr Htr. rewrite Hn, Hi. by apply K6.
  - intros tr Htr. rewrite Hn. apply K7. by apply Hpc.
Qed.

(** The chunk of the match leaves the needed list of its target. *)
Lemma start_transfer_needed_core tr w :
  needed_core w →
  chunk tr ∈ needed_at (DB w) (targetindex tr) →
  needed_core (start_transfer tr w).
Proof.
  intros (K1 & K2 & K3 & K4 & K5 & K6 & K7 & K8) Hin.
  assert (Ht : (targetindex tr < hostcount (DB w))%nat).
  { unfold needed_at in Hin. apply lookup_lt_is_Some.
    destruct (hostlist (DB w) !! targetindex tr); [eauto|].
    by apply elem_of_nil in Hin. }
  destruct (remove_is_Some _ _ Hin) as [l' Hl'].
  destruct (remove_Some_inv _ _ _ Hl') as [Hsub Hnd].
  destruct (Hnd (K4 _)) as [Hnd' Hnot].
  assert (Hneed : ∀ j, needed_at (DB (start_transfer tr w)) j
                       = if decide (targetindex tr = j) then l'
                         else needed_at (DB w) j).
  { intros j. unfold start_transfer; cbn.
    rewrite needed_at_set_chunks_needed by done.
    destruct (decide (targetindex tr = j)) as [<-|]; [|done]. by rewrite Hl'. }
  assert (Hsubj : ∀ j c, c ∈ needed_at (DB (start_transfer tr w)) j →
                    c ∈ needed_at (DB w) j).
  { intros j c. rewrite Hneed. destruct (decide (targetindex tr = j)) as [<-|];
      [apply Hsub|done]. }
  assert (Hown : ∀ j, owned_at (DB (start_transfer tr w)) j = owned_at (DB w) j).
  { intros j. unfold start_transfer, owned_at; cbn.
    by rewrite field_with_host_frame. }
  assert (Hidx : ∀ j, chunk_index_at (DB (start_transfer tr w)) j
                      = chunk_index_at (DB w) j).
  { intros j. unfold start_transfer, chunk_index_at; cbn.
    by rewrite field_with_host_frame. }
  assert (Hknown : ∀ j, known_at (DB (start_transfer tr w)) j = known_at (DB w) j).
  { intros j. unfold known_at. by rewrite Hidx, Hown. }
  assert (Hcount : hostcount (DB (start_transfer tr w)) = hostcount (DB w)).
  { unfold start_transfer; cbn. apply hostcount_with_host. }
  unfold needed_core. rewrite Hown, Hcount.
  split_and!; try done.
  - intros j. by rewrite Hidx.
  - intros j. rewrite Hneed. by destruct (decide (targetindex tr = j)).
  - intros j c Hc. rewrite Hknown. apply K5. by apply Hsubj.
  - intros tr0 Htr0. cbn in Htr0. rewrite Hknown.
    apply elem_of_app in Htr0 as [Htr0|Htr0].
    + destruct (K6 tr0 Htr0) as (? & Hn & ?). split_and!; try done.
      intros Hc. apply Hn. by apply Hsubj.
    + apply list_elem_of_singleton in Htr0 as ->. split_and!; try done.
      * rewrite Hneed. by rewrite decide_True.
      * by apply K5.
  - cbn. rewrite fmap_app. apply NoDup_app. split_and!; try done.
    + intros [t c] Hold Hnew. cbn in Hnew.
      apply list_elem_of_singleton in Hnew. injection Hnew as -> ->.
      apply list_elem_of_fmap in Hold as (tr0 & Heq & Htr0).
      injection Heq as Ht' Hc'.
      destruct (K6 tr0 Htr0) as (_ & Hn & _). apply Hn.
      by rewrite <- Ht', <- Hc'.
    + cbn. apply NoDup_singleton.
Qed.

Lemma acquire_and_start_needed_core tr w :
  needed_core w →
  chunk tr ∈ needed_at (DB w) (targetindex tr) →
  needed_core (acquire_and_start tr w).
Proof.
  intros Hinv Hin. unfold acquire_and_start.
  destruct (threadsema w); [|by apply start_transfer_needed_core].
  destruct Hinv as (K1 & K2 & K3 & K4 & K5 & K6 & K7 & K8).
  unfold needed_core; cbn. split_and!; try done.
  by intros ? [= <-].
Qed.

(** A worker completes. *)
Lemma Transfer_run_needed_core k tr o w :
  needed_core w → targetindex tr ≠ 0%nat → threadlist w !! k = Some tr →
  needed_core (Transfer_run k tr o w).
Proof.
  intros (K1 & K2 & K3 & K4 & K5 & K6 & K7 & K8) Ht0 Hk.
  assert (Htr : tr ∈ threadlist w) by (by eapply list_elem_of_lookup_2).
  destruct (K6 tr Htr) as (Ht & Hnot & Hknown).
  destruct (Transfer_run_DB_fields k tr o w) as (_ & _ & F3 & _).
  destruct (Transfer_run_mainpc_matched k tr o w) as [F4 _].
  assert (Hown : owned_at (DB (Transfer_run k tr o w)) 0 = owned_at (DB w) 0).
  { destruct (owned_at_Transfer_run k tr o w 0) as [->|[? _]]; [done|].
    by destruct Ht0. }
  assert (Hneed : ∀ j, needed_at (DB (Transfer_run k tr o w)) j
                       = if failed o && bool_decide (targetindex tr = j)
                         then needed_at (DB w) j ++ [chunk tr]
                         else needed_at (DB w) j).
  { intros j. rewrite needed_at_Transfer_run by done.
    destruct (failed o); cbn; [|done]. case_bool_decide as Hj; [|done].
    subst j. unfold Py.contains. by rewrite bool_decide_eq_false_2. }
  assert (Hsup : ∀ j c, c ∈ needed_at (DB w) j →
                   c ∈ needed_at (DB (Transfer_run k tr o w)) j).
  { intros j c Hc. rewrite Hneed. destruct (_ && _); [|done].
    apply elem_of_app. by left. }
  assert (Hinv : ∀ j c, c ∈ needed_at (DB (Transfer_run k tr o w)) j →
                   c ∈ needed_at (DB w) j ∨ (j = targetindex tr ∧ c = chunk tr)).
  { intros j c. rewrite Hneed. destruct (failed o); cbn; [|by left].
    case_bool_decide as Hj; [|by left]. subst j.
    intros Hc. apply elem_of_app in Hc as [Hc|Hc]; [by left|].
    right. by apply list_elem_of_singleton in Hc. }
  assert (Hknown' : ∀ j, known_at (DB (Transfer_run k tr o w)) j = known_at (DB w) j).
  { intros j. unfold known_at. by rewrite chunk_index_at_Transfer_run, Hown. }
  unfold needed_core.
  rewrite F3, Hown, hostcount_Transfer_run, Transfer_run_threadlist, F4.
  split_and!; try done.
  - intros j. by rewrite chunk_index_at_Transfer_run.
  - intros j. rewrite Hneed. destruct (failed o); cbn; [|done].
    case_bool_decide as Hj; [|done]. subst j.
    apply NoDup_app. split_and!; [done| |apply NoDup_singleton].
    intros c Hc Hc'. apply list_elem_of_singleton in Hc'. by subst c.
  - intros j c Hc. rewrite Hknown'.
    destruct (Hinv j c Hc) as [Hold|[-> ->]]; [by apply K5|done].
  - intros tr0 Htr0. rewrite Hknown'.
    assert (Htr0' : tr0 ∈ threadlist w) by (by eapply list_elem_of_delete_inv).
    destruct (K6 tr0 Htr0') as (? & Hn0 & ?). split_and!; try done.
    intros Hc. destruct (Hinv _ _ Hc) as [Hold|[Ht' Hc']]; [done|].
    (* the same chunk to the same target: it would be [tr] itself *)
    apply list_elem_of_lookup in Htr0 as [i Hi].
    rewrite list_lookup_delete in Hi.
    assert (Hpair : ((λ tr, (targetindex tr, chunk tr)) <$> threadlist w)
                      !! (if decide (i < k)%nat then i else S i)
                    = Some (targetindex tr, chunk tr)).
    { rewrite list_lookup_fmap.
      destruct (decide (i < k)%nat); rewrite Hi; cbn; by rewrite Ht', Hc'. }
    assert (Hpair' : ((λ tr, (targetindex tr, chunk tr)) <$> threadlist w) !! k
                     = Some (targetindex tr, chunk tr)).
    { rewrite list_lookup_fmap, Hk. done. }
    pose proof (NoDup_lookup _ _ _ _ K8 Hpair Hpair') as Heq.
    destruct (decide (i < k)%nat); lia.
  - intros tr0 Hpc. apply Hsup. by apply K7.
  - rewrite list_fmap_delete. eapply sublist_NoDup; [exact K8|].
    apply sublist_delete.
Qed.

End needed_lemmas.

Section needed_run.

(** [split] announces a chunk it has not announced before. *)
Lemma split_needed_core curname w rs :
  root_inv w → needed_core w →
  mkChunk curname ∉ owned_at (DB w) 0 →
  needed_core (set_DB (λ db, (split_file_step curname db rs).1) w).
Proof.
  intros (R1 & R2 & R3 & R4 & R5 & R6) (K1 & K2 & K3 & K4 & K5 & K6 & K7 & K8)
    Hfresh.
  destruct (split_file_step_fields curname (DB w) rs)
    as (F1 & _ & _ & _ & _ & F6 & _).
  set (db' := (split_file_step curname (DB w) rs).1) in *.
  set (root_owned := owned_at (DB w) 0 ++ [mkChunk curname]).
  assert (Hlen : length root_owned = S (chunkCount (DB w))).
  { unfold root_owned. rewrite length_app, <- K1. cbn. lia. }
  assert (Hnd : NoDup root_owned).
  { unfold root_owned. apply NoDup_app. split_and!; [done| |apply NoDup_singleton].
    intros c Hc Hc'. apply list_elem_of_singleton in Hc'. by subst c. }
  assert (Hlook : ∀ j h, hostlist (DB w) !! j = Some h →
            ∃ rs1, hostlist db' !! j
                   = Some (if decide (j = 0%nat)
                           then set_chunks_owned (λ _, root_owned) h
                           else (update_host root_owned (length root_owned) h rs1).1)).
  { intros j h Hj. rewrite Hlen.
    destruct (lookup_split_file_step curname (DB w) rs j h) as [rs1 Hrs1];
      [rewrite R1; lia|done|].
    exists rs1. rewrite R1 in Hrs1. exact Hrs1. }
  assert (Hown0 : owned_at db' 0 = root_owned).
  { destruct (lookup_lt_is_Some_2 (hostlist (DB w)) 0 R2) as [r Hr].
    destruct (Hlook 0%nat r Hr) as [rs1 Hrs1].
    unfold owned_at. by rewrite Hrs1. }
  assert (Hhost : ∀ j,
            needed_at db' j ≡ₚ needed_at (DB w) j
              ++ (if decide (j = 0%nat) then []
                  else if decide (j < hostcount (DB w))%nat
                       then drop (chunk_index_at (DB w) j) root_owned else []) ∧
            chunk_index_at db' j
              = if decide (j = 0%nat) then chunk_index_at (DB w) j
                else if decide (j < hostcount (DB w))%nat
                     then length root_owned else 0%nat).
  { intros j. unfold needed_at, chunk_index_at.
    destruct (hostlist (DB w) !! j) as [h|] eqn:Hj.
    - destruct (Hlook j h Hj) as [rs1 ->]. cbn.
      destruct (decide (j = 0%nat)); [by rewrite app_nil_r|].
      destruct (decide (j < hostcount (DB w))%nat) as [|Hge];
        [|destruct Hge; by eapply lookup_lt_Some].
      apply update_host_registers.
      specialize (K3 j). unfold chunk_index_at in K3. rewrite Hj in K3.
      cbn in K3. lia.
    - rewrite (lookup_ge_None_2 (hostlist db')).
      2:{ apply lookup_ge_None_1 in Hj. unfold hostcount in F1. lia. }
      cbn. destruct (decide (j = 0%nat)); [done|].
      destruct (decide (j < hostcount (DB w))%nat) as [Hlt|]; [|done].
      apply lookup_ge_None_1 in Hj. unfold hostcount in Hlt. lia. }
  assert (Hidx_le : ∀ j, (chunk_index_at (DB w) j ≤ length (owned_at (DB w) 0))%nat).
  { intros j. rewrite <- K1. apply K3. }
  assert (Hknown_old : ∀ j c, c ∈ known_at (DB w) j →
            c ∈ take (chunk_index_at (DB w) j) root_owned).
  { intros j c. unfold known_at, root_owned.
    by rewrite take_app_le by apply Hidx_le. }
  assert (Hknown_new : ∀ j c, c ∈ known_at (DB w) j → c ∈ known_at db' j).
  { intros j c Hc. unfold known_at. rewrite Hown0.
    destruct (Hhost j) as [_ ->].
    destruct (decide (j = 0%nat)); [by apply Hknown_old|].
    destruct (decide (j < hostcount (DB w))%nat).
    - rewrite take_ge by done.
      apply Hknown_old in Hc.
      eapply elem_of_sublist; [exact Hc|apply sublist_take].
    - unfold known_at, chunk_index_at in Hc.
      rewrite (lookup_ge_None_2 (hostlist (DB w))) in Hc
        by (unfold hostcount in *; lia).
      cbn in Hc. by apply elem_of_nil in Hc. }
  unfold needed_core; cbn. fold db'. rewrite F1, F6, Hown0.
  split_and!; try done.
  - intros j. destruct (Hhost j) as [_ ->]. specialize (K3 j).
    repeat case_decide; lia.
  - intros j. destruct (Hhost j) as [-> _].
    destruct (decide (j = 0%nat)); [by rewrite app_nil_r|].
    destruct (decide (j < hostcount (DB w))%nat); [|by rewrite app_nil_r].
    apply NoDup_app. split_and!; [done| |].
    + intros c Hc. apply (take_drop_disjoint _ _ _ Hnd).
      apply Hknown_old. by apply K5.
    + eapply sublist_NoDup; [exact Hnd|]. apply sublist_drop.
  - intros j c Hc. destruct (Hhost j) as [Hp Hi]. rewrite Hp in Hc.
    apply elem_of_app in Hc as [Hc|Hc]; [by apply Hknown_new, K5|].
    destruct (decide (j = 0%nat)); [by apply elem_of_nil in Hc|].
    destruct (decide (j < hostcount (DB w))%nat); [|by apply elem_of_nil in Hc].
    unfold known_at. rewrite Hown0, Hi.
    rewrite take_ge by done.
    eapply elem_of_sublist; [exact Hc|apply sublist_drop].
  - intros tr Htr. destruct (K6 tr Htr) as (Ht & Hn & Hk).
    split_and!; [done| |by apply Hknown_new].
    destruct (Hhost (targetindex tr)) as [-> _].
    rewrite not_elem_of_app. split; [done|].
    destruct (decide (targetindex tr = 0%nat)); [apply not_elem_of_nil|].
    rewrite decide_True by done.
    apply (take_drop_disjoint _ _ _ Hnd). by apply Hknown_old.
  - intros tr Hpc. destruct (Hhost (targetindex tr)) as [-> _].
    apply elem_of_app. left. by apply K7.
Qed.

Lemma join_needed_core w : needed_core w → needed_core (join w).
Proof.
  destruct (join_fields w) as (HDB & Htl & _ & Hs & _).
  apply needed_core_same; rewrite ?HDB; try done.
  intros tr Htr. by rewrite Htr in Hs.
Qed.

Lemma step_needed_inv w e w' : needed_inv w → step w e = Some w' → needed_inv w'.
Proof.
  intros [Hroot Hcore] Hstep. split; [by eapply step_root_inv|].
  pose proof Hroot as (R1 & R2 & R3 & R4 & R5 & R6).
  destruct e as [curname rs| |rs|k o| |k]; simpl in Hstep.
  - destruct (split_complete (DB w)); [done|].
    destruct (Py.contains _ _) eqn:Hc; [done|]. injection Hstep as <-.
    apply split_needed_core; try done.
    unfold Py.contains in Hc. apply bool_decide_eq_false in Hc.
    unfold root_owned in Hc. by rewrite R1 in Hc.
  - injection Hstep as <-. by apply (needed_core_same w).
  - injection Hstep as <-. unfold main_step, initiateTransfers_step.
    destruct (mainpc w) eqn:Hpc.
    + destruct (loop_cond (DB w)).
      * destruct (getTransfer (DB w) rs) as [[[[[s t] c]|] db'] rs'] eqn:Hget.
        -- destruct (getTransfer_Some_frame _ _ _ _ _ _ _ Hget)
             as (_ & _ & _ & Hn & Hin).
           destruct (getTransfer_Some _ _ _ _ _ _ _ Hget) as (Hdb & _).
           apply acquire_and_start_needed_core; [|cbn; by rewrite Hn].
           apply (needed_core_same w); try done; cbn.
           ++ subst db'. by rewrite !hostcount_with_host.
           ++ by subst db'.
           ++ subst db'. unfold owned_at. by rewrite !field_with_host_frame.
           ++ intros j. subst db'. unfold chunk_index_at.
              by rewrite !field_with_host_frame.
        -- destruct (getTransfer_None _ _ _ _ Hget) as [t' ->].
           by apply (needed_core_same w).
      * by apply join_needed_core.
    + destruct Hcore as (K1 & K2 & K3 & K4 & K5 & K6 & K7 & K8).
      apply acquire_and_start_needed_core; [by split_and!|by apply K7].
    + by apply join_needed_core.
    + destruct (threadlist w) eqn:Htl; [|done].
      destruct (cleanup (options w)); by apply (needed_core_same w).
    + destruct (wait_for_procs_step (commandq w)) as [q []];
        apply (needed_core_same w); try done; cbn; by rewrite Hpc.
    + destruct (consumer (commandq w)); try done.
      by apply (needed_core_same w).
    + done.
  - destruct (threadlist w !! k) as [tr|] eqn:Hk; [|done]. injection Hstep as <-.
    apply Transfer_run_needed_core; [done| |done].
    by eapply (Forall_lookup_1 _ _ _ _ R4 Hk).
  - injection Hstep as <-. by apply (needed_core_same w).
  - destruct (child_exit k (commandq w)); [|done]. injection Hstep as <-.
    by apply (needed_core_same w).
Qed.

Lemma run_needed_inv evs : ∀ w w',
  needed_inv w → run w evs = Some w' → needed_inv w'.
Proof.
  induction evs as [|e evs IH]; intros w w' Hinv; simpl.
  - by intros [= <-].
  - destruct (step w e) as [w1|] eqn:Hstep; [|done].
    apply IH. by eapply step_needed_inv.
Qed.

Lemma main_init_needed_inv rootname targetlist m opts :
  needed_inv (main_init rootname targetlist m opts).
Proof.
  split; [apply main_init_root_inv|].
  assert (Hfresh : ∀ j h,
            hostlist (DB (main_init rootname targetlist m opts)) !! j = Some h →
            ∃ name, h = Host_init name [] m).
  { intros [|j] h; cbn.
    - intros [= <-]. eauto.
    - intros Hj. apply list_lookup_fmap_Some in Hj as (n & -> & Hn). eauto. }
  assert (Hneed : ∀ j, needed_at (DB (main_init rootname targetlist m opts)) j = []).
  { intros j. unfold needed_at.
    destruct (hostlist _ !! j) as [h|] eqn:Hj; [|done].
    by destruct (Hfresh j h Hj) as [name ->]. }
  assert (Hidx : ∀ j, chunk_index_at (DB (main_init rootname targetlist m opts)) j
                      = 0%nat).
  { intros j. unfold chunk_index_at.
    destruct (hostlist _ !! j) as [h|] eqn:Hj; [|done].
    by destruct (Hfresh j h Hj) as [name ->]. }
  unfold needed_core. split_and!; try done.
  - apply NoDup_nil_2.
  - intros j. rewrite Hidx. cbn. lia.
  - intros j. rewrite Hneed. apply NoDup_nil_2.
  - intros j c. rewrite Hneed. by intros ?%elem_of_nil.
  - intros tr Htr. by apply elem_of_nil in Htr.
  - apply NoDup_nil_2.
Qed.

End needed_run.

(** * Further properties of the code *)

#[local] Arguments held_slots : simpl never.
#[local] Arguments arriving : simpl never.

(** ** The matcher *)

Section matcher_complete.

(** The target scan tries the [q] positions after the cursor, cyclically. *)
Lemma target_scan_None_upto hl : ∀ q t0 rs t' rs',
  (0 < length hl)%nat →
  target_scan hl t0 rs q = (None, t', rs') →
  ∀ k h, (1 ≤ k ≤ q)%nat →
    hl !! ((t0 + k) `mod` length hl)%nat = Some h →
    can_receive h = true →
    ∀ c j hj, c ∈ chunks_needed h → hl !! j = Some hj → can_seed c hj = false.
Proof.
  induction q as [|q IH]; intros t0 rs t' rs' Hlen; simpl; [intros; lia|].
  assert (Hlt : ((t0 + 1) `mod` length hl < length hl)%nat)
    by (apply Nat.mod_upper_bound; lia).
  destruct (lookup_lt_is_Some_2 hl _ Hlt) as [h0 Hh0]. rewrite Hh0.
  intros Hscan k h Hk Hh Hrecv c j hj Hc Hj.
  assert (Hrest : ∀ rs1, target_scan hl ((t0 + 1) `mod` length hl) rs1 q
                         = (None, t', rs') →
                  (2 ≤ k)%nat → can_seed c hj = false).
  { intros rs1 Hrec Hk2.
    assert (Hpos : hl !! (((t0 + 1) `mod` length hl + (k - 1)) `mod` length hl)%nat
                   = Some h).
    { rewrite Nat.Div0.add_mod_idemp_l.
      by replace (t0 + 1 + (k - 1))%nat with (t0 + k)%nat by lia. }
    exact (IH _ _ _ _ Hlen Hrec (k - 1)%nat h ltac:(lia) Hpos Hrecv c j hj Hc Hj). }
  destruct (decide (k = 1%nat)) as [->|Hk1].
  - rewrite Hh0 in Hh. injection Hh as ->. rewrite Hrecv in Hscan.
    destruct (chunk_scan hl (chunks_needed h) rs) as [[[s0 c0]|] rs1] eqn:Hcs;
      [done|].
    by apply (chunk_scan_None _ _ _ _ Hcs c j hj).
  - destruct (can_receive h0).
    + destruct (chunk_scan hl (chunks_needed h0) rs) as [[[s0 c0]|] rs1];
        [done|]. apply (Hrest _ Hscan). lia.
    + apply (Hrest _ Hscan). lia.
Qed.

(** A full turn of the target scan misses no host. *)
Lemma target_scan_None_all hl t0 rs t' rs' j h :
  target_scan hl t0 rs (length hl) = (None, t', rs') →
  hl !! j = Some h → can_receive h = true →
  ∀ c i hi, c ∈ chunks_needed h → hl !! i = Some hi → can_seed c hi = false.
Proof.
  intros Hscan Hj Hrecv.
  assert (Hlen : (j < length hl)%nat) by (by eapply lookup_lt_Some).
  set (N := length hl) in *.
  set (r := (t0 `mod` N)%nat).
  assert (Hr : (r < N)%nat) by (apply Nat.mod_upper_bound; lia).
  set (k := if decide (r < j)%nat then (j - r)%nat else (j + N - r)%nat).
  assert (Hk : (1 ≤ k ≤ N)%nat) by (unfold k; case_decide; lia).
  assert (Hmod : ((t0 + k) `mod` N)%nat = j).
  { rewrite <- Nat.Div0.add_mod_idemp_l. fold r. unfold k. case_decide.
    - replace (r + (j - r))%nat with j by lia. by apply Nat.mod_small.
    - replace (r + (j + N - r))%nat with (j + 1 * N)%nat by lia.
      rewrite Nat.Div0.mod_add. by apply Nat.mod_small. }
  rewrite <- Hmod in Hj.
  exact (target_scan_None_upto hl N t0 rs t' rs' ltac:(lia) Hscan k h Hk Hj Hrecv).
Qed.

Lemma getTransfer_None_no_eligible db rs :
  (getTransfer db rs).1.1 = None → ∀ s t c, ¬ eligible db s t c.
Proof.
  unfold getTransfer.
  destruct (target_scan _ _ _ _) as [[[[[s0 t0] c0]|] t1] rs1] eqn:Hscan; [done|].
  intros _ s t c (hs & ht & Hs & Ht & Hrecv & Hc & Hseed).
  pose proof (target_scan_None_all _ _ _ _ _ _ _ Hscan Ht Hrecv c s hs Hc Hs).
  congruence.
Qed.

(** Every host that can seed the chunk is found from some start. *)
Lemma seed_scan_from_next hl c s h :
  hl !! s = Some h → can_seed c h = true →
  seed_scan hl c (S s) (length hl) = Some s.
Proof.
  intros Hs Hseed.
  assert (Hlen : (s < length hl)%nat) by (by eapply lookup_lt_Some).
  destruct (length hl) as [|n] eqn:Hn; [lia|]. simpl. rewrite Hn.
  assert (Hprev : prev_index (S s) (S n) = s).
  { unfold prev_index.
    replace (Z.of_nat (S s) - 1) with (Z.of_nat s) by lia.
    rewrite Z.mod_small by lia. lia. }
  by rewrite Hprev, Hs, Hseed.
Qed.

End matcher_complete.

(** X1: [getTransfer] returns a triple exactly when some triple is
    eligible: it returns [None] only if no alive target with a free slot
    needs a chunk that an alive host with a free slot owns; and the triple
    it returns is eligible, with the cursor left on its target. *)
Theorem getTransfer_finds_iff_eligible (db : Database) (rs : list nat) :
  (is_Some (getTransfer db rs).1.1 ↔ ∃ s t c, eligible db s t c) ∧
  (∀ s t c, (getTransfer db rs).1.1 = Some (s, t, c) →
     eligible db s t c ∧ tindex (getTransfer db rs).1.2 = t).
Proof.
  assert (Hsound : ∀ s t c, (getTransfer db rs).1.1 = Some (s, t, c) →
            eligible db s t c ∧ tindex (getTransfer db rs).1.2 = t).
  { intros s t c Hget.
    destruct (getTransfer db rs) as [[o db'] rs'] eqn:Hg. cbn in Hget. subst o.
    destruct (getTransfer_Some _ _ _ _ _ _ _ Hg)
      as (-> & (ht & Ht & Hr & Hc) & (hs & Hs & Hseed)).
    split; [|done]. exists hs, ht. by split_and!. }
  split; [|done]. split.
  - intros [[[s t] c] Hget]. exists s, t, c. by apply Hsound.
  - intros (s & t & c & Hel).
    destruct ((getTransfer db rs).1.1) as [tr|] eqn:Hget; [eauto|].
    by destruct (getTransfer_None_no_eligible db rs Hget s t c).
Qed.

(** X2: the random start of the seed scan leaves no seed out: for a host
    that owns the chunk, is alive and has a free slot, some value of
    [random.randint(0, hostcount)] makes the scan return that host. *)
Theorem seed_scan_reaches_every_seed (hl : list Host) (c : Chunk) (s : nat)
    (h : Host) (Hs : hl !! s = Some h) (Hseed : can_seed c h = true) :
  ∃ d, Py.randint 0 (Z.of_nat (length hl)) d = Z.of_nat (S s) ∧
       seed_scan hl c (Z.to_nat (Py.randint 0 (Z.of_nat (length hl)) d))
         (length hl) = Some s.
Proof.
  assert (Hlen : (s < length hl)%nat) by (by eapply lookup_lt_Some).
  assert (Hd : Py.randint 0 (Z.of_nat (length hl)) (S s) = Z.of_nat (S s)).
  { unfold Py.randint. rewrite Z.mod_small by lia. lia. }
  exists (S s). split; [done|]. rewrite Hd, Nat2Z.id.
  by eapply seed_scan_from_next.
Qed.

Lemma seed_scan_reaches_every_seed_witness :
  ∃ d, seed_scan (hostlist Examples.db_two_hosts) Examples.chunk_a
         (Z.to_nat (Py.randint 0 2 d)) 2 = Some 0%nat.
Proof.
  destruct (seed_scan_reaches_every_seed (hostlist Examples.db_two_hosts)
              Examples.chunk_a 0 _ eq_refl eq_refl) as [d [_ Hd]].
  exists d. exact Hd.
Defined.

(** X3: a call of [getTransfer] that finds nothing changes nothing: after
    its full turn the cursor is back where it was. *)
Theorem getTransfer_None_unchanged (db : Database) (rs : list nat)
    (Hcursor : (tindex db < hostcount db)%nat)
    (Hnone : (getTransfer db rs).1.1 = None) :
  (getTransfer db rs).1.2 = db.
Proof.
  destruct (getTransfer db rs) as [[o db'] rs'] eqn:Hg. cbn in *. subst o.
  by eapply getTransfer_None_same.
Qed.

Lemma getTransfer_None_unchanged_witness :
  (getTransfer (DB Examples_worker.copying) [0%nat]).1.2
  = DB Examples_worker.copying.
Proof.
  apply (getTransfer_None_unchanged (DB Examples_worker.copying) [0%nat]).
  - vm_compute. lia.
  - reflexivity.
Defined.

Section matcher_order.

Lemma chunk_scan_first hl needed : ∀ rs s c rs',
  chunk_scan hl needed rs = (Some (s, c), rs') →
  ∃ pre post, needed = pre ++ c :: post ∧
    ∀ c' j hj, c' ∈ pre → hl !! j = Some hj → can_seed c' hj = false.
Proof.
  induction needed as [|c0 needed IH]; intros rs s c rs'; simpl; [done|].
  destruct (Py.draw rs) as [d rs1].
  destruct (seed_scan _ _ _ _) as [s0|] eqn:Hs.
  - intros [= <- <- <-]. exists [], needed. split; [done|].
    intros c' j hj Hc'. by apply elem_of_nil in Hc'.
  - intros Hrest. destruct (IH _ _ _ _ Hrest) as (pre & post & -> & Hpre).
    exists (c0 :: pre), post. split; [done|].
    intros c' j hj Hc' Hj. apply elem_of_cons in Hc' as [->|Hc'].
    + by eapply seed_scan_None.
    + by eapply Hpre.
Qed.

Lemma target_scan_order hl : ∀ q t0 rs s t c t' rs',
  (0 < length hl)%nat →
  target_scan hl t0 rs q = (Some (s, t, c), t', rs') →
  ∃ k h rs1,
    (1 ≤ k ≤ q)%nat ∧ t = ((t0 + k) `mod` length hl)%nat ∧
    hl !! t = Some h ∧
    chunk_scan hl (chunks_needed h) rs1 = (Some (s, c), rs') ∧
    ∀ k' h', (1 ≤ k' < k)%nat →
      hl !! ((t0 + k') `mod` length hl)%nat = Some h' →
      can_receive h' = true →
      ∀ c' j hj, c' ∈ chunks_needed h' → hl !! j = Some hj →
        can_seed c' hj = false.
Proof.
  induction q as [|q IH]; intros t0 rs s t c t' rs' Hlen; simpl; [done|].
  destruct (hl !! ((t0 + 1) `mod` length hl)%nat) as [h0|] eqn:Hh0; [|done].
  assert (Hrest : ∀ rs1,
    (∀ c' j hj, can_receive h0 = true → c' ∈ chunks_needed h0 →
       hl !! j = Some hj → can_seed c' hj = false) →
    target_scan hl ((t0 + 1) `mod` length hl) rs1 q = (Some (s, t, c), t', rs') →
    ∃ k h rs2,
      (1 ≤ k ≤ S q)%nat ∧ t = ((t0 + k) `mod` length hl)%nat ∧
      hl !! t = Some h ∧
      chunk_scan hl (chunks_needed h) rs2 = (Some (s, c), rs') ∧
      ∀ k' h', (1 ≤ k' < k)%nat →
        hl !! ((t0 + k') `mod` length hl)%nat = Some h' →
        can_receive h' = true →
        ∀ c' j hj, c' ∈ chunks_needed h' → hl !! j = Some hj →
          can_seed c' hj = false).
  { intros rs1 Hfirst Hrec.
    destruct (IH _ _ _ _ _ _ _ Hlen Hrec) as (k & h & rs2 & Hk & -> & Hh & Hcs & Hbefore).
    assert (Hshift : ∀ n, (((t0 + 1) `mod` length hl + n) `mod` length hl
                           = (t0 + S n) `mod` length hl)%nat).
    { intros n. rewrite Nat.Div0.add_mod_idemp_l. f_equal. lia. }
    exists (S k), h, rs2. rewrite Hshift in Hh. rewrite Hshift.
    split; [lia|]. split; [done|]. split; [done|]. split; [done|].
    intros k' h' Hk' Hh' Hrecv c' j hj Hc' Hj.
    destruct (decide (k' = 1%nat)) as [->|Hne].
    - rewrite Hh0 in Hh'. injection Hh' as <-. by eapply Hfirst.
    - assert (Hpos : hl !! (((t0 + 1) `mod` length hl + (k' - 1)) `mod` length hl)%nat
                     = Some h').
      { rewrite Hshift. by replace (S (k' - 1)) with k' by lia. }
      exact (Hbefore (k' - 1)%nat h' ltac:(lia) Hpos Hrecv c' j hj Hc' Hj). }
  destruct (can_receive h0) eqn:Hrecv0.
  - destruct (chunk_scan hl (chunks_needed h0) rs) as [[[s0 c0]|] rs1] eqn:Hcs.
    + intros [= <- <- <- <- <-].
      exists 1%nat, h0, rs.
      split; [lia|]. split; [done|]. split; [done|]. split; [done|].
      intros; lia.
    + apply Hrest. intros c' j hj _ Hc' Hj.
      exact (chunk_scan_None _ _ _ _ Hcs c' j hj Hc' Hj).
  - by apply Hrest.
Qed.

End matcher_order.

(** X4: the target returned by [getTransfer] is the first host after the
    cursor, in cyclic order, for which some triple is eligible: the hosts
    passed over have none. *)
Theorem getTransfer_first_eligible_target (db : Database) (rs : list nat)
    (s t : nat) (c : Chunk)
    (Hget : (getTransfer db rs).1.1 = Some (s, t, c)) :
  ∃ k, (1 ≤ k ≤ hostcount db)%nat ∧
       t = ((tindex db + k) `mod` hostcount db)%nat ∧
       ∀ k' s' c', (1 ≤ k' < k)%nat →
         ¬ eligible db s' ((tindex db + k') `mod` hostcount db)%nat c'.
Proof.
  revert Hget. unfold getTransfer.
  destruct (target_scan _ _ _ _) as [[[[[s0 t0] c0]|] t1] rs1] eqn:Hscan; [|done].
  cbn. intros [= -> -> ->].
  assert (Hlen : (0 < length (hostlist db))%nat).
  { unfold hostcount in Hscan. destruct (length (hostlist db)); [done|lia]. }
  destruct (target_scan_order _ _ _ _ _ _ _ _ _ Hlen Hscan)
    as (k & h & rs2 & Hk & -> & _ & _ & Hbefore).
  exists k. split; [done|]. split; [done|].
  intros k' s' c' Hk' (hs & ht & Hs & Ht & Hrecv & Hc & Hseed).
  pose proof (Hbefore k' ht Hk' Ht Hrecv c' s' hs Hc Hs). congruence.
Qed.

(** X4 at work: the cursor is on the root; node1 is passed over (no host
    with a free slot owns the chunk it needs) and node2 is the target. *)
Lemma getTransfer_first_eligible_target_witness :
  (getTransfer Examples_order.db []).1.1 = Some (1%nat, 2%nat, Examples.chunk_a) ∧
  ∃ k, (1 ≤ k ≤ 3)%nat ∧ 2%nat = ((0 + k) `mod` 3)%nat ∧
       ∀ k' s' c', (1 ≤ k' < k)%nat →
         ¬ eligible Examples_order.db s' ((0 + k') `mod` 3)%nat c'.
Proof.
  split; [reflexivity|].
  exact (getTransfer_first_eligible_target Examples_order.db []
           1 2 Examples.chunk_a eq_refl).
Defined.

(** X5: the chunk returned by [getTransfer] is the first chunk of the
    target's needed list that some host can seed: no host can seed a chunk
    that stands before it in the list. *)
Theorem getTransfer_first_seedable_chunk (db : Database) (rs : list nat)
    (s t : nat) (c : Chunk)
    (Hget : (getTransfer db rs).1.1 = Some (s, t, c)) :
  ∃ pre post, needed_at db t = pre ++ c :: post ∧
    ∀ c' j hj, c' ∈ pre → hostlist db !! j = Some hj → can_seed c' hj = false.
Proof.
  revert Hget. unfold getTransfer.
  destruct (target_scan _ _ _ _) as [[[[[s0 t0] c0]|] t1] rs1] eqn:Hscan; [|done].
  cbn. intros [= -> -> ->].
  assert (Hlen : (0 < length (hostlist db))%nat).
  { unfold hostcount in Hscan. destruct (length (hostlist db)); [done|lia]. }
  destruct (target_scan_order _ _ _ _ _ _ _ _ _ Hlen Hscan)
    as (k & h & rs2 & Hk & _ & Hh & Hcs & _).
  unfold needed_at. rewrite Hh. cbn. by eapply chunk_scan_first.
Qed.

(** X5 at work: [chunk_b], the first chunk node2 needs, is passed over
    (its only owner, the root, has no free slot) and [chunk_a] is
    returned. *)
Lemma getTransfer_first_seedable_chunk_witness :
  needed_at Examples_order.db 2 = [Examples.chunk_b; Examples.chunk_a] ∧
  ∃ pre post, needed_at Examples_order.db 2 = pre ++ Examples.chunk_a :: post ∧
    ∀ c' j hj, c' ∈ pre → hostlist Examples_order.db !! j = Some hj →
      can_seed c' hj = false.
Proof.
  split; [reflexivity|].
  exact (getTransfer_first_seedable_chunk Examples_order.db []
           1 2 Examples.chunk_a eq_refl).
Defined.

(** ** Hosts *)

Lemma with_host_same i h db :
  hostlist db !! i = Some h → with_host i (λ _, h) db = db.
Proof.
  intros Hi. destruct db as [hl ? ? ? ? ? ?]; cbn in *.
  unfold with_host, set_hostlist; cbn. f_equal.
  apply list_eq. intros j. rewrite list_lookup_alter.
  destruct (decide (i = j)) as [<-|]; [|done]. by rewrite Hi.
Qed.

Lemma setDead_dead i db :
  alive_at db i = false → setDead i db = db.
Proof.
  unfold alive_at, setDead, Host_setDead.
  destruct (hostlist db !! i) as [h|] eqn:Hi; cbn; [|done].
  intros ->. by apply with_host_same.
Qed.

Lemma setDead_alive i db h :
  hostlist db !! i = Some h → alive h = true →
  setDead i db
  = incDeadHosts
      (with_host i (λ _, set_transferslots (λ _, 0) (set_alive false h)) db).
Proof. intros Hi Ha. unfold setDead, Host_setDead. by rewrite Hi, Ha. Qed.

(** X6: [setDead] takes effect once: on a live host it clears the flag,
    zeroes the slots and counts one more dead host; on a dead host, or
    called again, it changes nothing. *)
Theorem setDead_once (i : nat) (db : Database) :
  setDead i (setDead i db) = setDead i db ∧
  alive_at (setDead i db) i = false ∧
  deadhosts (setDead i db)
    = (deadhosts db + if alive_at db i then 1 else 0)%nat ∧
  slots_at (setDead i db) i = (if alive_at db i then 0 else slots_at db i).
Proof.
  assert (Hdead : alive_at (setDead i db) i = false).
  { destruct (alive_at db i) eqn:Ha; [|by rewrite setDead_dead].
    unfold alive_at in *.
    destruct (hostlist db !! i) as [h|] eqn:Hi; [|done]. cbn in Ha.
    rewrite (setDead_alive _ _ _ Hi Ha). cbn.
    by rewrite lookup_with_host, decide_True, Hi by done. }
  split; [by apply setDead_dead|]. split; [done|].
  destruct (alive_at db i) eqn:Ha.
  - unfold alive_at, slots_at in *.
    destruct (hostlist db !! i) as [h|] eqn:Hi; [|done]. cbn in Ha.
    rewrite (setDead_alive _ _ _ Hi Ha). cbn.
    rewrite lookup_with_host, decide_True, Hi by done. cbn.
    split; [unfold with_host; cbn; lia|done].
  - rewrite setDead_dead by done. split; [lia|done].
Qed.

(** ** The splitter driver *)

Section update_twice.

Lemma update_host_twice root_owned count h rs rs2 :
  update_host root_owned count (update_host root_owned count h rs).1 rs2
  = ((update_host root_owned count h rs).1, rs2).
Proof.
  unfold update_host at 2 3.
  case_bool_decide as Hlt.
  - destruct (insert_new_chunks _ _ _) as [needed rs'] eqn:Hins. cbn.
    unfold update_host. cbn. case_bool_decide; [|done].
    rewrite drop_ge by (rewrite length_drop; lia). cbn.
    destruct h; cbn. unfold set_chunk_index, set_chunks_needed; cbn.
    by rewrite Nat.add_0_r.
  - cbn. unfold update_host. by rewrite bool_decide_eq_false_2.
Qed.

Lemma update_hosts_twice root root_owned count hl : ∀ i rs rs2,
  update_hosts root root_owned count i
    (update_hosts root root_owned count i hl rs).1 rs2
  = ((update_hosts root root_owned count i hl rs).1, rs2).
Proof.
  induction hl as [|h hl IH]; intros i rs rs2; [done|]. simpl.
  destruct (decide (i = root)) as [->|Hne].
  - destruct (update_hosts root root_owned count (S root) hl rs)
      as [hl1 rs1] eqn:E1. simpl.
    rewrite decide_True by done.
    specialize (IH (S root) rs rs2). rewrite E1 in IH. cbn in IH.
    by rewrite IH.
  - destruct (update_host root_owned count h rs) as [h1 rs1] eqn:Eh.
    destruct (update_hosts root root_owned count (S i) hl rs1)
      as [hl1 rs3] eqn:E1. simpl.
    rewrite decide_False by done.
    pose proof (update_host_twice root_owned count h rs rs2) as Hh.
    rewrite Eh in Hh. cbn in Hh. rewrite Hh.
    specialize (IH (S i) rs1 rs2). rewrite E1 in IH. cbn in IH.
    by rewrite IH.
Qed.

Lemma update_hosts_root root root_owned count hl : ∀ i rs j,
  (i + j = root)%nat →
  (update_hosts root root_owned count i hl rs).1 !! j = hl !! j.
Proof.
  induction hl as [|h hl IH]; intros i rs j Hj; [done|]. simpl.
  destruct (decide (i = root)) as [->|Hne].
  - destruct (update_hosts root root_owned count (S root) hl rs)
      as [hl1 rs1] eqn:E1. simpl.
    assert (j = 0%nat) as -> by lia. done.
  - destruct (update_host root_owned count h rs) as [h1 rs1] eqn:Eh.
    destruct (update_hosts root root_owned count (S i) hl rs1)
      as [hl1 rs3] eqn:E1. simpl.
    destruct j as [|j]; [lia|]. simpl.
    specialize (IH (S i) rs1 j ltac:(lia)). by rewrite E1 in IH.
Qed.

End update_twice.

(** X7: [update_chunks_needed] announces a chunk once: a second call with
    no new chunk of the root in between changes no host and takes no
    random draw. *)
Theorem update_chunks_needed_twice (db : Database) (rs rs2 : list nat) :
  update_chunks_needed (update_chunks_needed db rs).1 rs2
  = ((update_chunks_needed db rs).1, rs2).
Proof.
  unfold update_chunks_needed at 2 3.
  destruct (hostlist db !! roothost db) as [root|] eqn:Hroot.
  - destruct (update_hosts _ _ _ _ _ _) as [hl rs1] eqn:Hup. cbn.
    unfold update_chunks_needed. cbn.
    pose proof (update_hosts_root (roothost db) (chunks_owned root)
                  (chunkCount db) (hostlist db) 0 rs (roothost db) eq_refl) as Hr.
    rewrite Hup in Hr. cbn in Hr. rewrite Hr, Hroot.
    pose proof (update_hosts_twice (roothost db) (chunks_owned root)
                  (chunkCount db) (hostlist db) 0 rs rs2) as Ht.
    rewrite Hup in Ht. cbn in Ht. rewrite Ht.
    by destruct db.
  - cbn. unfold update_chunks_needed. by rewrite Hroot.
Qed.

(** ** The command queue *)

Section queue_lemmas.

Lemma filter_running_split (ps : list Proc) :
  (length (filter (λ p, running p = true) ps)
   + length (filter (λ p, running p = false) ps) = length ps)%nat.
Proof.
  induction ps as [|p ps IH]; [done|].
  rewrite !filter_cons. destruct p as [c []]; cbn.
  - rewrite decide_True by done. rewrite decide_False by done. cbn. lia.
  - rewrite decide_False by done. rewrite decide_True by done. cbn. lia.
Qed.

Lemma filter_running_all (ps : list Proc) :
  Forall (λ p, running p = true) ps →
  filter (λ p, running p = true) ps = ps ∧
  filter (λ p, running p = false) ps = [].
Proof.
  induction 1 as [|p ps Hp _ [IH1 IH2]]; [done|].
  rewrite !filter_cons, decide_True by done.
  rewrite decide_False by (rewrite Hp; done). by rewrite IH1, IH2.
Qed.

Lemma foldl_put (f : Host → Command) (hl : list Host) : ∀ q,
  foldl (λ q h, put (f h) q) q hl
  = {| cmdq := cmdq q ++ (f <$> hl); procsema := procsema q; flag := flag q;
       procs := procs q; consumer := consumer q |}.
Proof.
  induction hl as [|h hl IH]; intros q; cbn.
  - rewrite app_nil_r. by destruct q.
  - rewrite IH. cbn. by rewrite <- app_assoc.
Qed.

End queue_lemmas.

(** X8: [free] reaps every finished child: it keeps exactly the running
    ones, gives back one permit for each child it drops, answers whether
    it dropped one, and a second call right after finds nothing. *)
Theorem free_reaps_finished (q : CommandQueue) :
  procs (free q).1 = filter (λ p, running p = true) (procs q) ∧
  (procsema (free q).1 + length (procs (free q).1)
   = procsema q + length (procs q))%nat ∧
  ((free q).2 = true ↔ ∃ p, p ∈ procs q ∧ running p = false) ∧
  free (free q).1 = ((free q).1, false).
Proof.
  split; [done|]. split.
  { cbn. pose proof (filter_running_split (procs q)). lia. }
  split.
  { cbn. rewrite bool_decide_eq_true. split.
    - destruct (filter _ (procs q)) as [|p l] eqn:Hf; [done|]. intros _.
      assert (Hp : p ∈ filter (λ p, running p = false) (procs q))
        by (rewrite Hf; left).
      apply list_elem_of_filter in Hp as [? ?]. eauto.
    - intros (p & Hp & Hr) Hnil.
      assert (Hin : p ∈ filter (λ p, running p = false) (procs q))
        by (by apply list_elem_of_filter).
      rewrite Hnil in Hin. by apply elem_of_nil in Hin. }
  unfold free at 1. cbn.
  assert (Hall : Forall (λ p, running p = true)
                   (filter (λ p, running p = true) (procs q))).
  { apply Forall_forall. intros p Hp.
    by apply list_elem_of_filter in Hp as [? ?]. }
  destruct (filter_running_all _ Hall) as [-> ->]. cbn.
  by rewrite Nat.add_0_r.
Qed.

(** X9: the sweep at the end of [main] queues one [rm] for every host of
    the list, the root and the dead hosts included, in the order of the
    list and behind the commands already queued; it touches nothing else. *)
Theorem put_rm_all_every_host (w : World) :
  cmdq (commandq (put_rm_all w))
    = cmdq (commandq w) ++ (rmCmd (options w) <$> hostlist (DB w)) ∧
  procs (commandq (put_rm_all w)) = procs (commandq w) ∧
  procsema (commandq (put_rm_all w)) = procsema (commandq w) ∧
  consumer (commandq (put_rm_all w)) = consumer (commandq w) ∧
  DB (put_rm_all w) = DB w ∧ threadlist (put_rm_all w) = threadlist w.
Proof.
  unfold put_rm_all. cbn. by rewrite foldl_put.
Qed.

(** X10: with a permit for each queued command, the queue's thread starts
    one command per turn, oldest first: after as many turns as commands
    the queue is empty and the children stand in [procs] in the order in
    which their commands were put. *)
Theorem consumer_starts_in_queue_order (q : CommandQueue)
    (Hget : consumer q = Getting)
    (Hpermits : (length (cmdq q) ≤ procsema q)%nat) :
  Nat.iter (length (cmdq q)) CommandQueue_run_step q
  = {| cmdq := []; procsema := (procsema q - length (cmdq q))%nat;
       flag := flag q;
       procs := procs q ++ ((λ c, mkProc c true) <$> cmdq q);
       consumer := Getting |}.
Proof.
  destruct q as [cs n fl ps pc]. cbn in Hget, Hpermits. subst pc.
  cbn [cmdq procsema flag procs consumer].
  revert n ps Hpermits.
  induction cs as [|c cs IH]; intros n ps Hn.
  - cbn. by rewrite Nat.sub_0_r, app_nil_r.
  - cbn [length] in *. rewrite Nat.iter_succ_r.
    destruct n as [|n]; [lia|].
    unfold CommandQueue_run_step at 2. cbn. unfold spawn_or_wait, try_spawn. cbn.
    rewrite IH by lia. by rewrite <- app_assoc.
Qed.

Lemma consumer_starts_in_queue_order_witness :
  Nat.iter 2 CommandQueue_run_step
    (put Examples_sweep.the_rm (put Examples_sweep.the_cat (CommandQueue_init 2)))
  = {| cmdq := []; procsema := 0; flag := false;
       procs := [mkProc Examples_sweep.the_cat true;
                 mkProc Examples_sweep.the_rm true];
       consumer := Getting |}.
Proof.
  apply (consumer_starts_in_queue_order
           (put Examples_sweep.the_rm
              (put Examples_sweep.the_cat (CommandQueue_init 2)))).
  - reflexivity.
  - cbn. lia.
Defined.

(** X11: without a permit and with every child still running, the queue's
    thread holds its command and changes nothing, turn after turn; once a
    child has exited, its next turn reaps that child and starts the
    command. *)
Theorem consumer_waits_for_a_permit (q : CommandQueue) (cmd : Command)
    (Hheld : consumer q = Spawning cmd)
    (Hnone : procsema q = 0%nat)
    (Hrun : Forall (λ p, running p = true) (procs q)) :
  CommandQueue_run_step q = q ∧
  ∀ k q1, child_exit k q = Some q1 →
    CommandQueue_run_step q1
    = {| cmdq := cmdq q; procsema := 0; flag := flag q;
         procs := delete k (procs q) ++ [mkProc cmd true];
         consumer := Getting |}.
Proof.
  destruct q as [cs n fl ps pc]. cbn in *. subst pc n.
  destruct (filter_running_all _ Hrun) as [Hact Hfin].
  split.
  - unfold CommandQueue_run_step, spawn_or_wait, try_spawn, free; cbn.
    rewrite Hact, Hfin. cbn. done.
  - intros k q1. unfold child_exit; cbn.
    destruct (ps !! k) as [p|] eqn:Hk; [|done].
    destruct (running p) eqn:Hp; [|done]. intros [= <-].
    unfold CommandQueue_run_step, spawn_or_wait, try_spawn, free; cbn.
    assert (Hsplit : ps = take k ps ++ p :: drop (S k) ps)
      by (by rewrite take_drop_middle).
    assert (Hlen : length (take k ps) = k).
    { rewrite length_take. apply lookup_lt_Some in Hk. lia. }
    assert (Hins : <[k:=mkProc (proc_cmd p) false]> ps
                   = take k ps ++ mkProc (proc_cmd p) false :: drop (S k) ps).
    { rewrite Hsplit at 1.
      replace k with (length (take k ps) + 0)%nat at 1 by lia.
      by rewrite insert_app_r. }
    assert (Hdel : delete k ps = take k ps ++ drop (S k) ps).
    { by rewrite delete_take_drop. }
    rewrite Hsplit in Hrun. apply Forall_app in Hrun as [Hr1 Hr2].
    apply Forall_cons in Hr2 as [_ Hr2].
    destruct (filter_running_all _ Hr1) as [Ha1 Hf1].
    destruct (filter_running_all _ Hr2) as [Ha2 Hf2].
    rewrite Hins, Hdel. rewrite !filter_app, !filter_cons. cbn.
    destruct (decide (false = true)); [done|].
    destruct (decide (false = false)); [|done].
    rewrite Ha1, Ha2, Hf1, Hf2. cbn. done.
Qed.

Lemma consumer_waits_for_a_permit_witness :
  CommandQueue_run_step Examples_queue.full = Examples_queue.full ∧
  ∀ k q1, child_exit k Examples_queue.full = Some q1 →
    CommandQueue_run_step q1
    = {| cmdq := []; procsema := 0; flag := false;
         procs := delete k [mkProc Examples_sweep.the_cat true]
                  ++ [mkProc Examples_sweep.the_rm true];
         consumer := Getting |}.
Proof.
  apply (consumer_waits_for_a_permit Examples_queue.full Examples_sweep.the_rm).
  - reflexivity.
  - reflexivity.
  - repeat constructor.
Defined.

(** ** The chunk accounts of a run *)

Section chunk_accounts.

Lemma arriving_app j l1 l2 :
  arriving j (l1 ++ l2) = arriving j l1 ++ arriving j l2.
Proof. unfold arriving. by rewrite filter_app, fmap_app. Qed.

Lemma arriving_singleton j tr :
  arriving j [tr] = if decide (targetindex tr = j) then [chunk tr] else [].
Proof.
  unfold arriving. rewrite filter_cons, filter_nil.
  by destruct (decide (targetindex tr = j)).
Qed.

Lemma arriving_delete j l k tr :
  l !! k = Some tr →
  arriving j l
  ≡ₚ (if decide (targetindex tr = j) then [chunk tr] else [])
     ++ arriving j (delete k l).
Proof.
  intros Hk. rewrite delete_take_drop.
  rewrite <- (take_drop_middle l k tr Hk) at 1.
  rewrite !arriving_app. change (tr :: drop (S k) l) with ([tr] ++ drop (S k) l).
  rewrite arriving_app, arriving_singleton.
  destruct (decide (targetindex tr = j)); [|done].
  by rewrite Permutation_app_swap_app.
Qed.

Lemma remove_Permutation (c : Chunk) : ∀ l l',
  Py.remove c l = Some l' → l ≡ₚ c :: l'.
Proof.
  induction l as [|y l IH]; intros l'; simpl; [done|].
  destruct (decide (c = y)) as [->|Hne]; [by intros [= <-]|].
  destruct (Py.remove c l) as [l0|]; simpl; [|done].
  intros [= <-]. rewrite (IH l0 eq_refl). apply perm_swap.
Qed.

(** The owned lists after [Transfer.run]: only the target's changes, and
    only on success. *)
Lemma owned_at_Transfer_run_exact k tr o w j :
  (targetindex tr < hostcount (DB w))%nat →
  owned_at (DB (Transfer_run k tr o w)) j =
  if negb (failed o) && bool_decide (targetindex tr = j)
  then owned_at (DB w) j ++ [chunk tr]
  else owned_at (DB w) j.
Proof.
  intros Ht.
  destruct (owned_at_Transfer_run k tr o w j) as [Hsame|[-> Hadd]].
  - destruct (negb (failed o) && bool_decide (targetindex tr = j)) eqn:Hb;
      [|done].
    apply andb_true_iff in Hb as [Hf Hj]. apply bool_decide_eq_true in Hj.
    subst j. exfalso. revert Hsame.
    unfold Transfer_run, transfer_epilogue; cbn.
    unfold owned_at. rewrite !field_with_host_frame by done.
    destruct o as [ret tu su|]; [|done]. cbn in Hf.
    destruct (decide (ret = 0)) as [->|Hne];
      [|by rewrite bool_decide_eq_true_2 in Hf].
    rewrite hostlist_transfer_succeeded by done.
    destruct (lookup_lt_is_Some_2 (hostlist (DB w)) _ Ht) as [h Hh].
    rewrite (field_with_host_eq _ _ _ _ _ _ Hh), Hh. cbn.
    intros Heq. apply (f_equal length) in Heq. rewrite length_app in Heq.
    cbn in Heq. lia.
  - rewrite bool_decide_eq_true_2 by done. rewrite andb_true_r.
    destruct (failed o) eqn:Hf; [|done]. exfalso. revert Hadd.
    unfold Transfer_run, transfer_epilogue; cbn.
    unfold owned_at. rewrite !field_with_host_frame by done.
    assert (Hrq : ∀ h, chunks_owned (requeue (chunk tr) h) = chunks_owned h).
    { intros h. unfold requeue. by destruct (Py.contains _ _). }
    assert (Hlen : ∀ l : list Chunk, l = l ++ [chunk tr] → False).
    { intros l Heq. apply (f_equal length) in Heq. rewrite length_app in Heq.
      cbn in Heq. lia. }
    destruct o as [ret tu su|].
    + cbn in Hf. destruct (decide (ret = 0)) as [->|Hne];
        [by rewrite bool_decide_eq_false_2 in Hf by (intros H; by apply H)|].
      unfold transfer_failed, probe.
      destruct su, tu; cbn;
        rewrite ?field_setDead_frame
          by (intros h; unfold Host_setDead; by destruct (alive h));
        rewrite field_with_host_frame by done; apply Hlen.
    + unfold transfer_raised; cbn.
      rewrite field_with_host_frame by done. apply Hlen.
Qed.

(** An event that writes no needed or owned list, no chunk index and no
    thread. *)
Lemma chunks_inv_same w w' :
  hostcount (DB w') = hostcount (DB w) →
  chunkCount (DB w') = chunkCount (DB w) →
  (∀ j, owned_at (DB w') j = owned_at (DB w) j) →
  (∀ j, needed_at (DB w') j = needed_at (DB w) j) →
  (∀ j, chunk_index_at (DB w') j = chunk_index_at (DB w) j) →
  threadlist w' = threadlist w →
  chunks_inv w → chunks_inv w'.
Proof.
  intros Hc Hcc Ho Hn Hi Htl Hinv j Hj.
  rewrite Hc in Hj. rewrite Hcc, Hi, Hn, !Ho, Htl. by apply Hinv.
Qed.

Lemma start_transfer_chunks_inv tr w :
  chunk tr ∈ needed_at (DB w) (targetindex tr) →
  chunks_inv w → chunks_inv (start_transfer tr w).
Proof.
  intros Hin Hinv j Hj.
  assert (Ht : (targetindex tr < hostcount (DB w))%nat).
  { unfold needed_at in Hin. apply lookup_lt_is_Some.
    destruct (hostlist (DB w) !! targetindex tr); [eauto|].
    by apply elem_of_nil in Hin. }
  destruct (remove_is_Some _ _ Hin) as [l' Hl'].
  pose proof (remove_Permutation _ _ _ Hl') as Hperm.
  unfold start_transfer in *; cbn [DB threadlist] in *.
  rewrite hostcount_with_host in Hj. rewrite chunkCount_with_host.
  destruct (Hinv j Hj) as [Hidx Hcons].
  unfold chunk_index_at, owned_at.
  rewrite !field_with_host_frame by done.
  split; [done|].
  rewrite needed_at_set_chunks_needed by done.
  rewrite arriving_app, arriving_singleton.
  fold (owned_at (DB w) j) (owned_at (DB w) 0).
  destruct (decide (targetindex tr = j)) as [<-|]; [|by rewrite app_nil_r].
  rewrite Hl'. cbn. rewrite <- Hcons, Hperm.
  rewrite !app_assoc. rewrite <- Permutation_cons_append. done.
Qed.

Lemma acquire_and_start_chunks_inv tr w :
  chunk tr ∈ needed_at (DB w) (targetindex tr) →
  chunks_inv w → chunks_inv (acquire_and_start tr w).
Proof.
  intros Hin Hinv. unfold acquire_and_start.
  destruct (threadsema w); [done|by apply start_transfer_chunks_inv].
Qed.

Lemma Transfer_run_chunks_inv k tr o w :
  needed_core w → targetindex tr ≠ 0%nat → threadlist w !! k = Some tr →
  chunks_inv w → chunks_inv (Transfer_run k tr o w).
Proof.
  intros (K1 & K2 & K3 & K4 & K5 & K6 & K7 & K8) Ht0 Hk Hinv j Hj.
  assert (Htr : tr ∈ threadlist w) by (by eapply list_elem_of_lookup_2).
  destruct (K6 tr Htr) as (Ht & Hnot & Hknown).
  destruct (Transfer_run_DB_fields k tr o w) as (_ & _ & F3 & _).
  rewrite hostcount_Transfer_run in Hj.
  destruct (Hinv j Hj) as [Hidx Hcons].
  rewrite F3, chunk_index_at_Transfer_run, Transfer_run_threadlist.
  split; [done|].
  rewrite needed_at_Transfer_run by done.
  rewrite !owned_at_Transfer_run_exact by done.
  rewrite (bool_decide_eq_false_2 (targetindex tr = 0%nat)) by done.
  rewrite andb_false_r.
  rewrite <- Hcons, (arriving_delete j _ _ _ Hk).
  case_bool_decide as Htj; [subst j|].
  - rewrite decide_True by done. rewrite !andb_true_r.
    unfold Py.contains. rewrite bool_decide_eq_false_2 by done.
    destruct (failed o); cbn.
    + rewrite <- !app_assoc. apply Permutation_app_head.
      cbn. by rewrite <- Permutation_middle.
    + apply Permutation_app_head. rewrite <- !app_assoc. done.
  - rewrite decide_False by done. by rewrite !andb_false_r.
Qed.

Lemma split_chunks_inv curname w rs :
  root_inv w → needed_core w → chunks_inv w →
  chunks_inv (set_DB (λ db, (split_file_step curname db rs).1) w).
Proof.
  intros (R1 & R2 & R3 & R4 & R5 & R6) (K1 & K2 & K3 & K4 & K5 & K6 & K7 & K8)
    Hinv j Hj.
  destruct (split_file_step_fields curname (DB w) rs)
    as (F1 & _ & _ & _ & _ & F6 & _).
  cbn in *. rewrite F1 in Hj. rewrite F6.
  set (db' := (split_file_step curname (DB w) rs).1) in *.
  set (root_owned := owned_at (DB w) 0 ++ [mkChunk curname]).
  assert (Hlen : length root_owned = S (chunkCount (DB w))).
  { unfold root_owned. rewrite length_app, <- K1. cbn. lia. }
  assert (Hlook : ∀ i h, hostlist (DB w) !! i = Some h →
            ∃ rs1, hostlist db' !! i
                   = Some (if decide (i = 0%nat)
                           then set_chunks_owned (λ _, root_owned) h
                           else (update_host root_owned (length root_owned) h rs1).1)).
  { intros i h Hi. rewrite Hlen.
    destruct (lookup_split_file_step curname (DB w) rs i h) as [rs1 Hrs1];
      [rewrite R1; lia|done|].
    exists rs1. rewrite R1 in Hrs1. exact Hrs1. }
  assert (Hown0 : owned_at db' 0 = root_owned).
  { destruct (lookup_lt_is_Some_2 (hostlist (DB w)) 0 R2) as [r Hr].
    destruct (Hlook 0%nat r Hr) as [rs1 Hrs1].
    unfold owned_at. by rewrite Hrs1. }
  destruct (Hinv j Hj) as [Hidx Hcons].
  destruct (lookup_lt_is_Some_2 (hostlist (DB w)) j) as [h Hh];
    [unfold hostcount in Hj; lia|].
  destruct (Hlook j h Hh) as [rs1 Hrs1].
  rewrite decide_False in Hrs1 by lia.
  assert (Hci : chunk_index h = length (owned_at (DB w) 0)).
  { unfold chunk_index_at in Hidx. rewrite Hh in Hidx. cbn in Hidx. lia. }
  assert (Hle : (chunk_index h ≤ length root_owned)%nat) by lia.
  destruct (update_host_registers root_owned h rs1 Hle) as [Hneed Hidx'].
  destruct (update_host_fields root_owned h rs1 Hle) as (_ & _ & Hown & _).
  unfold chunk_index_at, needed_at, owned_at at 1. rewrite Hrs1. cbn.
  split; [lia|].
  rewrite Hown0, Hneed, Hown.
  replace (drop (chunk_index h) root_owned) with [mkChunk curname].
  2:{ unfold root_owned. rewrite Hci. rewrite drop_app_length. done. }
  unfold needed_at, owned_at at 1 in Hcons. rewrite Hh in Hcons. cbn in Hcons.
  unfold root_owned. rewrite <- Hcons.
  rewrite <- !app_assoc. apply Permutation_app_head.
  rewrite (app_assoc [mkChunk curname]).
  fold (arriving j (threadlist w)). rewrite <- app_assoc. cbn.
  rewrite Permutation_cons_append. by rewrite <- app_assoc.
Qed.

Lemma step_chunks_inv w e w' :
  needed_inv w → chunks_inv w → step w e = Some w' → chunks_inv w'.
Proof.
  intros [Hroot Hcore] Hinv Hstep.
  destruct e as [curname rs| |rs|k o| |k]; simpl in Hstep.
  - destruct (split_complete (DB w)); [done|].
    destruct (Py.contains _ _) eqn:Hc; [done|]. injection Hstep as <-.
    by apply split_chunks_inv.
  - injection Hstep as <-. by apply (chunks_inv_same w).
  - injection Hstep as <-. unfold main_step, initiateTransfers_step.
    destruct (mainpc w) eqn:Hpc.
    + destruct (loop_cond (DB w)).
      * destruct (getTransfer (DB w) rs) as [[[[[s t] c]|] db'] rs'] eqn:Hget.
        -- destruct (getTransfer_Some_frame _ _ _ _ _ _ _ Hget)
             as (_ & _ & _ & Hn & Hin).
           destruct (getTransfer_Some _ _ _ _ _ _ _ Hget) as (Hdb & _).
           apply acquire_and_start_chunks_inv; [cbn; by rewrite Hn|].
           apply (chunks_inv_same w); try done; cbn.
           ++ subst db'. by rewrite !hostcount_with_host.
           ++ by subst db'.
           ++ intros j. subst db'. unfold owned_at.
              by rewrite !field_with_host_frame.
           ++ intros j. subst db'. unfold chunk_index_at.
              by rewrite !field_with_host_frame.
        -- destruct (getTransfer_None _ _ _ _ Hget) as [t' ->].
           by apply (chunks_inv_same w).
      * destruct (join_fields w) as (HDB & Htl & _).
        apply (chunks_inv_same w); by rewrite ?HDB.
    + destruct Hcore as (K1 & K2 & K3 & K4 & K5 & K6 & K7 & K8).
      apply acquire_and_start_chunks_inv; [by apply K7|done].
    + destruct (join_fields w) as (HDB & Htl & _).
      apply (chunks_inv_same w); by rewrite ?HDB.
    + destruct (threadlist w) eqn:Htl; [|done].
      destruct (cleanup (options w)); by apply (chunks_inv_same w).
    + destruct (wait_for_procs_step (commandq w)) as [q []];
        by apply (chunks_inv_same w).
    + destruct (consumer (commandq w)); try done.
    + done.
  - destruct (threadlist w !! k) as [tr|] eqn:Hk; [|done]. injection Hstep as <-.
    destruct Hroot as (R1 & R2 & R3 & R4 & R5 & R6).
    apply Transfer_run_chunks_inv; try done.
    by eapply (Forall_lookup_1 _ _ _ _ R4 Hk).
  - injection Hstep as <-. by apply (chunks_inv_same w).
  - destruct (child_exit k (commandq w)); [|done]. injection Hstep as <-.
    by apply (chunks_inv_same w).
Qed.

Lemma main_init_chunks_inv rootname targetlist m opts :
  chunks_inv (main_init rootname targetlist m opts).
Proof.
  intros j Hj. cbn in Hj.
  unfold chunk_index_at, needed_at, owned_at, arriving. cbn.
  destruct j as [|j]; [lia|]. cbn.
  destruct (((λ n, Host_init n [] m) <$> targetlist) !! j) as [h|] eqn:Hh.
  - apply list_lookup_fmap_Some in Hh as (n & -> & Hn). done.
  - done.
Qed.

End chunk_accounts.

(** ** The shut-down *)

Section shutdown.

Lemma spawn_or_wait_fields cmd q :
  let q' := spawn_or_wait cmd q in
  flag q' = flag q ∧ cmdq q' = cmdq q ∧ drained (consumer q') = false.
Proof.
  unfold spawn_or_wait, try_spawn, free. cbn.
  destruct (procsema q); cbn; [|done].
  case_bool_decide; cbn; [|done].
  destruct (length _); cbn; done.
Qed.

Lemma main_init_shutdown_inv rootname targetlist m opts :
  shutdown_inv (main_init rootname targetlist m opts).
Proof. by unfold shutdown_inv; cbn. Qed.

Lemma step_shutdown_inv w e w' :
  shutdown_inv w → step w e = Some w' → shutdown_inv w'.
Proof.
  intros (S1 & S2 & S3 & S4 & S5) Hstep.
  destruct e as [curname rs| |rs|k o| |k]; simpl in Hstep.
  - destruct (split_complete (DB w)); [done|].
    destruct (Py.contains _ _); [done|]. by injection Hstep as <-.
  - by injection Hstep as <-.
  - injection Hstep as <-. unfold main_step, initiateTransfers_step.
    assert (Hsched : finalizing (mainpc w) = false →
              ∀ w1, commandq w1 = commandq w →
                    (finalizing (mainpc w1) = true → threadlist w1 = []) →
                    mainpc w1 ≠ Exited →
                    shutdown_inv w1).
    { intros Hpc w1 Hq Htl Hne. unfold shutdown_inv. rewrite Hq.
      assert (Hfl : flag (commandq w) = false).
      { destruct (flag (commandq w)); [|done].
        specialize (S2 eq_refl). by destruct (mainpc w). }
      assert (Hdr : drained (consumer (commandq w)) = false).
      { destruct (drained (consumer (commandq w))); [|done].
        destruct (S3 eq_refl) as [? _]. congruence. }
      split_and!; close_case. }
    assert (Hjoin : finalizing (mainpc w) = false → shutdown_inv (join w)).
    { intros Hpc. unfold join.
      destruct (threadlist w) eqn:Htl; apply Hsched; try done;
        cbn; by rewrite ?Htl. }
    assert (Hacq : ∀ tr w0, finalizing (mainpc w) = false →
              commandq w0 = commandq w →
              shutdown_inv (acquire_and_start tr w0)).
    { intros tr w0 Hpc Hq. unfold acquire_and_start.
      destruct (threadsema w0); by apply Hsched. }
    destruct (mainpc w) eqn:Hpc.
    + destruct (loop_cond (DB w)); [|by apply Hjoin].
      destruct (getTransfer (DB w) rs) as [[[[[s t] c]|] db'] rs'].
      * by apply Hacq.
      * apply Hsched; try done; cbn; by rewrite Hpc.
    + by apply Hacq.
    + by apply Hjoin.
    + specialize (S1 eq_refl). rewrite S1.
      assert (Hfl : flag (commandq w) = false).
      { destruct (flag (commandq w)); [|done]. by specialize (S2 eq_refl). }
      assert (Hdr : drained (consumer (commandq w)) = false).
      { destruct (drained (consumer (commandq w))); [|done].
        destruct (S3 eq_refl) as [? _]. congruence. }
      destruct (cleanup (options w)); unfold shutdown_inv; cbn.
      * split_and!; close_case.
      * split_and!; close_case.
    + specialize (S1 eq_refl).
      assert (Hfl : flag (commandq w) = false).
      { destruct (flag (commandq w)); [|done]. by specialize (S2 eq_refl). }
      assert (Hdr : drained (consumer (commandq w)) = false).
      { destruct (drained (consumer (commandq w))); [|done].
        destruct (S3 eq_refl) as [? _]. congruence. }
      unfold wait_for_procs_step.
      destruct (procs (commandq w)) eqn:Hprocs; unfold shutdown_inv; cbn.
      * rewrite foldl_put. cbn. split_and!; close_case.
      * rewrite Hpc. split_and!; close_case.
    + specialize (S1 eq_refl).
      destruct (consumer (commandq w)) eqn:Hc; unfold shutdown_inv; cbn;
        rewrite ?Hpc, ?Hc; try done;
        split_and!; try done; by apply S4.
    + unfold shutdown_inv. by rewrite Hpc.
  - destruct (threadlist w !! k) as [tr|] eqn:Hk; [|done]. injection Hstep as <-.
    assert (Hpc : finalizing (mainpc w) = false).
    { destruct (finalizing (mainpc w)); [|done].
      rewrite (S1 eq_refl) in Hk. done. }
    assert (Hfl : flag (commandq w) = false).
    { destruct (flag (commandq w)); [|done].
      specialize (S2 eq_refl). by destruct (mainpc w). }
    assert (Hdr : drained (consumer (commandq w)) = false).
    { destruct (drained (consumer (commandq w))); [|done].
      destruct (S3 eq_refl) as [? _]. congruence. }
    destruct (Transfer_run_mainpc_matched k tr o w) as [Hpc' _].
    assert (Hq : flag (commandq (Transfer_run k tr o w)) = flag (commandq w) ∧
                 consumer (commandq (Transfer_run k tr o w))
                 = consumer (commandq w)).
    { unfold Transfer_run, transfer_epilogue; cbn.
      destruct o as [ret tu su|]; [|done].
      destruct (decide (ret = 0)).
      - unfold transfer_succeeded; cbn.
        destruct (hostlist (with_host _ _ _) !! targetindex tr); [|done].
        by destruct (_ && _).
      - unfold transfer_failed, probe. by destruct su, tu. }
    destruct Hq as [Hq1 Hq2].
    unfold shutdown_inv. rewrite Hpc', Hq1, Hq2, Transfer_run_threadlist.
    split_and!; close_case.
  - injection Hstep as <-. unfold shutdown_inv; cbn.
    unfold CommandQueue_run_step.
    assert (Hex : mainpc w = Exited → consumer (commandq w) ≠ Stopped → False)
      by (intros Hex Hne; by apply Hne, S5).
    destruct (consumer (commandq w)) eqn:Hc.
    + destruct (cmdq (commandq w)) as [|cmd rest] eqn:Hq.
      * destruct (flag (commandq w)) eqn:Hfl; cbn; rewrite ?Hc, ?Hfl, ?Hq;
          split_and!; try done; intros Hpc; by destruct (Hex Hpc).
      * match goal with
        | |- context [spawn_or_wait cmd ?q0] =>
            destruct (spawn_or_wait_fields cmd q0) as (F1 & F2 & F3);
            cbn in F1, F2
        end.
        rewrite F1, F3. split_and!; close_case.
        intros Hpc; by destruct (Hex Hpc).
    + destruct (spawn_or_wait_fields cmd (commandq w)) as (F1 & F2 & F3).
      rewrite F1, F3. split_and!; close_case.
      intros Hpc; by destruct (Hex Hpc).
    + unfold wait_for_procs_step.
      destruct (S3 eq_refl) as [Hfl Hq].
      destruct (procs (commandq w)) eqn:Hprocs; cbn; rewrite ?Hc, ?Hprocs;
        split_and!; try done; intros Hpc; by destruct (Hex Hpc).
    + rewrite Hc. split_and!; try done.
  - unfold child_exit in Hstep.
    destruct (procs (commandq w) !! k) as [p|] eqn:Hk; [|done].
    destruct (running p); [|done]. injection Hstep as <-.
    unfold shutdown_inv; cbn. split_and!; try done.
    intros Hst. rewrite (S4 Hst) in Hk. done.
Qed.

Lemma run_shutdown_inv evs : ∀ w w',
  shutdown_inv w → run w evs = Some w' → shutdown_inv w'.
Proof.
  induction evs as [|e evs IH]; intros w w' Hinv; simpl.
  - by intros [= <-].
  - destruct (step w e) as [w1|] eqn:Hstep; [|done].
    apply IH. by eapply step_shutdown_inv.
Qed.

End shutdown.

(** ** The counters of a run *)

Section counting.

Context (P Q : nat → Prop) `{!∀ j, Decision (P j)} `{!∀ j, Decision (Q j)}.

Lemma filter_seq_ext : ∀ n a,
  (∀ j, (a ≤ j < a + n)%nat → (P j ↔ Q j)) →
  length (filter P (seq a n)) = length (filter Q (seq a n)).
Proof.
  induction n as [|n IH]; intros a Hext; [done|]. cbn [seq].
  rewrite !filter_cons.
  pose proof (Hext a ltac:(lia)) as Ha.
  specialize (IH (S a) ltac:(intros j Hj; apply Hext; lia)).
  destruct (decide (P a)), (decide (Q a)); cbn; try tauto; by rewrite IH.
Qed.

Lemma filter_seq_flip : ∀ n a t,
  (a ≤ t < a + n)%nat →
  (∀ j, j ≠ t → (P j ↔ Q j)) → ¬ P t → Q t →
  length (filter Q (seq a n)) = S (length (filter P (seq a n))).
Proof.
  induction n as [|n IH]; intros a t Ht Hext HP HQ; [lia|]. cbn [seq].
  rewrite !filter_cons.
  destruct (decide (a = t)) as [->|Hne].
  - rewrite decide_True by done. rewrite decide_False by done. cbn.
    f_equal. symmetry. apply filter_seq_ext. intros j Hj. apply Hext. lia.
  - pose proof (Hext a Hne) as Ha.
    specialize (IH (S a) t ltac:(lia) Hext HP HQ).
    destruct (decide (P a)), (decide (Q a)); cbn; try tauto; by rewrite IH.
Qed.

End counting.

Lemma filter_seq_none (P : nat → Prop) `{!∀ j, Decision (P j)} : ∀ n a,
  (∀ j, (a ≤ j < a + n)%nat → ¬ P j) → filter P (seq a n) = [].
Proof.
  induction n as [|n IH]; intros a Hno; [done|]. cbn [seq].
  rewrite filter_cons, decide_False by (apply Hno; lia).
  apply IH. intros j Hj. apply Hno. lia.
Qed.

Lemma filter_seq_length (P : nat → Prop) `{!∀ j, Decision (P j)} a n :
  (length (filter P (seq a n)) ≤ n)%nat.
Proof.
  etransitivity; [apply length_filter|]. by rewrite length_seq.
Qed.

Section dead_hosts.

Lemma dead_ok_same db db' :
  hostcount db' = hostcount db → deadhosts db' = deadhosts db →
  (∀ j, alive_at db' j = alive_at db j) →
  dead_ok db → dead_ok db'.
Proof.
  unfold dead_ok, dead_count. intros -> -> Ha ->.
  apply filter_seq_ext. intros j _. by rewrite Ha.
Qed.

Lemma dead_ok_with_host i f db :
  (∀ h, alive (f h) = alive h) → dead_ok db → dead_ok (with_host i f db).
Proof.
  intros Hf. apply dead_ok_same; [apply hostcount_with_host|done|].
  intros j. unfold alive_at. by apply field_with_host_frame.
Qed.

Lemma dead_ok_setDead i db : dead_ok db → dead_ok (setDead i db).
Proof.
  intros Hok. destruct (alive_at db i) eqn:Ha; [|by rewrite setDead_dead].
  unfold alive_at in Ha.
  destruct (hostlist db !! i) as [h|] eqn:Hi; [|done]. cbn in Ha.
  rewrite (setDead_alive _ _ _ Hi Ha).
  set (h' := set_transferslots (λ _, 0) (set_alive false h)).
  unfold dead_ok, dead_count in *.
  assert (Hc : hostcount (incDeadHosts (with_host i (λ _, h') db)) = hostcount db)
    by apply (hostcount_with_host i (λ _, h') db).
  assert (Hd : deadhosts (incDeadHosts (with_host i (λ _, h') db))
               = S (deadhosts db)) by done.
  rewrite Hc, Hd, Hok.
  symmetry. apply (filter_seq_flip _ _ _ _ i).
  - apply lookup_lt_Some in Hi. unfold hostcount. lia.
  - intros j Hj. unfold alive_at. cbn.
    rewrite lookup_with_host. by rewrite decide_False.
  - unfold alive_at. rewrite Hi. cbn. by rewrite Ha.
  - unfold alive_at. cbn. rewrite lookup_with_host, decide_True, Hi by done.
    done.
Qed.

End dead_hosts.

Section database_writes.

(** The writes of [Transfer.run] to the database. *)
Lemma Transfer_run_DB_closed (P : Database → Prop) :
  (∀ i c db, P db → P (with_host i (set_chunks_owned (λ l, l ++ [c])) db)) →
  (∀ i c db, P db → P (with_host i (requeue c) db)) →
  (∀ i db, P db → P (with_host i freeSlot db)) →
  (∀ db, P db → P (hostDone db)) →
  (∀ i db, P db → P (setDead i db)) →
  ∀ k tr o w, P (DB w) → P (DB (Transfer_run k tr o w)).
Proof.
  intros Hown Hreq Hfree Hdone Hdead k tr o w HP.
  unfold Transfer_run, transfer_epilogue; cbn.
  apply Hfree, Hfree.
  destruct o as [ret tu su|].
  - destruct (decide (ret = 0)).
    + unfold transfer_succeeded; cbn.
      destruct (hostlist (with_host _ _ _) !! targetindex tr); [|done].
      destruct (_ && _); cbn; [apply Hdone|]; by apply Hown.
    + unfold transfer_failed, probe.
      destruct su, tu; cbn; repeat apply Hdead; by apply Hreq.
  - unfold transfer_raised; cbn. by apply Hreq.
Qed.

(** The writes of the main thread to the database. *)
Lemma main_step_DB_closed (P : Database → Prop) :
  (∀ i db, P db → P (with_host i getSlot db)) →
  (∀ t db, P db → P (set_tindex t db)) →
  (∀ i g db, P db → P (with_host i (set_chunks_needed g) db)) →
  ∀ w rs, P (DB w) → P (DB (main_step w rs)).
Proof.
  intros Hget Hidx Hneed w rs HP.
  assert (Hacq : ∀ tr w0, P (DB w0) → P (DB (acquire_and_start tr w0))).
  { intros tr w0 H0. unfold acquire_and_start, start_transfer.
    destruct (threadsema w0); cbn; [done|by apply Hneed]. }
  assert (Hjoin : P (DB (join w))) by (by destruct (join_fields w) as [-> _]).
  unfold main_step, initiateTransfers_step.
  destruct (mainpc w).
  - destruct (loop_cond (DB w)); [|done].
    destruct (getTransfer (DB w) rs) as [[[[[s t] c]|] db'] rs'] eqn:Hg.
    + apply Hacq. cbn.
      destruct (getTransfer_Some _ _ _ _ _ _ _ Hg) as (-> & _).
      by apply Hget, Hget, Hidx.
    + cbn. destruct (getTransfer_None _ _ _ _ Hg) as [t' ->]. by apply Hidx.
  - by apply Hacq.
  - done.
  - destruct (threadlist w); [|done]. by destruct (cleanup (options w)).
  - destruct (wait_for_procs_step (commandq w)) as [q []]; done.
  - by destruct (consumer (commandq w)).
  - done.
Qed.

(** A field that the splitter driver does not write. *)
Lemma update_hosts_field_frame {A} (get : Host → A) root root_owned count :
  (∀ h rs, get (update_host root_owned count h rs).1 = get h) →
  ∀ hl i rs, get <$> (update_hosts root root_owned count i hl rs).1 = get <$> hl.
Proof.
  intros Hget. induction hl as [|h hl IH]; intros i rs; [done|]. simpl.
  destruct (decide (i = root)).
  - specialize (IH (S i) rs).
    destruct (update_hosts root root_owned count (S i) hl rs) as [hl1 rs1].
    cbn in *. by rewrite IH.
  - pose proof (Hget h rs) as Hh.
    destruct (update_host root_owned count h rs) as [h1 rs1].
    specialize (IH (S i) rs1).
    destruct (update_hosts root root_owned count (S i) hl rs1) as [hl1 rs2].
    cbn in *. by rewrite IH, Hh.
Qed.

Lemma split_file_step_field_frame {A} (get : Host → A) (d : A) curname db rs j :
  (∀ f h, get (set_chunks_owned f h) = get h) →
  (∀ ro count h rs, get (update_host ro count h rs).1 = get h) →
  from_option get d (hostlist (split_file_step curname db rs).1 !! j)
  = from_option get d (hostlist db !! j).
Proof.
  intros Hown Hup. unfold split_file_step, update_chunks_needed. cbn.
  set (db1 := with_host (roothost db) _ db).
  rewrite <- (field_with_host_frame get d (roothost db)
                (set_chunks_owned (λ l, l ++ [mkChunk curname])) db j)
    by (intros; apply Hown).
  fold db1.
  destruct (hostlist db1 !! roothost db1) as [root|]; [|done].
  pose proof (update_hosts_field_frame get (roothost db1) (chunks_owned root)
                (S (chunkCount db1)) (Hup _ _) (hostlist db1) 0%nat rs) as Hf.
  destruct (update_hosts _ _ _ _ _ _) as [hl rs1]. cbn in *.
  apply (f_equal (λ l, l !! j)) in Hf. rewrite !list_lookup_fmap in Hf.
  destruct (hl !! j), (hostlist db1 !! j); cbn in *; congruence.
Qed.

Lemma alive_at_split_file_step curname db rs j :
  alive_at (split_file_step curname db rs).1 j = alive_at db j.
Proof.
  apply split_file_step_field_frame; [done|].
  intros ro count h rs0. by destruct (update_host_frame ro count h rs0) as (_ & ? & _).
Qed.

Lemma slots_at_split_file_step curname db rs j :
  slots_at (split_file_step curname db rs).1 j = slots_at db j.
Proof.
  apply split_file_step_field_frame; [done|].
  intros ro count h rs0. by destruct (update_host_frame ro count h rs0) as (? & _).
Qed.

(** [Transfer.run] gives its thread permit back; of the command queue it
    writes the queue only. *)
Lemma Transfer_run_permits k tr o w :
  let w' := Transfer_run k tr o w in
  threadsema w' = S (threadsema w) ∧
  procsema (commandq w') = procsema (commandq w) ∧
  procs (commandq w') = procs (commandq w) ∧
  flag (commandq w') = flag (commandq w) ∧
  consumer (commandq w') = consumer (commandq w).
Proof.
  unfold Transfer_run, transfer_epilogue; cbn.
  destruct o as [ret tu su|]; [|done].
  destruct (decide (ret = 0)).
  - unfold transfer_succeeded; cbn.
    destruct (hostlist (with_host _ _ _) !! targetindex tr); [|done].
    by destruct (_ && _).
  - unfold transfer_failed, probe. by destruct su, tu.
Qed.

End database_writes.

Section dead_run.

Lemma step_dead_ok w e w' :
  dead_ok (DB w) → step w e = Some w' → dead_ok (DB w').
Proof.
  intros Hok Hstep.
  destruct e as [curname rs| |rs|k o| |k]; simpl in Hstep.
  - destruct (split_complete (DB w)); [done|].
    destruct (Py.contains _ _); [done|]. injection Hstep as <-. cbn.
    destruct (split_file_step_fields curname (DB w) rs)
      as (F1 & _ & F3 & _).
    apply (dead_ok_same (DB w)); try done.
    intros j. apply alive_at_split_file_step.
  - by injection Hstep as <-.
  - injection Hstep as <-.
    apply main_step_DB_closed; try done.
    + intros i db. by apply dead_ok_with_host.
    + intros i g db. by apply dead_ok_with_host.
  - destruct (threadlist w !! k) as [tr|]; [|done]. injection Hstep as <-.
    apply Transfer_run_DB_closed; try done.
    + intros i g db. by apply dead_ok_with_host.
    + intros i c db. apply dead_ok_with_host.
      intros h. unfold requeue. by destruct (Py.contains _ _).
    + intros i db. by apply dead_ok_with_host.
    + intros i db. apply dead_ok_setDead.
  - by injection Hstep as <-.
  - destruct (child_exit k (commandq w)); [|done]. by injection Hstep as <-.
Qed.

Lemma main_init_dead_ok rootname targetlist m opts :
  dead_ok (DB (main_init rootname targetlist m opts)).
Proof.
  unfold dead_ok, dead_count. rewrite filter_seq_none; [done|].
  intros j Hj. unfold alive_at. cbn.
  destruct j as [|j]; [done|]. cbn.
  destruct (((λ n, Host_init n [] m) <$> targetlist) !! j) as [h|] eqn:Hh.
  - apply list_lookup_fmap_Some in Hh as (n & -> & Hn). done.
  - apply lookup_ge_None_1 in Hh. unfold hostcount in Hj. cbn in Hj. lia.
Qed.

Lemma step_permits_inv w e w' :
  permits_inv w → step w e = Some w' → permits_inv w'.
Proof.
  intros [Ht Hp] Hstep.
  destruct e as [curname rs| |rs|k o| |k]; simpl in Hstep.
  - destruct (split_complete (DB w)); [done|].
    destruct (Py.contains _ _); [done|]. by injection Hstep as <-.
  - by injection Hstep as <-.
  - injection Hstep as <-. unfold main_step, initiateTransfers_step.
    assert (Hacq : ∀ tr w0, permits_inv w0 → permits_inv (acquire_and_start tr w0)).
    { intros tr w0 [H1 H2]. unfold acquire_and_start, start_transfer.
      destruct (threadsema w0) eqn:E; [by split; cbn; rewrite ?E|].
      split; [|done]. cbn [threadsema threadlist].
      rewrite length_app. cbn [length Init.Nat.pred]. lia. }
    assert (Hjoin : permits_inv (join w)).
    { unfold join. by destruct (threadlist w) eqn:E; split; cbn; rewrite ?E. }
    assert (Hsame : permits_inv w) by (by split).
    destruct (mainpc w).
    + destruct (loop_cond (DB w)); [|done].
      destruct (getTransfer (DB w) rs) as [[[[[s t] c]|] db'] rs']; [|done].
      by apply Hacq.
    + by apply Hacq.
    + done.
    + destruct (threadlist w); [|done]. by destruct (cleanup (options w)).
    + unfold wait_for_procs_step.
      destruct (procs (commandq w)) eqn:Hprocs; split; cbn; try done.
      * rewrite foldl_put. cbn. by rewrite Hprocs.
      * pose proof (filter_running_split (procs (commandq w))) as Hs.
        rewrite ?Hprocs in *. lia.
    + by destruct (consumer (commandq w)).
    + done.
  - destruct (threadlist w !! k) as [tr|] eqn:Hk; [|done]. injection Hstep as <-.
    destruct (Transfer_run_permits k tr o w) as (F1 & F2 & F3 & _).
    unfold permits_inv. rewrite F1, F2, F3, Transfer_run_threadlist.
    rewrite length_delete by eauto.
    apply lookup_lt_Some in Hk. lia.
  - injection Hstep as <-. split; [done|]. cbn.
    assert (Hsp : ∀ cmd q,
      (procsema q + length (procs q) = MAX_PROCS)%nat →
      (procsema (spawn_or_wait cmd q) + length (procs (spawn_or_wait cmd q))
       = MAX_PROCS)%nat).
    { intros cmd q Hq. unfold spawn_or_wait, try_spawn.
      destruct (procsema q) as [|n] eqn:E; cbn.
      - pose proof (filter_running_split (procs q)) as Hs.
        rewrite E. cbn.
        case_bool_decide; cbn; [|lia].
        destruct (length (filter (λ p, running p = false) (procs q))) eqn:E2;
          cbn; [lia|].
        rewrite length_app. cbn. lia.
      - rewrite length_app. cbn. lia. }
    unfold CommandQueue_run_step.
    destruct (consumer (commandq w)).
    + destruct (cmdq (commandq w)); [by destruct (flag (commandq w))|].
      by apply Hsp.
    + by apply Hsp.
    + unfold wait_for_procs_step.
      destruct (procs (commandq w)) eqn:Hprocs; cbn; [by rewrite Hprocs|].
      pose proof (filter_running_split (procs (commandq w))) as Hs.
      rewrite ?Hprocs in *. lia.
    + done.
  - unfold child_exit in Hstep.
    destruct (procs (commandq w) !! k) as [p|]; [|done].
    destruct (running p); [|done]. injection Hstep as <-.
    split; [done|]. cbn. by rewrite length_insert.
Qed.

Lemma main_init_permits_inv rootname targetlist m opts :
  permits_inv (main_init rootname targetlist m opts).
Proof. split; apply Nat.add_0_r. Qed.

Lemma run_invariant (I : World → Prop) :
  (∀ w e w', I w → step w e = Some w' → I w') →
  ∀ evs w w', I w → run w evs = Some w' → I w'.
Proof.
  intros Hstep. induction evs as [|e evs IH]; intros w w' Hinv; simpl.
  - by intros [= <-].
  - destruct (step w e) as [w1|] eqn:Hs; [|done].
    apply IH. by eapply Hstep.
Qed.

End dead_run.

(** X12: [deadhosts] is the number of hosts marked dead, in every state
    of a run: [setDead] counts a host once, and nothing else writes the
    flag or the counter. *)
Theorem deadhosts_counts_dead_hosts (rootname : string)
    (targetlist : list string) (max_transfers_per_host : Z) (opts : Options)
    (evs : list Event) (w : World)
    (Hrun : run (main_init rootname targetlist max_transfers_per_host opts) evs
            = Some w) :
  deadhosts (DB w) = dead_count (DB w) ∧
  (deadhosts (DB w) ≤ hostcount (DB w))%nat.
Proof.
  assert (Hok : dead_ok (DB w)).
  { apply (run_invariant (λ w, dead_ok (DB w)) step_dead_ok evs _ _
             (main_init_dead_ok _ _ _ _) Hrun). }
  split; [done|]. rewrite Hok. apply filter_seq_length.
Qed.

(** X13: in every state of a run the permits of [threadsema] left and the
    workers in [threadlist] are together at most [MAX_THREADS]: there are
    never more than [MAX_THREADS] workers.  The start of a worker takes one
    permit and puts the worker at the end of [threadlist]; a worker that
    ends, whatever the outcome of its copy, takes itself out of
    [threadlist] and gives one permit back. *)
Theorem workers_bounded (rootname : string)
    (targetlist : list string) (max_transfers_per_host : Z) (opts : Options)
    (evs : list Event) (w : World)
    (Hrun : run (main_init rootname targetlist max_transfers_per_host opts) evs
            = Some w) :
  (threadsema w + length (threadlist w) ≤ MAX_THREADS)%nat ∧
  (∀ tr, (0 < threadsema w)%nat →
     S (threadsema (start_transfer tr w)) = threadsema w ∧
     threadlist (start_transfer tr w) = threadlist w ++ [tr]) ∧
  (∀ k tr o, threadlist w !! k = Some tr →
     threadsema (Transfer_run k tr o w) = S (threadsema w) ∧
     threadlist (Transfer_run k tr o w) = delete k (threadlist w)).
Proof.
  destruct (run_invariant permits_inv step_permits_inv evs _ _
              (main_init_permits_inv _ _ _ _) Hrun) as [P1 _].
  split_and!.
  - by rewrite P1.
  - intros tr Hsema. cbn. split; [lia|done].
  - intros k tr o _. split; [|apply Transfer_run_threadlist].
    by destruct (Transfer_run_permits k tr o w) as (? & _).
Qed.

(** X14: when the main thread has left its last loop, the queue's thread
    has stopped, no child is left in [procs] and no worker in
    [threadlist]. *)
Theorem exit_after_queue_stopped (rootname : string)
    (targetlist : list string) (max_transfers_per_host : Z) (opts : Options)
    (evs : list Event) (w : World)
    (Hrun : run (main_init rootname targetlist max_transfers_per_host opts) evs
            = Some w)
    (Hexit : mainpc w = Exited) :
  consumer (commandq w) = Stopped ∧ procs (commandq w) = [] ∧
  threadlist w = [].
Proof.
  destruct (run_shutdown_inv evs _ _ (main_init_shutdown_inv _ _ _ _) Hrun)
    as (S1 & S2 & S3 & S4 & S5).
  pose proof (S5 Hexit) as Hc.
  pose proof (S4 Hc) as Hp.
  pose proof (S1 ltac:(by rewrite Hexit)) as Htl.
  done.
Qed.

(** ** The slot account of a run *)

Section slot_account.

Lemma held_slots_app j l1 l2 :
  held_slots j (l1 ++ l2) = held_slots j l1 + held_slots j l2.
Proof.
  induction l1 as [|tr l1 IH]; [reflexivity|].
  change (held_slots j ((tr :: l1) ++ l2))
    with (one_if (seedindex tr) j + one_if (targetindex tr) j
          + held_slots j (l1 ++ l2)).
  change (held_slots j (tr :: l1))
    with (one_if (seedindex tr) j + one_if (targetindex tr) j + held_slots j l1).
  rewrite IH. lia.
Qed.

Lemma held_slots_singleton j tr :
  held_slots j [tr] = one_if (seedindex tr) j + one_if (targetindex tr) j.
Proof. unfold held_slots, foldr. lia. Qed.

Lemma held_slots_delete j l k tr :
  l !! k = Some tr →
  held_slots j (delete k l)
  = held_slots j l - one_if (seedindex tr) j - one_if (targetindex tr) j.
Proof.
  intros Hk. rewrite delete_take_drop.
  rewrite <- (take_drop_middle l k tr Hk) at 3.
  change (tr :: drop (S k) l) with ([tr] ++ drop (S k) l).
  rewrite !held_slots_app, held_slots_singleton. lia.
Qed.

Lemma in_flight_acquire_and_start tr w :
  in_flight (acquire_and_start tr w) = threadlist w ++ [tr].
Proof.
  unfold acquire_and_start, start_transfer, in_flight.
  destruct (threadsema w); cbn; [done|by rewrite app_nil_r].
Qed.

Lemma slots_at_with_host_in i f db j :
  (j < hostcount db)%nat →
  slots_at (with_host i f db) j
  = if decide (i = j)
    then from_option (λ h, transferslots (f h)) 0 (hostlist db !! j)
    else slots_at db j.
Proof.
  intros Hj. unfold slots_at. rewrite lookup_with_host.
  destruct (decide (i = j)); [|done]. by destruct (hostlist db !! j).
Qed.

Lemma slots_at_freeSlot_in i db j :
  (j < hostcount db)%nat →
  slots_at (with_host i freeSlot db) j = slots_at db j + one_if i j.
Proof.
  intros Hj. rewrite slots_at_with_host_in by done. unfold one_if, slots_at.
  destruct (decide (i = j)); [|lia].
  destruct (lookup_lt_is_Some_2 (hostlist db) j Hj) as [h ->]. done.
Qed.

(** The database after [Transfer.run]: what its branch has written, then
    the two slots given back. *)
Lemma Transfer_run_DB_shape (P : Database → Prop) :
  (∀ i c db, P db → P (with_host i (set_chunks_owned (λ l, l ++ [c])) db)) →
  (∀ i c db, P db → P (with_host i (requeue c) db)) →
  (∀ db, P db → P (hostDone db)) →
  (∀ i db, P db → P (setDead i db)) →
  ∀ k tr o w, P (DB w) →
    ∃ db1, P db1 ∧
      DB (Transfer_run k tr o w)
      = with_host (seedindex tr) freeSlot
          (with_host (targetindex tr) freeSlot db1).
Proof.
  intros Hown Hreq Hdone Hdead k tr o w HP.
  unfold Transfer_run, transfer_epilogue; cbn.
  eexists. split; [|reflexivity].
  destruct o as [ret tu su|].
  - destruct (decide (ret = 0)).
    + unfold transfer_succeeded; cbn.
      destruct (hostlist (with_host _ _ _) !! targetindex tr); [|done].
      destruct (_ && _); cbn; [apply Hdone|]; by apply Hown.
    + unfold transfer_failed, probe.
      destruct su, tu; cbn; repeat apply Hdead; by apply Hreq.
  - unfold transfer_raised; cbn. by apply Hreq.
Qed.

(** A host after [Transfer.run]: it has its slots back; it is as alive as
    before, or it has been marked dead and its count is what it got back. *)
Lemma Transfer_run_slots_alive k tr o w j :
  (j < hostcount (DB w))%nat →
  let db' := DB (Transfer_run k tr o w) in
  let back := one_if (seedindex tr) j + one_if (targetindex tr) j in
  (alive_at db' j = alive_at (DB w) j ∧ slots_at db' j = slots_at (DB w) j + back) ∨
  (alive_at db' j = false ∧ slots_at db' j = back).
Proof.
  intros Hj db' back.
  set (P := λ db1, hostcount db1 = hostcount (DB w) ∧
    ((alive_at db1 j = alive_at (DB w) j ∧ slots_at db1 j = slots_at (DB w) j) ∨
     (alive_at db1 j = false ∧ slots_at db1 j = 0))).
  destruct (Transfer_run_DB_shape P) with (k := k) (tr := tr) (o := o) (w := w)
    as (db1 & [Hc Hcase] & Hdb).
  - intros i g db [Hc Hcase]. split; [by rewrite hostcount_with_host|].
    unfold alive_at, slots_at in *. by rewrite !field_with_host_frame.
  - intros i c db [Hc Hcase]. split; [by rewrite hostcount_with_host|].
    assert (Hrq : ∀ A (get : Host → A),
              (∀ f h, get (set_chunks_needed f h) = get h) →
              ∀ h, get (requeue c h) = get h).
    { intros A get Hg h. unfold requeue. destruct (Py.contains _ _); [done|apply Hg]. }
    unfold alive_at, slots_at in *.
    rewrite !field_with_host_frame by (by apply Hrq). done.
  - intros db [Hc Hcase]. by split.
  - intros i db [Hc Hcase]. split; [by rewrite hostcount_setDead|].
    destruct (decide (i = j)) as [->|Hne].
    + destruct (alive_at db j) eqn:Ha;
        [|rewrite setDead_dead by done; by rewrite Ha].
      right. unfold alive_at in Ha.
      destruct (hostlist db !! j) as [h|] eqn:Hh; [|done]. cbn in Ha.
      rewrite (setDead_alive _ _ _ Hh Ha). unfold alive_at, slots_at. cbn.
      by rewrite lookup_with_host, decide_True, Hh.
    + unfold alive_at, slots_at in *. by rewrite !lookup_setDead_ne.
  - by split; [|left].
  - subst db'. rewrite Hdb.
    assert (Hj1 : (j < hostcount db1)%nat) by (by rewrite Hc).
    rewrite slots_at_freeSlot_in by (by rewrite hostcount_with_host).
    rewrite slots_at_freeSlot_in by done.
    unfold alive_at at 1 3. rewrite !field_with_host_frame by done.
    fold (alive_at db1 j). subst back.
    destruct Hcase as [[Ha Hs]|[Ha Hs]]; [left|right]; split; try done; lia.
Qed.

Lemma match_seed_ne_target w rs s t c db' rs' :
  needed_inv w → chunks_inv w →
  getTransfer (DB w) rs = (Some (s, t, c), db', rs') →
  s ≠ t ∧ c ∈ owned_at (DB w) s ∧ 0 < slots_at (DB w) s ∧ 0 < slots_at (DB w) t.
Proof.
  intros [(R1 & R2 & R3 & R4 & R5 & R6) (K1 & K2 & K3 & K4 & K5 & K6 & K7 & K8)]
    Hinv Hget.
  pose proof (getTransfer_target_not_root _ _ _ _ _ _ _ R3 Hget) as Ht0.
  destruct (getTransfer_Some _ _ _ _ _ _ _ Hget)
    as (_ & (ht & Ht & Hrecv & Hc) & (hs & Hs & Hseed)).
  pose proof (can_seed_owned _ _ Hseed) as Hown.
  assert (Hslots : 0 < transferslots hs ∧ 0 < transferslots ht).
  { unfold can_seed, can_receive in *.
    apply andb_true_iff in Hseed as [Hseed _].
    apply andb_true_iff in Hseed as [_ Hseed].
    apply andb_true_iff in Hrecv as [Hrecv _].
    apply bool_decide_eq_true in Hseed, Hrecv. done. }
  unfold owned_at, slots_at. rewrite Hs, Ht. cbn.
  split_and!; try done; try apply Hslots.
  intros ->. rewrite Hs in Ht. injection Ht as ->.
  destruct (Hinv t) as [_ Hperm].
  { apply lookup_lt_Some in Hs. unfold hostcount. lia. }
  rewrite <- Hperm in K2. unfold needed_at, owned_at in K2. rewrite Hs in K2.
  cbn in K2. apply NoDup_app in K2 as (_ & Hdis & _).
  apply (Hdis c Hc). apply elem_of_app. by left.
Qed.

Lemma slots_inv_same m w w' :
  hostcount (DB w') = hostcount (DB w) →
  (∀ j, slots_at (DB w') j = slots_at (DB w) j) →
  (∀ j, alive_at (DB w') j = alive_at (DB w) j) →
  in_flight w' = in_flight w →
  slots_inv m w → slots_inv m w'.
Proof.
  intros Hc Hs Ha Hfl Hinv j Hj. rewrite Hc in Hj.
  rewrite Hs, Ha, Hfl. by apply Hinv.
Qed.

Lemma start_transfer_slots tr w j :
  slots_at (DB (start_transfer tr w)) j = slots_at (DB w) j ∧
  alive_at (DB (start_transfer tr w)) j = alive_at (DB w) j.
Proof.
  unfold start_transfer, slots_at, alive_at; cbn.
  by rewrite !field_with_host_frame.
Qed.

Lemma acquire_and_start_slots tr w j :
  hostcount (DB (acquire_and_start tr w)) = hostcount (DB w) ∧
  slots_at (DB (acquire_and_start tr w)) j = slots_at (DB w) j ∧
  alive_at (DB (acquire_and_start tr w)) j = alive_at (DB w) j.
Proof.
  unfold acquire_and_start. destruct (threadsema w); [done|].
  split; [apply hostcount_with_host|apply start_transfer_slots].
Qed.

Lemma step_slots_inv m w e w' :
  needed_inv w → chunks_inv w → slots_inv m w →
  step w e = Some w' → slots_inv m w'.
Proof.
  intros Hneed Hchunks Hinv Hstep.
  destruct e as [curname rs| |rs|k o| |k]; simpl in Hstep.
  - destruct (split_complete (DB w)); [done|].
    destruct (Py.contains _ _); [done|]. injection Hstep as <-.
    destruct (split_file_step_fields curname (DB w) rs) as (F1 & _).
    apply (slots_inv_same m w); try done; cbn.
    + intros j. apply slots_at_split_file_step.
    + intros j. apply alive_at_split_file_step.
  - injection Hstep as <-. by apply (slots_inv_same m w).
  - injection Hstep as <-. unfold main_step, initiateTransfers_step.
    destruct (mainpc w) eqn:Hpc.
    + destruct (loop_cond (DB w)).
      2:{ destruct (join_fields w) as (HDB & Htl & _ & Hs & _).
          apply (slots_inv_same m w); rewrite ?HDB; try done.
          unfold in_flight. rewrite Htl, Hpc. unfold join.
          by destruct (threadlist w). }
      destruct (getTransfer (DB w) rs) as [[[[[s t] c]|] db'] rs'] eqn:Hget.
      * destruct (match_seed_ne_target _ _ _ _ _ _ _ Hneed Hchunks Hget)
          as (Hne & _ & Hs0 & Ht0).
        destruct (getTransfer_Some_frame _ _ _ _ _ _ _ Hget)
          as (Hs & Ht & Hslots & _).
        destruct (getTransfer_Some _ _ _ _ _ _ _ Hget) as (Hdb & _).
        set (tr := mkTransfer s c t).
        set (w0 := log_match tr (set_DB (λ _, db') w)).
        intros j Hj.
        destruct (acquire_and_start_slots tr w0 j) as (Hc1 & Hs1 & Ha1).
        rewrite Hc1 in Hj. rewrite Hs1, Ha1, in_flight_acquire_and_start.
        cbn in Hj |- *.
        assert (Hc2 : hostcount db' = hostcount (DB w))
          by (subst db'; by rewrite !hostcount_with_host).
        rewrite Hc2 in Hj.
        assert (Ha2 : alive_at db' j = alive_at (DB w) j).
        { subst db'. unfold alive_at. by rewrite !field_with_host_frame. }
        rewrite Ha2, Hslots, held_slots_app, held_slots_singleton. cbn.
        destruct (Hinv j Hj) as (I1 & I2 & I3).
        unfold in_flight in I2, I3. rewrite Hpc, app_nil_r in I2, I3.
        unfold one_if in *.
        split_and!.
        -- destruct (decide (s = j)), (decide (t = j)); subst; try done; lia.
        -- lia.
        -- intros Ha. specialize (I3 Ha). lia.
      * destruct (getTransfer_None _ _ _ _ Hget) as [t' ->].
        apply (slots_inv_same m w); try done.
    + intros j Hj.
      destruct (acquire_and_start_slots tr w j) as (Hc1 & Hs1 & Ha1).
      rewrite Hc1 in Hj. rewrite Hs1, Ha1, in_flight_acquire_and_start.
      specialize (Hinv j Hj). unfold in_flight in Hinv. by rewrite Hpc in Hinv.
    + destruct (join_fields w) as (HDB & Htl & _ & Hs & _).
      apply (slots_inv_same m w); rewrite ?HDB; try done.
      unfold in_flight. rewrite Htl, Hpc. unfold join.
      by destruct (threadlist w).
    + destruct (threadlist w) eqn:Htl; [|done].
      destruct (cleanup (options w)); apply (slots_inv_same m w); try done;
        unfold in_flight; cbn; by rewrite Hpc.
    + destruct (wait_for_procs_step (commandq w)) as [q []];
        apply (slots_inv_same m w); try done;
        unfold in_flight; cbn; by rewrite Hpc.
    + destruct (consumer (commandq w)); try done.
      apply (slots_inv_same m w); try done.
      unfold in_flight; cbn; by rewrite Hpc.
    + done.
  - destruct (threadlist w !! k) as [tr|] eqn:Hk; [|done]. injection Hstep as <-.
    intros j Hj. rewrite hostcount_Transfer_run in Hj.
    destruct (Hinv j Hj) as (I1 & I2 & I3).
    destruct (Transfer_run_mainpc_matched k tr o w) as [Hpc _].
    unfold in_flight in *. rewrite Hpc, Transfer_run_threadlist.
    rewrite held_slots_app in *. rewrite (held_slots_delete j _ _ _ Hk).
    assert (H0 : 0 ≤ one_if (seedindex tr) j ∧ 0 ≤ one_if (targetindex tr) j).
    { unfold one_if. split; case_decide; lia. }
    assert (Hheld : ∀ l, 0 ≤ held_slots j l).
    { induction l as [|x l IH]; [done|].
      change (held_slots j (x :: l))
        with (one_if (seedindex x) j + one_if (targetindex x) j + held_slots j l).
      unfold one_if. repeat case_decide; lia. }
    pose proof (Hheld (delete k (threadlist w))) as Hd.
    rewrite (held_slots_delete j _ _ _ Hk) in Hd.
    pose proof (Hheld (match mainpc w with Acquiring tr0 => [tr0] | _ => [] end))
      as Hm.
    destruct (Transfer_run_slots_alive k tr o w j Hj) as [[Ha Hs]|[Ha Hs]];
      rewrite Ha, Hs.
    + split_and!; [lia|lia|]. intros Hal. specialize (I3 Hal). lia.
    + split_and!; [lia|lia|done].
  - injection Hstep as <-. by apply (slots_inv_same m w).
  - destruct (child_exit k (commandq w)); [|done]. injection Hstep as <-.
    by apply (slots_inv_same m w).
Qed.

Lemma main_init_slots_inv rootname targetlist m opts :
  0 ≤ m → slots_inv m (main_init rootname targetlist m opts).
Proof.
  intros Hm j Hj. unfold slots_at, alive_at, in_flight. cbn.
  change (held_slots j []) with 0.
  destruct j as [|j]; cbn; [split_and!; lia|].
  destruct (((λ n, Host_init n [] m) <$> targetlist) !! j) as [h|] eqn:Hh.
  - apply list_lookup_fmap_Some in Hh as (n & -> & Hn). cbn. split_and!; lia.
  - apply lookup_ge_None_1 in Hh. unfold hostcount in Hj. cbn in Hj. lia.
Qed.

Lemma run_slots_inv m evs : ∀ w w',
  needed_inv w → chunks_inv w → slots_inv m w → run w evs = Some w' →
  slots_inv m w'.
Proof.
  induction evs as [|e evs IH]; intros w w' Hn Hc Hs; simpl.
  - by intros [= <-].
  - destruct (step w e) as [w1|] eqn:Hstep; [|done].
    apply IH; [by eapply step_needed_inv|by eapply step_chunks_inv|
               by eapply step_slots_inv].
Qed.

End slot_account.

(** ** What a run never takes back *)

Section progress.

Lemma db_le_refl db : db_le db db.
Proof. unfold db_le. split_and!; try done. Qed.

Lemma db_le_trans db1 db2 db3 : db_le db1 db2 → db_le db2 db3 → db_le db1 db3.
Proof.
  intros (A1 & A2 & A3 & A4 & A5 & A6 & A7) (B1 & B2 & B3 & B4 & B5 & B6 & B7).
  unfold db_le. split_and!; try lia; try congruence.
  - intros i. etransitivity; [apply A2|apply B2].
  - intros i Hi. by apply A3, B3.
  - intros H. by apply B7, A7.
Qed.

Lemma db_le_with_host i f db :
  (∀ h, alive (f h) = alive h) →
  (∀ h, chunks_owned h `prefix_of` chunks_owned (f h)) →
  db_le db (with_host i f db).
Proof.
  intros Ha Ho. unfold db_le. rewrite hostcount_with_host.
  split_and!; try done.
  - intros j. unfold owned_at. rewrite lookup_with_host.
    destruct (decide (i = j)); [|done].
    destruct (hostlist db !! j); cbn; [apply Ho|done].
  - intros j. unfold alive_at. by rewrite field_with_host_frame.
Qed.

Lemma db_le_setDead i db : db_le db (setDead i db).
Proof.
  destruct (alive_at db i) eqn:Ha; [|rewrite setDead_dead by done; apply db_le_refl].
  unfold alive_at in Ha.
  destruct (hostlist db !! i) as [h|] eqn:Hi; [|done]. cbn in Ha.
  rewrite (setDead_alive _ _ _ Hi Ha).
  set (h' := set_transferslots (λ _, 0) (set_alive false h)).
  unfold db_le.
  split_and!; try done; cbn; try lia.
  - apply (hostcount_with_host i (λ _, h') db).
  - intros j. unfold owned_at. cbn. rewrite lookup_with_host.
    destruct (decide (i = j)) as [<-|]; [|done]. by rewrite Hi.
  - intros j. unfold alive_at. cbn. rewrite lookup_with_host.
    destruct (decide (i = j)) as [<-|]; [|done]. by rewrite Hi.
  - change (deadhosts (with_host i (λ _, h') db)) with (deadhosts db). lia.
Qed.

Lemma db_le_split_file_step curname db rs :
  db_le db (split_file_step curname db rs).1.
Proof.
  destruct (split_file_step_fields curname db rs)
    as (F1 & F2 & F3 & F4 & F5 & F6 & F7).
  unfold db_le. rewrite F1, F2, F3, F6, F7.
  split_and!; try done; try lia.
  - intros j. unfold owned_at.
    unfold split_file_step, update_chunks_needed. cbn.
    set (db1 := with_host (roothost db) _ db).
    assert (H1 : from_option chunks_owned [] (hostlist db !! j)
                 `prefix_of` from_option chunks_owned [] (hostlist db1 !! j)).
    { subst db1. rewrite lookup_with_host.
      destruct (decide (roothost db = j)); [|done].
      destruct (hostlist db !! j); cbn; [by apply prefix_app_r|done]. }
    etransitivity; [exact H1|].
    destruct (hostlist db1 !! roothost db1) as [root|]; [|done].
    pose proof (update_hosts_field_frame chunks_owned (roothost db1)
                  (chunks_owned root) (S (chunkCount db1))) as Hf.
    specialize (Hf ltac:(intros h rs0;
      by destruct (update_host_frame (chunks_owned root) (S (chunkCount db1)) h rs0)
        as (_ & _ & ? & _)) (hostlist db1) 0%nat rs).
    destruct (update_hosts _ _ _ _ _ _) as [hl rs1]. cbn in *.
    apply (f_equal (λ l, l !! j)) in Hf. rewrite !list_lookup_fmap in Hf.
    destruct (hl !! j), (hostlist db1 !! j); cbn in *; try done.
    by injection Hf as ->.
  - intros j. by rewrite alive_at_split_file_step.
Qed.

Lemma step_db_le w e w' : step w e = Some w' → db_le (DB w) (DB w').
Proof.
  intros Hstep.
  destruct e as [curname rs| |rs|k o| |k]; simpl in Hstep.
  - destruct (split_complete (DB w)); [done|].
    destruct (Py.contains _ _); [done|]. injection Hstep as <-.
    apply db_le_split_file_step.
  - injection Hstep as <-. unfold db_le. cbn. split_and!; done.
  - injection Hstep as <-.
    apply (main_step_DB_closed (db_le (DB w))); [| | |apply db_le_refl].
    + intros i db H. eapply db_le_trans; [exact H|]. by apply db_le_with_host.
    + intros t db H. eapply db_le_trans; [exact H|]. unfold db_le.
      split_and!; done.
    + intros i g db H. eapply db_le_trans; [exact H|]. by apply db_le_with_host.
  - destruct (threadlist w !! k) as [tr|]; [|done]. injection Hstep as <-.
    apply (Transfer_run_DB_closed (db_le (DB w))); [| | | | |apply db_le_refl].
    + intros i c db H. eapply db_le_trans; [exact H|].
      apply db_le_with_host; [done|]. intros h. by apply prefix_app_r.
    + intros i c db H. eapply db_le_trans; [exact H|].
      apply db_le_with_host; intros h; unfold requeue;
        by destruct (Py.contains _ _).
    + intros i db H. eapply db_le_trans; [exact H|]. by apply db_le_with_host.
    + intros db H. eapply db_le_trans; [exact H|]. unfold db_le.
      split_and!; try done. cbn. lia.
    + intros i db H. eapply db_le_trans; [exact H|]. apply db_le_setDead.
  - injection Hstep as <-. apply db_le_refl.
  - destruct (child_exit k (commandq w)); [|done]. injection Hstep as <-.
    apply db_le_refl.
Qed.

End progress.

Section seeds.

Lemma run_db_le evs : ∀ w w', run w evs = Some w' → db_le (DB w) (DB w').
Proof.
  induction evs as [|e evs IH]; intros w w'; simpl.
  - intros [= <-]. apply db_le_refl.
  - destruct (step w e) as [w1|] eqn:Hstep; [|done]. intros Hrun.
    eapply db_le_trans; [by eapply step_db_le|by apply IH].
Qed.

Lemma matched_acquire_and_start tr w :
  matched (acquire_and_start tr w) = matched w.
Proof. unfold acquire_and_start. by destruct (threadsema w). Qed.

(** The matches of a step: at most one, made by the main thread. *)
Lemma step_matched w e w' :
  step w e = Some w' →
  matched w' = matched w ∨
  ∃ rs s t c db' rs',
    e = EvMain rs ∧ mainpc w = Scheduling ∧
    getTransfer (DB w) rs = (Some (s, t, c), db', rs') ∧
    matched w' = matched w ++ [mkTransfer s c t].
Proof.
  intros Hstep.
  destruct e as [curname rs| |rs|k o| |k]; simpl in Hstep.
  - destruct (split_complete (DB w)); [done|].
    destruct (Py.contains _ _); [done|]. injection Hstep as <-. by left.
  - injection Hstep as <-. by left.
  - injection Hstep as <-. unfold main_step, initiateTransfers_step.
    destruct (mainpc w) eqn:Hpc.
    + destruct (loop_cond (DB w)).
      * destruct (getTransfer (DB w) rs) as [[[[[s t] c]|] db'] rs'] eqn:Hget.
        -- right. exists rs, s, t, c, db', rs'.
           by rewrite matched_acquire_and_start.
        -- by left.
      * left. by destruct (join_fields w) as (_ & _ & ? & _).
    + left. by rewrite matched_acquire_and_start.
    + left. by destruct (join_fields w) as (_ & _ & ? & _).
    + left. destruct (threadlist w); [|done]. by destruct (cleanup (options w)).
    + left. by destruct (wait_for_procs_step (commandq w)) as [q []].
    + left. by destruct (consumer (commandq w)).
    + by left.
  - destruct (threadlist w !! k) as [tr|]; [|done]. injection Hstep as <-.
    left. by destruct (Transfer_run_mainpc_matched k tr o w).
  - injection Hstep as <-. by left.
  - destruct (child_exit k (commandq w)); [|done]. injection Hstep as <-.
    by left.
Qed.

Lemma step_seeds_inv w e w' :
  needed_inv w → chunks_inv w → seeds_inv w →
  step w e = Some w' → seeds_inv w'.
Proof.
  intros Hneed Hchunks Hinv Hstep.
  destruct (step_db_le _ _ _ Hstep) as (L1 & L2 & _).
  assert (Hold : ∀ tr, tr ∈ matched w →
            (seedindex tr < hostcount (DB w'))%nat ∧
            seedindex tr ≠ targetindex tr ∧
            chunk tr ∈ owned_at (DB w') (seedindex tr)).
  { intros tr Htr. destruct (Hinv tr Htr) as (H1 & H2 & H3).
    rewrite L1. split_and!; try done.
    destruct (L2 (seedindex tr)) as [l ->]. apply elem_of_app. by left. }
  destruct (step_matched _ _ _ Hstep)
    as [Hm|(rs & s & t & c & db' & rs' & -> & Hpc & Hget & Hm)];
    intros tr Htr; rewrite Hm in Htr; [by apply Hold|].
  apply elem_of_app in Htr as [Htr|Htr]; [by apply Hold|].
  apply list_elem_of_singleton in Htr as ->. cbn.
  destruct (match_seed_ne_target _ _ _ _ _ _ _ Hneed Hchunks Hget)
    as (Hne & Hown & _).
  destruct (getTransfer_Some_frame _ _ _ _ _ _ _ Hget) as (Hs & _).
  rewrite L1. split_and!; try done.
  destruct (L2 s) as [l ->]. apply elem_of_app. by left.
Qed.

Lemma main_init_seeds_inv rootname targetlist m opts :
  seeds_inv (main_init rootname targetlist m opts).
Proof. intros tr Htr. by apply elem_of_nil in Htr. Qed.

End seeds.

Section done_count.

Lemma complete_count_same db db' :
  hostcount db' = hostcount db →
  split_complete db' = split_complete db →
  chunkCount db' = chunkCount db →
  (∀ j, owned_at db' j = owned_at db j) →
  complete_count db' = complete_count db.
Proof.
  intros Hc Hs Hn Ho. unfold complete_count, complete_at. rewrite Hc, Hs, Hn.
  apply filter_seq_ext. intros j _. by rewrite Ho.
Qed.

Lemma done_inv_same w w' :
  hostcount (DB w') = hostcount (DB w) →
  split_complete (DB w') = split_complete (DB w) →
  chunkCount (DB w') = chunkCount (DB w) →
  hosts_with_file (DB w') = hosts_with_file (DB w) →
  (∀ j, owned_at (DB w') j = owned_at (DB w) j) →
  done_inv w → done_inv w'.
Proof.
  intros Hc Hs Hn Hf Ho Hinv. unfold done_inv.
  by rewrite Hf, (complete_count_same (DB w)).
Qed.

Lemma complete_count_not_split db :
  split_complete db = false → complete_count db = 0%nat.
Proof.
  intros Hs. unfold complete_count. rewrite filter_seq_none; [done|].
  intros j _. unfold complete_at. by rewrite Hs.
Qed.

(** [hosts_with_file] after [Transfer.run]: one more when the copy
    succeeded and the target passes the test. *)
Lemma hosts_with_file_Transfer_run k tr o w :
  (targetindex tr < hostcount (DB w))%nat →
  let db' := DB (Transfer_run k tr o w) in
  hosts_with_file db'
  = if negb (failed o) && complete_at db' (targetindex tr)
    then S (hosts_with_file (DB w)) else hosts_with_file (DB w).
Proof.
  intros Ht db'. subst db'.
  destruct (Transfer_run_DB_fields k tr o w) as (_ & _ & F3 & F4).
  unfold complete_at. rewrite F3, F4.
  rewrite owned_at_Transfer_run_exact by done.
  assert (Hwh : ∀ i f db, hosts_with_file (with_host i f db) = hosts_with_file db)
    by done.
  assert (Hsd : ∀ i db, hosts_with_file (setDead i db) = hosts_with_file db).
  { intros i db. unfold setDead. destruct (hostlist db !! i); [|done].
    by destruct (Host_setDead _) as [? []]. }
  unfold Transfer_run, transfer_epilogue; cbn [DB].
  rewrite !Hwh.
  destruct o as [ret tu su|]; cbn [failed negb andb].
  - destruct (decide (ret = 0)) as [->|Hne].
    + rewrite bool_decide_eq_false_2 by (intros H; by apply H).
      cbn [negb andb].
      rewrite (bool_decide_eq_true_2 (targetindex tr = targetindex tr)) by done.
      unfold transfer_succeeded; cbn [DB log_action].
      destruct (lookup_lt_is_Some_2 (hostlist (DB w)) _ Ht) as [h Hh].
      rewrite lookup_with_host, decide_True, Hh by done.
      cbn [fmap option_fmap option_map].
      unfold owned_at. rewrite Hh.
      cbn [from_option chunks_owned set_chunks_owned].
      change (split_complete (with_host ?a ?b ?d)) with (split_complete d).
      rewrite chunkCount_with_host.
      by destruct (_ && _).
    + rewrite bool_decide_eq_true_2 by done. cbn [negb andb].
      unfold transfer_failed, probe.
      destruct su, tu; cbn [DB log_action set_DB]; by rewrite ?Hsd, ?Hwh.
  - unfold transfer_raised. cbn [DB log_action set_DB]. by rewrite Hwh.
Qed.

Lemma Transfer_run_done_inv k tr o w :
  needed_inv w → chunks_inv w → threadlist w !! k = Some tr →
  done_inv w → done_inv (Transfer_run k tr o w).
Proof.
  intros [(R1 & R2 & R3 & R4 & R5 & R6) (K1 & K2 & K3 & K4 & K5 & K6 & K7 & K8)]
    Hchunks Hk [D1 D2].
  assert (Htr : tr ∈ threadlist w) by (by eapply list_elem_of_lookup_2).
  destruct (K6 tr Htr) as (Ht & _ & _).
  pose proof (Forall_lookup_1 _ _ _ _ R4 Hk) as Ht0. cbn in Ht0.
  destruct (Transfer_run_DB_fields k tr o w) as (_ & _ & F3 & F4).
  pose proof (hosts_with_file_Transfer_run k tr o w Ht) as Hf. cbv zeta in Hf.
  assert (Hbefore : complete_at (DB w) (targetindex tr) = false).
  { destruct (Hchunks (targetindex tr) ltac:(lia)) as [_ Hperm].
    apply Permutation_length in Hperm. rewrite !length_app in Hperm.
    assert (Harr : (0 < length (arriving (targetindex tr) (threadlist w)))%nat).
    { pose proof (arriving_delete (targetindex tr) _ _ _ Hk) as Hp.
      apply Permutation_length in Hp. rewrite decide_True in Hp by done.
      cbn in Hp. lia. }
    unfold complete_at. rewrite bool_decide_eq_false_2; [by rewrite andb_false_r|].
    lia. }
  assert (Hother : ∀ j, j ≠ targetindex tr →
            complete_at (DB (Transfer_run k tr o w)) j = complete_at (DB w) j).
  { intros j Hj. unfold complete_at. rewrite F3, F4.
    rewrite owned_at_Transfer_run_exact by done.
    rewrite (bool_decide_eq_false_2 (targetindex tr = j)) by done.
    by rewrite andb_false_r. }
  unfold done_inv, complete_count. rewrite hostcount_Transfer_run, Hf.
  destruct (negb (failed o) && complete_at _ (targetindex tr)) eqn:Hnow.
  - apply andb_true_iff in Hnow as [_ Hnow].
    rewrite (filter_seq_flip
               (λ j, complete_at (DB w) j = true)
               (λ j, complete_at (DB (Transfer_run k tr o w)) j = true)
               _ _ (targetindex tr)).
    + unfold complete_count in D2. lia.
    + lia.
    + intros j Hj. by rewrite Hother.
    + by rewrite Hbefore.
    + done.
  - rewrite <- (filter_seq_ext
               (λ j, complete_at (DB w) j = true)
               (λ j, complete_at (DB (Transfer_run k tr o w)) j = true)).
    + done.
    + intros j _. destruct (decide (j = targetindex tr)) as [->|Hj];
        [|by rewrite Hother].
      rewrite Hbefore. split; [done|]. intros Hc.
      rewrite Hc, andb_true_r in Hnow.
      destruct (failed o) eqn:Hfl; [|done].
      revert Hc. unfold complete_at. rewrite F3, F4.
      rewrite owned_at_Transfer_run_exact by done. rewrite Hfl. cbn.
      by fold (complete_at (DB w) (targetindex tr)); rewrite Hbefore.
Qed.

Lemma step_done_inv w e w' :
  needed_inv w → chunks_inv w → done_inv w →
  step w e = Some w' → done_inv w'.
Proof.
  intros Hneed Hchunks Hinv Hstep.
  destruct e as [curname rs| |rs|k o| |k]; simpl in Hstep.
  - destruct (split_complete (DB w)) eqn:Hs; [done|].
    destruct (Py.contains _ _); [done|]. injection Hstep as <-.
    destruct (split_file_step_fields curname (DB w) rs)
      as (F1 & F2 & _ & _ & _ & _ & F7).
    destruct Hinv as [D1 D2]. rewrite complete_count_not_split in D2 by done.
    unfold done_inv. cbn. rewrite F2.
    rewrite complete_count_not_split by (by rewrite F7). lia.
  - injection Hstep as <-.
    destruct (split_complete (DB w)) eqn:Hs.
    + by apply (done_inv_same w).
    + destruct Hinv as [D1 D2]. rewrite complete_count_not_split in D2 by done.
      unfold done_inv. cbn. lia.
  - injection Hstep as <-.
    pose proof (main_step_DB_closed
      (λ db, hostcount db = hostcount (DB w) ∧
             split_complete db = split_complete (DB w) ∧
             chunkCount db = chunkCount (DB w) ∧
             hosts_with_file db = hosts_with_file (DB w) ∧
             ∀ j, owned_at db j = owned_at (DB w) j)) as Hcl.
    destruct (Hcl ltac:(intros i db (?&?&?&?&Ho);
                        rewrite hostcount_with_host; split_and!; try done;
                        intros j; unfold owned_at;
                        rewrite field_with_host_frame by done; apply Ho)
                  ltac:(intros t db (?&?&?&?&Ho); by split_and!)
                  ltac:(intros i g db (?&?&?&?&Ho);
                        rewrite hostcount_with_host; split_and!; try done;
                        intros j; unfold owned_at;
                        rewrite field_with_host_frame by done; apply Ho)
                  w rs ltac:(by split_and!)) as (E1 & E2 & E3 & E4 & E5).
    by apply (done_inv_same w).
  - destruct (threadlist w !! k) as [tr|] eqn:Hk; [|done]. injection Hstep as <-.
    by apply Transfer_run_done_inv.
  - injection Hstep as <-. by apply (done_inv_same w).
  - destruct (child_exit k (commandq w)); [|done]. injection Hstep as <-.
    by apply (done_inv_same w).
Qed.

Lemma main_init_done_inv rootname targetlist m opts :
  done_inv (main_init rootname targetlist m opts).
Proof.
  unfold done_inv. rewrite complete_count_not_split by done. cbn. lia.
Qed.

End done_count.

Section whole_run.

(** The chunk invariants of a run, together. *)
Lemma run_accounts evs : ∀ w w',
  needed_inv w → chunks_inv w → seeds_inv w → done_inv w →
  run w evs = Some w' →
  needed_inv w' ∧ chunks_inv w' ∧ seeds_inv w' ∧ done_inv w'.
Proof.
  induction evs as [|e evs IH]; intros w w' H1 H2 H4 H5; simpl.
  - by intros [= <-].
  - destruct (step w e) as [w1|] eqn:Hstep; [|done].
    apply IH;
      [by eapply step_needed_inv|by eapply step_chunks_inv|
       by eapply step_seeds_inv|by eapply step_done_inv].
Qed.

Lemma main_init_accounts rootname targetlist m opts evs w :
  run (main_init rootname targetlist m opts) evs = Some w →
  needed_inv w ∧ chunks_inv w ∧ seeds_inv w ∧ done_inv w.
Proof.
  apply run_accounts.
  - apply main_init_needed_inv.
  - apply main_init_chunks_inv.
  - apply main_init_seeds_inv.
  - apply main_init_done_inv.
Qed.

Lemma held_slots_nonneg j l : 0 ≤ held_slots j l.
Proof.
  induction l as [|x l IH]; [done|].
  change (held_slots j (x :: l))
    with (one_if (seedindex x) j + one_if (targetindex x) j + held_slots j l).
  unfold one_if. repeat case_decide; lia.
Qed.

(** Out of the first loop, its condition stays false. *)
Lemma step_loop_left w e w' :
  (scheduling (mainpc w) = false → loop_cond (DB w) = false) →
  step w e = Some w' →
  scheduling (mainpc w') = false → loop_cond (DB w') = false.
Proof.
  intros Hinv Hstep Hpc'.
  destruct (scheduling (mainpc w)) eqn:Hpc.
  - destruct e as [curname rs| |rs|k o| |k]; simpl in Hstep.
    + destruct (split_complete (DB w)); [done|].
      destruct (Py.contains _ _); [done|]. injection Hstep as <-.
      cbn in Hpc'. congruence.
    + injection Hstep as <-. cbn in Hpc'. congruence.
    + injection Hstep as <-. revert Hpc'.
      unfold main_step, initiateTransfers_step.
      assert (Hacq : ∀ tr w0, scheduling (mainpc (acquire_and_start tr w0)) = true).
      { intros tr w0. unfold acquire_and_start. by destruct (threadsema w0). }
      destruct (mainpc w) eqn:Hm; try done.
      * destruct (loop_cond (DB w)) eqn:Hl.
        -- destruct (getTransfer (DB w) rs) as [[[[[s t] c]|] db'] rs'].
           ++ by rewrite Hacq.
           ++ cbn. by rewrite Hm.
        -- destruct (join_fields w) as (-> & _). done.
      * by rewrite Hacq.
    + destruct (threadlist w !! k) as [tr|]; [|done]. injection Hstep as <-.
      destruct (Transfer_run_mainpc_matched k tr o w) as [Hm _].
      rewrite Hm in Hpc'. congruence.
    + injection Hstep as <-. cbn in Hpc'. congruence.
    + destruct (child_exit k (commandq w)); [|done]. injection Hstep as <-.
      cbn in Hpc'. congruence.
  - specialize (Hinv eq_refl).
    destruct (step_db_le _ _ _ Hstep) as (L1 & _ & _ & L4 & L5 & _).
    unfold loop_cond in *. apply bool_decide_eq_false in Hinv.
    apply bool_decide_eq_false. lia.
Qed.

End whole_run.

(** X18: with a maximum that is not negative, in every state of a run the
    slot count of a host does not exceed the maximum, and it is not
    negative while the host is alive. *)
Theorem slots_bounded (rootname : string)
    (targetlist : list string) (max_transfers_per_host : Z) (opts : Options)
    (evs : list Event) (w : World) (j : nat)
    (Hmax : 0 ≤ max_transfers_per_host)
    (Hrun : run (main_init rootname targetlist max_transfers_per_host opts) evs
            = Some w)
    (Hj : (j < hostcount (DB w))%nat) :
  slots_at (DB w) j ≤ max_transfers_per_host ∧
  (alive_at (DB w) j = true → 0 ≤ slots_at (DB w) j).
Proof.
  pose proof (run_slots_inv max_transfers_per_host evs _ _
                (main_init_needed_inv _ _ _ _) (main_init_chunks_inv _ _ _ _)
                (main_init_slots_inv _ _ _ _ Hmax) Hrun j Hj) as (I1 & I2 & I3).
  pose proof (held_slots_nonneg j (in_flight w)).
  split; [lia|done].
Qed.

Lemma slots_bounded_witness :
  ∃ w, run Examples_sweep.two_hosts Examples_run.started = Some w ∧
       slots_at (DB w) 1 = 0 ∧ alive_at (DB w) 1 = true ∧
       slots_at (DB w) 1 ≤ 1 ∧
       (alive_at (DB w) 1 = true → 0 ≤ slots_at (DB w) 1).
Proof.
  eexists. split; [vm_compute; reflexivity|]. split; [reflexivity|].
  split; [reflexivity|].
  apply (slots_bounded "root" ["node1"] 1 Examples.opts
           Examples_run.started _ 1).
  - lia.
  - vm_compute; reflexivity.
  - vm_compute. lia.
Defined.

(** X19: no host is asked to copy to itself: every triple that
    [getTransfer] has returned in a run has a seed other than its target,
    and the seed owns the chunk, then and ever after. *)
Theorem matched_seed_owns_chunk (rootname : string)
    (targetlist : list string) (max_transfers_per_host : Z) (opts : Options)
    (evs : list Event) (w : World) (tr : Transfer)
    (Hrun : run (main_init rootname targetlist max_transfers_per_host opts) evs
            = Some w)
    (Htr : tr ∈ matched w) :
  seedindex tr ≠ targetindex tr ∧
  (seedindex tr < hostcount (DB w))%nat ∧
  chunk tr ∈ owned_at (DB w) (seedindex tr).
Proof.
  destruct (main_init_accounts _ _ _ _ _ _ Hrun) as (_ & _ & Hseeds & _).
  destruct (Hseeds tr Htr) as (H1 & H2 & H3). done.
Qed.

Lemma matched_seed_owns_chunk_witness :
  ∃ w, run Examples_sweep.two_hosts Examples_run.started = Some w ∧
       (seedindex Examples_run.second ≠ targetindex Examples_run.second) ∧
       (seedindex Examples_run.second < hostcount (DB w))%nat ∧
       chunk Examples_run.second ∈ owned_at (DB w) (seedindex Examples_run.second).
Proof.
  eexists. split; [vm_compute; reflexivity|].
  apply (matched_seed_owns_chunk "root" ["node1"] 1 Examples.opts
           Examples_run.started _ Examples_run.second).
  - vm_compute; reflexivity.
  - vm_compute. left.
Defined.

(** X21: what a run never takes back, from any state on: the host list
    keeps its length, an owned list only grows at its end, a dead host
    stays dead, the three counters never decrease, and [split_complete]
    stays set. *)
Theorem run_never_takes_back (w w' : World) (evs : list Event)
    (Hrun : run w evs = Some w') :
  hostcount (DB w') = hostcount (DB w) ∧
  (∀ i, owned_at (DB w) i `prefix_of` owned_at (DB w') i) ∧
  (∀ i, alive_at (DB w) i = false → alive_at (DB w') i = false) ∧
  (deadhosts (DB w) ≤ deadhosts (DB w'))%nat ∧
  (hosts_with_file (DB w) ≤ hosts_with_file (DB w'))%nat ∧
  (chunkCount (DB w) ≤ chunkCount (DB w'))%nat ∧
  (split_complete (DB w) = true → split_complete (DB w') = true).
Proof.
  destruct (run_db_le _ _ _ Hrun) as (L1 & L2 & L3 & L4 & L5 & L6 & L7).
  split_and!; try done.
  intros i Hi. specialize (L3 i). destruct (alive_at (DB w') i); [|done].
  rewrite L3 in Hi; done.
Qed.

Lemma run_never_takes_back_witness :
  ∃ w, run Examples_sweep.two_hosts Examples_run.failing = Some w ∧
       hostcount (DB w) = hostcount (DB Examples_sweep.two_hosts) ∧
       (∀ i, owned_at (DB Examples_sweep.two_hosts) i `prefix_of` owned_at (DB w) i) ∧
       (∀ i, alive_at (DB Examples_sweep.two_hosts) i = false →
             alive_at (DB w) i = false) ∧
       (deadhosts (DB Examples_sweep.two_hosts) ≤ deadhosts (DB w))%nat ∧
       (hosts_with_file (DB Examples_sweep.two_hosts) ≤ hosts_with_file (DB w))%nat ∧
       (chunkCount (DB Examples_sweep.two_hosts) ≤ chunkCount (DB w))%nat ∧
       (split_complete (DB Examples_sweep.two_hosts) = true →
          split_complete (DB w) = true).
Proof.
  eexists. split; [vm_compute; reflexivity|].
  apply (run_never_takes_back Examples_sweep.two_hosts _ Examples_run.failing).
  vm_compute; reflexivity.
Defined.

(** X22: once [initiateTransfers] has left its first loop, the condition
    of the loop stays false for the rest of the run: the root, the hosts
    counted as complete and the hosts counted as dead cover the host list. *)
Theorem loop_left_for_good (rootname : string)
    (targetlist : list string) (max_transfers_per_host : Z) (opts : Options)
    (evs : list Event) (w : World)
    (Hrun : run (main_init rootname targetlist max_transfers_per_host opts) evs
            = Some w)
    (Hleft : scheduling (mainpc w) = false) :
  loop_cond (DB w) = false ∧
  (hostcount (DB w) ≤ hosts_with_file (DB w) + deadhosts (DB w))%nat.
Proof.
  assert (Hl : loop_cond (DB w) = false).
  { assert (H0 : scheduling (mainpc (main_init rootname targetlist
                                        max_transfers_per_host opts)) = false →
                 loop_cond (DB (main_init rootname targetlist
                                  max_transfers_per_host opts)) = false)
      by done.
    apply (run_invariant
             (λ w, scheduling (mainpc w) = false → loop_cond (DB w) = false)
             step_loop_left evs _ _ H0 Hrun Hleft). }
  split; [done|]. unfold loop_cond in Hl. apply bool_decide_eq_false in Hl. lia.
Qed.

Lemma loop_left_for_good_witness :
  ∃ w, run Examples_sweep.two_hosts Examples_run.whole = Some w ∧
       loop_cond (DB w) = false ∧
       (hostcount (DB w) ≤ hosts_with_file (DB w) + deadhosts (DB w))%nat.
Proof.
  eexists. split; [vm_compute; reflexivity|].
  apply (loop_left_for_good "root" ["node1"] 1 Examples.opts Examples_run.whole).
  - vm_compute; reflexivity.
  - vm_compute; reflexivity.
Defined.

Lemma deadhosts_counts_dead_hosts_witness :
  ∃ w, run Examples_sweep.two_hosts Examples_run.failing = Some w ∧
       deadhosts (DB w) = dead_count (DB w) ∧
       (deadhosts (DB w) ≤ hostcount (DB w))%nat.
Proof.
  eexists. split; [vm_compute; reflexivity|].
  apply (deadhosts_counts_dead_hosts "root" ["node1"] 1 Examples.opts
           Examples_run.failing).
  vm_compute; reflexivity.
Defined.

Lemma workers_bounded_witness :
  ∃ w, run Examples_sweep.two_hosts Examples_run.started = Some w ∧
       length (threadlist w) = 1%nat ∧
       (threadsema w + length (threadlist w) ≤ MAX_THREADS)%nat ∧
       threadsema (Transfer_run 0 Examples_run.second (Exits 0 true true) w)
         = MAX_THREADS.
Proof.
  eexists. split; [vm_compute; reflexivity|]. split; [reflexivity|].
  destruct (workers_bounded "root" ["node1"] 1 Examples.opts
              Examples_run.started _ ltac:(vm_compute; reflexivity))
    as (H1 & _ & H3).
  split; [exact H1|].
  destruct (H3 0%nat Examples_run.second (Exits 0 true true) eq_refl) as [H _].
  exact H.
Defined.

Lemma exit_after_queue_stopped_witness :
  ∃ w, run Examples_sweep.two_hosts Examples_run.whole = Some w ∧
       consumer (commandq w) = Stopped ∧ procs (commandq w) = [] ∧
       threadlist w = [].
Proof.
  eexists. split; [vm_compute; reflexivity|].
  apply (exit_after_queue_stopped "root" ["node1"] 1 Examples.opts
           Examples_run.whole).
  - vm_compute; reflexivity.
  - vm_compute; reflexivity.
Defined.

(** ** The splitter *)

Section split_output.

Import PyStr.

Lemma split_unfold a s :
  split (String a s)
  = if is_space a then split s
    else match s with
         | EmptyString => [String a EmptyString]
         | String b _ =>
             if is_space b then String a EmptyString :: split s
             else match split s with
                  | w :: ws => String a w :: ws
                  | [] => [String a EmptyString]
                  end
         end.
Proof. by destruct s. Qed.

Lemma split_word w : ∀ s,
  w ≠ EmptyString → all_chars (λ a, negb (is_space a)) w = true →
  (s = EmptyString ∨ ∃ b s', s = String b s' ∧ is_space b = true) →
  split (w +:+ s) = w :: split s.
Proof.
  induction w as [|a w IH]; intros s Hne Hw Hs; [done|].
  cbn [all_chars] in Hw. apply andb_true_iff in Hw as [Ha Hw].
  apply negb_true_iff in Ha.
  destruct w as [|b w].
  - change (String a EmptyString +:+ s) with (String a s).
    rewrite split_unfold, Ha.
    destruct Hs as [->|(c & s' & -> & Hc)]; [done|]. by rewrite Hc.
  - change (String a (String b w) +:+ s) with (String a (String b (w +:+ s))).
    rewrite (split_unfold a), Ha.
    specialize (IH s ltac:(done) Hw Hs).
    change (String b w +:+ s) with (String b (w +:+ s)) in IH.
    cbn [all_chars] in Hw. apply andb_true_iff in Hw as [Hb _].
    apply negb_true_iff in Hb. by rewrite Hb, IH.
Qed.

Lemma rstrip_quote chars name q :
  all_chars (λ a, negb (in_chars a chars)) name = true →
  in_chars q chars = true →
  rstrip chars (name +:+ String q EmptyString) = name.
Proof.
  intros Hname Hq. induction name as [|a name IH].
  - change (rstrip chars (EmptyString +:+ String q EmptyString))
      with (if in_chars q chars then EmptyString else String q EmptyString).
    by rewrite Hq.
  - cbn [all_chars] in Hname. apply andb_true_iff in Hname as [Ha Hname].
    apply negb_true_iff in Ha.
    change (String a name +:+ String q EmptyString)
      with (String a (name +:+ String q EmptyString)).
    cbn [rstrip]. rewrite (IH Hname).
    destruct name; [by rewrite Ha|done].
Qed.

Lemma all_chars_weaken (test1 test2 : Ascii.ascii → bool) s :
  (∀ a, test1 a = true → test2 a = true) →
  all_chars test1 s = true → all_chars test2 s = true.
Proof.
  intros Hw. induction s as [|a s IH]; [done|]. cbn [all_chars].
  intros [Ha Hs]%andb_true_iff. by rewrite (Hw a Ha), IH.
Qed.

Lemma all_chars_app test s1 s2 :
  all_chars test (s1 +:+ s2) = all_chars test s1 && all_chars test s2.
Proof.
  induction s1 as [|a s1 IH]; [done|].
  change (String a s1 +:+ s2) with (String a (s1 +:+ s2)).
  cbn [all_chars]. by rewrite IH, andb_assoc.
Qed.

Lemma append_assoc (s1 s2 s3 : string) :
  s1 +:+ (s2 +:+ s3) = (s1 +:+ s2) +:+ s3.
Proof.
  induction s1 as [|a s1 IH]; [done|].
  change (String a s1 +:+ (s2 +:+ s3)) with (String a (s1 +:+ (s2 +:+ s3))).
  by rewrite IH.
Qed.

Lemma eol_cases eol :
  all_chars is_space eol = true →
  eol = EmptyString ∨ ∃ b s', eol = String b s' ∧ is_space b = true.
Proof.
  destruct eol as [|b s']; [by left|]. cbn [all_chars].
  intros [Hb _]%andb_true_iff. right. eauto.
Qed.

Lemma parse_verbose_line open_quote name eol :
  in_chars open_quote "`'" = true →
  plain_name name → all_chars is_space eol = true →
  parse_name (verbose_line open_quote name eol) = Some name.
Proof.
  intros Hq [Hne Hplain] Heol. unfold parse_name, verbose_line.
  assert (Hns : all_chars (λ a, negb (is_space a)) name = true).
  { eapply all_chars_weaken; [|exact Hplain].
    intros a Ha. by apply andb_true_iff in Ha as [? _]. }
  assert (Hnq : all_chars (λ a, negb (in_chars a "`'")) name = true).
  { eapply all_chars_weaken; [|exact Hplain].
    intros a Ha. by apply andb_true_iff in Ha as [_ ?]. }
  assert (Hoq : is_space open_quote = false).
  { revert Hq. cbn. intros Hq.
    apply orb_true_iff in Hq as [Hq|Hq].
    - apply Ascii.eqb_eq in Hq as ->. done.
    - apply orb_true_iff in Hq as [Hq|Hq]; [|done].
      apply Ascii.eqb_eq in Hq as ->. done. }
  set (tail := String open_quote name +:+ "'" +:+ eol).
  change ("creating file " +:+ tail)
    with ("creating" +:+ (" " +:+ ("file" +:+ (" " +:+ tail)))).
  rewrite split_word; [|done|done|right; by eexists _, _].
  change (split (" " +:+ ("file" +:+ (" " +:+ tail))))
    with (split ("file" +:+ (" " +:+ tail))).
  rewrite split_word; [|done|done|right; by eexists _, _].
  change (split (" " +:+ tail)) with (split tail). subst tail.
  rewrite append_assoc.
  rewrite split_word.
  - unfold strip.
    change (String open_quote name +:+ "'")
      with (String open_quote (name +:+ "'")).
    cbn [lstrip]. rewrite Hq.
    destruct name as [|a name]; [done|].
    change (String a name +:+ "'") with (String a (name +:+ "'")).
    cbn [lstrip all_chars] in *.
    apply andb_true_iff in Hnq as [Ha Hnq]. apply negb_true_iff in Ha.
    rewrite Ha.
    change (String a (name +:+ "'")) with (String a name +:+ "'").
    rewrite (rstrip_quote "`'" (String a name)); [done| |done].
    cbn [all_chars]. by rewrite Ha, Hnq.
  - done.
  - change (String open_quote name +:+ "'")
      with (String open_quote (name +:+ "'")).
    cbn [all_chars]. rewrite Hoq. cbn [negb andb].
    rewrite all_chars_app, Hns. done.
  - by apply eol_cases.
Qed.

Lemma owned_split_file_step curname db rs :
  (roothost db < hostcount db)%nat →
  owned_at (split_file_step curname db rs).1 (roothost db)
  = owned_at db (roothost db) ++ [mkChunk curname].
Proof.
  intros Hroot.
  destruct (lookup_lt_is_Some_2 (hostlist db) _ Hroot) as [h Hh].
  destruct (lookup_split_file_step curname db rs _ h Hroot Hh) as [rs1 Hl].
  rewrite decide_True in Hl by done.
  unfold owned_at at 1. by rewrite Hl.
Qed.

Lemma split_file_loop_announces lines : ∀ curname db rs,
  (roothost db < hostcount db)%nat →
  let db' := (split_file_loop curname lines db rs).1 in
  owned_at db' (roothost db)
    = owned_at db (roothost db) ++ (mkChunk <$> curname :: announced lines) ∧
  chunkCount db' = (chunkCount db + S (length (announced lines)))%nat ∧
  roothost db' = roothost db ∧ hostcount db' = hostcount db ∧
  split_complete db' = split_complete db.
Proof.
  induction lines as [|line rest IH]; intros curname db rs Hroot;
    cbn [split_file_loop announced];
    pose proof (owned_split_file_step curname db rs Hroot) as Hown;
    destruct (split_file_step_fields curname db rs)
      as (F1 & _ & _ & _ & F5 & F6 & F7);
    destruct (split_file_step curname db rs) as [db1 rs1]; cbn [fst] in *.
  - split_and!; try done. cbn. lia.
  - destruct (parse_name line) as [prevname|]; [|split_and!; try done; cbn; lia].
    destruct (decide (prevname = EmptyString));
      [split_and!; try done; cbn; lia|].
    destruct (IH prevname db1 rs1 ltac:(by rewrite F5, F1))
      as (I1 & I2 & I3 & I4 & I5).
    rewrite F5 in I1. rewrite I1, I2, I3, I4, I5, Hown.
    split_and!; try done; try (cbn [length]; lia).
    by rewrite <- app_assoc.
Qed.

End split_output.

(** X23: [split_file] reads back what [split --verbose] prints: the line
    for a chunk, with either opening quote and any line ending, gives the
    name of the chunk, when the name is not empty and has no whitespace
    and neither of the two quote characters in it. *)
Theorem split_line_round_trip (open_quote : Ascii.ascii) (name eol : string)
    (Hquote : PyStr.in_chars open_quote "`'" = true)
    (Hname : plain_name name)
    (Heol : PyStr.all_chars PyStr.is_space eol = true) :
  parse_name (verbose_line open_quote name eol) = Some name.
Proof. by apply parse_verbose_line. Qed.

Lemma split_line_round_trip_witness :
  parse_name (verbose_line Examples_split.backquote "/tmp/f.chunk_aa"
                Examples_split.crlf)
  = Some "/tmp/f.chunk_aa".
Proof.
  apply (split_line_round_trip Examples_split.backquote "/tmp/f.chunk_aa"
           Examples_split.crlf).
  - reflexivity.
  - split; [done|reflexivity].
  - reflexivity.
Defined.

(** X24: what [split_file] announces: with the first line readable, the
    root owns in the end one more chunk for each line up to the first
    one that gives no name, in the order of the lines, [chunkCount] has
    grown by their number, and [split_complete] is set; the lines after
    the first one that gives no name are dropped without a word. *)
Theorem split_file_announces (lines : list string) (db db' : Database)
    (rs rs' : list nat)
    (Hroot : (roothost db < hostcount db)%nat)
    (Hsplit : split_file lines db rs = Some (db', rs')) :
  owned_at db' (roothost db)
    = owned_at db (roothost db) ++ (mkChunk <$> announced lines) ∧
  chunkCount db' = (chunkCount db + length (announced lines))%nat ∧
  split_complete db' = true.
Proof.
  destruct lines as [|line rest]; [done|]. cbn [split_file announced] in *.
  destruct (parse_name line) as [curname|]; [|done].
  destruct (decide (curname = EmptyString)).
  - injection Hsplit as <- <-. cbn. by rewrite app_nil_r, Nat.add_0_r.
  - destruct (split_file_loop_announces rest curname db rs Hroot)
      as (I1 & I2 & _).
    destruct (split_file_loop curname rest db rs) as [db1 rs1].
    injection Hsplit as <- <-. cbn [fst] in *.
    split_and!; try done.
Qed.

Lemma split_file_announces_witness :
  ∃ db' rs',
    split_file Examples_output.lines (DB Examples_sweep.two_hosts) []
      = Some (db', rs') ∧
    owned_at db' 0 = [Examples.chunk_a; Examples.chunk_b] ∧
    chunkCount db' = 2%nat ∧ split_complete db' = true.
Proof.
  eexists _, _. split; [vm_compute; reflexivity|].
  match goal with
  | |- owned_at ?d _ = _ ∧ _ =>
      exact (split_file_announces Examples_output.lines
               (DB Examples_sweep.two_hosts) d [] []
               ltac:(vm_compute; lia) ltac:(vm_compute; reflexivity))
  end.
Defined.

(** X25: without a thread permit the main thread holds its match and
    changes nothing, turn after turn: the chunk stays in the needed list
    and no worker is started; once a worker has finished, the next turn
    starts the held transfer. *)
Theorem main_waits_for_a_thread_permit (w : World) (tr : Transfer)
    (rs : list nat)
    (Hheld : mainpc w = Acquiring tr)
    (Hnone : threadsema w = 0%nat) :
  main_step w rs = w ∧
  ∀ k tr' o, threadlist w !! k = Some tr' →
    main_step (Transfer_run k tr' o w) rs
    = start_transfer tr (Transfer_run k tr' o w).
Proof.
  split.
  - unfold main_step, initiateTransfers_step, acquire_and_start.
    rewrite Hheld, Hnone. destruct w; cbn in *. by subst.
  - intros k tr' o Hk.
    destruct (Transfer_run_mainpc_matched k tr' o w) as [Hpc _].
    destruct (Transfer_run_permits k tr' o w) as (Hsem & _).
    unfold main_step, initiateTransfers_step, acquire_and_start.
    by rewrite Hpc, Hheld, Hsem.
Qed.

Lemma main_waits_for_a_thread_permit_witness :
  main_step Examples_permits.no_permit [] = Examples_permits.no_permit ∧
  ∀ k tr' o, threadlist Examples_permits.no_permit !! k = Some tr' →
    main_step (Transfer_run k tr' o Examples_permits.no_permit) []
    = start_transfer Examples_permits.held
        (Transfer_run k tr' o Examples_permits.no_permit).
Proof.
  apply (main_waits_for_a_thread_permit Examples_permits.no_permit
           Examples_permits.held []).
  - reflexivity.
  - reflexivity.
Defined.

(** X26: [initiateTransfers] returns with nothing in flight: in every
    state of a run in which the main thread is past [initiateTransfers],
    no worker is left, no match is held, and every live host has all its
    slots back. *)
Theorem returned_with_all_slots (rootname : string)
    (targetlist : list string) (max_transfers_per_host : Z) (opts : Options)
    (evs : list Event) (w : World)
    (Hmax : 0 ≤ max_transfers_per_host)
    (Hrun : run (main_init rootname targetlist max_transfers_per_host opts) evs
            = Some w)
    (Hret : finalizing (mainpc w) = true) :
  threadlist w = [] ∧ in_flight w = [] ∧
  ∀ j, (j < hostcount (DB w))%nat → alive_at (DB w) j = true →
    slots_at (DB w) j = max_transfers_per_host.
Proof.
  destruct (run_shutdown_inv evs _ _ (main_init_shutdown_inv _ _ _ _) Hrun)
    as (S1 & _).
  pose proof (S1 Hret) as Htl.
  assert (Hfl : in_flight w = []).
  { unfold in_flight. rewrite Htl. by destruct (mainpc w). }
  split_and!; try done.
  intros j Hj Ha.
  pose proof (run_slots_inv max_transfers_per_host evs _ _
                (main_init_needed_inv _ _ _ _) (main_init_chunks_inv _ _ _ _)
                (main_init_slots_inv _ _ _ _ Hmax) Hrun j Hj) as (_ & _ & I3).
  specialize (I3 Ha). rewrite Hfl in I3.
  change (held_slots j []) with 0 in I3. lia.
Qed.

Lemma returned_with_all_slots_witness :
  ∃ w, run Examples_sweep.two_hosts Examples_run.whole = Some w ∧
       threadlist w = [] ∧ in_flight w = [] ∧
       ∀ j, (j < hostcount (DB w))%nat → alive_at (DB w) j = true →
         slots_at (DB w) j = 1.
Proof.
  eexists. split; [vm_compute; reflexivity|].
  apply (returned_with_all_slots "root" ["node1"] 1 Examples.opts
           Examples_run.whole).
  - lia.
  - vm_compute; reflexivity.
  - vm_compute; reflexivity.
Defined.

(** * Properties of the transfer phase, statement by statement *)

#[local] Arguments Fine.copying : simpl never.

Section fine_lists.

(** Both systems start from the database [main] builds. *)
Lemma main_init_DB rootname targetlist m opts :
  Fine.DB (Fine.main_init rootname targetlist m opts)
  = DB (main_init rootname targetlist m opts).
Proof. reflexivity. Qed.

Lemma same_lists_refl db : Fine.same_lists db db.
Proof. by split_and!. Qed.

Lemma same_lists_trans db1 db2 db3 :
  Fine.same_lists db1 db2 → Fine.same_lists db2 db3 → Fine.same_lists db1 db3.
Proof.
  intros (A1 & A2 & A3 & A4) (B1 & B2 & B3 & B4).
  split_and!; try congruence.
  intros j. destruct (A4 j) as (? & ? & ?), (B4 j) as (? & ? & ?).
  split_and!; congruence.
Qed.

Lemma same_lists_slots i g db :
  Fine.same_lists db (with_host i (set_transferslots g) db).
Proof.
  split_and!; try done; [apply hostcount_with_host|].
  intros j. split_and!; by apply field_with_host_frame.
Qed.

Lemma same_lists_setDead i db : Fine.same_lists db (setDead i db).
Proof.
  split_and!.
  - apply hostcount_setDead.
  - unfold setDead. destruct (hostlist db !! i) as [h|]; [|done].
    by destruct (Host_setDead h) as [h' []].
  - unfold setDead. destruct (hostlist db !! i) as [h|]; [|done].
    by destruct (Host_setDead h) as [h' []].
  - intros j. split_and!; [apply needed_at_setDead|apply owned_at_setDead|].
    apply field_setDead_frame. intros h. unfold Host_setDead.
    by destruct (alive h).
Qed.

Lemma tindex_setDead i db : tindex (setDead i db) = tindex db.
Proof.
  unfold setDead. destruct (hostlist db !! i) as [h|]; [|done].
  by destruct (Host_setDead h) as [h' []].
Qed.

Lemma rooted_same db db' :
  Fine.same_lists db db' → Fine.rooted db → Fine.rooted db'.
Proof.
  intros (A1 & A2 & A3 & A4) (R1 & R2 & R3 & R4 & R5).
  destruct (A4 0%nat) as (Hn & Ho & _).
  unfold Fine.rooted. rewrite A1, A2, A3, Hn, Ho. done.
Qed.

Lemma accounted_same db db' extra extra' :
  Fine.same_lists db db' → (∀ j, extra' j ≡ₚ extra j) →
  Fine.accounted db extra → Fine.accounted db' extra'.
Proof.
  intros (A1 & A2 & A3 & A4) He Ha j Hj. rewrite A1 in Hj.
  destruct (Ha j Hj) as [Hi Hp].
  destruct (A4 j) as (-> & -> & ->), (A4 0%nat) as (_ & -> & _).
  rewrite A3, (He j). done.
Qed.

Lemma rooted_keep db db' :
  hostcount db' = hostcount db → roothost db' = roothost db →
  chunkCount db' = chunkCount db → needed_at db' 0 = needed_at db 0 →
  owned_at db' 0 = owned_at db 0 → Fine.rooted db → Fine.rooted db'.
Proof.
  intros H1 H2 H3 H4 H5 (R1 & R2 & R3 & R4 & R5).
  unfold Fine.rooted. rewrite H1, H2, H3, H4, H5. done.
Qed.

(** The chunk lists of a host other than the root hold no chunk twice, and
    none of them holds a chunk that is on its way. *)
Lemma accounted_NoDup db extra j :
  Fine.rooted db → Fine.accounted db extra → (0 < j < hostcount db)%nat →
  NoDup (needed_at db j ++ owned_at db j ++ extra j).
Proof.
  intros (_ & _ & _ & _ & Hnd) Ha Hj. destruct (Ha j Hj) as [_ Hp].
  by rewrite Hp.
Qed.

End fine_lists.

Section fine_writes.

(** [split] announces a chunk: every other host needs it. *)
Lemma split_accounted curname db rs extra :
  Fine.rooted db → Fine.accounted db extra →
  mkChunk curname ∉ owned_at db 0 →
  let db' := (split_file_step curname db rs).1 in
  Fine.rooted db' ∧ Fine.accounted db' extra ∧
  hostcount db' = hostcount db ∧ tindex db' = tindex db ∧
  ∀ j c, c ∈ needed_at db j → c ∈ needed_at db' j.
Proof.
  intros (R1 & R2 & R3 & R4 & R5) Ha Hnew db'.
  destruct (split_file_step_fields curname db rs)
    as (F1 & _ & _ & F4 & F5 & F6 & _).
  fold db' in F1, F4, F5, F6.
  set (root_owned := owned_at db 0 ++ [mkChunk curname]).
  assert (Hlen : length root_owned = S (chunkCount db)).
  { unfold root_owned. rewrite length_app, <- R4. cbn. lia. }
  assert (Hlook : ∀ i h, hostlist db !! i = Some h →
            ∃ rs1, hostlist db' !! i
                   = Some (if decide (i = 0%nat)
                           then set_chunks_owned (λ _, root_owned) h
                           else (update_host root_owned (length root_owned) h rs1).1)).
  { intros i h Hi. rewrite Hlen.
    destruct (lookup_split_file_step curname db rs i h) as [rs1 Hrs1];
      [rewrite R1; lia|done|].
    exists rs1. rewrite R1 in Hrs1. exact Hrs1. }
  destruct (lookup_lt_is_Some_2 (hostlist db) 0 R2) as [r Hr].
  assert (Hown0 : owned_at db' 0 = root_owned).
  { destruct (Hlook 0%nat r Hr) as [rs1 Hrs1].
    unfold owned_at. by rewrite Hrs1. }
  split_and!; try done.
  - split_and!; try congruence.
    + destruct (Hlook 0%nat r Hr) as [rs1 Hrs1].
      unfold needed_at in *. rewrite Hrs1. rewrite Hr in R3. done.
    + rewrite Hown0. unfold root_owned. apply NoDup_app. split; [done|].
      split; [|apply NoDup_singleton].
      intros x Hx ->%list_elem_of_singleton. done.
  - intros j Hj. rewrite F1 in Hj. rewrite F6.
    destruct (Ha j Hj) as [Hidx Hcons].
    destruct (lookup_lt_is_Some_2 (hostlist db) j) as [h Hh];
      [unfold hostcount in Hj; lia|].
    destruct (Hlook j h Hh) as [rs1 Hrs1].
    rewrite decide_False in Hrs1 by lia.
    assert (Hci : chunk_index h = length (owned_at db 0)).
    { unfold chunk_index_at in Hidx. rewrite Hh in Hidx. cbn in Hidx. lia. }
    assert (Hle : (chunk_index h ≤ length root_owned)%nat) by lia.
    destruct (update_host_registers root_owned h rs1 Hle) as [Hneed Hidx'].
    destruct (update_host_fields root_owned h rs1 Hle) as (_ & _ & Hown & _).
    unfold chunk_index_at, needed_at, owned_at at 1. rewrite Hrs1. cbn.
    split; [lia|].
    rewrite Hown0, Hneed, Hown.
    replace (drop (chunk_index h) root_owned) with [mkChunk curname].
    2:{ unfold root_owned. rewrite Hci. rewrite drop_app_length. done. }
    unfold needed_at, owned_at at 1 in Hcons. rewrite Hh in Hcons. cbn in Hcons.
    unfold root_owned. rewrite <- Hcons.
    rewrite <- !app_assoc. apply Permutation_app_head.
    rewrite (app_assoc [mkChunk curname]). rewrite <- app_assoc. cbn.
    rewrite Permutation_cons_append. by rewrite <- app_assoc.
  - intros j c Hc. unfold needed_at in *.
    destruct (hostlist db !! j) as [h|] eqn:Hh; [|by apply elem_of_nil in Hc].
    destruct (Hlook j h Hh) as [rs1 Hrs1]. rewrite Hrs1.
    destruct (decide (j = 0%nat)); [done|]. cbn in *.
    by apply (update_host_frame root_owned (length root_owned) h rs1).
Qed.

(** The main thread removes the chunk it has chosen: the chunk is in its
    hand. *)
Lemma remove_accounted db extra t c :
  Fine.rooted db → Fine.accounted db extra →
  (0 < t < hostcount db)%nat → c ∈ needed_at db t →
  let db' := with_host t
               (set_chunks_needed (λ l, default l (Py.remove c l))) db in
  Fine.rooted db' ∧
  Fine.accounted db'
    (λ j, extra j ++ if decide (t = j) then [c] else []) ∧
  hostcount db' = hostcount db ∧ tindex db' = tindex db.
Proof.
  intros Hroot Ha Ht Hc db'.
  assert (Hh : hostcount db' = hostcount db) by apply hostcount_with_host.
  assert (Hown : ∀ j, owned_at db' j = owned_at db j).
  { intros j. by apply field_with_host_frame. }
  assert (Hidx : ∀ j, chunk_index_at db' j = chunk_index_at db j).
  { intros j. by apply field_with_host_frame. }
  assert (Hneed : ∀ j, needed_at db' j
            = if decide (t = j) then default (needed_at db j)
                                       (Py.remove c (needed_at db j))
              else needed_at db j).
  { intros j. unfold db'. rewrite needed_at_set_chunks_needed by lia. done. }
  split_and!; try done.
  - apply (rooted_keep db); try done.
    rewrite Hneed. rewrite decide_False by lia. done.
  - intros j Hj. rewrite Hh in Hj. destruct (Ha j Hj) as [Hi Hp].
    rewrite Hidx, Hown, Hown, Hneed. split; [done|].
    destruct (decide (t = j)) as [->|]; [|by rewrite app_nil_r].
    destruct (remove_is_Some c _ Hc) as [l' Hl']. rewrite Hl'. cbn.
    rewrite <- Hp. rewrite (remove_Permutation _ _ _ Hl').
    rewrite !app_assoc. rewrite <- Permutation_cons_append. done.
Qed.

(** A copy succeeds: the chunk on its way is owned. *)
Lemma append_accounted db extra t c :
  Fine.rooted db → (0 < t < hostcount db)%nat →
  Fine.accounted db (λ j, (if decide (t = j) then [c] else []) ++ extra j) →
  let db' := with_host t (set_chunks_owned (λ l, l ++ [c])) db in
  Fine.rooted db' ∧ Fine.accounted db' extra ∧
  hostcount db' = hostcount db ∧ tindex db' = tindex db ∧
  ∀ j, needed_at db' j = needed_at db j.
Proof.
  intros Hroot Ht Ha db'.
  assert (Hh : hostcount db' = hostcount db) by apply hostcount_with_host.
  assert (Hneed : ∀ j, needed_at db' j = needed_at db j).
  { intros j. by apply field_with_host_frame. }
  assert (Hidx : ∀ j, chunk_index_at db' j = chunk_index_at db j).
  { intros j. by apply field_with_host_frame. }
  assert (Hown : ∀ j, owned_at db' j
            = if decide (t = j) then owned_at db j ++ [c] else owned_at db j).
  { intros j. unfold db'. rewrite owned_at_set_chunks_owned by lia. done. }
  split_and!; try done.
  - apply (rooted_keep db); try done.
    rewrite Hown. rewrite decide_False by lia. done.
  - intros j Hj. rewrite Hh in Hj. destruct (Ha j Hj) as [Hi Hp].
    rewrite Hidx, Hneed, !Hown. rewrite (decide_False (P := t = 0%nat)) by lia.
    split; [done|]. rewrite <- Hp.
    destruct (decide (t = j)) as [->|]; [|done].
    by rewrite <- !app_assoc.
Qed.

Lemma needed_at_requeue db t c j :
  (t < hostcount db)%nat → c ∉ needed_at db t →
  needed_at (with_host t (requeue c) db) j
  = if decide (t = j) then needed_at db j ++ [c] else needed_at db j.
Proof.
  intros Ht Hnot.
  destruct (lookup_lt_is_Some_2 (hostlist db) t Ht) as [h Hh].
  unfold needed_at in *. rewrite lookup_with_host.
  destruct (decide (t = j)) as [<-|]; [|done]. rewrite Hh in *. cbn in *.
  unfold requeue, Py.contains. by rewrite bool_decide_eq_false_2.
Qed.

(** A copy fails: the chunk on its way is needed again, at the tail. *)
Lemma requeue_accounted db extra t c :
  Fine.rooted db → (0 < t < hostcount db)%nat →
  Fine.accounted db (λ j, (if decide (t = j) then [c] else []) ++ extra j) →
  let db' := with_host t (requeue c) db in
  Fine.rooted db' ∧ Fine.accounted db' extra ∧
  hostcount db' = hostcount db ∧ tindex db' = tindex db ∧
  (c ∉ needed_at db t) ∧
  ∀ j, needed_at db' j
       = if decide (t = j) then needed_at db j ++ [c] else needed_at db j.
Proof.
  intros Hroot Ht Ha db'.
  assert (Hnot : c ∉ needed_at db t).
  { pose proof (accounted_NoDup _ _ t Hroot Ha Ht) as Hnd.
    cbn beta in Hnd. rewrite decide_True in Hnd by done.
    apply NoDup_app in Hnd as (_ & Hdis & _). intros Hin.
    apply (Hdis c Hin). apply elem_of_app. right. apply elem_of_app. left.
    by apply list_elem_of_singleton. }
  assert (Hh : hostcount db' = hostcount db) by apply hostcount_with_host.
  destruct (lookup_lt_is_Some_2 (hostlist db) t) as [h Hh0];
    [unfold hostcount in Ht; lia|].
  assert (Hrq : requeue c h = set_chunks_needed (λ l, l ++ [c]) h).
  { unfold requeue, Py.contains. rewrite bool_decide_eq_false_2; [done|].
    unfold needed_at in Hnot. by rewrite Hh0 in Hnot. }
  assert (Hown : ∀ j, owned_at db' j = owned_at db j).
  { intros j. unfold owned_at, db'. rewrite lookup_with_host.
    destruct (decide (t = j)) as [<-|]; [|done]. rewrite Hh0. cbn.
    by rewrite Hrq. }
  assert (Hidx : ∀ j, chunk_index_at db' j = chunk_index_at db j).
  { intros j. unfold chunk_index_at, db'. rewrite lookup_with_host.
    destruct (decide (t = j)) as [<-|]; [|done]. rewrite Hh0. cbn.
    by rewrite Hrq. }
  assert (Hneed : ∀ j, needed_at db' j
            = if decide (t = j) then needed_at db j ++ [c] else needed_at db j).
  { intros j. unfold needed_at, db'. rewrite lookup_with_host.
    destruct (decide (t = j)) as [<-|]; [|done]. rewrite Hh0. cbn.
    by rewrite Hrq. }
  split_and!; try done.
  - apply (rooted_keep db); try done.
    rewrite Hneed. rewrite decide_False by lia. done.
  - intros j Hj. rewrite Hh in Hj. destruct (Ha j Hj) as [Hi Hp].
    rewrite Hidx, Hneed, !Hown. split; [done|]. rewrite <- Hp.
    destruct (decide (t = j)) as [->|]; [|done].
    rewrite <- !app_assoc. apply Permutation_app_head.
    rewrite !app_assoc. apply Permutation_app_tail.
    apply Permutation_app_comm.
Qed.

End fine_writes.

Section fine_workers.

Lemma copying_app j ws x :
  Fine.copying j (ws ++ [x]) =
  Fine.copying j ws ++
    (if decide (Fine.stage x = Fine.Copying ∧ targetindex (Fine.job x) = j)
     then [chunk (Fine.job x)] else []).
Proof.
  unfold Fine.copying. rewrite filter_app, fmap_app. f_equal.
  rewrite filter_cons, filter_nil. by destruct (decide _).
Qed.

(** A worker goes on to a stage after its copy: if it was copying, its
    chunk is no longer on its way. *)
Lemma copying_alter j s : ∀ ws k x,
  ws !! k = Some x → s ≠ Fine.Copying →
  Fine.copying j ws ≡ₚ
    (if decide (Fine.stage x = Fine.Copying ∧ targetindex (Fine.job x) = j)
     then [chunk (Fine.job x)] else [])
    ++ Fine.copying j (alter (λ x, Fine.mkWorker (Fine.job x) s) k ws).
Proof.
  induction ws as [|y ws IH]; intros k x Hk Hs; [done|].
  destruct k as [|k]; simpl in Hk.
  - injection Hk as ->. cbn. unfold Fine.copying.
    rewrite !filter_cons. cbn.
    rewrite (decide_False (P := s = Fine.Copying ∧ _)) by (by intros [? _]).
    by destruct (decide _).
  - cbn. specialize (IH k x Hk Hs). unfold Fine.copying in *.
    rewrite !filter_cons. destruct (decide (Fine.stage y = _ ∧ _)); cbn.
    + rewrite IH. by rewrite Permutation_middle.
    + done.
Qed.

Lemma copying_delete j : ∀ ws k x,
  ws !! k = Some x → Fine.stage x ≠ Fine.Copying →
  Fine.copying j (delete k ws) = Fine.copying j ws.
Proof.
  induction ws as [|y ws IH]; intros k x Hk Hs; [done|].
  destruct k as [|k]; simpl in Hk.
  - injection Hk as ->. cbn. unfold Fine.copying. rewrite filter_cons.
    rewrite decide_False by (by intros [? _]). done.
  - cbn. specialize (IH k x Hk Hs). unfold Fine.copying in *.
    rewrite !filter_cons. destruct (decide _); [|exact IH].
    rewrite !fmap_cons. by f_equal.
Qed.

(** A step that leaves the chunk lists and the chunks on their way. *)
Lemma tokens_inv_frame w w' :
  Fine.tokens_inv w → Fine.same_lists (Fine.DB w) (Fine.DB w') →
  Forall (λ x, (0 < targetindex (Fine.job x) < hostcount (Fine.DB w))%nat)
    (Fine.threadlist w') →
  (∀ tr, Fine.mainpc w' = Fine.Starting tr → Fine.mainpc w = Fine.Starting tr) →
  (∀ t c, Fine.chosen (tindex (Fine.DB w')) (Fine.mainpc w') = Some (t, c) →
     c ∈ needed_at (Fine.DB w) t) →
  (∀ j, Fine.on_the_way w' j ≡ₚ Fine.on_the_way w j) →
  Fine.tokens_inv w'.
Proof.
  intros (T1 & T2 & T3 & T4 & T5) Hsame Hws Hst Hch Hway.
  pose proof Hsame as (A1 & A2 & A3 & A4).
  split_and!.
  - by apply (rooted_same (Fine.DB w)).
  - by rewrite A1.
  - intros tr Htr. rewrite A1. by apply T3, Hst.
  - intros t c Htc. destruct (A4 t) as (-> & _). by apply Hch.
  - by apply (accounted_same (Fine.DB w) _ (Fine.on_the_way w)).
Qed.

(** A worker whose copy has returned goes on, leaving the chunk lists. *)
Lemma tokens_inv_stage w w' k x s :
  Fine.tokens_inv w → Fine.threadlist w !! k = Some x →
  Fine.stage x ≠ Fine.Copying → s ≠ Fine.Copying →
  Fine.same_lists (Fine.DB w) (Fine.DB w') →
  tindex (Fine.DB w') = tindex (Fine.DB w) →
  Fine.threadlist w'
    = alter (λ x, Fine.mkWorker (Fine.job x) s) k (Fine.threadlist w) →
  Fine.mainpc w' = Fine.mainpc w →
  Fine.tokens_inv w'.
Proof.
  intros Hinv Hk Hx Hs Hsame Hti Hws Hpc.
  pose proof Hinv as (T1 & T2 & T3 & T4 & T5).
  apply (tokens_inv_frame w); try done.
  - rewrite Hws. apply Forall_alter; [done|]. by intros y _ Hy.
  - by rewrite Hpc.
  - rewrite Hti, Hpc. apply T4.
  - intros j. unfold Fine.on_the_way. rewrite Hws, Hpc.
    apply Permutation_app_tail.
    rewrite (copying_alter j s _ k x Hk Hs).
    rewrite decide_False by (by intros [? _]). done.
Qed.

End fine_workers.

Section fine_steps.

(** The main thread goes on without a write to the chunk lists, from a
    statement at which it has no chunk in its hand. *)
Lemma tokens_inv_pc w w' :
  Fine.tokens_inv w → Fine.same_lists (Fine.DB w) (Fine.DB w') →
  Fine.threadlist w' = Fine.threadlist w →
  (∀ j, Fine.in_hand j (Fine.mainpc w) = []) →
  (∀ j, Fine.in_hand j (Fine.mainpc w') = []) →
  (∀ t c, Fine.chosen (tindex (Fine.DB w')) (Fine.mainpc w') = Some (t, c) →
     c ∈ needed_at (Fine.DB w) t) →
  Fine.tokens_inv w'.
Proof.
  intros Hinv Hsame Hws Hin Hin' Hch.
  pose proof Hinv as (T1 & T2 & T3 & T4 & T5).
  apply (tokens_inv_frame w); try done.
  - by rewrite Hws.
  - intros tr Htr. specialize (Hin' (targetindex tr)). rewrite Htr in Hin'.
    cbn in Hin'. by rewrite decide_True in Hin'.
  - intros j. unfold Fine.on_the_way. by rewrite Hws, Hin, Hin'.
Qed.

Lemma main_step_tokens_inv w rs :
  Fine.tokens_inv w → Fine.tokens_inv (Fine.main_step w rs).
Proof.
  intros Hinv. pose proof Hinv as (T1 & T2 & T3 & T4 & T5).
  unfold Fine.main_step.
  destruct (Fine.mainpc w) as [|q|q pos|q pos c sindex i|s c|s c|tr|tr|tr| | |]
    eqn:Hpc.
  - (* the loop test *)
    destruct (loop_cond _); [|unfold Fine.join; destruct (Fine.threadlist w)];
      apply (tokens_inv_pc w); cbn; rewrite ?Hpc; try done;
      try apply same_lists_refl.
  - (* a turn of the loop over the targets *)
    destruct q as [|q].
    + apply (tokens_inv_pc w); cbn; rewrite ?Hpc; try done;
        try apply same_lists_refl.
    + unfold Fine.target_turn.
      destruct (hostlist _ !! _) as [h|]; [destruct (can_receive h)|];
        apply (tokens_inv_pc w); cbn; rewrite ?Hpc; try done;
        by split_and!.
  - (* a turn of the loop over the chunks *)
    unfold Fine.chunk_turn.
    destruct (needed_at _ _ !! pos) as [c|] eqn:Hc;
      apply (tokens_inv_pc w); cbn; rewrite ?Hpc; try done;
      try apply same_lists_refl.
    intros t c' [= <- <-]. by eapply list_elem_of_lookup_2.
  - (* a turn of the loop over the seeds *)
    assert (Hc : c ∈ needed_at (Fine.DB w) (tindex (Fine.DB w))).
    { by apply T4. }
    destruct i as [|i].
    + apply (tokens_inv_pc w); cbn; rewrite ?Hpc; try done;
        try apply same_lists_refl.
    + unfold Fine.seed_turn.
      destruct (hostlist _ !! _) as [h|]; [destruct (can_seed c h)|];
        apply (tokens_inv_pc w); cbn; rewrite ?Hpc; try done;
        try apply same_lists_refl; try (by intros t c' [= <- <-]).
  - (* the slot of the seed *)
    assert (Hc : c ∈ needed_at (Fine.DB w) (tindex (Fine.DB w))).
    { by apply T4. }
    apply (tokens_inv_pc w); cbn; rewrite ?Hpc; try done;
      try apply same_lists_slots; try (by intros t c' [= <- <-]).
  - (* the slot of the target: [getTransfer] returns *)
    assert (Hc : c ∈ needed_at (Fine.DB w) (tindex (Fine.DB w))).
    { by apply T4. }
    apply (tokens_inv_pc w); cbn; rewrite ?Hpc; try done;
      try apply same_lists_slots; try (by intros t c' [= <- <-]).
  - (* the thread permit *)
    assert (Hc : chunk tr ∈ needed_at (Fine.DB w) (targetindex tr)).
    { by apply T4. }
    destruct (Fine.threadsema w); [done|].
    apply (tokens_inv_pc w); cbn; rewrite ?Hpc; try done;
      try apply same_lists_refl; try (by intros t c' [= <- <-]).
  - (* the chunk leaves the needed list *)
    assert (Hc : chunk tr ∈ needed_at (Fine.DB w) (targetindex tr)).
    { by apply T4. }
    assert (Ht : (0 < targetindex tr < hostcount (Fine.DB w))%nat).
    { destruct T1 as (_ & _ & R3 & _). split.
      - destruct (targetindex tr); [|lia]. rewrite R3 in Hc.
        by apply elem_of_nil in Hc.
      - unfold needed_at in Hc.
        destruct (hostlist (Fine.DB w) !! targetindex tr) eqn:Hh;
          [|by apply elem_of_nil in Hc].
        apply lookup_lt_Some in Hh. done. }
    destruct (remove_accounted _ _ _ _ T1 T5 Ht Hc) as (H1 & H2 & H3 & H4).
    split_and!; cbn.
    + done.
    + by rewrite H3.
    + intros tr' [= <-]. by rewrite H3.
    + done.
    + intros j Hj. destruct (H2 j Hj) as [Hi Hp]. split; [done|].
      rewrite <- Hp. unfold Fine.on_the_way. cbn. rewrite Hpc. cbn.
      rewrite app_nil_r. by destruct (decide _).
  - (* the worker is started *)
    pose proof (T3 tr eq_refl) as Ht.
    split_and!; cbn; try done.
    + apply Forall_app. split; [done|]. by apply Forall_singleton.
    + intros j Hj. destruct (T5 j Hj) as [Hi Hp]. split; [done|].
      rewrite <- Hp. unfold Fine.on_the_way. cbn. rewrite Hpc. cbn.
      rewrite copying_app, app_nil_r. cbn.
      destruct (decide (targetindex tr = j)) as [->|].
      * by rewrite decide_True.
      * rewrite decide_False; [done|]. by intros [_ ?].
  - apply (tokens_inv_pc w); cbn; rewrite ?Hpc; try done;
      try apply same_lists_refl.
  - unfold Fine.join. destruct (Fine.threadlist w);
      apply (tokens_inv_pc w); cbn; rewrite ?Hpc; try done;
      try apply same_lists_refl.
  - done.
Qed.

(** The copy of a worker returns: its chunk goes to the owned list of the
    target or back to the needed list. *)
Lemma copy_returns_accounted w k x (db' : Database) ws' :
  Fine.tokens_inv w → Fine.threadlist w !! k = Some x →
  Fine.stage x = Fine.Copying →
  ws' = alter (λ x, Fine.mkWorker (Fine.job x) Fine.Appended) k (Fine.threadlist w)
  ∨ ws' = alter (λ x, Fine.mkWorker (Fine.job x) Fine.ProbingTarget) k (Fine.threadlist w)
  ∨ ws' = alter (λ x, Fine.mkWorker (Fine.job x) Fine.Leaving) k (Fine.threadlist w) →
  (0 < targetindex (Fine.job x) < hostcount (Fine.DB w))%nat ∧
  Fine.accounted (Fine.DB w)
    (λ j, (if decide (targetindex (Fine.job x) = j)
           then [chunk (Fine.job x)] else [])
          ++ (Fine.copying j ws' ++ Fine.in_hand j (Fine.mainpc w))) ∧
  Forall (λ x, (0 < targetindex (Fine.job x) < hostcount (Fine.DB w))%nat) ws'.
Proof.
  intros (T1 & T2 & T3 & T4 & T5) Hk Hx Hws.
  assert (∃ s, s ≠ Fine.Copying ∧
               ws' = alter (λ x, Fine.mkWorker (Fine.job x) s) k (Fine.threadlist w))
    as (s & Hs & ->).
  { destruct Hws as [->| [->| ->]]; eexists; (split; [|done]); done. }
  split; [|split].
  - apply (Forall_lookup_1 _ _ _ _ T2 Hk).
  - intros j Hj. destruct (T5 j Hj) as [Hi Hp]. split; [done|].
    rewrite <- Hp. unfold Fine.on_the_way.
    rewrite (copying_alter j s _ k x Hk Hs).
    destruct (decide (targetindex (Fine.job x) = j)) as [->|].
    + rewrite decide_True by done. by rewrite <- !app_assoc.
    + rewrite decide_False; [done|]. by intros [_ ?].
  - apply Forall_alter; [done|]. by intros y _ Hy.
Qed.

Lemma step_tokens_inv w e w' :
  Fine.tokens_inv w → Fine.step w e = Some w' → Fine.tokens_inv w'.
Proof.
  intros Hinv Hstep. pose proof Hinv as (T1 & T2 & T3 & T4 & T5).
  destruct e as [curname rs| |rs|k ret|k|k up|k]; simpl in Hstep.
  - (* a chunk is announced *)
    destruct (split_complete _); [done|].
    destruct (Py.contains _ _) eqn:Hc; [done|]. injection Hstep as <-.
    assert (Hnew : mkChunk curname ∉ owned_at (Fine.DB w) 0).
    { unfold Py.contains in Hc. apply bool_decide_eq_false in Hc.
      destruct T1 as (R1 & _). unfold root_owned in Hc. rewrite R1 in Hc.
      done. }
    destruct (split_accounted curname _ rs _ T1 T5 Hnew)
      as (H1 & H2 & H3 & H4 & H5).
    split_and!; cbn; try done.
    + by rewrite H3.
    + intros tr Htr. rewrite H3. by apply T3.
    + intros t c Htc. apply H5, T4. by rewrite <- H4.
  - injection Hstep as <-.
    apply (tokens_inv_frame w); cbn; try done; by split_and!.
  - injection Hstep as <-. by apply main_step_tokens_inv.
  - (* the copy exits *)
    destruct (Fine.threadlist w !! k) as [x|] eqn:Hk; [|done].
    destruct (Fine.stage x) eqn:Hx; try done. injection Hstep as <-.
    unfold Fine.copy_exits. destruct (decide (ret = 0)).
    + destruct (copy_returns_accounted w k x (Fine.DB w) _ Hinv Hk Hx
                  (or_introl eq_refl)) as (Ht & Ha & Hws).
      destruct (append_accounted _ _ _ _ T1 Ht Ha) as (H1 & H2 & H3 & H4 & H5).
      split_and!; cbn; try done.
      * by rewrite H3.
      * intros tr Htr. rewrite H3. by apply T3.
      * intros t c Htc. rewrite H5. apply T4. by rewrite <- H4.
    + destruct (copy_returns_accounted w k x (Fine.DB w) _ Hinv Hk Hx
                  (or_intror (or_introl eq_refl))) as (Ht & Ha & Hws).
      destruct (requeue_accounted _ _ _ _ T1 Ht Ha)
        as (H1 & H2 & H3 & H4 & _ & H5).
      split_and!; cbn; try done.
      * by rewrite H3.
      * intros tr Htr. rewrite H3. by apply T3.
      * intros t c Htc. rewrite H5.
        assert (c ∈ needed_at (Fine.DB w) t) by (apply T4; by rewrite <- H4).
        destruct (decide _); [|done]. apply elem_of_app. by left.
  - (* the copy raises *)
    destruct (Fine.threadlist w !! k) as [x|] eqn:Hk; [|done].
    destruct (Fine.stage x) eqn:Hx; try done. injection Hstep as <-.
    unfold Fine.copy_raises.
    destruct (copy_returns_accounted w k x (Fine.DB w) _ Hinv Hk Hx
                (or_intror (or_intror eq_refl))) as (Ht & Ha & Hws).
    destruct (requeue_accounted _ _ _ _ T1 Ht Ha)
      as (H1 & H2 & H3 & H4 & _ & H5).
    split_and!; cbn; try done.
    + by rewrite H3.
    + intros tr Htr. rewrite H3. by apply T3.
    + intros t c Htc. rewrite H5.
      assert (c ∈ needed_at (Fine.DB w) t) by (apply T4; by rewrite <- H4).
      destruct (decide _); [|done]. apply elem_of_app. by left.
  - (* a probe answers *)
    destruct (Fine.threadlist w !! k) as [x|] eqn:Hk; [|done].
    unfold Fine.probe_answers in Hstep.
    destruct (Fine.stage x) eqn:Hx; try done; injection Hstep as <-;
      unfold Fine.probed; destruct up;
      (eapply (tokens_inv_stage w _ k x); [done|done|by rewrite Hx|..];
       cbn; [| | |reflexivity|reflexivity]); try done;
      try apply same_lists_refl; try apply same_lists_setDead;
      apply tindex_setDead.
  - (* a statement of a worker *)
    destruct (Fine.threadlist w !! k) as [x|] eqn:Hk; [|done].
    unfold Fine.worker_step in Hstep.
    destruct (Fine.stage x) eqn:Hx; try done; injection Hstep as <-.
    + unfold Fine.test_complete.
      destruct (hostlist _ !! _) as [h|]; [destruct (_ && _)|];
        (eapply (tokens_inv_stage w _ k x); [done|done|by rewrite Hx|..];
         cbn; [| | |reflexivity|reflexivity]); try done;
        try apply same_lists_refl; by split_and!.
    + eapply (tokens_inv_stage w _ k x); [done|done|by rewrite Hx|..];
        cbn; [| | |reflexivity|reflexivity]; try done.
      apply same_lists_slots.
    + eapply (tokens_inv_stage w _ k x); [done|done|by rewrite Hx|..];
        cbn; [| | |reflexivity|reflexivity]; try done.
      apply same_lists_slots.
    + apply (tokens_inv_frame w); cbn; try done.
      * by apply Forall_delete.
      * intros j. unfold Fine.on_the_way. cbn.
        rewrite (copying_delete j _ k x Hk); [done|by rewrite Hx].
Qed.

Lemma main_init_tokens_inv rootname targetlist m opts :
  Fine.tokens_inv (Fine.main_init rootname targetlist m opts).
Proof.
  split_and!; cbn; try done.
  - split_and!; cbn; try done; [lia|apply NoDup_nil_2].
  - intros j Hj. unfold chunk_index_at, needed_at, owned_at. cbn.
    destruct j as [|j]; [lia|].
    change ((?h :: ?l) !! S j) with (l !! j). rewrite list_lookup_fmap.
    destruct (targetlist !! j) eqn:Hl; cbn; [done|].
    apply lookup_ge_None in Hl. unfold hostcount in Hj. cbn in Hj.
    rewrite length_fmap in Hj. lia.
Qed.

Lemma run_tokens_inv evs : ∀ w w',
  Fine.tokens_inv w → Fine.run w evs = Some w' → Fine.tokens_inv w'.
Proof.
  induction evs as [|e evs IH]; intros w w' Hinv Hrun; simpl in Hrun.
  - by injection Hrun as <-.
  - destruct (Fine.step w e) as [w1|] eqn:Hstep; [|done].
    eapply IH; [|done]. by eapply step_tokens_inv.
Qed.

End fine_steps.

Section fine_owned.

(** No step takes a chunk out of an owned list. *)
Lemma step_owned_mono w e w' j c :
  Fine.tokens_inv w → Fine.step w e = Some w' →
  c ∈ owned_at (Fine.DB w) j → c ∈ owned_at (Fine.DB w') j.
Proof.
  intros Hinv Hstep Hc. pose proof Hinv as (T1 & T2 & T3 & T4 & T5).
  assert (Hsame : ∀ db', Fine.same_lists (Fine.DB w) db' → c ∈ owned_at db' j).
  { intros db' (_ & _ & _ & H). destruct (H j) as (_ & -> & _). done. }
  assert (Happ : ∀ t c', (0 < t < hostcount (Fine.DB w))%nat →
            c ∈ owned_at (with_host t (set_chunks_owned (λ l, l ++ [c']))
                            (Fine.DB w)) j).
  { intros t c' Ht. rewrite owned_at_set_chunks_owned by lia.
    destruct (decide (t = j)); [|done]. apply elem_of_app. by left. }
  assert (Hreq : ∀ t c', c ∈ owned_at (with_host t (requeue c') (Fine.DB w)) j).
  { intros t c'. unfold owned_at in *. rewrite lookup_with_host.
    destruct (decide (t = j)) as [->|]; [|done].
    destruct (hostlist (Fine.DB w) !! j) as [h|]; [|done]. cbn in *.
    unfold requeue. by destruct (Py.contains _ _). }
  destruct e as [curname rs| |rs|k ret|k|k up|k]; simpl in Hstep.
  - destruct (split_complete _); [done|].
    destruct (Py.contains _ _) eqn:Hcon; [done|]. injection Hstep as <-. cbn.
    destruct (db_le_split_file_step curname (Fine.DB w) rs) as (_ & Hpre & _).
    destruct (Hpre j) as [l ->]. apply elem_of_app. by left.
  - injection Hstep as <-. apply Hsame. by split_and!.
  - injection Hstep as <-. unfold Fine.main_step.
    destruct (Fine.mainpc w) as [|[|q]|q pos|q pos c0 sindex [|i]|s c0|s c0|tr|tr|tr| | |];
      cbn; try done.
    + destruct (loop_cond _); [done|]. unfold Fine.join.
      by destruct (Fine.threadlist w).
    + unfold Fine.target_turn.
      destruct (hostlist _ !! _) as [h|]; [destruct (can_receive h)|]; done.
    + unfold Fine.chunk_turn. by destruct (needed_at _ _ !! pos).
    + unfold Fine.seed_turn.
      destruct (hostlist _ !! _) as [h|]; [destruct (can_seed c0 h)|]; done.
    + apply Hsame, same_lists_slots.
    + apply Hsame, same_lists_slots.
    + by destruct (Fine.threadsema w).
    + unfold owned_at. by rewrite field_with_host_frame.
    + unfold Fine.join. by destruct (Fine.threadlist w).
  - destruct (Fine.threadlist w !! k) as [x|] eqn:Hk; [|done].
    destruct (Fine.stage x) eqn:Hx; try done. injection Hstep as <-.
    unfold Fine.copy_exits. destruct (decide (ret = 0)); cbn; [|apply Hreq].
    apply Happ. apply (Forall_lookup_1 _ _ _ _ T2 Hk).
  - destruct (Fine.threadlist w !! k) as [x|] eqn:Hk; [|done].
    destruct (Fine.stage x) eqn:Hx; try done. injection Hstep as <-.
    apply Hreq.
  - destruct (Fine.threadlist w !! k) as [x|] eqn:Hk; [|done].
    unfold Fine.probe_answers in Hstep.
    destruct (Fine.stage x) eqn:Hx; try done; injection Hstep as <-;
      unfold Fine.probed; destruct up; cbn; try done;
      apply Hsame, same_lists_setDead.
  - destruct (Fine.threadlist w !! k) as [x|] eqn:Hk; [|done].
    unfold Fine.worker_step in Hstep.
    destruct (Fine.stage x) eqn:Hx; try done; injection Hstep as <-; cbn;
      try done; try (apply Hsame, same_lists_slots).
    unfold Fine.test_complete.
    destruct (hostlist _ !! _) as [h|]; [destruct (_ && _)|]; done.
Qed.

Lemma run_owned_mono evs : ∀ w w' j c,
  Fine.tokens_inv w → Fine.run w evs = Some w' →
  c ∈ owned_at (Fine.DB w) j → c ∈ owned_at (Fine.DB w') j.
Proof.
  induction evs as [|e evs IH]; intros w w' j c Hinv Hrun Hc; simpl in Hrun.
  - by injection Hrun as <-.
  - destruct (Fine.step w e) as [w1|] eqn:Hstep; [|done].
    eapply IH; [by eapply step_tokens_inv|done|].
    by eapply step_owned_mono.
Qed.

(** In a state of the invariant no host needs a chunk it owns. *)
Lemma tokens_inv_disjoint w j c :
  Fine.tokens_inv w → c ∈ owned_at (Fine.DB w) j → c ∉ needed_at (Fine.DB w) j.
Proof.
  intros (T1 & T2 & T3 & T4 & T5) Hc Hn.
  destruct (decide (0 < j < hostcount (Fine.DB w))%nat) as [Hj|Hj].
  - pose proof (accounted_NoDup _ _ j T1 T5 Hj) as Hnd.
    apply NoDup_app in Hnd as (_ & Hdis & _).
    apply (Hdis c Hn). apply elem_of_app. by left.
  - destruct T1 as (_ & _ & R3 & _).
    destruct j as [|j]; [rewrite R3 in Hn; by apply elem_of_nil in Hn|].
    unfold needed_at in Hn.
    destruct (hostlist (Fine.DB w) !! S j) eqn:Hh; [|by apply elem_of_nil in Hn].
    apply lookup_lt_Some in Hh. unfold hostcount in Hj. lia.
Qed.

(** The chunk of a worker whose copy has not returned is on its way. *)
Lemma copying_elem ws k tr :
  ws !! k = Some (Fine.mkWorker tr Fine.Copying) →
  chunk tr ∈ Fine.copying (targetindex tr) ws.
Proof.
  intros Hk. unfold Fine.copying.
  apply (list_elem_of_fmap_2 (λ x, chunk (Fine.job x)) _ (Fine.mkWorker tr Fine.Copying)).
  apply list_elem_of_filter. split; [done|]. by eapply list_elem_of_lookup_2.
Qed.

End fine_owned.

(** ** Runs that [step] leaves out *)

(** A worker whose copy failed is still in [threadlist], waiting for the
    probe of its target, when its chunk, back in the needed list, is
    matched again and a second copy of it to the same target started. *)
Lemma chunk_rematched_during_probe :
  ∃ w, Fine.run Examples_fine.two_chunks Examples_fine.rematch = Some w ∧
       Fine.threadlist w
         = [Fine.mkWorker Examples_worker.tr Fine.ProbingTarget;
            Fine.mkWorker Examples_worker.tr Fine.Copying] ∧
       needed_at (Fine.DB w) 1 = [].
Proof. eexists. split; [vm_compute; reflexivity|]. split; reflexivity. Qed.

(** Two workers append the two chunks of the file to the owned list of
    node1 before either tests whether node1 is complete: both call
    [hostDone] and both put the [cat] command. *)
Lemma host_counted_twice :
  ∃ w, Fine.run Examples_fine.two_chunks Examples_fine.both_test = Some w ∧
       hostcount (Fine.DB w) = 2%nat ∧ hosts_with_file (Fine.DB w) = 3%nat ∧
       cmdq (Fine.commandq w)
         = [Examples_sweep.the_cat; Examples_sweep.the_cat].
Proof.
  eexists. split; [vm_compute; reflexivity|]. split; [reflexivity|].
  split; reflexivity.
Qed.

(** node1 is marked dead between the test of [getTransfer] on it and its
    [getSlot()]: its slot count becomes negative. *)
Lemma slot_taken_on_dead_host :
  ∃ w, Fine.run Examples_fine.two_chunks
         (Examples_fine.found_then_dead ++ Examples_fine.then_started)
       = Some w ∧
       alive_at (Fine.DB w) 1 = false ∧ slots_at (Fine.DB w) 1 = -1.
Proof. eexists. split; [vm_compute; reflexivity|]. split; reflexivity. Qed.

(** ** C5: the chunk goes back to the needed list iff the copy failed *)

(** C5: in every state of a run, taken statement by statement from the
    state [main] builds: (a) the chunk of a worker whose copy has not
    returned is out of the needed list of its target; when the copy exits
    with a non-zero status, or raises, [Transfer.run] appends the chunk at
    the tail of that list; when it exits with status 0 the list is left as
    it is, and the chunk is in it in no later state; (b) the statement of
    [initiateTransfers] that follows [threadsema.acquire()] takes the chunk
    of the match, which is in the needed list of the target, out of it. *)
Theorem chunk_requeued_iff_copy_failed (rootname : string)
    (targetlist : list string) (max_transfers_per_host : Z) (opts : Options)
    (evs : list Fine.Event) (w : Fine.World)
    (Hrun : Fine.run (Fine.main_init rootname targetlist
                        max_transfers_per_host opts) evs = Some w) :
  (∀ k tr, Fine.threadlist w !! k = Some (Fine.mkWorker tr Fine.Copying) →
     let t := targetindex tr in
     let needed := needed_at (Fine.DB w) t in
     (chunk tr ∉ needed) ∧
     (∀ ret,
        needed_at (Fine.DB (Fine.copy_exits k tr ret w)) t
          = (if decide (ret = 0) then needed else needed ++ [chunk tr]) ∧
        (chunk tr ∈ needed_at (Fine.DB (Fine.copy_exits k tr ret w)) t
           ↔ ret ≠ 0)) ∧
     needed_at (Fine.DB (Fine.copy_raises k tr w)) t = needed ++ [chunk tr] ∧
     (∀ evs' w', Fine.run (Fine.copy_exits k tr 0 w) evs' = Some w' →
        chunk tr ∉ needed_at (Fine.DB w') t)) ∧
  (∀ tr rs, Fine.mainpc w = Fine.Removing tr →
     chunk tr ∈ needed_at (Fine.DB w) (targetindex tr) ∧
     chunk tr ∉ needed_at (Fine.DB (Fine.main_step w rs)) (targetindex tr)).
Proof.
  pose proof (run_tokens_inv _ _ _ (main_init_tokens_inv _ _ _ _) Hrun) as Hinv.
  pose proof Hinv as (T1 & T2 & T3 & T4 & T5).
  split.
  - intros k tr Hk t needed.
    pose proof (Forall_lookup_1 _ _ _ _ T2 Hk) as Ht. cbn in Ht. fold t in Ht.
    assert (Hnot : chunk tr ∉ needed).
    { pose proof (accounted_NoDup _ _ t T1 T5 Ht) as Hnd.
      apply NoDup_app in Hnd as (_ & Hdis & _). intros Hin.
      apply (Hdis _ Hin). apply elem_of_app. right.
      unfold Fine.on_the_way. apply elem_of_app. left.
      by apply (copying_elem _ k). }
    assert (Hfail : needed_at (with_host t (requeue (chunk tr)) (Fine.DB w)) t
                    = needed ++ [chunk tr]).
    { rewrite needed_at_requeue by (done || lia). by rewrite decide_True. }
    assert (Hexits : ∀ ret,
              needed_at (Fine.DB (Fine.copy_exits k tr ret w)) t
              = if decide (ret = 0) then needed else needed ++ [chunk tr]).
    { intros ret. unfold Fine.copy_exits.
      destruct (decide (ret = 0)); cbn; [|done].
      unfold needed_at. by rewrite field_with_host_frame. }
    split_and!; try done.
    + intros ret. split; [done|]. rewrite Hexits.
      destruct (decide (ret = 0)); split; try done.
      intros _. apply elem_of_app. right. by left.
    + intros evs' w' Hrun'.
      assert (Hstep : Fine.step w (Fine.EvCopyExits k 0)
                      = Some (Fine.copy_exits k tr 0 w)).
      { cbn. by rewrite Hk. }
      pose proof (step_tokens_inv _ _ _ Hinv Hstep) as Hinv1.
      apply tokens_inv_disjoint; [by eapply run_tokens_inv|].
      eapply run_owned_mono; [done|done|].
      unfold Fine.copy_exits. rewrite decide_True by done. cbn.
      rewrite owned_at_set_chunks_owned by lia. rewrite decide_True by done.
      apply elem_of_app. right. by left.
  - intros tr rs Hpc.
    assert (Hc : chunk tr ∈ needed_at (Fine.DB w) (targetindex tr)).
    { apply T4. by rewrite Hpc. }
    split; [done|]. unfold Fine.main_step. rewrite Hpc. cbn.
    assert (Ht : (0 < targetindex tr < hostcount (Fine.DB w))%nat).
    { destruct T1 as (_ & _ & R3 & _). split.
      - destruct (targetindex tr); [|lia]. rewrite R3 in Hc.
        by apply elem_of_nil in Hc.
      - unfold needed_at in Hc.
        destruct (hostlist (Fine.DB w) !! targetindex tr) eqn:Hh;
          [|by apply elem_of_nil in Hc].
        apply lookup_lt_Some in Hh. done. }
    rewrite needed_at_set_chunks_needed by lia. rewrite decide_True by done.
    destruct (remove_is_Some _ _ Hc) as [l' Hl']. rewrite Hl'. cbn.
    eapply remove_NoDup_not_elem; [|done].
    pose proof (accounted_NoDup _ _ _ T1 T5 Ht) as Hnd.
    by apply NoDup_app in Hnd as (? & _).
Qed.

(** C5 at work on two hosts: the chunk is split off, matched and its copy
    started; the copy exits with status 1 and the chunk is back in node1's
    needed list. *)
Lemma chunk_requeued_iff_copy_failed_witness :
  ∃ w, Fine.run (Fine.main_init "root" ["node1"] 1 Examples.opts)
         Examples_fine.one_copying = Some w ∧
       Fine.threadlist w !! 0%nat
         = Some (Fine.mkWorker Examples_worker.tr Fine.Copying) ∧
       needed_at (Fine.DB w) 1 = [] ∧
       needed_at (Fine.DB (Fine.copy_exits 0 Examples_worker.tr 1 w)) 1
         = [Examples.chunk_a].
Proof.
  eexists. split; [vm_compute; reflexivity|]. split; [reflexivity|].
  split; [reflexivity|].
  destruct (chunk_requeued_iff_copy_failed "root" ["node1"] 1 Examples.opts
              Examples_fine.one_copying _ ltac:(vm_compute; reflexivity))
    as (H & _).
  destruct (H 0%nat Examples_worker.tr eq_refl) as (_ & H1 & _).
  destruct (H1 1) as [H2 _]. exact H2.
Defined.

(** ** C8: the rotation and the scan without a lock *)

(** C8, as stated, fails: one root and three targets with one slot each,
    six chunks.  The first copy, to node1, exits with status 1 (both hosts
    answer the probe).  The second match has node2 as target.  The third
    call of [getTransfer] passes over node3, for which no seed has a free
    slot; the second copy returns and frees the slot of the root before the
    call reaches node1: the targets of the first three calls that return a
    triple, made one after the other, are node1, node2 and node1 again. *)
Lemma third_match_returns_to_first_target :
  ∃ w, Fine.run Examples_fine.four_hosts Examples_fine.three_calls = Some w ∧
       targetindex <$> Fine.matched w = [1; 2; 1]%nat ∧
       alive <$> hostlist (Fine.DB w) = [true; true; true; true].
Proof. eexists. split; [vm_compute; reflexivity|]. split; reflexivity. Qed.

(** ** C7: the loop of [initiateTransfers] *)

(** C7, as stated, fails: root and node1 with two chunks.  The loop test
    succeeds and [getTransfer] has found the root as seed for the second
    chunk when the first copy fails and node1 does not answer the probe:
    [hosts_with_file + deadhosts] is now [hostcount], and the transfer found
    is started all the same. *)
Lemma transfer_started_after_sum_reached_hostcount :
  ∃ w w', Fine.run Examples_fine.two_chunks Examples_fine.found_then_dead
            = Some w ∧
          loop_cond (Fine.DB w) = false ∧
          Fine.run w Examples_fine.then_started = Some w' ∧
          loop_cond (Fine.DB w') = false ∧
          Fine.threadlist w'
            = Fine.threadlist w
                ++ [Fine.mkWorker (mkTransfer 0 Examples.chunk_a 1) Fine.Copying].
Proof.
  eexists. eexists. split; [vm_compute; reflexivity|].
  split; [reflexivity|]. split; [vm_compute; reflexivity|].
  split; reflexivity.
Qed.

Section loop_turn.

(** Out of the first loop, no worker is started. *)
Lemma step_after_loop_threads w e w' :
  scheduling (mainpc w) = false → step w e = Some w' →
  threadlist w' `sublist_of` threadlist w.
Proof.
  intros Hpc. destruct e as [curname rs| |rs|k o| |k]; simpl.
  - destruct (split_complete (DB w)); [done|].
    destruct (Py.contains _ _); [done|]. by intros [= <-].
  - by intros [= <-].
  - intros [= <-]. unfold main_step, initiateTransfers_step.
    destruct (mainpc w) eqn:Hm; try done.
    + by destruct (join_fields w) as (_ & -> & _).
    + destruct (threadlist w) eqn:Hl; [|by rewrite Hl].
      destruct (cleanup (options w)); cbn; by rewrite Hl.
    + by destruct (wait_for_procs_step (commandq w)) as [q []].
    + by destruct (consumer (commandq w)).
  - destruct (threadlist w !! k) as [tr|]; [|done]. intros [= <-].
    rewrite Transfer_run_threadlist. apply sublist_delete.
  - by intros [= <-].
  - destruct (child_exit k (commandq w)); [|done]. by intros [= <-].
Qed.

Lemma run_after_loop_threads evs : ∀ w w',
  scheduling (mainpc w) = false → run w evs = Some w' →
  threadlist w' `sublist_of` threadlist w.
Proof.
  induction evs as [|e evs IH]; intros w w' Hpc; simpl.
  - by intros [= <-].
  - destruct (step w e) as [w1|] eqn:Hstep; [|done].
    destruct (step_after_loop _ _ _ Hpc Hstep) as [Hpc1 _].
    intros Hrun. etrans; [by eapply IH|]. by eapply step_after_loop_threads.
Qed.

Lemma start_transfer_started tr w :
  (0 < threadsema w)%nat → started tr w (start_transfer tr w).
Proof.
  intros Hsema. unfold started, start_transfer. cbn.
  split_and!; try done; [lia|].
  unfold needed_at. rewrite lookup_with_host. rewrite decide_True by done.
  by destruct (hostlist (DB w) !! targetindex tr).
Qed.

Lemma acquire_and_start_started tr w :
  (0 < threadsema w)%nat → acquire_and_start tr w = start_transfer tr w.
Proof. unfold acquire_and_start. destruct (threadsema w); [lia|done]. Qed.

End loop_turn.

(** C7, amended: each turn of the first loop of [initiateTransfers] tests
    [hosts_with_file + deadhosts < hostcount].  When the test fails,
    [getTransfer] is not called and the loop is left: from then on nothing
    is matched and no worker started.  When it holds, [getTransfer] is
    called: if no triple is eligible nothing is started; if one is, an
    eligible triple is matched, the slots of its hosts are taken, and its
    transfer is started at once when a thread permit is free, else held.
    A transfer held is started as soon as a permit is free, whatever
    [hosts_with_file + deadhosts] has become.  With the root as only host
    the first turn returns, and no transfer is ever matched or started. *)
Theorem initiateTransfers_turn (w : World) (rs : list nat) :
  let w' := initiateTransfers_step w rs in
  (mainpc w = Scheduling → loop_cond (DB w) = false →
     DB w' = DB w ∧ threadlist w' = threadlist w ∧
     threadsema w' = threadsema w ∧ matched w' = matched w ∧
     scheduling (mainpc w') = false ∧
     ∀ evs w'', run w' evs = Some w'' →
       scheduling (mainpc w'') = false ∧ matched w'' = matched w ∧
       threadlist w'' `sublist_of` threadlist w) ∧
  (mainpc w = Scheduling → loop_cond (DB w) = true →
     (∀ s t c, ¬ eligible (DB w) s t c) →
     hostlist (DB w') = hostlist (DB w) ∧ threadlist w' = threadlist w ∧
     threadsema w' = threadsema w ∧ matched w' = matched w ∧
     mainpc w' = Scheduling) ∧
  (mainpc w = Scheduling → loop_cond (DB w) = true →
     (∃ s t c, eligible (DB w) s t c) →
     ∃ tr, eligible (DB w) (seedindex tr) (targetindex tr) (chunk tr) ∧
           matched w' = matched w ++ [tr] ∧
           (∀ i, slots_at (DB w') i
                 = slots_at (DB w) i - one_if (seedindex tr) i
                   - one_if (targetindex tr) i) ∧
           (threadsema w = 0%nat →
              mainpc w' = Acquiring tr ∧ threadlist w' = threadlist w ∧
              ∀ i, needed_at (DB w') i = needed_at (DB w) i) ∧
           ((0 < threadsema w)%nat → started tr w w')) ∧
  (∀ tr, mainpc w = Acquiring tr →
     (threadsema w = 0%nat → w' = w) ∧
     ((0 < threadsema w)%nat → started tr w w' ∧ matched w' = matched w)) ∧
  (∀ rootname max_transfers_per_host opts,
     let w1 := main_init rootname [] max_transfers_per_host opts in
     initiateTransfers_step w1 rs = set_mainpc Returned w1 ∧
     ∀ evs w'', run w1 evs = Some w'' →
       matched w'' = [] ∧ threadlist w'' = [] ∧ actions w'' = []).
Proof.
  intros w'. split_and!.
  - intros Hpc Hcond. subst w'. unfold initiateTransfers_step.
    rewrite Hpc, Hcond.
    destruct (join_fields w) as (H1 & H2 & H3 & H4 & _).
    split_and!; try done.
    { unfold join. by destruct (threadlist w). }
    intros evs w'' Hrun.
    destruct (run_after_loop _ _ _ H4 Hrun) as [? ?].
    pose proof (run_after_loop_threads _ _ _ H4 Hrun) as Hsub.
    rewrite H2 in Hsub. split_and!; congruence.
  - intros Hpc Hcond Hnone. subst w'. unfold initiateTransfers_step.
    rewrite Hpc, Hcond.
    destruct (getTransfer (DB w) rs) as [[[[[s t] c]|] db'] rs'] eqn:Hget.
    + exfalso. apply (Hnone s t c).
      destruct (getTransfer_Some _ _ _ _ _ _ _ Hget)
        as (_ & (ht & Ht & Hrecv & Hc) & (hs & Hs & Hseed)).
      by exists hs, ht.
    + destruct (getTransfer_None _ _ _ _ Hget) as [t' ->]. by cbn.
  - intros Hpc Hcond (s0 & t0 & c0 & Hel). subst w'.
    unfold initiateTransfers_step. rewrite Hpc, Hcond.
    destruct (getTransfer (DB w) rs) as [[[[[s t] c]|] db'] rs'] eqn:Hget.
    2:{ exfalso. eapply getTransfer_None_no_eligible; [|exact Hel].
        by rewrite Hget. }
    destruct (getTransfer_Some _ _ _ _ _ _ _ Hget)
      as (_ & (ht & Ht & Hrecv & Hc) & (hs & Hs & Hseed)).
    destruct (getTransfer_Some_frame _ _ _ _ _ _ _ Hget)
      as (_ & _ & Hslots & Hneed & _).
    exists (mkTransfer s c t). cbn.
    split; [by exists hs, ht|].
    assert (Hrm : needed_at
                    (with_host t
                       (set_chunks_needed (λ l, default l (Py.remove c l))) db') t
              = default (needed_at (DB w) t) (Py.remove c (needed_at (DB w) t))).
    { rewrite <- Hneed. unfold needed_at.
      rewrite lookup_with_host. rewrite decide_True by done.
      by destruct (hostlist db' !! t). }
    unfold acquire_and_start. cbn.
    destruct (threadsema w) as [|n] eqn:Hsema; cbn.
    + split_and!; try done. lia.
    + split_and!; try done.
      * intros i. unfold slots_at. rewrite field_with_host_frame by done.
        apply Hslots.
      * intros _. unfold started. cbn. rewrite Hsema.
        split_and!; try done.
  - intros tr Hpc. subst w'. unfold initiateTransfers_step. rewrite Hpc.
    split.
    + intros Hsema. unfold acquire_and_start. rewrite Hsema.
      destruct w; cbn in *. by subst.
    + intros Hsema. rewrite acquire_and_start_started by done.
      split; [by apply start_transfer_started|done].
  - intros rootname m opts w1.
    assert (Hinv : single_host_inv w1).
    { unfold single_host_inv; cbn. split_and!; try done. }
    split.
    + unfold initiateTransfers_step.
      replace (mainpc w1) with Scheduling by done.
      rewrite (single_host_loop_cond _ Hinv). done.
    + intros evs w'' Hrun.
      destruct (run_single_host _ _ _ Hinv Hrun) as (_ & _ & ? & ? & ? & _).
      done.
Qed.

(** C7 at work: two hosts, the chunk of the root is eligible for node1:
    the turn matches it and starts its worker. *)
Lemma initiateTransfers_turn_witness :
  started Examples_worker.tr Examples.world_two_hosts
    (initiateTransfers_step Examples.world_two_hosts [0%nat]).
Proof.
  destruct (initiateTransfers_turn Examples.world_two_hosts [0%nat])
    as (_ & _ & H & _).
  destruct (H eq_refl eq_refl) as (tr & Hel & Hm & _ & _ & Hst).
  { exists 0%nat, 1%nat, Examples.chunk_a. vm_compute.
    eexists _, _. split_and!; try reflexivity. by left. }
  injection Hm as <-. apply Hst. vm_compute. lia.
Defined.

(** ** The chunk lists, statement by statement *)

(** X15: no chunk is doubled and none is lost.  In every state of a run
    taken statement by statement, at every host other than the root, the
    needed list, the owned list and the chunks on their way to the host
    (in a copy that has not returned, or in the hand of the main thread
    between the removal from the needed list and the start of the worker)
    hold no chunk twice and have no chunk in common; each of them is a
    chunk the root owns, and every chunk of the root that the host has
    been told of is among them.  The root owns no chunk twice. *)
Theorem chunk_in_one_place (rootname : string) (targetlist : list string)
    (max_transfers_per_host : Z) (opts : Options) (evs : list Fine.Event)
    (w : Fine.World) (j : nat)
    (Hrun : Fine.run (Fine.main_init rootname targetlist
                        max_transfers_per_host opts) evs = Some w)
    (Hj : (0 < j < hostcount (Fine.DB w))%nat) :
  NoDup (needed_at (Fine.DB w) j ++ owned_at (Fine.DB w) j
           ++ Fine.on_the_way w j) ∧
  (∀ c, c ∈ needed_at (Fine.DB w) j ++ owned_at (Fine.DB w) j
              ++ Fine.on_the_way w j →
        c ∈ owned_at (Fine.DB w) 0) ∧
  (∀ c, c ∈ known_at (Fine.DB w) j →
        c ∈ needed_at (Fine.DB w) j ++ owned_at (Fine.DB w) j
              ++ Fine.on_the_way w j) ∧
  NoDup (owned_at (Fine.DB w) 0).
Proof.
  pose proof (run_tokens_inv _ _ _ (main_init_tokens_inv _ _ _ _) Hrun)
    as (T1 & T2 & T3 & T4 & T5).
  destruct (T5 j Hj) as [Hi Hp].
  split_and!.
  - by apply accounted_NoDup.
  - intros c Hc. by rewrite <- Hp.
  - intros c Hc. rewrite Hp. unfold known_at in Hc.
    by apply elem_of_take in Hc as (i & Hc & _); eapply list_elem_of_lookup_2.
  - by destruct T1 as (_ & _ & _ & _ & ?).
Qed.

Lemma chunk_in_one_place_witness :
  ∃ w, Fine.run (Fine.main_init "root" ["node1"] 1 Examples.opts)
         Examples_fine.one_copying = Some w ∧
       Fine.on_the_way w 1 = [Examples.chunk_a] ∧
       known_at (Fine.DB w) 1 = [Examples.chunk_a] ∧
       NoDup (needed_at (Fine.DB w) 1 ++ owned_at (Fine.DB w) 1
                ++ Fine.on_the_way w 1).
Proof.
  eexists. split; [vm_compute; reflexivity|]. split; [reflexivity|].
  split; [reflexivity|].
  apply (chunk_in_one_place "root" ["node1"] 1 Examples.opts
           Examples_fine.one_copying _ 1 ltac:(vm_compute; reflexivity)).
  vm_compute. lia.
Defined.

(** X16: a host that passes the completeness test of [Transfer.run] has
    the file.  In every state of a run taken statement by statement, if
    [split_complete] is set and a host other than the root owns
    [chunkCount] chunks, then its owned list is a permutation of the
    root's, its needed list is empty, and no chunk is on its way to it. *)
Theorem complete_host_has_the_file (rootname : string)
    (targetlist : list string) (max_transfers_per_host : Z) (opts : Options)
    (evs : list Fine.Event) (w : Fine.World) (j : nat)
    (Hrun : Fine.run (Fine.main_init rootname targetlist
                        max_transfers_per_host opts) evs = Some w)
    (Hj : (0 < j < hostcount (Fine.DB w))%nat)
    (Hdone : complete_at (Fine.DB w) j = true) :
  owned_at (Fine.DB w) j ≡ₚ owned_at (Fine.DB w) 0 ∧
  needed_at (Fine.DB w) j = [] ∧ Fine.on_the_way w j = [].
Proof.
  pose proof (run_tokens_inv _ _ _ (main_init_tokens_inv _ _ _ _) Hrun)
    as (T1 & T2 & T3 & T4 & T5).
  destruct T1 as (_ & _ & _ & R4 & _). destruct (T5 j Hj) as [_ Hp].
  unfold complete_at in Hdone. apply andb_true_iff in Hdone as [_ Hlen].
  apply bool_decide_eq_true in Hlen.
  pose proof (Permutation_length Hp) as Hl. rewrite !length_app in Hl.
  assert (Hn : needed_at (Fine.DB w) j = []).
  { apply length_zero_iff_nil. lia. }
  assert (Hw : Fine.on_the_way w j = []).
  { apply length_zero_iff_nil. lia. }
  rewrite Hn, Hw, app_nil_r in Hp. done.
Qed.

Lemma complete_host_has_the_file_witness :
  ∃ w, Fine.run (Fine.main_init "root" ["node1"] 1 Examples.opts)
         Examples_fine.one_copied = Some w ∧
       complete_at (Fine.DB w) 1 = true ∧
       owned_at (Fine.DB w) 1 ≡ₚ owned_at (Fine.DB w) 0 ∧
       needed_at (Fine.DB w) 1 = [] ∧ Fine.on_the_way w 1 = [].
Proof.
  eexists. split; [vm_compute; reflexivity|]. split; [reflexivity|].
  apply (complete_host_has_the_file "root" ["node1"] 1 Examples.opts
           Examples_fine.one_copied _ 1 ltac:(vm_compute; reflexivity)).
  - vm_compute. lia.
  - reflexivity.
Defined.

(** X20: no chunk is sent to a host that has it.  In every state of a run
    taken statement by statement, the target of a worker whose copy has
    not returned is a host of the list other than the root and does not
    own the chunk; the same holds of the chunk that the main thread has
    chosen in a needed list, from the turn of [getTransfer] that reads it
    to its removal by [initiateTransfers]. *)
Theorem chunk_on_its_way_not_owned (rootname : string)
    (targetlist : list string) (max_transfers_per_host : Z) (opts : Options)
    (evs : list Fine.Event) (w : Fine.World)
    (Hrun : Fine.run (Fine.main_init rootname targetlist
                        max_transfers_per_host opts) evs = Some w) :
  (∀ k tr, Fine.threadlist w !! k = Some (Fine.mkWorker tr Fine.Copying) →
     (0 < targetindex tr < hostcount (Fine.DB w))%nat ∧
     chunk tr ∉ owned_at (Fine.DB w) (targetindex tr)) ∧
  (∀ t c, Fine.chosen (tindex (Fine.DB w)) (Fine.mainpc w) = Some (t, c) →
     (0 < t < hostcount (Fine.DB w))%nat ∧
     c ∈ needed_at (Fine.DB w) t ∧ c ∉ owned_at (Fine.DB w) t).
Proof.
  pose proof (run_tokens_inv _ _ _ (main_init_tokens_inv _ _ _ _) Hrun) as Hinv.
  pose proof Hinv as (T1 & T2 & T3 & T4 & T5).
  split.
  - intros k tr Hk.
    pose proof (Forall_lookup_1 _ _ _ _ T2 Hk) as Ht. cbn in Ht.
    split; [done|].
    pose proof (accounted_NoDup _ _ _ T1 T5 Ht) as Hnd.
    apply NoDup_app in Hnd as (_ & _ & Hnd).
    apply NoDup_app in Hnd as (_ & Hdis & _). intros Hin.
    apply (Hdis _ Hin). unfold Fine.on_the_way. apply elem_of_app. left.
    by apply (copying_elem _ k).
  - intros t c Hch. pose proof (T4 t c Hch) as Hc.
    split; [|split; [done|]].
    + destruct T1 as (_ & _ & R3 & _). split.
      * destruct t; [|lia]. rewrite R3 in Hc. by apply elem_of_nil in Hc.
      * unfold needed_at in Hc.
        destruct (hostlist (Fine.DB w) !! t) eqn:Hh;
          [|by apply elem_of_nil in Hc].
        by apply lookup_lt_Some in Hh.
    + intros Hown. by apply (tokens_inv_disjoint w t c).
Qed.

Lemma chunk_on_its_way_not_owned_witness :
  ∃ w, Fine.run (Fine.main_init "root" ["node1"] 1 Examples.opts)
         Examples_fine.one_copying = Some w ∧
       Fine.threadlist w !! 0%nat
         = Some (Fine.mkWorker Examples_worker.tr Fine.Copying) ∧
       Examples.chunk_a ∉ owned_at (Fine.DB w) 1.
Proof.
  eexists. split; [vm_compute; reflexivity|]. split; [reflexivity|].
  destruct (chunk_on_its_way_not_owned "root" ["node1"] 1 Examples.opts
              Examples_fine.one_copying _ ltac:(vm_compute; reflexivity))
    as (H & _).
  destruct (H 0%nat Examples_worker.tr eq_refl) as [_ H1]. exact H1.
Defined.

(** * The statements of an event of [step], taken in a row *)

Section in_a_row.

Lemma fine_run_app evs1 : ∀ w evs2,
  Fine.run w (evs1 ++ evs2)
  = match Fine.run w evs1 with
    | Some w' => Fine.run w' evs2
    | None => None
    end.
Proof.
  induction evs1 as [|e evs1 IH]; intros w evs2; [done|].
  simpl. destruct (Fine.step w e); [apply IH|done].
Qed.

(** The loop over the seeds, without a step of another thread in between,
    is [seed_scan]. *)
Lemma seed_phase fw q pos c : ∀ i sindex,
  Fine.run (Fine.set_mainpc (Fine.NextSeed q pos c sindex i) fw)
    (seed_events (hostlist (Fine.DB fw)) c sindex i)
  = Some (Fine.set_mainpc
            match seed_scan (hostlist (Fine.DB fw)) c sindex i with
            | Some s => Fine.SeedSlot s c
            | None => Fine.NextChunk q (S pos)
            end fw).
Proof.
  induction i as [|i IH]; intros sindex; [reflexivity|].
  cbn [seed_events seed_scan Fine.run Fine.step].
  unfold Fine.main_step. cbn [Fine.mainpc Fine.set_mainpc].
  unfold Fine.seed_turn. cbn [Fine.DB Fine.set_mainpc]. unfold hostcount.
  destruct (hostlist (Fine.DB fw) !! prev_index sindex _) as [h|]; [|reflexivity].
  destruct (can_seed c h); [reflexivity|]. apply IH.
Qed.

(** The loop over the chunks, from the position [pos] of the needed list
    of the target, is [chunk_scan] on the rest of the list. *)
Lemma chunk_phase fw q : ∀ needed pos rs,
  drop pos (needed_at (Fine.DB fw) (tindex (Fine.DB fw))) = needed →
  Fine.run (Fine.set_mainpc (Fine.NextChunk q pos) fw)
    (chunk_events (hostlist (Fine.DB fw)) needed rs)
  = Some (Fine.set_mainpc
            match (chunk_scan (hostlist (Fine.DB fw)) needed rs).1 with
            | Some (s, c) => Fine.SeedSlot s c
            | None => Fine.Turn q
            end fw).
Proof.
  induction needed as [|c rest IH]; intros pos rs Hdrop.
  - cbn [chunk_events chunk_scan Fine.run Fine.step].
    unfold Fine.main_step. cbn [Fine.mainpc Fine.set_mainpc].
    unfold Fine.chunk_turn. cbn [Fine.DB Fine.set_mainpc].
    assert (Hnone : needed_at (Fine.DB fw) (tindex (Fine.DB fw)) !! pos = None).
    { apply lookup_ge_None. apply (f_equal length) in Hdrop.
      rewrite length_drop in Hdrop. cbn in Hdrop. lia. }
    rewrite Hnone. reflexivity.
  - assert (Hc : needed_at (Fine.DB fw) (tindex (Fine.DB fw)) !! pos = Some c).
    { rewrite <- (Nat.add_0_r pos), <- lookup_drop, Hdrop. done. }
    assert (Hrest : drop (S pos) (needed_at (Fine.DB fw) (tindex (Fine.DB fw)))
                    = rest).
    { replace (S pos) with (pos + 1)%nat by lia.
      rewrite <- drop_drop. by rewrite Hdrop. }
    cbn [chunk_events chunk_scan].
    destruct (Py.draw rs) as [d rs'] eqn:Hdraw.
    cbn [Fine.run Fine.step].
    unfold Fine.main_step. cbn [Fine.mainpc Fine.set_mainpc].
    unfold Fine.chunk_turn. cbn [Fine.DB Fine.set_mainpc].
    rewrite Hc. cbn [Py.draw fst]. unfold hostcount.
    rewrite fine_run_app.
    change (Fine.set_mainpc (Fine.NextSeed q pos c ?s ?i) (Fine.set_mainpc _ fw))
      with (Fine.set_mainpc (Fine.NextSeed q pos c s i) fw).
    rewrite seed_phase.
    destruct (seed_scan _ _ _ _) as [s|]; [reflexivity|].
    change (Fine.set_mainpc (Fine.NextChunk q (S pos)) fw)
      with (Fine.set_mainpc (Fine.NextChunk q (S pos)) fw).
    by apply IH.
Qed.

(** The loop over the targets is [target_scan]. *)
Lemma target_phase fw : ∀ q t rs,
  Fine.run (Fine.set_mainpc (Fine.Turn q) (Fine.set_DB (set_tindex t) fw))
    (target_events (hostlist (Fine.DB fw)) t rs q)
  = Some match target_scan (hostlist (Fine.DB fw)) t rs q with
         | (Some (s, _, c), t', _) =>
             Fine.set_mainpc (Fine.SeedSlot s c)
               (Fine.set_DB (set_tindex t') fw)
         | (None, t', _) =>
             Fine.set_mainpc Fine.Sleeping (Fine.set_DB (set_tindex t') fw)
         end.
Proof.
  induction q as [|q IH]; intros t rs; [reflexivity|].
  cbn [target_events target_scan Fine.run Fine.step].
  unfold Fine.main_step. cbn [Fine.mainpc Fine.set_mainpc].
  unfold Fine.target_turn.
  cbn [Fine.DB Fine.set_mainpc Fine.set_DB tindex set_tindex hostlist].
  unfold hostcount. cbn [hostlist set_tindex].
  set (t' := ((t + 1) `mod` length (hostlist (Fine.DB fw)))%nat).
  destruct (hostlist (Fine.DB fw) !! t') as [h|] eqn:Hh; [|reflexivity].
  destruct (can_receive h).
  - rewrite fine_run_app.
    pose proof (chunk_phase (Fine.set_DB (set_tindex t') fw) q
                  (chunks_needed h) 0 rs) as Hphase.
    cbn [Fine.DB Fine.set_DB hostlist tindex set_tindex] in Hphase.
    unfold needed_at in Hphase. cbn [hostlist set_tindex] in Hphase.
    rewrite Hh in Hphase. specialize (Hphase eq_refl).
    change (Fine.run _ (chunk_events ?hl ?n ?r))
      with (Fine.run (Fine.set_mainpc (Fine.NextChunk q 0)
                        (Fine.set_DB (set_tindex t') fw))
              (chunk_events hl n r)).
    rewrite Hphase.
    destruct (chunk_scan _ _ _) as [[[s c]|] rs'] eqn:Hcs; cbn [fst].
    + reflexivity.
    + apply IH.
  - apply IH.
Qed.

(** The statements of a turn of the main thread, taken in a row, make the
    turn of [step], and leave the main thread where the next turn begins. *)
Lemma turn_in_a_row fw acts rs :
  Fine.mainpc fw = Fine.LoopTest ∨
  (∃ tr, Fine.mainpc fw = Fine.Acquiring tr) ∨
  Fine.mainpc fw = Fine.Joining →
  ∃ fw', Fine.run fw (turn_events fw rs) = Some fw' ∧
         coarse_of fw' acts = initiateTransfers_step (coarse_of fw acts) rs ∧
         (at_rest fw → at_rest fw').
Proof.
  intros Hpc.
  destruct fw as [db opts ws sema cq pc mt]. cbn in Hpc.
  assert (Hjoin : coarse_of (Fine.join (Fine.mkWorld db opts ws sema cq pc mt)) acts
                  = join (coarse_of (Fine.mkWorld db opts ws sema cq pc mt) acts)).
  { unfold Fine.join, join. cbn. by destruct ws. }
  assert (Hjoined : at_rest (Fine.mkWorld db opts ws sema cq pc mt) →
                    at_rest (Fine.join (Fine.mkWorld db opts ws sema cq pc mt))).
  { intros [_ Hws]. unfold Fine.join. cbn. by destruct ws. }
  assert (Hstart : ∀ tr n db0 mt0,
            ∃ fw', Fine.run (Fine.mkWorld db0 opts ws (S n) cq (Fine.Acquiring tr) mt0)
                     (replicate 3 (Fine.EvMain [])) = Some fw' ∧
                   (∀ pc0, coarse_of fw' acts
                     = start_transfer tr
                         {| DB := db0; options := opts;
                            threadlist := Fine.job <$> ws; threadsema := S n;
                            commandq := cq; mainpc := pc0; matched := mt0;
                            actions := acts |}) ∧
                   (Forall (λ x, Fine.stage x = Fine.Copying) ws → at_rest fw')).
  { intros tr n db0 mt0. eexists. split; [reflexivity|]. split.
    - intros pc0. unfold coarse_of, start_transfer. cbn.
      by rewrite fmap_app.
    - intros Hws. split; [reflexivity|]. cbn.
      apply Forall_app. split; [done|]. by repeat constructor. }
  destruct Hpc as [->|[[tr ->]| ->]].
  - unfold turn_events. cbn [Fine.mainpc Fine.DB Fine.threadsema].
    unfold initiateTransfers_step. cbn [coarse_of mainpc coarse_pc DB Fine.mainpc Fine.DB].
    destruct (loop_cond db) eqn:Hcond.
    + cbn [Fine.run Fine.step]. unfold Fine.main_step at 1.
      cbn [Fine.mainpc Fine.DB]. rewrite Hcond.
      rewrite fine_run_app.
      destruct db as [hl hwf ti cc sc dh rh].
      pose proof (target_phase
                    (Fine.mkWorld (mkDatabase hl hwf ti cc sc dh rh) opts ws sema
                       cq Fine.LoopTest mt) (length hl) ti rs) as Hphase.
      cbn [Fine.DB hostlist] in Hphase.
      change (Fine.run _ (target_events ?a ?b ?c ?d))
        with (Fine.run
                (Fine.set_mainpc (Fine.Turn (length hl))
                   (Fine.set_DB (set_tindex ti)
                      (Fine.mkWorld (mkDatabase hl hwf ti cc sc dh rh) opts ws
                         sema cq Fine.LoopTest mt)))
                (target_events a b c d)).
      cbn [hostlist tindex]. unfold hostcount. cbn [hostlist].
      rewrite Hphase. unfold getTransfer, hostcount. cbn [hostlist tindex].
      destruct (target_scan hl ti rs (length hl)) as [[[[[s t] c]|] t'] rs']
        eqn:Hscan; cbn [fst snd].
      * destruct (target_scan_Some _ _ _ _ _ _ _ _ _ Hscan) as (-> & _).
        rewrite fine_run_app. cbn [Fine.run Fine.step app].
        unfold Fine.main_step. cbn.
        unfold start_events, acquire_and_start. cbn.
        destruct sema as [|n].
        -- eexists. split; [reflexivity|]. split; [reflexivity|].
           intros [_ Hws]. split; [reflexivity|exact Hws].
        -- destruct (Hstart (mkTransfer s c t)
                       n
                       (with_host t getSlot
                          (with_host s getSlot
                             (set_tindex t (mkDatabase hl hwf ti cc sc dh rh))))
                       (mt ++ [mkTransfer s c t])) as (fw' & Hrun & Heq & Hrest).
           exists fw'. split; [exact Hrun|]. split; [apply Heq|].
           intros [_ Hws]. by apply Hrest.
      * eexists. split; [reflexivity|]. split; [reflexivity|].
        intros [_ Hws]. split; [reflexivity|exact Hws].
    + cbn [Fine.run Fine.step]. unfold Fine.main_step.
      cbn [Fine.mainpc Fine.DB]. rewrite Hcond.
      eexists. split; [reflexivity|]. split; [apply Hjoin|].
      intros [_ Hws]. by apply Hjoined.
  - unfold turn_events, start_events. cbn [Fine.mainpc Fine.threadsema].
    unfold initiateTransfers_step, acquire_and_start.
    cbn [coarse_of mainpc coarse_pc threadsema Fine.mainpc Fine.threadsema].
    destruct sema as [|n].
    + eexists. split; [reflexivity|]. split; [reflexivity|]. done.
    + destruct (Hstart tr n db mt) as (fw' & Hrun & Heq & Hrest).
      exists fw'. split; [exact Hrun|]. split; [apply Heq|].
      intros [_ Hws]. by apply Hrest.
  - eexists. split; [reflexivity|]. split; [apply Hjoin|].
    intros [_ Hws]. by apply Hjoined.
Qed.

Lemma with_host_beyond i f db :
  hostlist db !! i = None → with_host i f db = db.
Proof.
  intros Hi. destruct db as [hl hwf ti cc sc dh rh].
  unfold with_host, set_hostlist. cbn in *.
  f_equal. apply list_eq. intros j. rewrite list_lookup_alter.
  destruct (decide (i = j)) as [<-|]; [|done]. by rewrite Hi.
Qed.

Lemma lookup_stage (ws : list Fine.Worker) (k : nat) x s :
  ws !! k = Some x →
  alter (λ x, Fine.mkWorker (Fine.job x) s) k ws !! k
  = Some (Fine.mkWorker (Fine.job x) s).
Proof.
  intros Hk. rewrite list_lookup_alter. rewrite decide_True by done.
  by rewrite Hk.
Qed.

Lemma job_stage (ws : list Fine.Worker) (k : nat) s :
  Fine.job <$> alter (λ x, Fine.mkWorker (Fine.job x) s) k ws = Fine.job <$> ws.
Proof.
  apply list_eq. intros j. rewrite !list_lookup_fmap, list_lookup_alter.
  destruct (decide (k = j)) as [<-|]; [|done]. by destruct (ws !! k).
Qed.

Lemma delete_stage (ws : list Fine.Worker) (k : nat) s :
  delete k (alter (λ x, Fine.mkWorker (Fine.job x) s) k ws) = delete k ws.
Proof.
  revert k. induction ws as [|x ws IH]; intros [|k]; cbn; try done.
  by rewrite IH.
Qed.

Ltac fine_norm :=
  unfold Fine.set_stage, Fine.set_DB, Fine.set_commandq;
  cbn [Fine.DB Fine.options Fine.threadlist Fine.threadsema Fine.commandq
         Fine.mainpc Fine.matched].

(** The statements of a worker from the return of its copy to its end,
    taken in a row, make [Transfer.run] of [step], and leave the others
    where they were. *)
Lemma worker_in_a_row fw acts k tr o :
  Fine.threadlist fw !! k = Some (Fine.mkWorker tr Fine.Copying) →
  ∃ fw' acts', Fine.run fw (worker_events k o) = Some fw' ∧
               coarse_of fw' acts' = Transfer_run k tr o (coarse_of fw acts) ∧
               (at_rest fw → at_rest fw').
Proof.
  intros Hk. destruct fw as [db opts ws sema cq pc mt]. cbn in Hk.
  assert (Hend : ∀ db0 cq0 ws0 x,
            ws0 !! k = Some x → Fine.stage x = Fine.Leaving → Fine.job x = tr →
            Fine.job <$> ws0 = Fine.job <$> ws →
            ∃ fw', Fine.run (Fine.mkWorld db0 opts ws0 sema cq0 pc mt)
                     (replicate 3 (Fine.EvWorker k)) = Some fw' ∧
                   (∀ acts', coarse_of fw' acts'
                     = transfer_epilogue k tr
                         {| DB := db0; options := opts;
                            threadlist := Fine.job <$> ws; threadsema := sema;
                            commandq := cq0; mainpc := coarse_pc pc;
                            matched := mt; actions := acts' |}) ∧
                   Fine.mainpc fw' = pc ∧
                   Fine.threadlist fw' = delete k ws0).
  { intros db0 cq0 ws0 x Hx Hst Hjob Hws.
    eexists. split; [|split; [|split]].
    - cbn [replicate Fine.run Fine.step Fine.threadlist]. rewrite Hx.
      unfold Fine.worker_step at 1. rewrite Hst.
      cbn [Fine.run Fine.step Fine.threadlist Fine.set_stage Fine.set_DB].
      rewrite (lookup_stage _ _ _ _ Hx).
      unfold Fine.worker_step at 1. cbn [Fine.stage Fine.job].
      cbn [Fine.run Fine.step Fine.threadlist Fine.set_stage Fine.set_DB].
      rewrite (lookup_stage _ _ _ Fine.FreedSeed (lookup_stage _ _ _ _ Hx)).
      unfold Fine.worker_step at 1. cbn [Fine.stage Fine.job]. reflexivity.
    - intros acts'. unfold coarse_of, transfer_epilogue, Fine.leave. cbn.
      rewrite Hjob. rewrite !delete_stage, list_fmap_delete, Hws. done.
    - reflexivity.
    - unfold Fine.leave. cbn. by rewrite !delete_stage. }
  assert (Hrest : ∀ fw' ws0,
            Fine.mainpc fw' = pc → Fine.threadlist fw' = delete k ws0 →
            delete k ws0 = delete k ws →
            at_rest (Fine.mkWorld db opts ws sema cq pc mt) → at_rest fw').
  { intros fw' ws0 Hpc' Hws' Hdel [Hp Hall]. cbn in Hp, Hall.
    split; [by rewrite Hpc'|]. rewrite Hws', Hdel. by apply Forall_delete. }
  assert (Hst : ∀ s, alter (λ x, Fine.mkWorker (Fine.job x) s) k ws !! k
                     = Some (Fine.mkWorker tr s)).
  { intros s. by rewrite (lookup_stage _ _ _ s Hk). }
  assert (Hst2 : ∀ s s',
            alter (λ x, Fine.mkWorker (Fine.job x) s') k
              (alter (λ x, Fine.mkWorker (Fine.job x) s) k ws) !! k
            = Some (Fine.mkWorker tr s')).
  { intros s s'. by rewrite (lookup_stage _ _ _ s' (Hst s)). }
  assert (Hst3 : ∀ s s' s'',
            alter (λ x, Fine.mkWorker (Fine.job x) s'') k
              (alter (λ x, Fine.mkWorker (Fine.job x) s') k
                 (alter (λ x, Fine.mkWorker (Fine.job x) s) k ws)) !! k
            = Some (Fine.mkWorker tr s'')).
  { intros s s' s''. by rewrite (lookup_stage _ _ _ s'' (Hst2 s s')). }
  destruct o as [ret tu su|].
  - unfold worker_events. destruct (decide (ret = 0)) as [->|Hret].
    + (* the copy succeeded *)
      change (replicate 4 ?e) with (e :: replicate 3 e).
      cbn [Fine.run Fine.step Fine.threadlist]. rewrite Hk.
      cbn [Fine.stage Fine.job]. unfold Fine.copy_exits.
      rewrite decide_True by done. fine_norm.
      cbn [Fine.run Fine.step Fine.threadlist]. rewrite Hst.
      unfold Fine.worker_step at 1. cbn [Fine.stage Fine.job].
      unfold Fine.test_complete. fine_norm.
      unfold Transfer_run. rewrite decide_True by done.
      unfold transfer_succeeded, coarse_of, log_action, set_DB, set_commandq.
      fine_norm. cbn [DB options commandq threadlist threadsema mainpc matched actions].
      set (db1 := with_host (targetindex tr)
                    (set_chunks_owned (λ l, l ++ [chunk tr])) db).
      destruct (hostlist db1 !! targetindex tr) as [target|] eqn:Htarget.
      * destruct (split_complete db1 && _).
        -- edestruct (Hend (hostDone db1) (put (catCmd opts target) cq))
             as (fw' & Hrun & Heq & Hpc' & Hws'); [apply Hst2|done|done| |].
           { by rewrite !job_stage. }
           exists fw', (acts ++ [Copy (seedindex tr) (targetindex tr) (chunk tr)]).
           split; [exact Hrun|]. split; [apply Heq|].
           apply (Hrest _ _ Hpc' Hws'). by rewrite !delete_stage.
        -- edestruct (Hend db1 cq) as (fw' & Hrun & Heq & Hpc' & Hws');
             [apply Hst2|done|done| |].
           { by rewrite !job_stage. }
           exists fw', (acts ++ [Copy (seedindex tr) (targetindex tr) (chunk tr)]).
           split; [exact Hrun|]. split; [apply Heq|].
           apply (Hrest _ _ Hpc' Hws'). by rewrite !delete_stage.
      * assert (Hdb : db1 = db).
        { apply with_host_beyond. unfold db1 in Htarget.
          rewrite lookup_with_host in Htarget.
          rewrite decide_True in Htarget by done.
          by destruct (hostlist db !! targetindex tr). }
        edestruct (Hend db1 cq) as (fw' & Hrun & Heq & Hpc' & Hws');
          [apply Hst2|done|done| |].
        { by rewrite !job_stage. }
        exists fw', (acts ++ [Copy (seedindex tr) (targetindex tr) (chunk tr)]).
        split; [exact Hrun|]. split; [etrans; [apply Heq|]; by rewrite Hdb|].
        apply (Hrest _ _ Hpc' Hws'). by rewrite !delete_stage.
    + (* the copy failed *)
      destruct tu, su;
        (cbn [app Fine.run Fine.step Fine.threadlist]; rewrite Hk;
         cbn [Fine.stage Fine.job]; unfold Fine.copy_exits;
         rewrite decide_False by done; fine_norm;
         rewrite Hst; unfold Fine.probe_answers at 1;
         cbn [Fine.stage Fine.job]; unfold Fine.probed; fine_norm;
         rewrite Hst2; unfold Fine.probe_answers at 1;
         cbn [Fine.stage Fine.job]; unfold Fine.probed; fine_norm;
         unfold Transfer_run; rewrite decide_False by done;
         unfold transfer_failed, probe, coarse_of, log_action, set_DB;
         fine_norm;
         cbn [DB options commandq threadlist threadsema mainpc matched actions];
         edestruct Hend with (cq0 := cq) as (fw' & Hrun & Heq & Hpc' & Hws');
           [apply Hst3|done|done|by rewrite !job_stage|];
         exists fw'; eexists; split; [exact Hrun|];
         split; [etrans; [apply Heq|]; rewrite <- ?app_assoc; done|];
         apply (Hrest _ _ Hpc' Hws'); by rewrite !delete_stage).
  - (* the copy raised *)
    unfold worker_events.
    cbn [Fine.run Fine.step Fine.threadlist]. rewrite Hk.
    cbn [Fine.stage Fine.job]. unfold Fine.copy_raises.
    cbn [Fine.run Fine.step Fine.threadlist Fine.set_stage Fine.set_DB Fine.DB].
    edestruct (Hend (with_host (targetindex tr) (requeue (chunk tr)) db) cq)
      as (fw' & Hrun & Heq & Hpc' & Hws'); [apply Hst|done|done| |].
    { by rewrite !job_stage. }
    exists fw', (acts ++ [Copy (seedindex tr) (targetindex tr) (chunk tr)]).
    split; [exact Hrun|]. split; [apply Heq|].
           apply (Hrest _ _ Hpc' Hws'). by rewrite !delete_stage.
Qed.

Lemma run_rows fw e evs :
  Fine.run fw (rows fw (e :: evs))
  = match Fine.run fw (row fw e) with
    | Some fw' => Fine.run fw' (rows fw' evs)
    | None => None
    end.
Proof.
  cbn [rows]. rewrite fine_run_app. by destruct (Fine.run fw (row fw e)).
Qed.

Lemma coarse_of_main_init rootname targetlist n opts :
  coarse_of (Fine.main_init rootname targetlist n opts) []
  = main_init rootname targetlist n opts.
Proof. reflexivity. Qed.

(** The splitter is the same thread in both systems. *)
Lemma splits_simulated (l : list (string * list nat)) : ∀ fw fw' acts,
  Fine.run fw ((λ p, Fine.EvSplit p.1 p.2) <$> l) = Some fw' →
  run (coarse_of fw acts) ((λ p, EvSplit p.1 p.2) <$> l)
    = Some (coarse_of fw' acts) ∧
  (at_rest fw → at_rest fw').
Proof.
  induction l as [|[c rs] l IH]; intros fw fw' acts Hrun.
  - injection Hrun as <-. done.
  - cbn [fmap list_fmap Fine.run Fine.step run step fst snd] in *.
    change (DB (coarse_of fw acts)) with (Fine.DB fw).
    destruct (split_complete (Fine.DB fw)); [done|].
    destruct (Py.contains _ _); [done|].
    destruct (IH _ _ acts Hrun) as [Hc Hr]. split; [exact Hc|].
    intros Hrest. apply Hr. exact Hrest.
Qed.

(** A run of [Fine.step] in which the statements of each turn come in a
    row is a run of [step]. *)
Lemma rows_simulated evs : ∀ fw acts fw',
  at_rest fw → Fine.run fw (rows fw evs) = Some fw' →
  ∃ cevs acts', run (coarse_of fw acts) cevs = Some (coarse_of fw' acts') ∧
                at_rest fw'.
Proof.
  induction evs as [|e evs IH]; intros fw acts fw' Hrest Hrun.
  - injection Hrun as <-. by exists [], acts.
  - rewrite run_rows in Hrun.
    destruct e as [c rs| |rs|k o| |k]; cbn [row] in Hrun.
    + destruct (Fine.run fw [Fine.EvSplit c rs]) as [fw1|] eqn:Hstep; [|done].
      destruct (splits_simulated [(c, rs)] fw fw1 acts Hstep) as [Hc Hr].
      destruct (IH fw1 acts fw' (Hr Hrest) Hrun) as (cevs & acts' & Hrun' & Hr').
      exists (EvSplit c rs :: cevs), acts'. split; [|done].
      cbn [fmap list_fmap run fst snd] in Hc. cbn [run].
      destruct (step (coarse_of fw acts) (EvSplit c rs)); [|done].
      by injection Hc as ->.
    + cbn [Fine.run Fine.step] in Hrun.
      destruct (IH (Fine.set_DB (set_split_complete true) fw) acts fw' Hrest Hrun)
        as (cevs & acts' & Hrun' & Hr').
      exists (EvSplitDone :: cevs), acts'. done.
    + destruct Hrest as [Hp Hall].
      assert (Hturn : ∀ fw1, Fine.run fw (turn_events fw rs) = Some fw1 →
                coarse_of fw1 acts = main_step (coarse_of fw acts) rs →
                at_rest fw1 →
                ∃ cevs acts', run (coarse_of fw acts) cevs
                                = Some (coarse_of fw' acts') ∧ at_rest fw').
      { intros fw1 Hrun1 Heq Hr. rewrite Hrun1 in Hrun.
        destruct (IH fw1 acts fw' Hr Hrun) as (cevs & acts' & Hrun' & Hr').
        exists (EvMain rs :: cevs), acts'. split; [|done].
        cbn [run step]. by rewrite <- Heq. }
      destruct (Fine.mainpc fw) eqn:Hpc; try done.
      * destruct (turn_in_a_row fw acts rs) as (fw1 & Hrun1 & Heq & Hr);
          [by left|].
        apply (Hturn fw1 Hrun1); [|apply Hr; split; [by rewrite Hpc|done]].
        rewrite Heq. unfold main_step. cbn. by rewrite Hpc.
      * destruct (turn_in_a_row fw acts rs) as (fw1 & Hrun1 & Heq & Hr);
          [right; left; by eexists|].
        apply (Hturn fw1 Hrun1); [|apply Hr; split; [by rewrite Hpc|done]].
        rewrite Heq. unfold main_step. cbn. by rewrite Hpc.
      * destruct (turn_in_a_row fw acts rs) as (fw1 & Hrun1 & Heq & Hr);
          [by right; right|].
        apply (Hturn fw1 Hrun1); [|apply Hr; split; [by rewrite Hpc|done]].
        rewrite Heq. unfold main_step. cbn. by rewrite Hpc.
      * unfold turn_events in Hrun. rewrite Hpc in Hrun. cbn [Fine.run] in Hrun.
        apply (IH fw acts fw'); [|done]. split; [by rewrite Hpc|done].
    + destruct (Fine.threadlist fw !! k) as [[tr st]|] eqn:Hk.
      * destruct Hrest as [Hp Hall].
        pose proof (proj1 (Forall_lookup _ _) Hall k _ Hk) as Hst.
        cbn in Hst. subst st.
        destruct (worker_in_a_row fw acts k tr o Hk)
          as (fw1 & acts1 & Hrun1 & Heq & Hr).
        rewrite Hrun1 in Hrun.
        destruct (IH fw1 acts1 fw' (Hr (conj Hp Hall)) Hrun)
          as (cevs & acts' & Hrun' & Hr').
        exists (EvTransfer k o :: cevs), acts'. split; [|done].
        cbn [run step coarse_of threadlist].
        rewrite list_lookup_fmap, Hk. cbn [fmap option_fmap option_map Fine.job].
        change (Transfer_run k tr o _ ) with (Transfer_run k tr o (coarse_of fw acts)).
        by rewrite <- Heq.
      * exfalso. destruct o as [ret tu su|]; unfold worker_events in Hrun;
          [destruct (decide (ret = 0))|]; cbn in Hrun; by rewrite Hk in Hrun.
    + cbn [Fine.run] in Hrun. by apply (IH fw acts fw').
    + cbn [Fine.run] in Hrun. by apply (IH fw acts fw').
Qed.

End in_a_row.

(** ** C8: the rotation when the statements of each turn come in a row *)

Lemma run_app_Some evs1 : ∀ w evs2 w1 w2,
  run w evs1 = Some w1 → run w1 evs2 = Some w2 →
  run w (evs1 ++ evs2) = Some w2.
Proof.
  induction evs1 as [|e evs1 IH]; intros w evs2 w1 w2; simpl.
  - by intros [= <-].
  - destruct (step w e) as [w'|]; [apply IH|done].
Qed.

(** C8, amended: one root and three targets with one slot each, six chunks
    split off before anything is matched.  In the state after the six
    chunks the root owns six chunks and every target is alive, has its
    slot and needs every chunk of the root.  From there the threads run on
    statement by statement ([Fine.step]) under the scheduling assumption
    that the statements of each turn come in a row ([rows]): no step of
    another thread falls inside a turn of the loop of [initiateTransfers]
    with its call of [getTransfer], nor inside the run of a worker from
    the return of its copy to the release of its thread permit.  Then the
    first three triples that [getTransfer] returns have the targets 1, 2
    and 3, in this order: three different hosts. *)
Theorem first_three_matches_in_rows (rootname n1 n2 n3 : string)
    (opts : Options) (c1 c2 c3 c4 c5 c6 : string)
    (rs1 rs2 rs3 rs4 rs5 rs6 : list nat) (evs : list Event)
    (fw0 fw : Fine.World) (a b c : Transfer) (rest : list Transfer)
    (Hsplit : Fine.run (Fine.main_init rootname [n1; n2; n3] 1 opts)
                [Fine.EvSplit c1 rs1; Fine.EvSplit c2 rs2; Fine.EvSplit c3 rs3;
                 Fine.EvSplit c4 rs4; Fine.EvSplit c5 rs5; Fine.EvSplit c6 rs6]
              = Some fw0)
    (Hrun : Fine.run fw0 (rows fw0 evs) = Some fw)
    (Hmatched : Fine.matched fw = a :: b :: c :: rest) :
  (Fine.matched fw0 = [] ∧ Fine.threadlist fw0 = [] ∧
   Fine.mainpc fw0 = Fine.LoopTest ∧
   hostcount (Fine.DB fw0) = 4%nat ∧
   length (owned_at (Fine.DB fw0) 0) = 6%nat ∧
   ∀ j, (1 ≤ j ≤ 3)%nat →
     alive_at (Fine.DB fw0) j = true ∧ slots_at (Fine.DB fw0) j = 1 ∧
     needed_at (Fine.DB fw0) j ≠ [] ∧
     ∀ ch, ch ∈ owned_at (Fine.DB fw0) 0 → ch ∈ needed_at (Fine.DB fw0) j) ∧
  targetindex a = 1%nat ∧ targetindex b = 2%nat ∧ targetindex c = 3%nat ∧
  targetindex a ≠ targetindex b ∧ targetindex a ≠ targetindex c ∧
  targetindex b ≠ targetindex c.
Proof.
  destruct (splits_simulated
              [(c1, rs1); (c2, rs2); (c3, rs3); (c4, rs4); (c5, rs5); (c6, rs6)]
              _ _ [] Hsplit) as [Hc Hr].
  rewrite coarse_of_main_init in Hc. cbn [fmap list_fmap fst snd] in Hc.
  assert (Hrest0 : at_rest (Fine.main_init rootname [n1; n2; n3] 1 opts))
    by (split; [reflexivity|constructor]).
  destruct (rows_simulated evs fw0 [] fw (Hr Hrest0) Hrun)
    as (cevs & acts' & Hrun' & _).
  pose proof (run_app_Some _ _ _ _ _ Hc Hrun') as Hall.
  assert (Hk : ∀ k tr, Fine.matched fw !! k = Some tr → (k < 3)%nat →
                 targetindex tr = S k).
  { intros k tr Hk Hlt.
    by eapply (matches_follow_rotation 1 ltac:(lia) rootname [n1; n2; n3]). }
  assert (Ha : targetindex a = 1%nat) by (apply (Hk 0%nat); [by rewrite Hmatched|lia]).
  assert (Hb : targetindex b = 2%nat) by (apply (Hk 1%nat); [by rewrite Hmatched|lia]).
  assert (Hcc : targetindex c = 3%nat) by (apply (Hk 2%nat); [by rewrite Hmatched|lia]).
  split; [|split_and!; lia].
  pose proof (run_rr_inv 1 ltac:(lia) _ _ _
                (main_init_rr_inv 1 rootname [n1; n2; n3] opts) Hc)
    as (I1 & I2 & I3 & I4 & I5 & I6 & I7 & I8 & I9).
  assert (Hfields : matched (coarse_of fw0 []) = [] ∧
                    chunkCount (DB (coarse_of fw0 [])) = 6%nat ∧
                    hostcount (DB (coarse_of fw0 [])) = 4%nat).
  { apply run_splits in Hc; [done|]. by repeat constructor. }
  destruct Hfields as (Hm0 & Hcount & Hhc).
  cbn [coarse_of matched DB] in *.
  assert (Hpcs : Fine.threadlist fw0 = [] ∧ Fine.mainpc fw0 = Fine.LoopTest).
  { clear -Hsplit. cbn [Fine.run Fine.step] in Hsplit.
    repeat match type of Hsplit with
           | context [if ?b then None else _] => destruct b; [done|]
           end.
    by injection Hsplit as <-. }
  destruct Hpcs as [Hws0 Hpc0].
  split_and!; try done.
  - by rewrite <- I5.
  - intros j Hj.
    assert (Hun : unmatched (coarse_of fw0 []) j)
      by (unfold unmatched; cbn [coarse_of matched DB]; rewrite Hm0, Hhc; cbn; lia).
    destruct (I9 j Hun) as (Hsl & Hal & _ & _ & Hin).
    cbn [coarse_of matched DB] in *.
    split_and!; try done.
    + intros Hnil.
      destruct (owned_at (Fine.DB fw0) 0) as [|ch l] eqn:Hown;
        [cbn in I5; lia|].
      assert (ch ∈ needed_at (Fine.DB fw0) j) as Hch
        by (apply (Hin 0%nat); rewrite Hown; left).
      rewrite Hnil in Hch. by apply elem_of_nil in Hch.
    + intros ch Hch. by apply (Hin 0%nat).
Qed.

(** C8 at work: six chunks, then a match, a call that finds nothing while
    the root's only slot is taken, the completion of the first copy, and
    two more matches, each turn statement by statement without a step of
    another thread in between. *)
Lemma first_three_matches_in_rows_witness :
  ∃ fw0 fw a b c,
    Fine.run Examples_fine.four_hosts Examples_fine.six_chunks = Some fw0 ∧
    Fine.run fw0 (rows fw0 Examples_rotation.three_matches) = Some fw ∧
    Fine.matched fw = [a; b; c] ∧
    targetindex a = 1%nat ∧ targetindex b = 2%nat ∧ targetindex c = 3%nat.
Proof.
  eexists _, _, _, _, _.
  split; [vm_compute; reflexivity|]. split; [vm_compute; reflexivity|].
  split; [reflexivity|].
  destruct (first_three_matches_in_rows "root" "node1" "node2" "node3"
              Examples.opts
              "/tmp/f.chunk_aa" "/tmp/f.chunk_ab" "/tmp/f.chunk_ac"
              "/tmp/f.chunk_ad" "/tmp/f.chunk_ae" "/tmp/f.chunk_af"
              [] [] [] [] [] [] Examples_rotation.three_matches _ _ _ _ _ []
              ltac:(vm_compute; reflexivity) ltac:(vm_compute; reflexivity)
              ltac:(reflexivity))
    as (_ & Ha & Hb & Hc & _).
  split; [exact Ha|]. split; [exact Hb|exact Hc].
Defined.

